(** * BreakingtheSorting: the block workspace and the BMSSP solver

    A shallow embedding of [include/block_data_structure.hpp],
    [include/graph_types.hpp], [include/new_sssp.hpp] and the reference
    solver of [include/dijkstra_lemon.hpp], and the properties of the
    specification checked against it.

    Conventions of the embedding:
    - a C++ [double] that carries a distance is a [dist]: an integer or
      [Inf].  The sum of two doubles is the exact sum rounded to 53
      significant bits, ties to even, and [+inf] from [2^1024] on; NaN and
      [-inf] never arise from non-negative weights and are not modelled;
    - a C++ [int] is a [Z]; where the source can leave the range of [int]
      or index a vector out of range the model returns [Undefined];
    - a loop without a structural bound runs on fuel and returns
      [OutOfFuel] when it is exhausted;
    - [std::set<int>] is a strictly increasing list, [std::map<int,_>] a
      list of pairs with strictly increasing keys: both are iterated in
      key order by the source;
    - [std::sort] is the stable insertion sort (the order of elements of
      equal value is unspecified in C++). *)

From Stdlib Require Import ZArith List Bool Lia Permutation Sorted Relations.
Import ListNotations.
Open Scope Z_scope.

(** ** Results of partial computations *)

Inductive result (A : Type) : Type :=
| Ok (a : A)
| Undefined
| OutOfFuel.
Arguments Ok {A} a.
Arguments Undefined {A}.
Arguments OutOfFuel {A}.

Definition bind {A B : Type} (c : result A) (k : A -> result B) : result B :=
  match c with
  | Ok a => k a
  | Undefined => Undefined
  | OutOfFuel => OutOfFuel
  end.

Notation "x <- c ;; k" := (bind c (fun x => k))
  (at level 61, c at next level, right associativity).
Notation "' p <- c ;; k" := (bind c (fun x => let p := x in k))
  (at level 61, p pattern, c at next level, right associativity).

Fixpoint foldM {A S : Type} (f : S -> A -> result S) (l : list A) (s : S)
  : result S :=
  match l with
  | [] => Ok s
  | a :: l' => s' <- f s a ;; foldM f l' s'
  end.

(** ** Distances *)

Inductive dist : Type :=
| Fin (z : Z)
| Inf.

Definition dist_eqb (a b : dist) : bool :=
  match a, b with
  | Fin x, Fin y => x =? y
  | Inf, Inf => true
  | _, _ => false
  end.

Definition dlt (a b : dist) : bool :=
  match a, b with
  | Fin x, Fin y => x <? y
  | Fin _, Inf => true
  | Inf, _ => false
  end.

Definition dle (a b : dist) : bool :=
  match a, b with
  | Fin x, Fin y => x <=? y
  | _, Inf => true
  | Inf, Fin _ => false
  end.

(** The double nearest to a non-negative integer [a], ties to the even
    significand: a number of more than 53 bits keeps its leading 53. *)
Definition round_pos (a : Z) : Z :=
  let e := Z.log2 a - 52 in
  if e <=? 0 then a
  else
    let q := a / 2 ^ e in
    let r := a mod 2 ^ e in
    let h := 2 ^ (e - 1) in
    (if r <? h then q
     else if h <? r then q + 1
     else if Z.even q then q else q + 1) * 2 ^ e.

Definition round_double (z : Z) : Z :=
  if z <? 0 then - round_pos (- z) else round_pos z.

(** [a + b] on doubles: the exact sum, rounded; a sum that rounds to
    [2^1024] overflows to [+inf]. *)
Definition dadd (a b : dist) : dist :=
  match a, b with
  | Fin x, Fin y =>
      let r := round_double (x + y) in
      if 1024 <=? Z.log2 r then Inf else Fin r
  | _, _ => Inf
  end.

Definition dmin (a b : dist) : dist := if dlt b a then b else a.
Definition dmax (a b : dist) : dist := if dlt a b then b else a.

Definition INF : dist := Inf.

(** ** Vectors indexed by [int] *)

Definition in_range {A : Type} (l : list A) (i : Z) : bool :=
  (0 <=? i) && (i <? Z.of_nat (length l)).

Definition vget {A : Type} (l : list A) (i : Z) : result A :=
  if in_range l i
  then match nth_error l (Z.to_nat i) with
       | Some a => Ok a
       | None => Undefined
       end
  else Undefined.

Fixpoint upd {A : Type} (l : list A) (i : nat) (a : A) : list A :=
  match l, i with
  | [], _ => []
  | _ :: l', O => a :: l'
  | x :: l', S i' => x :: upd l' i' a
  end.

Definition vset {A : Type} (l : list A) (i : Z) (a : A) : result (list A) :=
  if in_range l i then Ok (upd l (Z.to_nat i) a) else Undefined.

(** ** [std::set<int>] *)

Definition IntSet := list Z.

Fixpoint set_insert (x : Z) (s : IntSet) : IntSet :=
  match s with
  | [] => [x]
  | y :: s' =>
      if x <? y then x :: s
      else if x =? y then s
      else y :: set_insert x s'
  end.

Fixpoint set_count (x : Z) (s : IntSet) : bool :=
  match s with
  | [] => false
  | y :: s' => (x =? y) || set_count x s'
  end.

Definition set_of_list (l : list Z) : IntSet :=
  fold_left (fun s x => set_insert x s) l [].

Definition set_union (a b : IntSet) : IntSet :=
  fold_left (fun s x => set_insert x s) b a.

Definition set_size (s : IntSet) : Z := Z.of_nat (length s).

(** ** [std::map<int,_>] *)

Definition IntMap (A : Type) := list (Z * A).

Fixpoint map_find {A : Type} (k : Z) (m : IntMap A) : option A :=
  match m with
  | [] => None
  | (k', a) :: m' => if k =? k' then Some a else map_find k m'
  end.

Fixpoint map_set {A : Type} (k : Z) (a : A) (m : IntMap A) : IntMap A :=
  match m with
  | [] => [(k, a)]
  | (k', a') :: m' =>
      if k <? k' then (k, a) :: m
      else if k =? k' then (k, a) :: m'
      else (k', a') :: map_set k a m'
  end.

Fixpoint map_erase {A : Type} (k : Z) (m : IntMap A) : IntMap A :=
  match m with
  | [] => []
  | (k', a) :: m' => if k =? k' then m' else (k', a) :: map_erase k m'
  end.

(** ** Key-value pairs and sorting by value *)

Definition KeyValue := (Z * dist)%type.

Fixpoint insert_by_value (x : KeyValue) (l : list KeyValue) : list KeyValue :=
  match l with
  | [] => [x]
  | y :: l' =>
      if dlt (snd y) (snd x) then y :: insert_by_value x l' else x :: l
  end.

Fixpoint sort_by_value (l : list KeyValue) : list KeyValue :=
  match l with
  | [] => []
  | x :: l' => insert_by_value x (sort_by_value l')
  end.

(** ** [std::set<double>] (the upper bounds of the D1 blocks) *)

Fixpoint dset_insert (x : dist) (s : list dist) : list dist :=
  match s with
  | [] => [x]
  | y :: s' =>
      if dlt x y then x :: s
      else if dist_eqb x y then s
      else y :: dset_insert x s'
  end.

Fixpoint dset_erase (x : dist) (s : list dist) : list dist :=
  match s with
  | [] => []
  | y :: s' => if dist_eqb x y then s' else y :: dset_erase x s'
  end.

(** * The block workspace ([block_data_structure.hpp]) *)

Module BlockDataStructure.

Record Block : Type := mkBlock {
  elements : list KeyValue;
  upper_bound : dist
}.

Record t : Type := mk {
  M : Z;                         (* block size parameter *)
  B : dist;                      (* upper bound on values *)
  N : Z;                         (* maximum expected insertions *)
  D0 : list Block;               (* blocks from batch prepends *)
  D1 : list Block;               (* blocks from regular inserts *)
  key_values : IntMap dist;      (* present keys and their values *)
  d1_upper_bounds : list dist
}.

(** The default constructor. *)
Definition ctor : t :=
  {| M := 1; B := INF; N := 0; D0 := []; D1 := [];
     key_values := []; d1_upper_bounds := [] |}.

Definition initialize (ds : t) (m : Z) (b : dist) (max_n : Z) : t :=
  {| M := Z.max 1 m;
     B := b;
     N := if 0 <? max_n then max_n else m * 10;
     D0 := [];
     D1 := [mkBlock [] b];
     key_values := [];
     d1_upper_bounds := dset_insert b [] |}.

Definition block_empty (b : Block) : bool :=
  match elements b with [] => true | _ => false end.

Definition empty (ds : t) : bool :=
  forallb block_empty (D0 ds) && forallb block_empty (D1 ds).

Definition size (ds : t) : Z := Z.of_nat (length (key_values ds)).

Definition getValue (ds : t) (key : Z) : dist :=
  match map_find key (key_values ds) with
  | Some v => v
  | None => INF
  end.

(** [removeKey]: erase the key from the index, then erase its first
    occurrence in D0, or else in D1. *)

Fixpoint erase_first (key : Z) (l : list KeyValue) : option (list KeyValue) :=
  match l with
  | [] => None
  | kv :: l' =>
      if fst kv =? key then Some l'
      else match erase_first key l' with
           | Some r => Some (kv :: r)
           | None => None
           end
  end.

Fixpoint erase_in_blocks (key : Z) (bs : list Block) : option (list Block) :=
  match bs with
  | [] => None
  | b :: bs' =>
      match erase_first key (elements b) with
      | Some els => Some (mkBlock els (upper_bound b) :: bs')
      | None =>
          match erase_in_blocks key bs' with
          | Some r => Some (b :: r)
          | None => None
          end
      end
  end.

Definition removeKey (ds : t) (key : Z) : t :=
  match map_find key (key_values ds) with
  | None => ds
  | Some _ =>
      let kv := map_erase key (key_values ds) in
      match erase_in_blocks key (D0 ds) with
      | Some d0 =>
          mk (M ds) (B ds) (N ds) d0 (D1 ds) kv (d1_upper_bounds ds)
      | None =>
          match erase_in_blocks key (D1 ds) with
          | Some d1 =>
              mk (M ds) (B ds) (N ds) (D0 ds) d1 kv (d1_upper_bounds ds)
          | None =>
              mk (M ds) (B ds) (N ds) (D0 ds) (D1 ds) kv (d1_upper_bounds ds)
          end
      end
  end.

(** [findBlockForValue]: the position of the first D1 block whose upper
    bound is at least [value], or of the last block.  On an empty D1 the
    source dereferences [std::prev(D1.end())]. *)

Fixpoint find_first_block (value : dist) (bs : list Block) : option nat :=
  match bs with
  | [] => None
  | b :: bs' =>
      if dle value (upper_bound b) then Some O
      else match find_first_block value bs' with
           | Some i => Some (S i)
           | None => None
           end
  end.

Definition findBlockForValue (ds : t) (value : dist) : result nat :=
  match find_first_block value (D1 ds) with
  | Some i => Ok i
  | None =>
      match D1 ds with
      | [] => Undefined
      | _ => Ok (pred (length (D1 ds)))
      end
  end.

Definition last_value (l : list KeyValue) (d : dist) : dist :=
  match rev l with
  | [] => d
  | kv :: _ => snd kv
  end.

Definition splitBlock (ds : t) (i : nat) : result t :=
  match nth_error (D1 ds) i with
  | None => Undefined
  | Some block =>
      if Z.of_nat (length (elements block)) <=? M ds then Ok ds
      else
        let elems := sort_by_value (elements block) in
        let mid := Nat.div (length elems) 2 in
        match mid with
        | O => Undefined             (* elems[mid - 1] *)
        | S mid1 =>
            match nth_error elems mid1 with
            | None => Undefined
            | Some kv =>
                let block1 := mkBlock (firstn mid elems) (snd kv) in
                let block2 := mkBlock (skipn mid elems) (upper_bound block) in
                let ubs :=
                  dset_insert (upper_bound block2)
                    (dset_insert (upper_bound block1)
                       (dset_erase (upper_bound block) (d1_upper_bounds ds))) in
                Ok (mk (M ds) (B ds) (N ds) (D0 ds)
                      (firstn i (D1 ds) ++ block1 :: block2 :: skipn (S i) (D1 ds))
                      (key_values ds) ubs)
            end
        end
  end.

Definition push_back_at (i : nat) (kv : KeyValue) (bs : list Block)
  : list Block :=
  match nth_error bs i with
  | None => bs
  | Some b => upd bs i (mkBlock (elements b ++ [kv]) (upper_bound b))
  end.

(** The part of [insert] after the test on the key index. *)
Definition insert_fresh (ds : t) (key : Z) (value : dist) : result t :=
  let ds1 := mk (M ds) (B ds) (N ds) (D0 ds) (D1 ds)
                (map_set key value (key_values ds)) (d1_upper_bounds ds) in
  i <- findBlockForValue ds1 value ;;
  let ds2 := mk (M ds) (B ds) (N ds) (D0 ds)
                (push_back_at i (key, value) (D1 ds))
                (key_values ds1) (d1_upper_bounds ds) in
  match nth_error (D1 ds2) i with
  | None => Undefined
  | Some b =>
      if M ds <? Z.of_nat (length (elements b)) then splitBlock ds2 i
      else Ok ds2
  end.

Definition insert (ds : t) (key : Z) (value : dist) : result t :=
  match map_find key (key_values ds) with
  | Some old =>
      if dlt value old then insert_fresh (removeKey ds key) key value
      else Ok ds                     (* keep existing smaller value *)
  | None => insert_fresh ds key value
  end.

(** [batchPrepend] *)

Definition unique_items (items : list KeyValue) : IntMap dist :=
  fold_left
    (fun (u : IntMap dist) (kv : KeyValue) =>
       match map_find (fst kv) u with
       | None => map_set (fst kv) (snd kv) u
       | Some old =>
           if dlt (snd kv) old then map_set (fst kv) (snd kv) u else u
       end)
    items [].

Definition set_key (ds : t) (key : Z) (value : dist) : t :=
  mk (M ds) (B ds) (N ds) (D0 ds) (D1 ds)
     (map_set key value (key_values ds)) (d1_upper_bounds ds).

Definition check_existing (acc : t * list KeyValue) (kv : KeyValue)
  : t * list KeyValue :=
  let '(ds, to_add) := acc in
  match map_find (fst kv) (key_values ds) with
  | None => (set_key ds (fst kv) (snd kv), to_add ++ [kv])
  | Some old =>
      if dlt (snd kv) old
      then (set_key (removeKey ds (fst kv)) (fst kv) (snd kv), to_add ++ [kv])
      else (ds, to_add)
  end.

(** The loop [for (i = 0; i < L; i += per_block)]; [rest] is [to_add]
    from position [i] on. *)
Fixpoint make_blocks (fuel : nat) (per_block : Z) (rest : list KeyValue)
  : result (list Block) :=
  match rest with
  | [] => Ok []
  | _ :: _ =>
      match fuel with
      | O => OutOfFuel
      | S f =>
          let blk := firstn (Z.to_nat per_block) rest in
          bs <- make_blocks f per_block (skipn (Z.to_nat per_block) rest) ;;
          Ok (mkBlock blk (last_value blk INF) :: bs)
      end
  end.

Definition int_div (a b : Z) : result Z :=
  if b =? 0 then Undefined else Ok (Z.quot a b).

Definition batchPrepend (ds : t) (items : list KeyValue) : result t :=
  match items with
  | [] => Ok ds
  | _ :: _ =>
      let '(ds1, to_add0) :=
        fold_left check_existing (unique_items items) (ds, []) in
      match to_add0 with
      | [] => Ok ds1
      | _ :: _ =>
          let to_add := sort_by_value to_add0 in
          let L := Z.of_nat (length to_add) in
          if L <=? M ds1 then
            let new_block := mkBlock to_add (last_value to_add INF) in
            Ok (mk (M ds1) (B ds1) (N ds1) (new_block :: D0 ds1) (D1 ds1)
                  (key_values ds1) (d1_upper_bounds ds1))
          else
            half <- int_div (M ds1) 2 ;;
            num_blocks <- int_div (L + half - 1) half ;;
            per_block <- int_div (L + num_blocks - 1) num_blocks ;;
            new_blocks <- make_blocks (length to_add) per_block to_add ;;
            Ok (mk (M ds1) (B ds1) (N ds1) (new_blocks ++ D0 ds1) (D1 ds1)
                  (key_values ds1) (d1_upper_bounds ds1))
      end
  end.

(** [pull] *)

Fixpoint collect (m : Z) (collected : Z) (bs : list Block) : list KeyValue :=
  match bs with
  | [] => []
  | b :: bs' =>
      let c := collected + Z.of_nat (length (elements b)) in
      elements b ++ (if m <=? c then [] else collect m c bs')
  end.

Definition all_elements (bs : list Block) : list KeyValue :=
  flat_map elements bs.

Definition min_value (start : dist) (l : list KeyValue) : dist :=
  fold_left (fun acc kv => dmin acc (snd kv)) l start.

Definition pull (ds : t) : (list Z * dist) * t :=
  let candidates0 := collect (M ds) 0 (D0 ds) ++ collect (M ds) 0 (D1 ds) in
  match candidates0 with
  | [] => (([], B ds), ds)
  | _ :: _ =>
      let candidates := sort_by_value candidates0 in
      let take := Z.to_nat (Z.min (M ds) (Z.of_nat (length candidates))) in
      let result := map fst (firstn take candidates) in
      let ds' := fold_left removeKey result ds in
      let sep_bound :=
        match nth_error candidates take with
        | Some kv => snd kv
        | None =>
            if empty ds' then B ds'
            else min_value (min_value (B ds') (all_elements (D0 ds')))
                           (all_elements (D1 ds'))
        end in
      ((result, sep_bound), ds')
  end.

End BlockDataStructure.

(** * Graphs ([graph_types.hpp]) *)

Module SimpleGraph.

Record t : Type := mk {
  n : Z;                              (* number of nodes *)
  m : Z;                              (* number of edges *)
  adj : list (list (Z * dist))        (* adjacency list *)
}.

Definition create (nodes : Z) : t :=
  mk nodes 0 (repeat [] (Z.to_nat nodes)).

(** [m++] on an [int]. *)
Definition incr (c : Z) : result Z :=
  if c <? 2 ^ 31 - 1 then Ok (c + 1) else Undefined.

Definition add_edge (g : t) (u v : Z) (w : dist) : result t :=
  row <- vget (adj g) u ;;
  rows <- vset (adj g) u (row ++ [(v, w)]) ;;
  m' <- incr (m g) ;;
  Ok (mk (n g) m' rows).

(** The default constructor. *)
Definition ctor : t := mk 0 0 [].

Definition clear (g : t) : t := mk 0 0 [].

(** [std::vector::resize]: the first [len] elements, then [fill]. *)
Definition vresize {A : Type} (l : list A) (len : nat) (fill : A) : list A :=
  firstn len l ++ repeat fill (len - length l).

(** A negative [nodes] is converted to a [size_t] that no vector can
    hold. *)
Definition resize (g : t) (nodes : Z) : result t :=
  if nodes <? 0 then Undefined
  else Ok (mk nodes (m g) (vresize (adj g) (Z.to_nat nodes) [])).

End SimpleGraph.

Module ConstantDegreeGraph.

Record t : Type := mk {
  num_nodes : Z;
  num_arcs : Z;
  out_edges : list (list (Z * dist));     (* (target, weight) *)
  in_edges : list (list (Z * dist));      (* (source, weight) *)
  original_to_transformed : list Z;
  transformed_to_original : list Z
}.

Definition ctor : t := mk 0 0 [] [] [] [].

Definition clear (g : t) : t := mk 0 0 [] [] [] [].

(** [c++] on an [int]. *)
Definition incr (c : Z) : result Z :=
  if c <? 2 ^ 31 - 1 then Ok (c + 1) else Undefined.

(** [add_node] returns the identifier of the new node; [original_id] is
    [-1] when the caller gives none. *)
Definition add_node (g : t) (original_id : Z) : result (Z * t) :=
  let id := num_nodes g in
  nodes <- incr (num_nodes g) ;;
  let out := out_edges g ++ [[]] in
  let inn := in_edges g ++ [[]] in
  if 0 <=? original_id then
    let t2o :=
      if Z.of_nat (length (transformed_to_original g)) <=? id
      then SimpleGraph.vresize (transformed_to_original g)
                               (Z.to_nat (id + 1)) (-1)
      else transformed_to_original g in
    t2o' <- vset t2o id original_id ;;
    Ok (id, mk nodes (num_arcs g) out inn (original_to_transformed g) t2o')
  else
    Ok (id, mk nodes (num_arcs g) out inn (original_to_transformed g)
              (transformed_to_original g)).

Definition add_arc (g : t) (from to : Z) (weight : dist) : result t :=
  row <- vget (out_edges g) from ;;
  out <- vset (out_edges g) from (row ++ [(to, weight)]) ;;
  col <- vget (in_edges g) to ;;
  inn <- vset (in_edges g) to (col ++ [(from, weight)]) ;;
  arcs <- incr (num_arcs g) ;;
  Ok (mk (num_nodes g) arcs out inn (original_to_transformed g)
         (transformed_to_original g)).

End ConstantDegreeGraph.

(** * The solver ([new_sssp.hpp]) *)

Module NewSSSP.

Import BlockDataStructure.

(** The writes of one solve, most recent first (ghost state: the source
    keeps no such record). *)
Inductive event : Type :=
| WriteDist (v : Z) (old new : dist)
    (* [d_hat[v] = new], where [d_hat[v]] held [old] *)
| WritePred (v u : Z) (w : dist) (du dv : dist).
    (* [pred[v] = u] for an arc [u -> v] of weight [w]; [du] and [dv] are
       [d_hat[u]] and [d_hat[v]] at that moment *)

Record State : Type := mkState {
  d_hat : list dist;                  (* distance estimates *)
  pred : list Z;                      (* predecessors *)
  complete : list bool;               (* whether vertex is complete *)
  relaxation_count : Z;               (* size_t *)
  trace : list event
}.

Record Result : Type := mkResult {
  distances : list dist;
  predecessors : list Z;
  source : Z
}.

Record Solver : Type := mkSolver {
  graph : SimpleGraph.t;
  n : Z;
  m : Z;
  k : Z;
  t : Z;
  max_level : Z
}.

(** ** The constructor

    [k = max(2, floor(log2(n)^(1/3)))], [t = max(2, floor(log2(n)^(2/3)))]
    and [max_level = max(1, ceil(log2(n) / t))] are computed in doubles.
    The tables give the values of these expressions for [2 <= n < 2^31];
    at [n = 2^8] and [n = 2^27] the double [pow(log2 n, 2.0/3.0)] is just
    below the integer. *)

Definition param_k (n : Z) : Z :=
  if n <=? 1 then 1 else if n <? 2 ^ 27 then 2 else 3.

Definition param_t (n : Z) : Z :=
  if n <=? 1 then 1
  else if n <=? 36 then 2
  else if n <=? 256 then 3
  else if n <=? 2320 then 4
  else if n <=? 26559 then 5
  else if n <=? 375970 then 6
  else if n <=? 6479347 then 7
  else if n <=? 2 ^ 27 then 8
  else 9.

(** The least [l >= 1] with [n <= 2^(l * t)]. *)
Fixpoint level_search (fuel : nat) (n t l : Z) : Z :=
  match fuel with
  | O => l
  | S f => if n <=? 2 ^ (l * t) then l else level_search f n t (l + 1)
  end.

Definition param_max_level (n : Z) : Z :=
  if n <=? 1 then 1 else level_search 31 n (param_t n) 1.

Definition create (g : SimpleGraph.t) : Solver :=
  let n := SimpleGraph.n g in
  mkSolver g n (SimpleGraph.m g) (param_k n) (param_t n) (param_max_level n).

(** ** Arithmetic on [int] and [size_t] *)

Definition int_max : Z := 2 ^ 31 - 1.

(** [static_cast<int>(std::pow(2, e))] *)
Definition pow2_int (e : Z) : result Z :=
  if e <? 0 then Ok 0
  else if e <? 31 then Ok (2 ^ e)
  else Undefined.

Definition int_mul (a b : Z) : result Z :=
  let c := a * b in
  if (- int_max - 1 <=? c) && (c <=? int_max) then Ok c else Undefined.

Definition size_t_incr (c : Z) : Z := (c + 1) mod 2 ^ 64.

(** ** Relaxation *)

Definition count_relaxation (st : State) : State :=
  mkState (d_hat st) (pred st) (complete st)
          (size_t_incr (relaxation_count st)) (trace st).

(** [d_hat[v] = d_hat[u] + w; pred[v] = u;] *)
Definition write_relax (st : State) (u v : Z) (w : dist) : result State :=
  du <- vget (d_hat st) u ;;
  old <- vget (d_hat st) v ;;
  d' <- vset (d_hat st) v (dadd du w) ;;
  p' <- vset (pred st) v u ;;
  du' <- vget d' u ;;
  dv' <- vget d' v ;;
  Ok (mkState d' p' (complete st) (relaxation_count st)
        (WritePred v u w du' dv' :: WriteDist v old (dadd du w) :: trace st)).

Definition set_complete (st : State) (v : Z) : result State :=
  c' <- vset (complete st) v true ;;
  Ok (mkState (d_hat st) (pred st) c' (relaxation_count st) (trace st)).

(** [d_hat[u] + w] *)
Definition tentative (st : State) (u : Z) (w : dist) : result dist :=
  du <- vget (d_hat st) u ;;
  Ok (dadd du w).

Section WithSolver.

Variable sv : Solver.

Definition adj_of (u : Z) : result (list (Z * dist)) :=
  vget (SimpleGraph.adj (graph sv)) u.

(** ** Base case (Algorithm 2): mini Dijkstra *)

Definition PQEntry := (dist * Z)%type.

(** [std::greater<PQEntry>]: entries leave the queue in increasing
    lexicographic order. *)
Definition pq_lt (a b : PQEntry) : bool :=
  dlt (fst a) (fst b) || (dist_eqb (fst a) (fst b) && (snd a <? snd b)).

Fixpoint pq_push (e : PQEntry) (h : list PQEntry) : list PQEntry :=
  match h with
  | [] => [e]
  | x :: h' => if pq_lt e x then e :: h else x :: pq_push e h'
  end.

Definition baseCase_edge (B : dist) (u : Z)
    (acc : State * list PQEntry * IntSet) (e : Z * dist)
  : result (State * list PQEntry * IntSet) :=
  let '(st, H, in_heap) := acc in
  let '(v, w) := e in
  let st := count_relaxation st in
  x <- tentative st u w ;;
  dv <- vget (d_hat st) v ;;
  if dle x dv && dlt x B then
    st' <- write_relax st u v w ;;
    dv' <- vget (d_hat st') v ;;
    Ok (st', pq_push (dv', v) H, set_insert v in_heap)
  else Ok (st, H, in_heap).

(** The variables of the loop: the shared state, the queue [H], [U0] and
    [in_heap]. *)
Definition BaseState : Type := (State * list PQEntry * IntSet * IntSet)%type.

(** [!H.empty() && U0.size() < k + 1] *)
Definition baseCase_cond (s : BaseState) : bool :=
  let '(_, H, U0, _) := s in
  match H with
  | [] => false
  | _ :: _ => set_size U0 <? k sv + 1
  end.

(** The body of the loop. *)
Definition baseCase_body (B : dist) (s : BaseState) : result BaseState :=
  let '(st, H, U0, in_heap) := s in
  match H with
  | [] => Undefined                  (* H.top() of an empty queue *)
  | (dd, u) :: H' =>
      du <- vget (d_hat st) u ;;
      if dlt du dd then Ok (st, H', U0, in_heap)     (* outdated entry *)
      else
        let U0' := set_insert u U0 in
        st1 <- set_complete st u ;;
        edges <- adj_of u ;;
        '(st2, H2, in_heap2) <-
           foldM (baseCase_edge B u) edges (st1, H', in_heap) ;;
        Ok (st2, H2, U0', in_heap2)
  end.

Fixpoint baseCase_loop (fuel : nat) (B : dist) (s : BaseState)
  : result BaseState :=
  if baseCase_cond s then
    match fuel with
    | O => OutOfFuel
    | S f => s' <- baseCase_body B s ;; baseCase_loop f B s'
    end
  else Ok s.

Definition max_dist_of (st : State) (U0 : IntSet) : result dist :=
  foldM (fun md v => dv <- vget (d_hat st) v ;; Ok (dmax md dv)) U0 (Fin 0).

Definition below (st : State) (bound : dist) (U : IntSet) : result IntSet :=
  foldM (fun acc v =>
           dv <- vget (d_hat st) v ;;
           Ok (if dlt dv bound then set_insert v acc else acc))
        U [].

Definition baseCase (fuel : nat) (B : dist) (S : IntSet) (st : State)
  : result ((dist * IntSet) * State) :=
  match S with
  | [] => Ok ((B, []), st)
  | x :: _ =>
      dx <- vget (d_hat st) x ;;
      '(st', _, U0, _) <- baseCase_loop fuel B (st, [(dx, x)], [x], [x]) ;;
      if set_size U0 <=? k sv then Ok ((B, U0), st')
      else
        max_dist <- max_dist_of st' U0 ;;
        U_result <- below st' max_dist U0 ;;
        Ok ((max_dist, U_result), st')
  end.

(** ** Find pivots (Algorithm 1) *)

Definition findPivots_edge (B : dist) (u : Z) (acc : State * IntSet)
    (e : Z * dist) : result (State * IntSet) :=
  let '(st, Wi) := acc in
  let '(v, w) := e in
  let st := count_relaxation st in
  x <- tentative st u w ;;
  dv <- vget (d_hat st) v ;;
  if dle x dv then
    st' <- write_relax st u v w ;;
    x' <- tentative st' u w ;;
    Ok (st', if dlt x' B then set_insert v Wi else Wi)
  else Ok (st, Wi).

Definition findPivots_from (B : dist) (acc : State * IntSet) (u : Z)
  : result (State * IntSet) :=
  edges <- adj_of u ;;
  foldM (findPivots_edge B u) edges acc.

(** The loop [for (i = 0; i < k; ++i)]; the boolean tells whether the
    loop was left by the early return. *)
Fixpoint findPivots_rounds (rounds : nat) (B : dist) (S : IntSet)
    (st : State) (W Wi_prev : IntSet) : result (State * IntSet * bool) :=
  match rounds with
  | O => Ok (st, W, false)
  | Datatypes.S r =>
      '(st', Wi) <- foldM (findPivots_from B) Wi_prev (st, []) ;;
      let W' := set_union W Wi in
      ks <- int_mul (k sv) (set_size S) ;;
      if ks <? set_size W' then Ok (st', W', true)
      else findPivots_rounds r B S st' W' Wi
  end.

Definition children_of (children : IntMap (list Z)) (v : Z) : list Z :=
  match map_find v children with
  | Some l => l
  | None => []
  end.

(** [children[pred[v]].push_back(v); parent[v] = pred[v];] for the
    vertices of [W] whose predecessor is in [W]. *)
Definition build_forest (st : State) (W : IntSet)
  : result (IntMap (list Z) * IntMap Z) :=
  foldM (fun (acc : IntMap (list Z) * IntMap Z) v =>
           let '(children, parent) := acc in
           p <- vget (pred st) v ;;
           if (0 <=? p) && set_count p W
           then Ok (map_set p (children_of children p ++ [v]) children,
                    map_set v p parent)
           else Ok acc)
        W ([], []).

Fixpoint computeSize (fuel : nat) (children : IntMap (list Z)) (W : IntSet)
    (v : Z) (subtree_size : IntMap Z) : result (Z * IntMap Z) :=
  match fuel with
  | O => OutOfFuel
  | Datatypes.S f =>
      '(size, sub) <-
         foldM (fun (acc : Z * IntMap Z) child =>
                  let '(size, sub) := acc in
                  if set_count child W then
                    '(s, sub') <- computeSize f children W child sub ;;
                    Ok (size + s, sub')
                  else Ok acc)
               (children_of children v) (1, subtree_size) ;;
      Ok (size, map_set v size sub)
  end.

Definition subtree_size_of (subtree_size : IntMap Z) (u : Z) : Z :=
  match map_find u subtree_size with
  | Some s => s
  | None => 0
  end.

Definition findPivots (fuel : nat) (B : dist) (S : IntSet) (st : State)
  : result ((IntSet * IntSet) * State) :=
  '(st1, W, early) <- findPivots_rounds (Z.to_nat (k sv)) B S st S S ;;
  if early then Ok ((S, W), st1)
  else
    let roots := filter (fun v => set_count v S) W in
    '(children, parent) <- build_forest st1 W ;;
    subtree_size <-
      foldM (fun sub root =>
               '(_, sub') <- computeSize fuel children W root sub ;; Ok sub')
            roots [] ;;
    let P0 := filter (fun u => k sv <=? subtree_size_of subtree_size u) S in
    let P := match P0, S with
             | [], x :: _ => [x]
             | _, _ => P0
             end in
    st2 <- foldM set_complete W st1 ;;
    Ok ((P, W), st2).

(** ** Bounded multi-source shortest path (Algorithm 3) *)

Definition BMSSP_edge (B Bi B_prime_i : dist) (u : Z)
    (acc : State * BlockDataStructure.t * list KeyValue) (e : Z * dist)
  : result (State * BlockDataStructure.t * list KeyValue) :=
  let '(st, D, K) := acc in
  let '(v, w) := e in
  let st := count_relaxation st in
  x <- tentative st u w ;;
  dv <- vget (d_hat st) v ;;
  if dle x dv then
    st' <- write_relax st u v w ;;
    x' <- tentative st' u w ;;
    if dle Bi x' && dlt x' B then
      D' <- insert D v x' ;;
      Ok (st', D', K)
    else if dle B_prime_i x' && dlt x' Bi then Ok (st', D, K ++ [(v, x')])
    else Ok (st', D, K)
  else Ok (st, D, K).

Definition BMSSP_from (B Bi B_prime_i : dist)
    (acc : State * BlockDataStructure.t * list KeyValue) (u : Z)
  : result (State * BlockDataStructure.t * list KeyValue) :=
  edges <- adj_of u ;;
  foldM (BMSSP_edge B Bi B_prime_i u) edges acc.

Definition back_to_K (st : State) (Bi B_prime_i : dist)
    (K : list KeyValue) (x : Z) : result (list KeyValue) :=
  dx <- vget (d_hat st) x ;;
  Ok (if dle B_prime_i dx && dlt dx Bi then K ++ [(x, dx)] else K).

Definition BMSSP_call : Type :=
  Z -> dist -> IntSet -> State -> result ((dist * IntSet) * State).

(** The main loop; [rec] is the recursive call. *)
Fixpoint BMSSP_loop (rec : BMSSP_call) (fuel : nat) (level : Z) (B : dist)
    (size_limit : Z) (st : State) (D : BlockDataStructure.t) (U : IntSet)
    (B_prime_i : dist) : result (State * IntSet * dist) :=
  if (set_size U <? size_limit) && negb (empty D) then
    match fuel with
    | O => OutOfFuel
    | Datatypes.S f =>
        let '((Si_vec, Bi), D1) := pull D in
        let Si := set_of_list Si_vec in
        match Si with
        | [] => Ok (st, U, B_prime_i)
        | _ :: _ =>
            '((B_prime_new, Ui), st1) <- rec (level - 1) Bi Si st ;;
            let U' := set_union U Ui in
            '(st2, D2, K) <-
               foldM (BMSSP_from B Bi B_prime_new) Ui (st1, D1, []) ;;
            K' <- foldM (back_to_K st2 Bi B_prime_new) Si K ;;
            D3 <- batchPrepend D2 K' ;;
            BMSSP_loop rec f level B size_limit st2 D3 U' B_prime_new
        end
    end
  else Ok (st, U, B_prime_i).

Definition insert_pivot (st : State) (B : dist) (D : BlockDataStructure.t)
    (x : Z) : result BlockDataStructure.t :=
  dx <- vget (d_hat st) x ;;
  if dlt dx B then insert D x dx else Ok D.

Definition min_complete (st : State) (b : dist) (x : Z) : result dist :=
  c <- vget (complete st) x ;;
  if (c : bool) then dx <- vget (d_hat st) x ;; Ok (dmin b dx) else Ok b.

Definition add_below (st : State) (bound : dist) (U : IntSet) (x : Z)
  : result IntSet :=
  dx <- vget (d_hat st) x ;;
  Ok (if dlt dx bound then set_insert x U else U).

Fixpoint BMSSP (fuel : nat) (level : Z) (B : dist) (S : IntSet) (st : State)
  : result ((dist * IntSet) * State) :=
  match fuel with
  | O => OutOfFuel
  | Datatypes.S f =>
      if level =? 0 then baseCase f B S st
      else
        '((P, W), st1) <- findPivots f B S st ;;
        match P with
        | [] => Ok ((B, W), st1)
        | p0 :: _ =>
            e1 <- int_mul (level - 1) (t sv) ;;
            M0 <- pow2_int e1 ;;
            let M := Z.max 1 (Z.min M0 (n sv)) in
            e2 <- int_mul level (t sv) ;;
            p2 <- pow2_int e2 ;;
            max_n <- int_mul (k sv) p2 ;;
            let D := initialize ctor M B max_n in
            D <- foldM (insert_pivot st1 B) P D ;;
            B_prime_0 <- foldM (min_complete st1) P INF ;;
            B_prime_0 <- (if dist_eqb B_prime_0 INF
                          then vget (d_hat st1) p0 else Ok B_prime_0) ;;
            let size_limit := Z.max 1 (Z.min max_n (n sv)) in
            '(st2, U, B_prime_i) <-
               BMSSP_loop (BMSSP f) f level B size_limit st1 D [] B_prime_0 ;;
            let B_prime := dmin B_prime_i B in
            U' <- foldM (add_below st2 B_prime) W U ;;
            Ok ((B_prime, U'), st2)
        end
  end.

(** ** The entry point *)

Definition seed_edge (source : Z) (st : State) (e : Z * dist)
  : result State :=
  let '(v, w) := e in
  x <- tentative st source w ;;
  dv <- vget (d_hat st) v ;;
  if dlt x dv then write_relax st source v w else Ok st.

Definition init_state (source : Z) : result State :=
  if n sv <? 0 then Undefined
  else
    let len := Z.to_nat (n sv) in
    d <- vset (repeat INF len) source (Fin 0) ;;
    c <- vset (repeat false len) source true ;;
    Ok (mkState d (repeat (-1) len) c 0 [WriteDist source INF (Fin 0)]).

(** The state in which [solve] builds its result. *)
Definition solve_state (fuel : nat) (source : Z) : result State :=
  st0 <- init_state source ;;
  edges <- adj_of source ;;
  st1 <- foldM (seed_edge source) edges st0 ;;
  '(_, st2) <- BMSSP fuel (max_level sv) INF [source] st1 ;;
  Ok st2.

Definition solve (fuel : nat) (source : Z) : result Result :=
  st <- solve_state fuel source ;;
  Ok (mkResult (d_hat st) (pred st) source).

End WithSolver.

(** [computeNewSSSP] *)
Definition computeNewSSSP (fuel : nat) (g : SimpleGraph.t) (source : Z)
  : result Result :=
  solve (create g) fuel source.

End NewSSSP.

(** * The reference solver ([dijkstra_lemon.hpp]) *)

Module SimpleDijkstra.

Record Result : Type := mkResult {
  distances : list dist;
  predecessors : list Z;
  source : Z
}.

(** The queue is the one of the base case: a
    [std::priority_queue<PQEntry, std::vector<PQEntry>,
    std::greater<PQEntry>>]. *)
Definition PQEntry := NewSSSP.PQEntry.

(** The body of the loop over [graph.adj[u]]. *)
Definition relax (u : Z) (acc : Result * list PQEntry) (e : Z * dist)
  : result (Result * list PQEntry) :=
  let '(r, pq) := acc in
  let '(v, w) := e in
  du <- vget (distances r) u ;;
  let new_dist := dadd du w in
  dv <- vget (distances r) v ;;
  if dlt new_dist dv then
    d' <- vset (distances r) v new_dist ;;
    p' <- vset (predecessors r) v u ;;
    Ok (mkResult d' p' (source r), NewSSSP.pq_push (new_dist, v) pq)
  else Ok (r, pq).

(** One iteration of [while (!pq.empty())]. *)
Definition visit (g : SimpleGraph.t) (r : Result) (pq : list PQEntry)
  : result (Result * list PQEntry) :=
  match pq with
  | [] => Undefined                  (* pq.top() of an empty queue *)
  | (dd, u) :: pq' =>
      du <- vget (distances r) u ;;
      if dlt du dd then Ok (r, pq')                  (* outdated entry *)
      else
        edges <- vget (SimpleGraph.adj g) u ;;
        foldM (relax u) edges (r, pq')
  end.

Fixpoint loop (fuel : nat) (g : SimpleGraph.t) (r : Result)
    (pq : list PQEntry) : result Result :=
  match pq with
  | [] => Ok r
  | _ :: _ =>
      match fuel with
      | O => OutOfFuel
      | S f => '(r', pq') <- visit g r pq ;; loop f g r' pq'
      end
  end.

Definition solve (fuel : nat) (g : SimpleGraph.t) (source : Z)
  : result Result :=
  if SimpleGraph.n g <? 0 then Undefined
  else
    let len := Z.to_nat (SimpleGraph.n g) in
    d <- vset (repeat INF len) source (Fin 0) ;;
    loop fuel g (mkResult d (repeat (-1) len) source) [(Fin 0, source)].

End SimpleDijkstra.


(** * Reasoning about partial computations *)

Lemma bind_Ok {A B : Type} (c : result A) (k : A -> result B) (r : B) :
  bind c k = Ok r -> exists a, c = Ok a /\ k a = Ok r.
Proof. destruct c; simpl; intros H; try discriminate. eauto. Qed.

(** Decompose a hypothesis [H : ... = Ok r] along binds, pattern lets and
    tests. *)
Ltac bind_inv_auto H :=
  let a := fresh "a" in
  let E := fresh "E" in
  apply bind_Ok in H; destruct H as (a & E & H); cbv beta in H.

Tactic Notation "bind_inv" hyp(H) "as" simple_intropattern(a) ident(E) :=
  apply bind_Ok in H; destruct H as (a & E & H); cbv beta in H.

Ltac ok_inv H :=
  repeat
    (cbv beta zeta in H;
     lazymatch type of H with
     | bind _ _ = Ok _ => bind_inv_auto H
     | (let '(_, _) := ?p in _) = Ok _ => destruct p
     | Ok _ = Ok _ => injection H as H
     | _ => fail
     end).

Lemma foldM_invariant {A S : Type} (P : S -> Prop) (f : S -> A -> result S)
    (l : list A) (s r : S) :
  P s ->
  (forall s0 a s1, In a l -> P s0 -> f s0 a = Ok s1 -> P s1) ->
  foldM f l s = Ok r -> P r.
Proof.
  revert s. induction l as [|a l IH]; simpl; intros s Hs Hf H.
  - now injection H as <-.
  - bind_inv H as s' E. eapply IH; [| |exact H].
    + eapply Hf; eauto.
    + intros s0 a1 s1 Hin. apply Hf. now right.
Qed.

Lemma foldM_establish {A S : Type} (P Q : S -> Prop)
    (f : S -> A -> result S) (l : list A) (e0 : A) (s r : S) :
  In e0 l -> P s ->
  (forall s0 a s1, In a l -> P s0 -> f s0 a = Ok s1 -> P s1) ->
  (forall s0 s1, P s0 -> f s0 e0 = Ok s1 -> Q s1) ->
  (forall s0 a s1, In a l -> P s0 -> Q s0 -> f s0 a = Ok s1 -> Q s1) ->
  foldM f l s = Ok r -> Q r.
Proof.
  intros Hin Hs HP HQ0 HQ. revert s Hs Hin.
  assert (Hkeep : forall l', incl l' l -> forall s, P s -> Q s ->
            foldM f l' s = Ok r -> Q r).
  { induction l' as [|a l' IH]; simpl; intros Hi s0 Hp Hq H.
    - now injection H as <-.
    - bind_inv H as s1 E. apply (IH (fun x Hx => Hi x (or_intror Hx)) s1).
      + exact (HP s0 a s1 (Hi a (or_introl eq_refl)) Hp E).
      + exact (HQ s0 a s1 (Hi a (or_introl eq_refl)) Hp Hq E).
      + exact H. }
  assert (Hgo : forall l', incl l' l -> In e0 l' -> forall s, P s ->
            foldM f l' s = Ok r -> Q r).
  { induction l' as [|a l' IH]; simpl; intros Hi Hin s0 Hp H; [contradiction|].
    bind_inv H as s1 E.
    assert (Hp1 : P s1) by exact (HP s0 a s1 (Hi a (or_introl eq_refl)) Hp E).
    destruct Hin as [Heq|Hin].
    - subst a.
      exact (Hkeep l' (fun x Hx => Hi x (or_intror Hx)) s1 Hp1
               (HQ0 s0 s1 Hp E) H).
    - exact (IH (fun x Hx => Hi x (or_intror Hx)) Hin s1 Hp1 H). }
  intros s0 Hp Hin. apply (Hgo l (incl_refl l) Hin s0 Hp).
Qed.

(** [fold_inv P E Hf]: from [E : foldM f l s = Ok r] derive [Hf : P r],
    leaving [P s] and the preservation of [P] by [f] as goals. *)
Ltac fold_inv P E Hf :=
  pose proof E as Hf;
  apply (foldM_invariant P) in Hf;
  [cbv beta iota zeta in Hf | cbv beta iota zeta | ].

(** ** Vectors *)

Lemma in_range_iff {A : Type} (l : list A) (i : Z) :
  in_range l i = true <-> 0 <= i < Z.of_nat (length l).
Proof.
  unfold in_range. rewrite andb_true_iff, Z.leb_le, Z.ltb_lt. tauto.
Qed.

Lemma vget_Ok {A : Type} (l : list A) (i : Z) (a : A) :
  vget l i = Ok a <->
  0 <= i < Z.of_nat (length l) /\ nth_error l (Z.to_nat i) = Some a.
Proof.
  unfold vget. destruct (in_range l i) eqn:E.
  - apply in_range_iff in E.
    destruct (nth_error l (Z.to_nat i)) eqn:En; split.
    + intros H. injection H as <-. auto.
    + intros [_ H]. now injection H as <-.
    + discriminate.
    + intros [_ H]. discriminate.
  - split; [discriminate|]. intros [H _]. apply in_range_iff in H. congruence.
Qed.

Lemma vget_in_range {A : Type} (l : list A) (i : Z) :
  0 <= i < Z.of_nat (length l) -> exists a, vget l i = Ok a.
Proof.
  intros H. destruct (nth_error l (Z.to_nat i)) as [a|] eqn:E.
  - exists a. apply vget_Ok. auto.
  - apply nth_error_None in E. lia.
Qed.

Lemma vset_Ok {A : Type} (l l' : list A) (i : Z) (a : A) :
  vset l i a = Ok l' <->
  0 <= i < Z.of_nat (length l) /\ l' = upd l (Z.to_nat i) a.
Proof.
  unfold vset. destruct (in_range l i) eqn:E.
  - apply in_range_iff in E. split.
    + intros H. injection H as <-. auto.
    + intros [_ ->]. reflexivity.
  - split; [discriminate|]. intros [H _]. apply in_range_iff in H. congruence.
Qed.

Lemma length_upd {A : Type} (l : list A) (i : nat) (a : A) :
  length (upd l i a) = length l.
Proof. revert i. induction l; intros [|i]; simpl; auto. Qed.

Lemma nth_error_upd {A : Type} (l : list A) (i j : nat) (a : A) :
  nth_error (upd l i a) j =
  if Nat.eqb i j then
    match nth_error l j with Some _ => Some a | None => None end
  else nth_error l j.
Proof.
  revert i j. induction l as [|x l IH]; intros [|i] [|j]; simpl; auto.
  - destruct (Nat.eqb i j); reflexivity.
Qed.

Lemma vget_upd_same {A : Type} (l : list A) (i : Z) (a : A) :
  0 <= i < Z.of_nat (length l) -> vget (upd l (Z.to_nat i) a) i = Ok a.
Proof.
  intros H. apply vget_Ok. rewrite length_upd. split; [exact H|].
  rewrite nth_error_upd, Nat.eqb_refl.
  destruct (nth_error l (Z.to_nat i)) eqn:E; [reflexivity|].
  apply nth_error_None in E. lia.
Qed.

Lemma vget_upd_other {A : Type} (l : list A) (i j : Z) (a : A) :
  0 <= i -> i <> j -> vget (upd l (Z.to_nat i) a) j = vget l j.
Proof.
  intros Hi Hne. unfold vget, in_range. rewrite length_upd.
  destruct ((0 <=? j) && (j <? Z.of_nat (length l))) eqn:E; [|reflexivity].
  apply andb_true_iff in E. destruct E as [E1 E2]. apply Z.leb_le in E1.
  rewrite nth_error_upd.
  destruct (Nat.eqb_spec (Z.to_nat i) (Z.to_nat j)) as [Heq|]; [|reflexivity].
  apply Z2Nat.inj in Heq; try assumption. contradiction.
Qed.

Lemma In_firstn {A : Type} (n : nat) (l : list A) (x : A) :
  In x (firstn n l) -> In x l.
Proof.
  revert l. induction n as [|n IH]; intros [|a l]; simpl; intuition.
Qed.

Lemma In_skipn {A : Type} (n : nat) (l : list A) (x : A) :
  In x (skipn n l) -> In x l.
Proof.
  revert l. induction n as [|n IH]; intros [|a l]; simpl; intuition.
Qed.

(** ** Sets *)

Lemma set_insert_In (x y : Z) (s : IntSet) :
  In y (set_insert x s) <-> y = x \/ In y s.
Proof.
  induction s as [|z s IH]; simpl.
  - intuition.
  - destruct (x <? z) eqn:E1; simpl; [intuition|].
    destruct (x =? z) eqn:E2; simpl.
    + apply Z.eqb_eq in E2. subst. intuition.
    + rewrite IH. intuition.
Qed.

Lemma fold_set_insert_In (y : Z) (l : list Z) (s : IntSet) :
  In y (fold_left (fun s x => set_insert x s) l s) <-> In y l \/ In y s.
Proof.
  revert s. induction l as [|x l IH]; simpl; intros s.
  - intuition.
  - rewrite IH, set_insert_In. intuition.
Qed.

Lemma set_of_list_In (y : Z) (l : list Z) : In y (set_of_list l) <-> In y l.
Proof. unfold set_of_list. rewrite fold_set_insert_In. simpl. intuition. Qed.

Lemma set_union_In (y : Z) (a b : IntSet) :
  In y (set_union a b) <-> In y a \/ In y b.
Proof. unfold set_union. rewrite fold_set_insert_In. intuition. Qed.

Lemma set_count_In (x : Z) (s : IntSet) : set_count x s = true <-> In x s.
Proof.
  induction s as [|y s IH]; simpl; [intuition discriminate|].
  rewrite orb_true_iff, IH, Z.eqb_eq. intuition.
Qed.

(** * Order on distances *)

Lemma dlt_negb_dle (a b : dist) : dlt a b = negb (dle b a).
Proof.
  destruct a, b; simpl; try reflexivity. apply Z.ltb_antisym.
Qed.

Lemma dle_refl (a : dist) : dle a a = true.
Proof. destruct a; simpl; [apply Z.leb_refl | reflexivity]. Qed.

Lemma dlt_irrefl (a : dist) : dlt a a = false.
Proof. destruct a; simpl; [apply Z.ltb_irrefl | reflexivity]. Qed.

Lemma dle_trans (a b c : dist) :
  dle a b = true -> dle b c = true -> dle a c = true.
Proof.
  destruct a, b, c; simpl; intros H1 H2; try reflexivity; try discriminate.
  apply Z.leb_le. apply Z.leb_le in H1, H2. lia.
Qed.

Lemma dlt_dle (a b : dist) : dlt a b = true -> dle a b = true.
Proof.
  destruct a, b; simpl; intros H; try reflexivity; try discriminate.
  apply Z.leb_le. apply Z.ltb_lt in H. lia.
Qed.

Lemma dle_total (a b : dist) : dle a b = true \/ dle b a = true.
Proof.
  destruct a, b; simpl; auto.
  destruct (Z.leb_spec z z0); [left | right]; auto. apply Z.leb_le. lia.
Qed.

Lemma dle_dlt_trans (a b c : dist) :
  dle a b = true -> dlt b c = true -> dlt a c = true.
Proof.
  destruct a, b, c; simpl; intros H1 H2; try reflexivity; try discriminate.
  apply Z.ltb_lt. apply Z.leb_le in H1. apply Z.ltb_lt in H2. lia.
Qed.

Lemma dlt_dle_trans (a b c : dist) :
  dlt a b = true -> dle b c = true -> dlt a c = true.
Proof.
  destruct a, b, c; simpl; intros H1 H2; try reflexivity; try discriminate.
  apply Z.ltb_lt. apply Z.ltb_lt in H1. apply Z.leb_le in H2. lia.
Qed.

Lemma dle_antisym (a b : dist) :
  dle a b = true -> dle b a = true -> a = b.
Proof.
  destruct a, b; simpl; intros H1 H2; try reflexivity; try discriminate.
  apply Z.leb_le in H1, H2. f_equal. lia.
Qed.

Lemma dist_eqb_eq (a b : dist) : dist_eqb a b = true <-> a = b.
Proof.
  destruct a, b; simpl; split; intros H; try reflexivity; try discriminate.
  - apply Z.eqb_eq in H. now subst.
  - injection H as ->. apply Z.eqb_refl.
Qed.

Lemma dlt_Inf_fin (a : dist) : dlt a Inf = true -> exists z, a = Fin z.
Proof. destruct a; simpl; [eauto | discriminate]. Qed.

(** * Rounding of sums *)

Lemma round_pos_small (a : Z) : a < 2 ^ 53 -> round_pos a = a.
Proof.
  intros H. unfold round_pos.
  destruct (Z.leb_spec (Z.log2 a - 52) 0) as [|Hlt]; [reflexivity|].
  exfalso. destruct (Z.le_gt_cases a 0) as [Ha|Ha].
  - rewrite Z.log2_nonpos in Hlt by exact Ha. lia.
  - apply Z.log2_lt_pow2 in H; lia.
Qed.

(** The quotient and the scale of a number that is rounded. *)
Lemma round_pos_parts (a : Z) :
  0 < Z.log2 a - 52 ->
  let e := Z.log2 a - 52 in
  0 < 2 ^ e /\ 2 * 2 ^ (e - 1) = 2 ^ e /\
  2 ^ Z.log2 a = 2 ^ 52 * 2 ^ e /\
  2 ^ 52 <= a / 2 ^ e < 2 ^ 53 /\
  a = a / 2 ^ e * 2 ^ e + a mod 2 ^ e /\ 0 <= a mod 2 ^ e < 2 ^ e.
Proof.
  intros He e.
  assert (Ha : 0 < a).
  { destruct (Z.le_gt_cases a 0) as [Hn|]; [|assumption].
    rewrite Z.log2_nonpos in He by exact Hn. lia. }
  assert (HE : 0 < 2 ^ e) by (apply Z.pow_pos_nonneg; lia).
  assert (Hh : 2 * 2 ^ (e - 1) = 2 ^ e).
  { rewrite <- Z.pow_succ_r by lia. f_equal. lia. }
  assert (Hp : 2 ^ Z.log2 a = 2 ^ 52 * 2 ^ e).
  { rewrite <- Z.pow_add_r by lia. f_equal. unfold e. lia. }
  pose proof (Z.log2_spec a Ha) as [Hlo Hhi].
  assert (Hp1 : 2 ^ Z.succ (Z.log2 a) = 2 ^ 53 * 2 ^ e).
  { rewrite <- Z.pow_add_r by lia. f_equal. unfold e. lia. }
  pose proof (Z.div_mod a (2 ^ e) ltac:(lia)) as Hdm.
  pose proof (Z.mod_pos_bound a (2 ^ e) HE) as Hm.
  repeat split; try lia.
  - apply Z.div_le_lower_bound; lia.
  - apply Z.div_lt_upper_bound; lia.
Qed.

Lemma round_pos_binade (a : Z) :
  0 < a -> 2 ^ Z.log2 a <= round_pos a <= 2 ^ (Z.log2 a + 1).
Proof.
  intros Ha. pose proof (Z.log2_spec a Ha) as [Hlo Hhi].
  unfold round_pos.
  destruct (Z.leb_spec (Z.log2 a - 52) 0) as [|He].
  - change (Z.log2 a + 1) with (Z.succ (Z.log2 a)). lia.
  - destruct (round_pos_parts a He) as (HE & Hh & Hp & Hq & Hdm & Hm).
    replace (2 ^ (Z.log2 a + 1)) with (2 ^ 53 * 2 ^ (Z.log2 a - 52)).
    2:{ rewrite <- Z.pow_add_r by lia. f_equal. lia. }
    rewrite Hp.
    set (E := 2 ^ (Z.log2 a - 52)) in *.
    set (q := a / E) in *.
    destruct (_ <? _); [nia|]. destruct (_ <? _); [nia|].
    destruct (Z.even q); nia.
Qed.

Lemma round_pos_mono (a b : Z) :
  0 <= a <= b -> round_pos a <= round_pos b.
Proof.
  intros [Ha Hab].
  destruct (Z.eq_dec a 0) as [->|Hne].
  { rewrite (round_pos_small 0) by reflexivity.
    destruct (Z.eq_dec b 0) as [->|]; [rewrite round_pos_small; [lia|reflexivity]|].
    pose proof (round_pos_binade b ltac:(lia)) as [H _].
    pose proof (Z.pow_pos_nonneg 2 (Z.log2 b) ltac:(lia) (Z.log2_nonneg b)).
    lia. }
  assert (Ha' : 0 < a) by lia. assert (Hb' : 0 < b) by lia.
  pose proof (Z.log2_le_mono a b Hab) as Hl.
  destruct (Z.eq_dec (Z.log2 a) (Z.log2 b)) as [Heq|Hlt].
  - unfold round_pos. rewrite <- Heq.
    destruct (Z.leb_spec (Z.log2 a - 52) 0) as [|He]; [exact Hab|].
    destruct (round_pos_parts a He) as (HE & Hh & _ & Hqa & Hda & Hma).
    assert (He' : 0 < Z.log2 b - 52) by lia.
    destruct (round_pos_parts b He') as (_ & _ & _ & Hqb & Hdb & Hmb).
    cbv zeta in *. rewrite <- Heq in Hqb, Hdb, Hmb.
    set (E := 2 ^ (Z.log2 a - 52)) in *.
    set (h := 2 ^ (Z.log2 a - 52 - 1)) in *.
    set (qa := a / E) in *. set (qb := b / E) in *.
    set (ra := a mod E) in *. set (rb := b mod E) in *.
    assert (Hq : qa <= qb) by (apply Z.div_le_mono; lia).
    apply Z.mul_le_mono_nonneg_r; [lia|].
    destruct (Z.eq_dec qa qb) as [Hqe|Hqn].
    + rewrite <- Hqe in *. assert (ra <= rb) by nia.
      destruct (Z.ltb_spec ra h), (Z.ltb_spec rb h),
        (Z.ltb_spec h ra), (Z.ltb_spec h rb), (Z.even qa); lia.
    + destruct (ra <? h), (rb <? h), (h <? ra), (h <? rb),
        (Z.even qa), (Z.even qb); lia.
  - pose proof (round_pos_binade a Ha') as [_ H1].
    pose proof (round_pos_binade b Hb') as [H2 _].
    assert (2 ^ (Z.log2 a + 1) <= 2 ^ Z.log2 b).
    { apply Z.pow_le_mono_r; lia. }
    lia.
Qed.

Lemma round_pos_nonneg (a : Z) : 0 <= a -> 0 <= round_pos a.
Proof.
  intros Ha. pose proof (round_pos_mono 0 a ltac:(lia)) as H.
  rewrite (round_pos_small 0) in H by reflexivity. exact H.
Qed.

Lemma round_pos_scaled (q e : Z) :
  0 < e -> 2 ^ 52 <= q <= 2 ^ 53 -> round_pos (q * 2 ^ e) = q * 2 ^ e.
Proof.
  intros He Hq.
  assert (HE : 0 < 2 ^ e) by (apply Z.pow_pos_nonneg; lia).
  destruct (Z.eq_dec q (2 ^ 53)) as [->|Hne].
  - rewrite <- Z.pow_add_r by lia.
    unfold round_pos. rewrite Z.log2_pow2 by lia.
    destruct (Z.leb_spec (53 + e - 52) 0); [reflexivity|].
    replace (53 + e - 52) with (1 + e) by lia.
    replace (2 ^ (53 + e)) with (2 ^ 52 * 2 ^ (1 + e)).
    2:{ rewrite <- Z.pow_add_r by lia. f_equal. lia. }
    assert (0 < 2 ^ (1 + e)) by (apply Z.pow_pos_nonneg; lia).
    assert (0 < 2 ^ (1 + e - 1)) by (apply Z.pow_pos_nonneg; lia).
    rewrite Z.div_mul, Z.mod_mul by lia.
    destruct (Z.ltb_spec 0 (2 ^ (1 + e - 1))); [reflexivity | lia].
  - assert (Hl : Z.log2 (q * 2 ^ e) = 52 + e).
    { apply Z.log2_unique; [lia|].
      replace (2 ^ Z.succ (52 + e)) with (2 ^ 53 * 2 ^ e).
      2:{ rewrite <- Z.pow_add_r by lia. f_equal. lia. }
      rewrite Z.pow_add_r by lia. nia. }
    unfold round_pos. rewrite Hl.
    replace (52 + e - 52) with e by lia.
    destruct (Z.leb_spec e 0); [lia|].
    rewrite Z.div_mul, Z.mod_mul by lia.
    assert (0 < 2 ^ (e - 1)) by (apply Z.pow_pos_nonneg; lia).
    destruct (Z.ltb_spec 0 (2 ^ (e - 1))); [reflexivity | lia].
Qed.

Lemma round_pos_idem (a : Z) : round_pos (round_pos a) = round_pos a.
Proof.
  destruct (Z.leb_spec (Z.log2 a - 52) 0) as [Hs|He].
  - assert (Hv : round_pos a = a).
    { unfold round_pos. destruct (Z.leb_spec (Z.log2 a - 52) 0); [reflexivity | lia]. }
    now rewrite !Hv.
  - destruct (round_pos_parts a He) as (HE & Hh & Hp & Hq & Hdm & Hm).
    cbv zeta in *.
    assert (Hv : exists q, 2 ^ 52 <= q <= 2 ^ 53 /\
                           round_pos a = q * 2 ^ (Z.log2 a - 52)).
    { unfold round_pos.
      destruct (Z.leb_spec (Z.log2 a - 52) 0); [lia|].
      eexists. split; [|reflexivity].
      destruct (_ <? _); [lia|]. destruct (_ <? _); [lia|].
      destruct (Z.even _); lia. }
    destruct Hv as (q & Hq' & ->). now apply round_pos_scaled.
Qed.

Lemma round_double_exact (z : Z) : Z.abs z < 2 ^ 53 -> round_double z = z.
Proof.
  intros H. unfold round_double.
  destruct (Z.ltb_spec z 0); rewrite round_pos_small; lia.
Qed.

Lemma round_double_mono (a b : Z) : a <= b -> round_double a <= round_double b.
Proof.
  intros H. unfold round_double.
  destruct (Z.ltb_spec a 0), (Z.ltb_spec b 0).
  - pose proof (round_pos_mono (- b) (- a) ltac:(lia)). lia.
  - pose proof (round_pos_nonneg (- a) ltac:(lia)).
    pose proof (round_pos_nonneg b ltac:(lia)). lia.
  - lia.
  - apply round_pos_mono. lia.
Qed.

Lemma round_double_nonneg (z : Z) : 0 <= z -> 0 <= round_double z.
Proof.
  intros H. unfold round_double. destruct (Z.ltb_spec z 0); [lia|].
  now apply round_pos_nonneg.
Qed.

Lemma round_double_zero (z : Z) : 0 <= z -> round_double z = 0 -> z = 0.
Proof.
  intros Hz H. destruct (Z.eq_dec z 0) as [|Hne]; [assumption|].
  pose proof (round_double_mono 1 z ltac:(lia)) as Hm.
  rewrite (round_double_exact 1) in Hm by (simpl; lia). lia.
Qed.

Lemma round_double_idem (z : Z) : round_double (round_double z) = round_double z.
Proof.
  destruct (Z.ltb_spec z 0) as [Hn|Hp].
  - assert (Hv : round_double z = - round_pos (- z)).
    { unfold round_double. destruct (Z.ltb_spec z 0); [reflexivity | lia]. }
    rewrite Hv.
    pose proof (round_pos_nonneg (- z) ltac:(lia)) as H0.
    unfold round_double. destruct (Z.ltb_spec (- round_pos (- z)) 0).
    + rewrite Z.opp_involutive, round_pos_idem. reflexivity.
    + assert (E : round_pos (- z) = 0) by lia. rewrite E. reflexivity.
  - assert (Hv : round_double z = round_pos z).
    { unfold round_double. destruct (Z.ltb_spec z 0); [lia | reflexivity]. }
    rewrite Hv.
    pose proof (round_pos_nonneg z Hp) as H0.
    unfold round_double. destruct (Z.ltb_spec (round_pos z) 0); [lia|].
    apply round_pos_idem.
Qed.

(** * Sums of distances *)

Lemma dadd_Fin (x y : Z) :
  dadd (Fin x) (Fin y) =
  if 1024 <=? Z.log2 (round_double (x + y)) then Inf
  else Fin (round_double (x + y)).
Proof. reflexivity. Qed.

Lemma dadd_Inf_l (b : dist) : dadd Inf b = Inf.
Proof. reflexivity. Qed.

Lemma dadd_Inf_r (a : dist) : dadd a Inf = Inf.
Proof. destruct a; reflexivity. Qed.

Lemma dadd_Fin_inv (a b : dist) (z : Z) :
  dadd a b = Fin z ->
  exists x y, a = Fin x /\ b = Fin y /\ z = round_double (x + y).
Proof.
  destruct a as [x|], b as [y|]; try discriminate.
  rewrite dadd_Fin. destruct (_ <=? _); [discriminate|].
  intros H. injection H as <-. eauto.
Qed.

(** A sum of magnitude below [2^53] is exact. *)
Lemma dadd_exact (x y : Z) :
  Z.abs (x + y) < 2 ^ 53 -> dadd (Fin x) (Fin y) = Fin (x + y).
Proof.
  intros H. rewrite dadd_Fin, round_double_exact by exact H.
  destruct (Z.leb_spec 1024 (Z.log2 (x + y))) as [Hl|]; [|reflexivity].
  exfalso. destruct (Z.le_gt_cases (x + y) 0) as [Hn|Hp].
  - rewrite Z.log2_nonpos in Hl by exact Hn. lia.
  - assert (Z.log2 (x + y) < 53) by (apply Z.log2_lt_pow2; lia). lia.
Qed.

(** A sum that is finite is a double. *)
Lemma dadd_rounded (a b : dist) (z : Z) :
  dadd a b = Fin z -> round_double z = z.
Proof.
  intros H. apply dadd_Fin_inv in H. destruct H as (x & y & _ & _ & ->).
  apply round_double_idem.
Qed.

Lemma dadd_nonneg (x y z : Z) :
  0 <= x + y -> dadd (Fin x) (Fin y) = Fin z -> 0 <= z.
Proof.
  intros Hs H. apply dadd_Fin_inv in H.
  destruct H as (x' & y' & Hx & Hy & ->).
  injection Hx as <-. injection Hy as <-. now apply round_double_nonneg.
Qed.

Lemma dadd_mono (a b w : dist) :
  dle a b = true -> dle (dadd a w) (dadd b w) = true.
Proof.
  destruct w as [c|]; [|now rewrite !dadd_Inf_r].
  destruct a as [x|], b as [y|]; try reflexivity; try discriminate.
  - simpl dle at 1. intros H. apply Z.leb_le in H. rewrite !dadd_Fin.
    pose proof (round_double_mono (x + c) (y + c) ltac:(lia)) as Hr.
    pose proof (Z.log2_le_mono _ _ Hr) as Hl.
    destruct (Z.leb_spec 1024 (Z.log2 (round_double (y + c))));
      [destruct (_ <=? _); reflexivity|].
    destruct (Z.leb_spec 1024 (Z.log2 (round_double (x + c)))); [lia|].
    simpl. now apply Z.leb_le.
  - intros _. rewrite dadd_Inf_l. destruct (dadd _ _); reflexivity.
Qed.

Lemma dadd_mono_r (a v w : dist) :
  dle v w = true -> dle (dadd a v) (dadd a w) = true.
Proof.
  destruct a as [x|]; [|reflexivity].
  destruct v as [c|], w as [d|]; try reflexivity; try discriminate.
  - simpl dle at 1. intros H. apply Z.leb_le in H. rewrite !dadd_Fin.
    pose proof (round_double_mono (x + c) (x + d) ltac:(lia)) as Hr.
    pose proof (Z.log2_le_mono _ _ Hr) as Hl.
    destruct (Z.leb_spec 1024 (Z.log2 (round_double (x + d))));
      [destruct (_ <=? _); reflexivity|].
    destruct (Z.leb_spec 1024 (Z.log2 (round_double (x + c)))); [lia|].
    simpl. now apply Z.leb_le.
  - intros _. rewrite dadd_Inf_r. destruct (dadd _ _); reflexivity.
Qed.

(** Adding a non-negative weight to a double does not give less. *)
Lemma dadd_ge (x c : Z) :
  round_double x = x -> 0 <= c ->
  dle (Fin x) (dadd (Fin x) (Fin c)) = true.
Proof.
  intros Hx Hc. rewrite dadd_Fin. destruct (_ <=? _); [reflexivity|].
  simpl. apply Z.leb_le.
  pose proof (round_double_mono x (x + c) ltac:(lia)) as H. lia.
Qed.

(** A sum with a non-negative weight that is not above its first term is
    the first term rounded, and adding the weight again changes nothing. *)
Lemma dadd_stationary (x c : Z) (d : dist) :
  0 <= c -> dadd (Fin x) (Fin c) = d -> dle d (Fin x) = true ->
  dadd d (Fin c) = d.
Proof.
  intros Hc Hd Hle. destruct d as [z|]; [|discriminate].
  pose proof (dadd_rounded _ _ _ Hd) as Hz.
  pose proof Hd as Hd'. rewrite dadd_Fin in Hd'.
  destruct (Z.leb_spec 1024 (Z.log2 (round_double (x + c)))) as [|Hl];
    [discriminate|].
  injection Hd' as Hd'. rewrite Hd' in Hl. simpl in Hle.
  apply Z.leb_le in Hle.
  assert (Hs : round_double (z + c) = z).
  { pose proof (round_double_mono (z + c) (x + c) ltac:(lia)).
    pose proof (round_double_mono z (z + c) ltac:(lia)). lia. }
  rewrite dadd_Fin, Hs.
  destruct (Z.leb_spec 1024 (Z.log2 z)); [lia | reflexivity].
Qed.

(** With non-negative terms only [0 + 0] is [0]. *)
Lemma dadd_zero_inv (x c : Z) :
  0 <= x -> 0 <= c -> dadd (Fin x) (Fin c) = Fin 0 -> x = 0 /\ c = 0.
Proof.
  intros Hx Hc H. apply dadd_Fin_inv in H.
  destruct H as (x' & c' & Ex & Ec & H).
  injection Ex as <-. injection Ec as <-.
  symmetry in H. apply round_double_zero in H; lia.
Qed.

Lemma dadd_le_zero (x c : Z) :
  0 <= x -> 0 <= c -> dle (dadd (Fin x) (Fin c)) (Fin 0) = true ->
  dadd (Fin x) (Fin c) = Fin 0.
Proof.
  intros Hx Hc H. destruct (dadd (Fin x) (Fin c)) as [z|] eqn:E;
    [|discriminate].
  apply dadd_nonneg in E; [|lia]. simpl in H. apply Z.leb_le in H.
  f_equal. lia.
Qed.

Lemma round_double_pow53 : round_double (2 ^ 53) = 2 ^ 53.
Proof. reflexivity. Qed.

(** A finite sum below [2^53] of non-negative terms is exact. *)
Lemma dadd_small (x y r : Z) :
  0 <= x + y -> dadd (Fin x) (Fin y) = Fin r -> r < 2 ^ 53 -> r = x + y.
Proof.
  intros Hs H Hr. apply dadd_Fin_inv in H.
  destruct H as (x' & y' & Ex & Ey & ->).
  injection Ex as <-. injection Ey as <-.
  destruct (Z.lt_ge_cases (x + y) (2 ^ 53)) as [Hlt|Hge].
  - apply round_double_exact. lia.
  - pose proof (round_double_mono _ _ Hge) as Hm.
    rewrite round_double_pow53 in Hm. lia.
Qed.

(** * Properties of the block workspace *)

Module BlockFacts.

Import BlockDataStructure.

(** ** The key index as a finite map *)

Lemma map_find_set_same {A : Type} (k : Z) (a : A) (m : IntMap A) :
  map_find k (map_set k a m) = Some a.
Proof.
  induction m as [|[k' a'] m IH]; simpl.
  - now rewrite Z.eqb_refl.
  - destruct (k <? k') eqn:Hlt; simpl.
    + now rewrite Z.eqb_refl.
    + destruct (k =? k') eqn:Heq; simpl.
      * now rewrite Z.eqb_refl.
      * now rewrite Heq.
Qed.

Lemma map_find_set_other {A : Type} (k k0 : Z) (a : A) (m : IntMap A) :
  k0 <> k -> map_find k0 (map_set k a m) = map_find k0 m.
Proof.
  intros Hne. induction m as [|[k' a'] m IH]; simpl.
  - destruct (k0 =? k) eqn:E; [apply Z.eqb_eq in E; contradiction | reflexivity].
  - destruct (k <? k') eqn:Hlt; simpl.
    + destruct (k0 =? k) eqn:E; [apply Z.eqb_eq in E; contradiction | reflexivity].
    + destruct (k =? k') eqn:Heq; simpl.
      * apply Z.eqb_eq in Heq. subst k'.
        destruct (k0 =? k) eqn:E; [apply Z.eqb_eq in E; contradiction | reflexivity].
      * destruct (k0 =? k'); [reflexivity | exact IH].
Qed.

Lemma map_find_erase_other {A : Type} (k k0 : Z) (m : IntMap A) :
  k0 <> k -> map_find k0 (map_erase k m) = map_find k0 m.
Proof.
  intros Hne. induction m as [|[k' a'] m IH]; simpl; [reflexivity|].
  destruct (k =? k') eqn:Heq; simpl.
  - apply Z.eqb_eq in Heq. subst k'.
    destruct (k0 =? k) eqn:E; [apply Z.eqb_eq in E; contradiction | reflexivity].
  - destruct (k0 =? k'); [reflexivity | exact IH].
Qed.

(** C9: [getValue] answers [+inf] for a key that is not in the key index
    and the indexed value for a key that is. *)
Theorem getValue_index (ds : t) (key : Z) :
  (map_find key (key_values ds) = None -> getValue ds key = INF) /\
  (forall v, map_find key (key_values ds) = Some v -> getValue ds key = v).
Proof.
  unfold getValue. split.
  - intros ->. reflexivity.
  - intros v ->. reflexivity.
Qed.

(** ** Occurrences of a key in the blocks *)

Definition has_key (k : Z) (kv : KeyValue) : bool := fst kv =? k.

Definition all_kv (ds : t) : list KeyValue :=
  all_elements (D0 ds) ++ all_elements (D1 ds).

Definition occ (k : Z) (ds : t) : list KeyValue :=
  filter (has_key k) (all_kv ds).

Lemma has_key_other (k k' : Z) (v : dist) :
  k' <> k -> has_key k' (k, v) = false.
Proof. intros H. unfold has_key. simpl. apply Z.eqb_neq. congruence. Qed.

Lemma filter_perm {A : Type} (f : A -> bool) (l l' : list A) :
  Permutation l l' -> Permutation (filter f l) (filter f l').
Proof.
  induction 1; simpl.
  - constructor.
  - destruct (f x); [constructor|]; assumption.
  - destruct (f x), (f y); try apply Permutation_refl. apply perm_swap.
  - eapply Permutation_trans; eassumption.
Qed.

Lemma erase_first_Some (k : Z) (l l' : list KeyValue) :
  erase_first k l = Some l' ->
  exists v, Permutation l ((k, v) :: l')
            /\ filter (has_key k) l = (k, v) :: filter (has_key k) l'.
Proof.
  revert l'. induction l as [|[k0 v0] l IH]; simpl; intros l' H; [discriminate|].
  unfold has_key at 1. simpl.
  destruct (k0 =? k) eqn:E.
  - injection H as <-. apply Z.eqb_eq in E. subst k0.
    exists v0. split; [apply Permutation_refl | reflexivity].
  - destruct (erase_first k l) as [r|] eqn:Er; [|discriminate].
    injection H as <-. destruct (IH r eq_refl) as (v & Hp & Hf).
    exists v. split.
    + eapply Permutation_trans; [apply perm_skip, Hp | apply perm_swap].
    + simpl. unfold has_key at 2. simpl. rewrite E. exact Hf.
Qed.

Lemma erase_first_None (k : Z) (l : list KeyValue) :
  erase_first k l = None -> filter (has_key k) l = [].
Proof.
  induction l as [|[k0 v0] l IH]; simpl; intros H; [reflexivity|].
  unfold has_key at 1. simpl.
  destruct (k0 =? k); [discriminate|].
  destruct (erase_first k l); [discriminate|]. now apply IH.
Qed.

Lemma erase_in_blocks_Some (k : Z) (bs bs' : list Block) :
  erase_in_blocks k bs = Some bs' ->
  length bs' = length bs /\
  exists v, Permutation (all_elements bs) ((k, v) :: all_elements bs')
            /\ filter (has_key k) (all_elements bs)
               = (k, v) :: filter (has_key k) (all_elements bs').
Proof.
  revert bs'. induction bs as [|b bs IH]; simpl; intros bs' H; [discriminate|].
  destruct (erase_first k (elements b)) as [els|] eqn:E.
  - injection H as <-. split; [reflexivity|].
    destruct (erase_first_Some _ _ _ E) as (v & Hp & Hf).
    exists v. simpl. split.
    + change ((k, v) :: els ++ all_elements bs)
        with (((k, v) :: els) ++ all_elements bs).
      apply Permutation_app_tail, Hp.
    + rewrite !filter_app, Hf. reflexivity.
  - destruct (erase_in_blocks k bs) as [r|] eqn:Er; [|discriminate].
    injection H as <-. destruct (IH r eq_refl) as (Hl & v & Hp & Hf).
    split; [simpl; congruence|].
    exists v. simpl. split.
    + eapply Permutation_trans; [apply Permutation_app_head, Hp|].
      apply Permutation_sym, Permutation_middle.
    + rewrite !filter_app, Hf, (erase_first_None _ _ E). reflexivity.
Qed.

Lemma erase_in_blocks_None (k : Z) (bs : list Block) :
  erase_in_blocks k bs = None -> filter (has_key k) (all_elements bs) = [].
Proof.
  induction bs as [|b bs IH]; simpl; intros H; [reflexivity|].
  destruct (erase_first k (elements b)) eqn:E; [discriminate|].
  destruct (erase_in_blocks k bs); [discriminate|].
  rewrite filter_app, (erase_first_None _ _ E), IH; reflexivity.
Qed.

(** What [removeKey] does to a key of the index: the index loses it and the
    blocks lose its first occurrence. *)
Lemma removeKey_present (ds : t) (k : Z) (v : dist) :
  map_find k (key_values ds) = Some v ->
  let ds' := removeKey ds k in
  M ds' = M ds /\ B ds' = B ds /\
  length (D0 ds') = length (D0 ds) /\ length (D1 ds') = length (D1 ds) /\
  key_values ds' = map_erase k (key_values ds) /\
  d1_upper_bounds ds' = d1_upper_bounds ds /\
  ((exists v0, Permutation (all_kv ds) ((k, v0) :: all_kv ds'))
   \/ (all_kv ds' = all_kv ds /\ occ k ds = [])).
Proof.
  intros Hf. unfold removeKey. rewrite Hf.
  destruct (erase_in_blocks k (D0 ds)) as [d0|] eqn:E0.
  - destruct (erase_in_blocks_Some _ _ _ E0) as (Hl & v0 & Hp & _).
    simpl. repeat split; auto. left. exists v0. unfold all_kv. simpl.
    change ((k, v0) :: all_elements d0 ++ all_elements (D1 ds))
      with (((k, v0) :: all_elements d0) ++ all_elements (D1 ds)).
    apply Permutation_app_tail, Hp.
  - destruct (erase_in_blocks k (D1 ds)) as [d1|] eqn:E1.
    + destruct (erase_in_blocks_Some _ _ _ E1) as (Hl & v0 & Hp & _).
      simpl. repeat split; auto. left. exists v0. unfold all_kv. simpl.
      eapply Permutation_trans; [apply Permutation_app_head, Hp|].
      apply Permutation_sym, Permutation_middle.
    + simpl. repeat split; auto. right. split; [reflexivity|].
      unfold occ, all_kv. rewrite filter_app.
      rewrite (erase_in_blocks_None _ _ E0), (erase_in_blocks_None _ _ E1).
      reflexivity.
Qed.

(** ** Sorting and splitting keep the elements *)

Lemma insert_by_value_perm (x : KeyValue) (l : list KeyValue) :
  Permutation (x :: l) (insert_by_value x l).
Proof.
  induction l as [|y l IH]; simpl; [apply Permutation_refl|].
  destruct (dlt (snd y) (snd x)); [|apply Permutation_refl].
  eapply Permutation_trans; [apply perm_swap | apply perm_skip, IH].
Qed.

Lemma sort_by_value_perm (l : list KeyValue) :
  Permutation l (sort_by_value l).
Proof.
  induction l as [|x l IH]; simpl; [constructor|].
  eapply Permutation_trans; [apply perm_skip, IH | apply insert_by_value_perm].
Qed.

Lemma all_elements_app (a b : list Block) :
  all_elements (a ++ b) = all_elements a ++ all_elements b.
Proof. apply flat_map_app. Qed.

Lemma nth_error_split_at {A : Type} (l : list A) (i : nat) (a : A) :
  nth_error l i = Some a -> l = firstn i l ++ a :: skipn (Datatypes.S i) l.
Proof.
  revert i. induction l as [|x l IH]; intros [|i] H; simpl in *;
    try discriminate.
  - now injection H as ->.
  - f_equal. now apply IH.
Qed.

Lemma upd_split_at {A : Type} (l : list A) (i : nat) (a b : A) :
  nth_error l i = Some a ->
  upd l i b = firstn i l ++ b :: skipn (Datatypes.S i) l.
Proof.
  revert i. induction l as [|x l IH]; intros [|i] H; simpl in *;
    try discriminate.
  - reflexivity.
  - f_equal. now apply IH.
Qed.

Lemma nth_error_upd_same {A : Type} (l : list A) (i : nat) (b : A) :
  (i < length l)%nat -> nth_error (upd l i b) i = Some b.
Proof.
  revert i. induction l as [|x l IH]; intros [|i] H; simpl in *; try lia.
  - reflexivity.
  - apply IH. lia.
Qed.

Lemma upd_length {A : Type} (l : list A) (i : nat) (b : A) :
  length (upd l i b) = length l.
Proof.
  revert i. induction l as [|x l IH]; intros [|i]; simpl; auto.
Qed.

Lemma push_back_at_spec (i : nat) (kv : KeyValue) (bs : list Block) :
  (i < length bs)%nat ->
  exists b,
    nth_error bs i = Some b /\
    nth_error (push_back_at i kv bs) i
      = Some (mkBlock (elements b ++ [kv]) (upper_bound b)) /\
    length (push_back_at i kv bs) = length bs /\
    Permutation (all_elements (push_back_at i kv bs)) (kv :: all_elements bs).
Proof.
  intros Hi. unfold push_back_at.
  destruct (nth_error bs i) as [b|] eqn:E.
  2:{ apply nth_error_None in E. lia. }
  exists b. split; [reflexivity|]. split; [now apply nth_error_upd_same|].
  split; [apply upd_length|].
  rewrite (upd_split_at _ _ _ _ E).
  pose proof (nth_error_split_at _ _ _ E) as Hs.
  set (pre := firstn i bs) in *. set (post := skipn (Datatypes.S i) bs) in *.
  assert (Hp : Permutation
            (all_elements
               (pre ++ mkBlock (elements b ++ [kv]) (upper_bound b) :: post))
            (kv :: all_elements (pre ++ b :: post))).
  { rewrite !all_elements_app.
    change (all_elements (mkBlock (elements b ++ [kv]) (upper_bound b) :: post))
      with ((elements b ++ [kv]) ++ all_elements post).
    change (all_elements (b :: post)) with (elements b ++ all_elements post).
    eapply Permutation_trans; [|apply Permutation_sym, Permutation_middle].
    apply Permutation_app_head.
    rewrite <- app_assoc. simpl.
    apply Permutation_sym, Permutation_middle. }
  rewrite <- Hs in Hp. exact Hp.
Qed.

Lemma find_first_block_lt (v : dist) (bs : list Block) (i : nat) :
  find_first_block v bs = Some i -> (i < length bs)%nat.
Proof.
  revert i. induction bs as [|b bs IH]; simpl; intros i H; [discriminate|].
  destruct (dle v (upper_bound b)).
  - injection H as <-. lia.
  - destruct (find_first_block v bs); [|discriminate].
    injection H as <-. specialize (IH _ eq_refl). lia.
Qed.

Lemma findBlockForValue_total (ds : t) (v : dist) :
  D1 ds <> [] ->
  exists i, findBlockForValue ds v = Ok i /\ (i < length (D1 ds))%nat.
Proof.
  intros Hne. unfold findBlockForValue.
  destruct (find_first_block v (D1 ds)) as [i|] eqn:E.
  - exists i. split; [reflexivity | eapply find_first_block_lt; eauto].
  - destruct (D1 ds) as [|b bs]; [contradiction|].
    eexists. split; [reflexivity|]. simpl. lia.
Qed.

Lemma splitBlock_total (ds : t) (i : nat) :
  1 <= M ds -> (i < length (D1 ds))%nat ->
  exists ds',
    splitBlock ds i = Ok ds' /\
    M ds' = M ds /\ B ds' = B ds /\ D0 ds' = D0 ds /\
    key_values ds' = key_values ds /\ D1 ds' <> [] /\
    Permutation (all_elements (D1 ds')) (all_elements (D1 ds)).
Proof.
  intros HM Hi. unfold splitBlock.
  destruct (nth_error (D1 ds) i) as [block|] eqn:E.
  2:{ apply nth_error_None in E. lia. }
  destruct (Z.leb_spec (Z.of_nat (length (elements block))) (M ds)) as [Hle|Hgt].
  - exists ds. repeat split; auto.
    intros H0. rewrite H0 in Hi. simpl in Hi. lia.
  - pose proof (sort_by_value_perm (elements block)) as Hp.
    pose proof (Permutation_length Hp) as Hlen.
    set (elems := sort_by_value (elements block)) in *.
    assert (H2 : (2 <= length elems)%nat) by lia.
    destruct (Nat.div (length elems) 2) as [|mid1] eqn:Emid.
    { apply Nat.div_small_iff in Emid; lia. }
    assert (Hm : (Datatypes.S mid1 <= length elems)%nat).
    { rewrite <- Emid. apply Nat.Div0.div_le_upper_bound. lia. }
    destruct (nth_error elems mid1) as [kv|] eqn:Ekv.
    2:{ apply nth_error_None in Ekv. lia. }
    eexists. split; [reflexivity|]. cbn [M B D0 D1 key_values].
    repeat split; auto.
    + intros H0. apply (f_equal (@length _)) in H0.
      rewrite length_app in H0. simpl in H0. lia.
    + pose proof (nth_error_split_at _ _ _ E) as Hs.
      set (pre := firstn i (D1 ds)) in *.
      set (post := skipn (Datatypes.S i) (D1 ds)) in *.
      match goal with |- Permutation _ ?r => replace r
        with (all_elements (pre ++ block :: post)) by (now rewrite <- Hs) end.
      rewrite !all_elements_app.
      apply Permutation_app_head.
      unfold all_elements. cbn [flat_map elements].
      rewrite app_assoc. apply Permutation_app_tail.
      rewrite firstn_skipn.
      apply Permutation_sym, Hp.
Qed.

Lemma insert_fresh_total (ds : t) (k : Z) (v : dist) :
  1 <= M ds -> D1 ds <> [] ->
  exists ds',
    insert_fresh ds k v = Ok ds' /\
    M ds' = M ds /\ B ds' = B ds /\ D0 ds' = D0 ds /\ D1 ds' <> [] /\
    key_values ds' = map_set k v (key_values ds) /\
    Permutation (all_kv ds') ((k, v) :: all_kv ds).
Proof.
  intros HM Hne. unfold insert_fresh.
  destruct (findBlockForValue_total
              (mk (M ds) (B ds) (N ds) (D0 ds) (D1 ds)
                  (map_set k v (key_values ds)) (d1_upper_bounds ds)) v Hne)
    as (i & Hi & Hlt).
  rewrite Hi. simpl in *.
  destruct (push_back_at_spec i (k, v) (D1 ds) Hlt)
    as (b & Hb & Hnth & Hlen & Hperm).
  rewrite Hnth. simpl.
  assert (Hkv : Permutation
            (all_elements (D0 ds) ++ all_elements (push_back_at i (k, v) (D1 ds)))
            ((k, v) :: all_elements (D0 ds) ++ all_elements (D1 ds))).
  { eapply Permutation_trans; [apply Permutation_app_head, Hperm|].
    apply Permutation_sym, Permutation_middle. }
  match goal with |- context [if ?c then _ else _] => destruct c end.
  - match goal with |- context [splitBlock ?d i] =>
      destruct (splitBlock_total d i) as (ds' & Hs & HM' & HB' & HD0 & Hk & Hn & Hp)
    end; simpl; auto; try lia.
    exists ds'. split; [exact Hs|]. simpl in *. repeat split; auto.
    unfold all_kv. rewrite HD0.
    eapply Permutation_trans; [apply Permutation_app_head, Hp | exact Hkv].
  - eexists. split; [reflexivity|]. simpl. repeat split; auto.
    intros H0. rewrite H0 in Hlen. simpl in Hlen.
    destruct (D1 ds); [contradiction | discriminate].
Qed.

(** C8: inserting a present key with a value that is not smaller leaves the
    workspace as it is; with a smaller value the old occurrence leaves the
    blocks and the key is stored with the new value, the other keys being
    kept. *)
Theorem insert_present_key (ds : t) (k : Z) (v v' : dist) :
  map_find k (key_values ds) = Some v ->
  (dle v v' = true -> insert ds k v' = Ok ds) /\
  (dlt v' v = true -> 1 <= M ds -> D1 ds <> [] -> occ k ds = [(k, v)] ->
   exists ds',
     insert ds k v' = Ok ds' /\
     occ k ds' = [(k, v')] /\ getValue ds' k = v' /\
     forall k', k' <> k ->
       getValue ds' k' = getValue ds k' /\
       Permutation (occ k' ds') (occ k' ds)).
Proof.
  intros Hf. split.
  - intros Hle. unfold insert. rewrite Hf.
    rewrite dlt_negb_dle, Hle. reflexivity.
  - intros Hlt HM Hne Hocc. unfold insert. rewrite Hf, Hlt.
    destruct (removeKey_present ds k v Hf)
      as (HM1 & HB1 & HL0 & HL1 & Hkv1 & _ & Hrem).
    set (ds1 := removeKey ds k) in *.
    assert (Hne1 : D1 ds1 <> []).
    { intros H0. rewrite H0 in HL1. destruct (D1 ds); [contradiction|discriminate]. }
    destruct (insert_fresh_total ds1 k v' ltac:(lia) Hne1)
      as (ds' & Hins & _ & _ & _ & _ & Hkv' & Hperm).
    exists ds'. split; [exact Hins|].
    assert (Hrem' : Permutation (all_kv ds) ((k, v) :: all_kv ds1)).
    { destruct Hrem as [(v0 & Hp) | (Heq & Hnil)].
      - assert (Hv0 : In (k, v0) (occ k ds)).
        { unfold occ. apply filter_In. split.
          - eapply Permutation_in; [apply Permutation_sym, Hp | left; reflexivity].
          - unfold has_key. simpl. apply Z.eqb_refl. }
        rewrite Hocc in Hv0. destruct Hv0 as [Hv0|[]]. now injection Hv0 as <-.
      - rewrite Hnil in Hocc. discriminate. }
    assert (Hocc1 : occ k ds1 = []).
    { pose proof (filter_perm (has_key k) _ _ Hrem') as Hp.
      fold (occ k ds) in Hp. rewrite Hocc in Hp. simpl in Hp.
      unfold has_key at 1 in Hp. simpl in Hp. rewrite Z.eqb_refl in Hp.
      apply Permutation_length in Hp. simpl in Hp.
      unfold occ. destruct (filter (has_key k) (all_kv ds1)); [reflexivity|].
      simpl in Hp. lia. }
    split; [|split].
    + pose proof (filter_perm (has_key k) _ _ Hperm) as Hp.
      simpl in Hp. unfold has_key at 2 in Hp. simpl in Hp.
      rewrite Z.eqb_refl in Hp. fold (occ k ds1) in Hp. rewrite Hocc1 in Hp.
      apply Permutation_sym, Permutation_length_1_inv in Hp. exact Hp.
    + unfold getValue. rewrite Hkv', map_find_set_same. reflexivity.
    + intros k' Hk'. split.
      * unfold getValue. rewrite Hkv', Hkv1.
        rewrite map_find_set_other, map_find_erase_other by assumption.
        reflexivity.
      * unfold occ.
        eapply Permutation_trans; [apply filter_perm, Hperm|].
        simpl. rewrite has_key_other by assumption.
        eapply Permutation_trans;
          [|apply Permutation_sym, (filter_perm (has_key k')), Hrem'].
        simpl. rewrite has_key_other by assumption. apply Permutation_refl.
Qed.

(** ** The operations add no element of their own

    After an operation every element of a block was in a block before or is
    one of the inserted items, and [pull] returns keys of the blocks. *)

Lemma erase_first_incl (k : Z) (l l' : list KeyValue) :
  erase_first k l = Some l' -> incl l' l.
Proof.
  intros H. destruct (erase_first_Some _ _ _ H) as (v & Hp & _).
  intros x Hx. eapply Permutation_in; [apply Permutation_sym, Hp|].
  now right.
Qed.

Lemma erase_in_blocks_incl (k : Z) (bs bs' : list Block) :
  erase_in_blocks k bs = Some bs' -> incl (all_elements bs') (all_elements bs).
Proof.
  intros H. destruct (erase_in_blocks_Some _ _ _ H) as (_ & v & Hp & _).
  intros x Hx. eapply Permutation_in; [apply Permutation_sym, Hp|].
  now right.
Qed.

Lemma removeKey_incl (ds : t) (k : Z) :
  incl (all_kv (removeKey ds k)) (all_kv ds).
Proof.
  unfold removeKey. destruct (map_find k (key_values ds)); [|apply incl_refl].
  destruct (erase_in_blocks k (D0 ds)) as [d0|] eqn:E0.
  - unfold all_kv; simpl. apply incl_app; [|apply incl_appr, incl_refl].
    apply incl_appl. eapply erase_in_blocks_incl; eauto.
  - destruct (erase_in_blocks k (D1 ds)) as [d1|] eqn:E1.
    + unfold all_kv; simpl. apply incl_app; [apply incl_appl, incl_refl|].
      apply incl_appr. eapply erase_in_blocks_incl; eauto.
    + apply incl_refl.
Qed.

Lemma removeKey_fields (ds : t) (k : Z) :
  M (removeKey ds k) = M ds /\ B (removeKey ds k) = B ds.
Proof.
  unfold removeKey. destruct (map_find k (key_values ds)); [|auto].
  destruct (erase_in_blocks k (D0 ds)); [auto|].
  destruct (erase_in_blocks k (D1 ds)); auto.
Qed.

Lemma push_back_at_incl (i : nat) (kv : KeyValue) (bs : list Block) :
  incl (all_elements (push_back_at i kv bs)) (kv :: all_elements bs).
Proof.
  destruct (Nat.lt_ge_cases i (length bs)) as [Hlt|Hge].
  - destruct (push_back_at_spec i kv bs Hlt) as (b & _ & _ & _ & Hp).
    intros x Hx. eapply Permutation_in; eauto.
  - unfold push_back_at. apply nth_error_None in Hge. rewrite Hge.
    apply incl_tl, incl_refl.
Qed.

Lemma splitBlock_Ok (ds ds' : t) (i : nat) :
  splitBlock ds i = Ok ds' ->
  M ds' = M ds /\ B ds' = B ds /\ D0 ds' = D0 ds /\
  key_values ds' = key_values ds /\
  Permutation (all_elements (D1 ds')) (all_elements (D1 ds)).
Proof.
  unfold splitBlock. intros H.
  destruct (nth_error (D1 ds) i) as [block|] eqn:E; [|discriminate].
  destruct (Z.of_nat (length (elements block)) <=? M ds).
  { injection H as <-. repeat split; auto. }
  pose proof (sort_by_value_perm (elements block)) as Hp.
  set (elems := sort_by_value (elements block)) in *.
  destruct (Nat.div (length elems) 2) as [|mid1] eqn:Emid; [discriminate|].
  destruct (nth_error elems mid1) as [kv|] eqn:Ekv; [|discriminate].
  injection H as <-. cbn [M B D0 D1 key_values]. repeat split; auto.
  pose proof (nth_error_split_at _ _ _ E) as Hs.
  set (pre := firstn i (D1 ds)) in *.
  set (post := skipn (Datatypes.S i) (D1 ds)) in *.
  match goal with |- Permutation _ ?r => replace r
    with (all_elements (pre ++ block :: post)) by (now rewrite <- Hs) end.
  rewrite !all_elements_app.
  apply Permutation_app_head.
  unfold all_elements. cbn [flat_map elements].
  rewrite app_assoc. apply Permutation_app_tail.
  change (Permutation (firstn (Datatypes.S mid1) elems
                         ++ skipn (Datatypes.S mid1) elems) (elements block)).
  rewrite firstn_skipn.
  apply Permutation_sym, Hp.
Qed.

Lemma insert_fresh_Ok (ds ds' : t) (k : Z) (v : dist) :
  insert_fresh ds k v = Ok ds' ->
  M ds' = M ds /\ B ds' = B ds /\ D0 ds' = D0 ds /\
  key_values ds' = map_set k v (key_values ds) /\
  incl (all_kv ds') ((k, v) :: all_kv ds).
Proof.
  unfold insert_fresh. intros H. bind_inv H as i Ei.
  cbn [D1 key_values M] in H.
  destruct (nth_error (push_back_at i (k, v) (D1 ds)) i) as [b|]; [|discriminate].
  assert (Hi : incl (all_elements (D0 ds)
                       ++ all_elements (push_back_at i (k, v) (D1 ds)))
                    ((k, v) :: all_kv ds)).
  { apply incl_app.
    - apply incl_tl, incl_appl, incl_refl.
    - intros x Hx. apply push_back_at_incl in Hx.
      destruct Hx as [<-|Hx]; [now left | right].
      apply in_or_app. now right. }
  destruct (M ds <? Z.of_nat (length (elements b))).
  - apply splitBlock_Ok in H. cbn [M B D0 D1 key_values] in H.
    destruct H as (HM & HB & HD0 & Hk & Hp). repeat split; auto.
    unfold all_kv at 1. rewrite HD0.
    intros x Hx. apply Hi. apply in_app_or in Hx. apply in_or_app.
    destruct Hx as [Hx|Hx]; [now left | right].
    eapply Permutation_in; eauto.
  - injection H as <-. cbn [M B D0 D1 key_values]. repeat split; auto.
Qed.

Lemma insert_Ok (ds ds' : t) (k : Z) (v : dist) :
  insert ds k v = Ok ds' ->
  M ds' = M ds /\ B ds' = B ds /\ incl (all_kv ds') ((k, v) :: all_kv ds).
Proof.
  unfold insert. intros H.
  destruct (map_find k (key_values ds)) as [old|].
  - destruct (dlt v old).
    + apply insert_fresh_Ok in H. destruct H as (HM & HB & _ & _ & Hi).
      destruct (removeKey_fields ds k) as [HM' HB'].
      repeat split; try congruence.
      intros x Hx. apply Hi in Hx. destruct Hx as [<-|Hx]; [now left|right].
      eapply removeKey_incl; eauto.
    + injection H as <-. repeat split; auto. apply incl_tl, incl_refl.
  - apply insert_fresh_Ok in H. destruct H as (HM & HB & _ & _ & Hi). auto.
Qed.

Lemma map_set_In {A : Type} (k : Z) (a : A) (m : IntMap A) (x : Z * A) :
  In x (map_set k a m) -> x = (k, a) \/ In x m.
Proof.
  induction m as [|[k' a'] m IH]; simpl.
  - intuition.
  - destruct (k <? k'); simpl; [intuition|].
    destruct (k =? k'); simpl; intuition.
Qed.

Lemma unique_items_incl (items : list KeyValue) :
  incl (unique_items items) items.
Proof.
  unfold unique_items.
  assert (H : forall l u, incl u items -> incl l items ->
            incl (fold_left
                    (fun (u : IntMap dist) (kv : KeyValue) =>
                       match map_find (fst kv) u with
                       | None => map_set (fst kv) (snd kv) u
                       | Some old =>
                           if dlt (snd kv) old
                           then map_set (fst kv) (snd kv) u else u
                       end) l u) items).
  { induction l as [|kv l IH]; simpl; intros u Hu Hl; [exact Hu|].
    apply IH; [|intros x Hx; apply Hl; now right].
    assert (Hs : incl (map_set (fst kv) (snd kv) u) items).
    { intros x Hx. apply map_set_In in Hx. destruct Hx as [->|Hx]; [|auto].
      apply Hl. left. now destruct kv. }
    destruct (map_find (fst kv) u); [|exact Hs].
    destruct (dlt (snd kv) d); [exact Hs | exact Hu]. }
  apply H; [intros x [] | apply incl_refl].
Qed.

Lemma check_existing_fold (l : list KeyValue) :
  forall (ds : t) (to_add : list KeyValue) (ds' : t) (to_add' : list KeyValue),
  fold_left check_existing l (ds, to_add) = (ds', to_add') ->
  M ds' = M ds /\ B ds' = B ds /\
  incl (all_kv ds') (all_kv ds) /\ incl to_add' (to_add ++ l).
Proof.
  induction l as [|kv l IH]; simpl; intros ds to_add ds' to_add' H.
  - injection H as <- <-. repeat split; auto; try apply incl_refl.
    rewrite app_nil_r. apply incl_refl.
  - destruct (removeKey_fields ds (fst kv)) as [HM HB].
    pose proof (removeKey_incl ds (fst kv)) as Hi.
    destruct (map_find (fst kv) (key_values ds)) as [old|].
    + destruct (dlt (snd kv) old).
      * apply IH in H. destruct H as (HM' & HB' & Hi' & Ht).
        cbn [set_key M B] in *. repeat split; try congruence.
        -- intros x Hx. apply Hi, Hi', Hx.
        -- rewrite <- app_assoc in Ht. exact Ht.
      * apply IH in H. destruct H as (HM' & HB' & Hi' & Ht).
        repeat split; auto.
        intros x Hx. apply Ht in Hx. apply in_app_or in Hx.
        apply in_or_app. destruct Hx; [now left | right; now right].
    + apply IH in H. destruct H as (HM' & HB' & Hi' & Ht).
      cbn [set_key M B] in *. repeat split; auto.
      rewrite <- app_assoc in Ht. exact Ht.
Qed.

Lemma make_blocks_incl (fuel : nat) (per_block : Z) :
  forall (rest : list KeyValue) (bs : list Block),
  make_blocks fuel per_block rest = Ok bs -> incl (all_elements bs) rest.
Proof.
  induction fuel as [|f IH]; intros rest bs H; destruct rest as [|x rest];
    simpl in H; try discriminate.
  - injection H as <-. intros y [].
  - injection H as <-. intros y [].
  - bind_inv H as bs' E. injection H as <-.
    apply IH in E. simpl. intros y Hy. apply in_app_or in Hy.
    destruct Hy as [Hy|Hy].
    + eapply In_firstn. exact Hy.
    + apply E in Hy. eapply In_skipn. exact Hy.
Qed.

Lemma batchPrepend_Ok (ds ds' : t) (items : list KeyValue) :
  batchPrepend ds items = Ok ds' ->
  M ds' = M ds /\ B ds' = B ds /\ incl (all_kv ds') (items ++ all_kv ds).
Proof.
  unfold batchPrepend. intros H.
  destruct items as [|it items].
  { injection H as <-. repeat split; auto. apply incl_refl. }
  set (its := it :: items) in *.
  destruct (fold_left check_existing (unique_items its) (ds, []))
    as [ds1 to_add0] eqn:Ef.
  apply check_existing_fold in Ef. destruct Ef as (HM & HB & Hi & Ht).
  simpl in Ht.
  assert (Hta : incl to_add0 its).
  { intros x Hx. apply unique_items_incl, Ht, Hx. }
  destruct to_add0 as [|a0 to_add0].
  { injection H as <-. repeat split; auto. apply incl_appr, Hi. }
  set (ta := a0 :: to_add0) in *.
  assert (Hs : incl (sort_by_value ta) its).
  { intros x Hx. apply Hta.
    eapply Permutation_in; [apply Permutation_sym, sort_by_value_perm | exact Hx]. }
  destruct (Z.of_nat (length (sort_by_value ta)) <=? M ds1).
  - injection H as <-. cbn [M B]. repeat split; auto.
    unfold all_kv. cbn [D0 D1 all_elements flat_map elements].
    fold (all_elements (D0 ds1)).
    intros x Hx. apply in_or_app. rewrite <- app_assoc in Hx.
    apply in_app_or in Hx. destruct Hx as [Hx|Hx]; [left; auto|right].
    apply Hi, Hx.
  - bind_inv H as half Eh. bind_inv H as nb En. bind_inv H as pb Ep.
    bind_inv H as nbs Em. injection H as <-. cbn [M B]. repeat split; auto.
    apply make_blocks_incl in Em.
    unfold all_kv. cbn [D0 D1]. rewrite all_elements_app.
    intros x Hx. apply in_or_app. rewrite <- app_assoc in Hx.
    apply in_app_or in Hx. destruct Hx as [Hx|Hx]; [left; auto|right].
    apply Hi, Hx.
Qed.

Lemma collect_incl (m c : Z) (bs : list Block) :
  incl (collect m c bs) (all_elements bs).
Proof.
  revert c. induction bs as [|b bs IH]; intros c; simpl; [apply incl_refl|].
  apply incl_app; [apply incl_appl, incl_refl|].
  destruct (m <=? c + Z.of_nat (length (elements b))).
  - intros x [].
  - apply incl_appr, IH.
Qed.

Lemma fold_removeKey_incl (keys : list Z) (ds : t) :
  incl (all_kv (fold_left removeKey keys ds)) (all_kv ds) /\
  M (fold_left removeKey keys ds) = M ds /\
  B (fold_left removeKey keys ds) = B ds.
Proof.
  revert ds. induction keys as [|k keys IH]; intros ds; simpl.
  - repeat split; auto. apply incl_refl.
  - destruct (IH (removeKey ds k)) as (Hi & HM & HB).
    destruct (removeKey_fields ds k) as [HM' HB'].
    repeat split; try congruence.
    intros x Hx. eapply removeKey_incl, Hi, Hx.
Qed.

Lemma pull_incl (ds ds' : t) (keys : list Z) (sep : dist) :
  pull ds = ((keys, sep), ds') ->
  M ds' = M ds /\ B ds' = B ds /\
  incl (all_kv ds') (all_kv ds) /\
  forall k, In k keys -> exists v, In (k, v) (all_kv ds).
Proof.
  unfold pull. intros H.
  destruct (collect (M ds) 0 (D0 ds) ++ collect (M ds) 0 (D1 ds))
    as [|c0 cs] eqn:Ec.
  { injection H as <- <- <-. repeat split; auto; [apply incl_refl|].
    intros k []. }
  rewrite <- Ec in H. injection H as <- <- <-.
  match goal with |- context [fold_left removeKey ?ks ds] =>
    destruct (fold_removeKey_incl ks ds) as (Hi & HM & HB) end.
  repeat split; auto.
  intros k Hk. apply in_map_iff in Hk. destruct Hk as ([k' v] & <- & Hin).
  exists v. simpl.
  apply In_firstn in Hin.
  eapply Permutation_in in Hin; [|apply Permutation_sym, sort_by_value_perm].
  apply in_app_or in Hin. apply in_or_app.
  destruct Hin as [Hin|Hin]; [left|right]; eapply collect_incl; eauto.
Qed.

(** ** A workspace that holds a single key *)

Definition holds_only (ds : t) (k : Z) (v : dist) : Prop :=
  all_kv ds = [(k, v)] /\ key_values ds = [(k, v)].

Definition holds_nothing (ds : t) : Prop :=
  all_kv ds = [] /\ key_values ds = [].

Lemma collect_all (m : Z) (bs : list Block) :
  forall c, c + Z.of_nat (length (all_elements bs)) <= m ->
  collect m c bs = all_elements bs.
Proof.
  induction bs as [|b bs IH]; intros c Hc; simpl; [reflexivity|].
  simpl in Hc. rewrite length_app in Hc.
  destruct (Z.leb_spec m (c + Z.of_nat (length (elements b)))).
  - assert (Hn : length (all_elements bs) = 0%nat) by lia.
    apply length_zero_iff_nil in Hn. now rewrite Hn.
  - rewrite IH by lia. reflexivity.
Qed.

Lemma all_elements_nil_empty (bs : list Block) :
  all_elements bs = [] -> forallb block_empty bs = true.
Proof.
  induction bs as [|b bs IH]; simpl; intros H; [reflexivity|].
  apply app_eq_nil in H. destruct H as [Hb Hbs].
  unfold block_empty at 1. rewrite Hb. simpl. auto.
Qed.

Lemma holds_nothing_empty (ds : t) : holds_nothing ds -> empty ds = true.
Proof.
  intros [H _]. unfold all_kv in H. apply app_eq_nil in H.
  destruct H as [H0 H1]. unfold empty.
  rewrite (all_elements_nil_empty _ H0), (all_elements_nil_empty _ H1).
  reflexivity.
Qed.

Lemma empty_all_elements (bs : list Block) :
  forallb block_empty bs = true -> all_elements bs = [].
Proof.
  induction bs as [|b bs IH]; simpl; intros H; [reflexivity|].
  apply andb_true_iff in H. destruct H as [Hb Hbs].
  unfold block_empty in Hb. destruct (elements b); [|discriminate].
  simpl. auto.
Qed.

Lemma holds_only_not_empty (ds : t) (k : Z) (v : dist) :
  holds_only ds k v -> empty ds = false.
Proof.
  intros [H _]. destruct (empty ds) eqn:E; [|reflexivity].
  unfold empty in E. apply andb_true_iff in E. destruct E as [E0 E1].
  unfold all_kv in H.
  rewrite (empty_all_elements _ E0), (empty_all_elements _ E1) in H.
  discriminate.
Qed.

Lemma removeKey_only (ds : t) (k : Z) (v : dist) :
  holds_only ds k v -> holds_nothing (removeKey ds k).
Proof.
  intros [Ha Hk].
  assert (Hf : map_find k (key_values ds) = Some v).
  { rewrite Hk. simpl. now rewrite Z.eqb_refl. }
  destruct (removeKey_present ds k v Hf) as (_ & _ & _ & _ & Hkv & _ & Hrem).
  split.
  - destruct Hrem as [(v0 & Hp) | (_ & Hnil)].
    + rewrite Ha in Hp. apply Permutation_length in Hp. simpl in Hp.
      destruct (all_kv (removeKey ds k)); [reflexivity | simpl in Hp; lia].
    + unfold occ in Hnil. rewrite Ha in Hnil. simpl in Hnil.
      unfold has_key in Hnil. simpl in Hnil. rewrite Z.eqb_refl in Hnil.
      discriminate.
  - rewrite Hkv, Hk. simpl. now rewrite Z.eqb_refl.
Qed.

Lemma sort_by_value_single (kv : KeyValue) : sort_by_value [kv] = [kv].
Proof. reflexivity. Qed.

Lemma pull_only (ds : t) (k : Z) (v : dist) :
  1 <= M ds -> holds_only ds k v ->
  exists ds',
    pull ds = (([k], B ds), ds') /\ holds_nothing ds' /\
    M ds' = M ds /\ B ds' = B ds.
Proof.
  intros HM Hh. pose proof Hh as [Ha Hk].
  assert (Hl : (length (all_elements (D0 ds))
                + length (all_elements (D1 ds)) = 1)%nat).
  { unfold all_kv in Ha. apply (f_equal (@length _)) in Ha.
    rewrite length_app in Ha. exact Ha. }
  unfold pull.
  rewrite (collect_all (M ds) (D0 ds) 0) by lia.
  rewrite (collect_all (M ds) (D1 ds) 0) by lia.
  fold (all_kv ds). rewrite Ha.
  cbv zeta. rewrite sort_by_value_single.
  match goal with |- context [Z.to_nat ?e] =>
    assert (Ht : Z.to_nat e = 1%nat) by (simpl; lia); rewrite Ht
  end.
  cbn [firstn map fst fold_left nth_error].
  pose proof (removeKey_only ds k v Hh) as Hn.
  destruct (removeKey_fields ds k) as [HM' HB'].
  rewrite (holds_nothing_empty _ Hn), HB'.
  exists (removeKey ds k). auto.
Qed.

Lemma batchPrepend_only (ds : t) (k : Z) (v : dist) :
  1 <= M ds -> holds_nothing ds ->
  exists ds',
    batchPrepend ds [(k, v)] = Ok ds' /\ holds_only ds' k v /\
    M ds' = M ds /\ B ds' = B ds.
Proof.
  intros HM [Ha Hk]. unfold batchPrepend, unique_items.
  cbn [fold_left map_find fst snd map_set check_existing].
  rewrite Hk. cbn [map_find set_key app sort_by_value insert_by_value length
                   M B D0 D1 key_values map_set].
  destruct (Z.leb_spec (Z.of_nat 1) (M ds)) as [_|Hlt]; [|simpl in Hlt; lia].
  eexists. split; [reflexivity|].
  unfold holds_only, all_kv. cbn [M B D0 D1 key_values].
  split; [|split; reflexivity]. split; [|rewrite Hk; reflexivity].
  unfold all_kv in Ha. cbn [all_elements flat_map elements app].
  fold (all_elements (D0 ds)). fold (all_elements (D1 ds)).
  rewrite Ha. reflexivity.
Qed.

Lemma insert_initial (m : Z) (b : dist) (max_n k : Z) (v : dist) :
  dle v b = true ->
  exists ds,
    insert (initialize ctor m b max_n) k v = Ok ds /\ holds_only ds k v /\
    M ds = Z.max 1 m /\ B ds = b.
Proof.
  intros Hle. unfold insert, initialize.
  cbn [key_values map_find]. unfold insert_fresh, findBlockForValue.
  cbn [D1 find_first_block upper_bound bind M B N D0 key_values
       d1_upper_bounds map_set].
  rewrite Hle. cbn [bind push_back_at nth_error upd elements upper_bound app
                    length D1].
  destruct (Z.ltb_spec (Z.max 1 m) (Z.of_nat 1)) as [Hlt|_]; [simpl in Hlt; lia|].
  eexists. split; [reflexivity|].
  unfold holds_only, all_kv. cbn. auto.
Qed.

(** ** Block capacity one *)

(** X20: on a workspace whose block size is one, [batchPrepend] of two
    keys that are not stored is undefined: it divides by [M / 2 = 0]. *)
Lemma batchPrepend_two_fresh (ds : t) (k1 k2 : Z) (v1 v2 : dist) :
  M ds = 1 -> k1 <> k2 ->
  map_find k1 (key_values ds) = None ->
  map_find k2 (key_values ds) = None ->
  batchPrepend ds [(k1, v1); (k2, v2)] = Undefined.
Proof.
  intros HM Hne H1 H2.
  assert (Hgo : forall a b va vb, a < b ->
            map_find a (key_values ds) = None ->
            map_find b (key_values ds) = None ->
            unique_items [(k1, v1); (k2, v2)] = [(a, va); (b, vb)] ->
            batchPrepend ds [(k1, v1); (k2, v2)] = Undefined).
  { intros a b va vb Hab Ha Hb Hu.
    assert (Hf : fold_left check_existing [(a, va); (b, vb)] (ds, [])
                 = (set_key (set_key ds a va) b vb, [(a, va); (b, vb)])).
    { cbn [fold_left]. unfold check_existing. cbn [fst snd].
      rewrite Ha. cbn [set_key key_values].
      rewrite map_find_set_other by lia. rewrite Hb. reflexivity. }
    unfold batchPrepend. rewrite Hu, Hf.
    cbn [set_key M D0 D1 B N key_values d1_upper_bounds].
    match goal with |- context [sort_by_value ?l] =>
      pose proof (Permutation_length (sort_by_value_perm l)) as Hlen;
      destruct (sort_by_value l) as [|x [|y [|z r]]] eqn:Es;
      simpl in Hlen; try discriminate
    end.
    cbv zeta. cbn [length]. rewrite HM. reflexivity. }
  unfold unique_items in Hgo. cbn [fold_left map_find fst snd map_set] in Hgo.
  destruct (Z.eqb_spec k2 k1) as [Heq|_]; [now elim Hne|].
  destruct (Z.ltb_spec k2 k1) as [Hlt|Hge].
  - apply (Hgo k2 k1 v2 v1); auto.
  - apply (Hgo k1 k2 v1 v2); auto. lia.
Qed.

End BlockFacts.

(** * The separator returned by [pull] *)

Module PullFacts.

Import BlockDataStructure BlockFacts.

(** ** The key index is sorted by key *)

Fixpoint map_sorted {A : Type} (m : IntMap A) : Prop :=
  match m with
  | [] => True
  | (k, _) :: m' => (forall x, In x m' -> k < fst x) /\ map_sorted m'
  end.

Lemma map_set_sorted {A : Type} (k : Z) (a : A) (m : IntMap A) :
  map_sorted m -> map_sorted (map_set k a m).
Proof.
  induction m as [|[k' a'] m IH]; simpl.
  { intros _. split; [intros x [] | exact I]. }
  intros [Hlt Hs].
  destruct (Z.ltb_spec k k') as [Hk|Hk]; simpl.
  - split; [|auto]. intros x [<-|Hx]; [exact Hk|].
    specialize (Hlt x Hx). lia.
  - destruct (Z.eqb_spec k k') as [->|Hne]; simpl; [auto|].
    split; [|auto]. intros x Hx. apply map_set_In in Hx.
    destruct Hx as [->|Hx]; [simpl; lia | auto].
Qed.

Lemma map_erase_In {A : Type} (k : Z) (m : IntMap A) (x : Z * A) :
  In x (map_erase k m) -> In x m.
Proof.
  induction m as [|[k' a'] m IH]; simpl; [auto|].
  destruct (k =? k'); simpl; intuition.
Qed.

Lemma map_erase_sorted {A : Type} (k : Z) (m : IntMap A) :
  map_sorted m -> map_sorted (map_erase k m).
Proof.
  induction m as [|[k' a'] m IH]; simpl; [auto|]. intros [Hlt Hs].
  destruct (k =? k'); simpl; [exact Hs|].
  split; [|auto]. intros x Hx. apply Hlt. eapply map_erase_In; eauto.
Qed.

Lemma map_find_absent {A : Type} (k : Z) (m : IntMap A) :
  (forall x, In x m -> fst x <> k) -> map_find k m = None.
Proof.
  induction m as [|[k' a'] m IH]; simpl; intros H; [reflexivity|].
  destruct (Z.eqb_spec k k') as [->|Hne].
  - exfalso. apply (H (k', a')); auto.
  - apply IH. intros x Hx. apply H. now right.
Qed.

Lemma map_find_erase_same {A : Type} (k : Z) (m : IntMap A) :
  map_sorted m -> map_find k (map_erase k m) = None.
Proof.
  induction m as [|[k' a'] m IH]; simpl; [auto|]. intros [Hlt Hs].
  destruct (Z.eqb_spec k k') as [->|Hne]; simpl.
  - apply map_find_absent. intros x Hx. specialize (Hlt x Hx). lia.
  - destruct (Z.eqb_spec k k'); [contradiction | auto].
Qed.

(** ** The order of the D1 blocks

    The elements of a block are at most its upper bound, and at least the
    upper bound of every block before it. *)

Definition block_le (b : Block) : Prop :=
  forall kv, In kv (elements b) -> dle (snd kv) (upper_bound b) = true.

Fixpoint ordered (bs : list Block) : Prop :=
  match bs with
  | [] => True
  | b :: rest =>
      block_le b /\
      (forall y, In y (all_elements rest) ->
                 dle (upper_bound b) (snd y) = true) /\
      ordered rest
  end.

Lemma erase_in_blocks_bounds (k : Z) (bs bs' : list Block) :
  erase_in_blocks k bs = Some bs' ->
  map upper_bound bs' = map upper_bound bs.
Proof.
  revert bs'. induction bs as [|b bs IH]; simpl; intros bs' H; [discriminate|].
  destruct (erase_first k (elements b)) as [els|].
  - injection H as <-. reflexivity.
  - destruct (erase_in_blocks k bs) as [r|]; [|discriminate].
    injection H as <-. simpl. f_equal. now apply IH.
Qed.

Lemma erase_in_blocks_ordered (k : Z) (bs bs' : list Block) :
  erase_in_blocks k bs = Some bs' -> ordered bs -> ordered bs'.
Proof.
  revert bs'. induction bs as [|b bs IH]; simpl; intros bs' H; [discriminate|].
  intros (Hb & Hr & Ho).
  destruct (erase_first k (elements b)) as [els|] eqn:E.
  - injection H as <-. simpl. split; [|auto].
    intros kv Hkv. apply Hb. simpl in Hkv.
    eapply erase_first_incl; eauto.
  - destruct (erase_in_blocks k bs) as [r|] eqn:Er; [|discriminate].
    injection H as <-. simpl. split; [exact Hb|]. split; [|now apply IH].
    intros y Hy. apply Hr. eapply erase_in_blocks_incl; eauto.
Qed.

Lemma push_back_at_cons (i : nat) (kv : KeyValue) (b : Block)
    (bs : list Block) :
  push_back_at (Datatypes.S i) kv (b :: bs) = b :: push_back_at i kv bs.
Proof.
  unfold push_back_at. simpl. destruct (nth_error bs i); reflexivity.
Qed.

Lemma push_back_at_bounds (i : nat) (kv : KeyValue) (bs : list Block) :
  map upper_bound (push_back_at i kv bs) = map upper_bound bs.
Proof.
  revert i. induction bs as [|b bs IH]; intros i.
  - unfold push_back_at. destruct (nth_error [] i); reflexivity.
  - destruct i as [|i]; [reflexivity|].
    rewrite push_back_at_cons. simpl. f_equal. apply IH.
Qed.

Lemma push_back_at_ordered (k : Z) (v : dist) (bs : list Block) :
  forall i, find_first_block v bs = Some i -> ordered bs ->
  ordered (push_back_at i (k, v) bs).
Proof.
  induction bs as [|b bs IH]; simpl; intros i H; [discriminate|].
  intros (Hb & Hr & Ho).
  destruct (dle v (upper_bound b)) eqn:Hv.
  - injection H as <-. unfold push_back_at. simpl.
    split; [|auto]. intros kv Hkv. simpl in Hkv.
    apply in_app_or in Hkv. destruct Hkv as [Hkv|[<-|[]]]; [auto | exact Hv].
  - destruct (find_first_block v bs) as [j|] eqn:Ej; [|discriminate].
    injection H as <-. rewrite push_back_at_cons. simpl.
    split; [exact Hb|]. split; [|now apply IH].
    intros y Hy. apply push_back_at_incl in Hy.
    destruct Hy as [<-|Hy]; [|auto]. simpl.
    destruct (dle_total (upper_bound b) v) as [H1|H1]; [exact H1|congruence].
Qed.

Lemma find_first_block_some (v : dist) (bs : list Block) (b : dist) :
  In b (map upper_bound bs) -> dle v b = true ->
  exists i, find_first_block v bs = Some i.
Proof.
  induction bs as [|x bs IH]; simpl; intros Hin Hv; [contradiction|].
  destruct (dle v (upper_bound x)) eqn:E; [eauto|].
  destruct Hin as [Heq|Hin]; [congruence|].
  destruct (IH Hin Hv) as [i ->]. eauto.
Qed.

(** ** Sorting by value *)

Definition val_le (a b : KeyValue) : Prop := dle (snd a) (snd b) = true.

Fixpoint sorted (l : list KeyValue) : Prop :=
  match l with
  | [] => True
  | x :: l' => (forall y, In y l' -> val_le x y) /\ sorted l'
  end.

Lemma insert_by_value_sorted (x : KeyValue) (l : list KeyValue) :
  sorted l -> sorted (insert_by_value x l).
Proof.
  induction l as [|y l IH]; simpl.
  - intros _. split; [intros z [] | exact I].
  - intros [Hy Hs]. destruct (dlt (snd y) (snd x)) eqn:E; simpl.
    + split; [|auto]. intros z Hz.
      eapply Permutation_in in Hz;
        [|apply Permutation_sym, insert_by_value_perm].
      destruct Hz as [<-|Hz]; [apply dlt_dle, E | auto].
    + assert (Hxy : val_le x y).
      { unfold val_le. rewrite dlt_negb_dle in E.
        now apply negb_false_iff in E. }
      split; [|split; auto].
      intros z [<-|Hz]; [exact Hxy|].
      eapply dle_trans; [exact Hxy | apply Hy, Hz].
Qed.

Lemma sort_by_value_sorted (l : list KeyValue) : sorted (sort_by_value l).
Proof.
  induction l as [|x l IH]; simpl; [exact I|].
  now apply insert_by_value_sorted.
Qed.

Lemma sorted_firstn_skipn (l : list KeyValue) :
  sorted l -> forall n x y,
  In x (firstn n l) -> In y (skipn n l) -> val_le x y.
Proof.
  induction l as [|a l IH]; intros Hs [|n] x y Hx Hy; simpl in *;
    try contradiction.
  destruct Hs as [Ha Hs].
  destruct Hx as [<-|Hx].
  - apply Ha. eapply In_skipn; eauto.
  - eapply IH; eauto.
Qed.

Lemma nth_error_firstn_skipn {A : Type} (l : list A) (n : nat) (a : A) :
  nth_error l n = Some a ->
  In a (firstn (Datatypes.S n) l) /\ In a (skipn n l).
Proof.
  revert n. induction l as [|x l IH]; intros [|n] H; simpl in *;
    try discriminate.
  - injection H as ->. auto.
  - destruct (IH n H). auto.
Qed.

Lemma sorted_nth (l : list KeyValue) (n : nat) (kv : KeyValue) :
  sorted l -> nth_error l n = Some kv ->
  (forall x, In x (firstn n l) -> val_le x kv) /\
  (forall y, In y (skipn n l) -> val_le kv y).
Proof.
  intros Hs Hn. destruct (nth_error_firstn_skipn _ _ _ Hn) as [Hf Hk].
  split.
  - intros x Hx. eapply sorted_firstn_skipn; eauto.
  - intros y Hy. revert n Hn Hf Hk Hy.
    induction l as [|a l IH]; intros [|n] Hn Hf Hk Hy; simpl in *;
      try discriminate.
    + injection Hn as ->. destruct Hs as [Ha _].
      destruct Hy as [<-|Hy]; [apply dle_refl | apply Ha, Hy].
    + destruct Hs as [_ Hs].
      destruct (nth_error_firstn_skipn _ _ _ Hn) as [Hf' Hk'].
      eapply IH; eauto.
Qed.

(** ** Splitting a block keeps the order *)

Lemma split_elements (bs : list Block) (i : nat) (block : Block)
    (n : nat) (u1 u2 : dist) :
  nth_error bs i = Some block ->
  let elems := sort_by_value (elements block) in
  Permutation
    (all_elements (firstn i bs ++ mkBlock (firstn n elems) u1
                     :: mkBlock (skipn n elems) u2
                     :: skipn (Datatypes.S i) bs))
    (all_elements bs).
Proof.
  intros E elems.
  rewrite (nth_error_split_at _ _ _ E) at 3.
  rewrite !all_elements_app. apply Permutation_app_head.
  unfold all_elements. cbn [flat_map elements].
  rewrite app_assoc. apply Permutation_app_tail.
  rewrite firstn_skipn. apply Permutation_sym, sort_by_value_perm.
Qed.

Lemma split_ordered (bs : list Block) :
  forall (i : nat) (block : Block) (mid1 : nat) (kv : KeyValue),
  ordered bs -> nth_error bs i = Some block ->
  nth_error (sort_by_value (elements block)) mid1 = Some kv ->
  ordered (firstn i bs
             ++ mkBlock (firstn (Datatypes.S mid1)
                           (sort_by_value (elements block))) (snd kv)
             :: mkBlock (skipn (Datatypes.S mid1)
                           (sort_by_value (elements block)))
                        (upper_bound block)
             :: skipn (Datatypes.S i) bs).
Proof.
  induction bs as [|b bs IH]; intros [|i] block mid1 kv Ho E Ekv;
    simpl in E; try discriminate.
  - injection E as ->. destruct Ho as (Hb & Hr & Ho).
    pose proof (sort_by_value_sorted (elements block)) as Hs.
    pose proof (sort_by_value_perm (elements block)) as Hp.
    set (elems := sort_by_value (elements block)) in *.
    destruct (nth_error_firstn_skipn _ _ _ Ekv) as [Hkf Hks].
    assert (Hkv : dle (snd kv) (upper_bound block) = true).
    { apply Hb. eapply Permutation_in; [apply Permutation_sym, Hp|].
      eapply In_firstn; eauto. }
    set (b1 := mkBlock (firstn (Datatypes.S mid1) elems) (snd kv)).
    set (b2 := mkBlock (skipn (Datatypes.S mid1) elems) (upper_bound block)).
    cbn [firstn skipn app ordered]. subst b1 b2.
    split.
    { intros x Hx. cbn [elements upper_bound] in *.
      change (val_le x kv).
      assert (Hx' : In x (firstn mid1 elems) \/ x = kv).
      { clear - Hx Ekv. revert mid1 Ekv Hx.
        induction elems as [|a l IHl]; intros [|n] Ekv Hx; simpl in *;
          try discriminate; try contradiction.
        - injection Ekv as ->. destruct Hx as [->|[]]. now right.
        - destruct Hx as [->|Hx]; [left; now left|].
          destruct (IHl n Ekv Hx) as [H|H]; [left; now right | now right]. }
      destruct Hx' as [Hx'| ->]; [|apply dle_refl].
      exact (proj1 (sorted_nth _ _ _ Hs Ekv) x Hx'). }
    split.
    { intros y Hy. unfold all_elements in Hy. cbn [flat_map elements] in Hy.
      apply in_app_or in Hy. destruct Hy as [Hy|Hy].
      - apply (sorted_firstn_skipn elems Hs (Datatypes.S mid1) kv y Hkf Hy).
      - eapply dle_trans; [exact Hkv | apply Hr, Hy]. }
    split.
    { intros x Hx. cbn [elements upper_bound] in *. apply Hb.
      eapply Permutation_in; [apply Permutation_sym, Hp|].
      eapply In_skipn; eauto. }
    split; [exact Hr | exact Ho].
  - destruct Ho as (Hb & Hr & Ho).
    set (b1 := mkBlock _ (snd kv)).
    set (b2 := mkBlock _ (upper_bound block)).
    cbn [firstn skipn app ordered]. subst b1 b2.
    split; [exact Hb|]. split; [|apply IH; assumption].
    intros y Hy. apply Hr.
    eapply Permutation_in; [apply (split_elements bs i block) | exact Hy].
    exact E.
Qed.

Lemma split_bounds (bs : list Block) (i : nat) (block b1 : Block)
    (els : list KeyValue) (b : dist) :
  nth_error bs i = Some block -> In b (map upper_bound bs) ->
  In b (map upper_bound
          (firstn i bs ++ b1 :: mkBlock els (upper_bound block)
             :: skipn (Datatypes.S i) bs)).
Proof.
  intros E Hin. rewrite (nth_error_split_at _ _ _ E) in Hin.
  rewrite map_app in *. apply in_app_or in Hin. apply in_or_app.
  destruct Hin as [Hin|Hin]; [now left | right].
  simpl in *. destruct Hin as [Hin|Hin]; auto.
Qed.

(** ** Workspaces built by [insert]

    No batch has been prepended, the D1 blocks are ordered, one of them has
    the configured bound as its upper bound, every value is below that
    bound, and the key index lists exactly the elements of the blocks. *)

Record wf (b : dist) (ds : t) : Prop := mkWf {
  wf_M : 1 <= M ds;
  wf_B : B ds = b;
  wf_D0 : D0 ds = [];
  wf_top : In b (map upper_bound (D1 ds));
  wf_ord : ordered (D1 ds);
  wf_below : forall kv, In kv (all_elements (D1 ds)) -> dlt (snd kv) b = true;
  wf_keys : NoDup (map fst (all_elements (D1 ds)));
  wf_map : map_sorted (key_values ds);
  wf_index : forall k v,
    map_find k (key_values ds) = Some v <-> In (k, v) (all_elements (D1 ds))
}.

Lemma initialize_wf (ds0 : t) (m : Z) (b : dist) (max_n : Z) :
  wf b (initialize ds0 m b max_n).
Proof.
  constructor; simpl.
  - lia.
  - reflexivity.
  - reflexivity.
  - now left.
  - split; [intros kv [] | split; [intros y [] | exact I]].
  - intros kv [].
  - constructor.
  - exact I.
  - intros k v. split; [discriminate | intros []].
Qed.

Lemma keys_fresh (b : dist) (ds : t) (k : Z) :
  wf b ds -> map_find k (key_values ds) = None ->
  ~ In k (map fst (all_elements (D1 ds))).
Proof.
  intros W Hf Hin. apply in_map_iff in Hin.
  destruct Hin as ([k' v] & Hk & Hin). simpl in Hk. subst k'.
  apply (wf_index _ _ W) in Hin. congruence.
Qed.

Lemma removeKey_wf (b : dist) (ds : t) (k : Z) :
  wf b ds ->
  wf b (removeKey ds k) /\
  forall kv, In kv (all_elements (D1 (removeKey ds k))) <->
             In kv (all_elements (D1 ds)) /\ fst kv <> k.
Proof.
  intros W. unfold removeKey.
  destruct (map_find k (key_values ds)) as [v|] eqn:Ef.
  - rewrite (wf_D0 _ _ W). cbn [erase_in_blocks].
    destruct (erase_in_blocks k (D1 ds)) as [d1|] eqn:E1.
    + destruct (erase_in_blocks_Some _ _ _ E1) as (Hl & v0 & Hp & _).
      pose proof (wf_keys _ _ W) as Hnd.
      eapply Permutation_NoDup in Hnd; [|apply Permutation_map, Hp].
      cbn [map fst] in Hnd. apply NoDup_cons_iff in Hnd.
      destruct Hnd as [Hk Hnd].
      assert (Hchar : forall kv, In kv (all_elements d1) <->
                        In kv (all_elements (D1 ds)) /\ fst kv <> k).
      { intros kv. split.
        - intros Hin. split.
          + eapply Permutation_in; [apply Permutation_sym, Hp|]. now right.
          + intros Heq. apply Hk. rewrite <- Heq. now apply in_map.
        - intros [Hin Hne]. eapply Permutation_in in Hin; [|exact Hp].
          destruct Hin as [<-|Hin]; [now elim Hne | exact Hin]. }
      split; [|exact Hchar].
      constructor; cbn [M B D0 D1 key_values].
      * apply (wf_M _ _ W).
      * apply (wf_B _ _ W).
      * reflexivity.
      * rewrite (erase_in_blocks_bounds _ _ _ E1). apply (wf_top _ _ W).
      * eapply erase_in_blocks_ordered; [exact E1 | apply (wf_ord _ _ W)].
      * intros kv Hin. apply (wf_below _ _ W). now apply Hchar in Hin.
      * exact Hnd.
      * apply map_erase_sorted, (wf_map _ _ W).
      * intros k' v'. destruct (Z.eq_dec k' k) as [->|Hne].
        -- rewrite map_find_erase_same by apply (wf_map _ _ W).
           split; [discriminate|]. intros Hin. elim Hk.
           change k with (fst (k, v')). now apply in_map.
        -- rewrite map_find_erase_other by exact Hne.
           rewrite (wf_index _ _ W), Hchar. simpl. tauto.
    + exfalso. apply (wf_index _ _ W) in Ef.
      pose proof (erase_in_blocks_None _ _ E1) as Hn.
      assert (Hin : In (k, v) (filter (has_key k) (all_elements (D1 ds)))).
      { apply filter_In. split; [exact Ef|]. unfold has_key. simpl.
        apply Z.eqb_refl. }
      rewrite Hn in Hin. destruct Hin.
  - split; [exact W|]. intros kv. split; [|tauto].
    intros Hin. split; [exact Hin|]. intros Heq. destruct kv as [k' v'].
    simpl in Heq. subst k'. apply (wf_index _ _ W) in Hin. congruence.
Qed.

Lemma splitBlock_wf (b : dist) (ds ds' : t) (i : nat) :
  wf b ds -> splitBlock ds i = Ok ds' ->
  wf b ds' /\ Permutation (all_elements (D1 ds')) (all_elements (D1 ds)).
Proof.
  intros W H.
  destruct (splitBlock_Ok _ _ _ H) as (HM & HB & HD0 & Hkv & Hp).
  split; [|exact Hp].
  assert (Hshape : In b (map upper_bound (D1 ds')) /\ ordered (D1 ds')).
  { unfold splitBlock in H.
    destruct (nth_error (D1 ds) i) as [block|] eqn:E; [|discriminate].
    destruct (Z.of_nat (length (elements block)) <=? M ds).
    { injection H as <-. split; [apply (wf_top _ _ W) | apply (wf_ord _ _ W)]. }
    cbv zeta in H.
    destruct (Nat.div (length (sort_by_value (elements block))) 2)
      as [|mid1]; [discriminate|].
    destruct (nth_error (sort_by_value (elements block)) mid1) as [kv|] eqn:Ekv;
      [|discriminate].
    injection H as <-. cbn [D1 upper_bound]. split.
    - apply split_bounds; [exact E | apply (wf_top _ _ W)].
    - apply split_ordered; [apply (wf_ord _ _ W) | exact E | exact Ekv]. }
  destruct Hshape as [Ht Ho].
  constructor.
  - rewrite HM. apply (wf_M _ _ W).
  - rewrite HB. apply (wf_B _ _ W).
  - rewrite HD0. apply (wf_D0 _ _ W).
  - exact Ht.
  - exact Ho.
  - intros kv Hin. apply (wf_below _ _ W). eapply Permutation_in; eauto.
  - eapply Permutation_NoDup;
      [apply Permutation_map, Permutation_sym, Hp | apply (wf_keys _ _ W)].
  - rewrite Hkv. apply (wf_map _ _ W).
  - intros k v. rewrite Hkv, (wf_index _ _ W). split; intros Hin.
    + eapply Permutation_in; [apply Permutation_sym, Hp | exact Hin].
    + eapply Permutation_in; [exact Hp | exact Hin].
Qed.

Lemma insert_fresh_wf (b : dist) (ds ds' : t) (k : Z) (v : dist) :
  wf b ds -> map_find k (key_values ds) = None -> dlt v b = true ->
  insert_fresh ds k v = Ok ds' -> wf b ds'.
Proof.
  intros W Hf Hv H. unfold insert_fresh in H.
  destruct (find_first_block_some v (D1 ds) b (wf_top _ _ W) (dlt_dle _ _ Hv))
    as [i Ei].
  unfold findBlockForValue in H. cbn [D1] in H. rewrite Ei in H.
  cbn [bind D1 key_values M] in H.
  destruct (push_back_at_spec i (k, v) (D1 ds) (find_first_block_lt _ _ _ Ei))
    as (blk & Hb & Hnth & Hlen & Hperm).
  rewrite Hnth in H.
  set (ds2 := mk (M ds) (B ds) (N ds) (D0 ds)
                (push_back_at i (k, v) (D1 ds))
                (map_set k v (key_values ds)) (d1_upper_bounds ds)) in *.
  assert (W2 : wf b ds2).
  { constructor; cbn [ds2 M B D0 D1 key_values].
    - apply (wf_M _ _ W).
    - apply (wf_B _ _ W).
    - apply (wf_D0 _ _ W).
    - rewrite push_back_at_bounds. apply (wf_top _ _ W).
    - apply push_back_at_ordered; [exact Ei | apply (wf_ord _ _ W)].
    - intros kv Hin. eapply Permutation_in in Hin; [|exact Hperm].
      destruct Hin as [<-|Hin]; [exact Hv | now apply (wf_below _ _ W)].
    - eapply Permutation_NoDup;
        [apply Permutation_map, Permutation_sym, Hperm|].
      cbn [map fst]. constructor; [|apply (wf_keys _ _ W)].
      eapply keys_fresh; eauto.
    - apply map_set_sorted, (wf_map _ _ W).
    - intros k' v'. destruct (Z.eq_dec k' k) as [->|Hne].
      + rewrite map_find_set_same. split.
        * intros Heq. injection Heq as <-.
          eapply Permutation_in; [apply Permutation_sym, Hperm|]. now left.
        * intros Hin. eapply Permutation_in in Hin; [|exact Hperm].
          destruct Hin as [Heq|Hin]; [congruence|].
          apply (wf_index _ _ W) in Hin. congruence.
      + rewrite map_find_set_other by exact Hne.
        rewrite (wf_index _ _ W). split; intros Hin.
        * eapply Permutation_in; [apply Permutation_sym, Hperm|]. now right.
        * eapply Permutation_in in Hin; [|exact Hperm].
          destruct Hin as [Heq|Hin]; [congruence | exact Hin]. }
  match type of H with (if ?c then _ else _) = _ => destruct c end.
  - exact (proj1 (splitBlock_wf b ds2 ds' i W2 H)).
  - injection H as <-. exact W2.
Qed.

Lemma insert_wf (b : dist) (ds ds' : t) (k : Z) (v : dist) :
  wf b ds -> dlt v b = true -> insert ds k v = Ok ds' -> wf b ds'.
Proof.
  intros W Hv H. unfold insert in H.
  destruct (map_find k (key_values ds)) as [old|] eqn:Ef.
  - destruct (dlt v old).
    + destruct (removeKey_wf b ds k W) as [W1 _].
      eapply insert_fresh_wf; [exact W1 | | exact Hv | exact H].
      unfold removeKey. rewrite Ef, (wf_D0 _ _ W). cbn [erase_in_blocks].
      destruct (erase_in_blocks k (D1 ds)); cbn [key_values];
        apply map_find_erase_same, (wf_map _ _ W).
    + now injection H as <-.
  - eapply insert_fresh_wf; eauto.
Qed.

Lemma fold_removeKey_wf (b : dist) (keys : list Z) :
  forall ds, wf b ds ->
  wf b (fold_left removeKey keys ds) /\
  forall kv, In kv (all_elements (D1 (fold_left removeKey keys ds))) <->
             In kv (all_elements (D1 ds)) /\ ~ In (fst kv) keys.
Proof.
  induction keys as [|k keys IH]; intros ds W; simpl.
  - split; [exact W|]. intros kv. tauto.
  - destruct (removeKey_wf b ds k W) as [W1 H1].
    destruct (IH _ W1) as [W2 H2]. split; [exact W2|].
    intros kv. rewrite H2, H1. intuition.
Qed.

(** ** [pull] on such a workspace *)

Lemma collect_prefix (m : Z) (bs : list Block) :
  forall c, exists P Q, bs = P ++ Q /\ collect m c bs = all_elements P.
Proof.
  induction bs as [|b bs IH]; intros c; simpl.
  - exists [], []. auto.
  - destruct (m <=? c + Z.of_nat (length (elements b))).
    + exists [b], bs. split; [reflexivity|]. simpl. reflexivity.
    + destruct (IH (c + Z.of_nat (length (elements b)))) as (P & Q & -> & ->).
      exists (b :: P), Q. auto.
Qed.

Lemma collect_nil (m : Z) (bs : list Block) :
  forall c, c < m -> collect m c bs = [] -> all_elements bs = [].
Proof.
  induction bs as [|b bs IH]; intros c Hc H; simpl in *; [reflexivity|].
  apply app_eq_nil in H. destruct H as [Hb H]. rewrite Hb in *. simpl in *.
  destruct (Z.leb_spec m (c + 0)); [lia|]. eapply IH; [|exact H]. lia.
Qed.

Lemma ordered_cross (P Q : list Block) :
  ordered (P ++ Q) ->
  forall x y, In x (all_elements P) -> In y (all_elements Q) -> val_le x y.
Proof.
  induction P as [|b P IH]; simpl; intros Ho x y Hx Hy; [contradiction|].
  destruct Ho as (Hb & Hr & Ho). apply in_app_or in Hx.
  destruct Hx as [Hx|Hx]; [|eapply IH; eauto].
  eapply dle_trans; [apply Hb, Hx|]. apply Hr.
  rewrite all_elements_app. apply in_or_app. now right.
Qed.

Lemma min_value_spec (l : list KeyValue) :
  forall s,
  dle (min_value s l) s = true /\
  (forall y, In y l -> dle (min_value s l) (snd y) = true) /\
  (min_value s l = s \/ exists y, In y l /\ min_value s l = snd y).
Proof.
  unfold min_value.
  induction l as [|a l IH]; intros s; simpl.
  - split; [apply dle_refl|]. split; [intros y [] | now left].
  - destruct (IH (dmin s (snd a))) as (H1 & H2 & H3).
    assert (Hs : dle (dmin s (snd a)) s = true).
    { unfold dmin. destruct (dlt (snd a) s) eqn:E;
        [now apply dlt_dle | apply dle_refl]. }
    assert (Ha : dle (dmin s (snd a)) (snd a) = true).
    { unfold dmin. destruct (dlt (snd a) s) eqn:E; [apply dle_refl|].
      rewrite dlt_negb_dle in E. now apply negb_false_iff in E. }
    split; [eapply dle_trans; eauto|]. split.
    + intros y [<-|Hy]; [eapply dle_trans; eauto | auto].
    + destruct H3 as [H3|(y & Hy & H3)].
      * rewrite H3. unfold dmin. destruct (dlt (snd a) s); [|now left].
        right. exists a. auto.
      * right. exists y. auto.
Qed.

Lemma in_blocks_not_empty (ds : t) (kv : KeyValue) :
  In kv (all_elements (D1 ds)) -> empty ds = false.
Proof.
  intros Hin. destruct (empty ds) eqn:E; [|reflexivity].
  unfold empty in E. apply andb_true_iff in E. destruct E as [_ E1].
  rewrite (empty_all_elements _ E1) in Hin. destruct Hin.
Qed.

Lemma NoDup_keys_split (l1 l2 : list KeyValue) (x y : KeyValue) :
  NoDup (map fst (l1 ++ l2)) -> In x l1 -> In y l2 -> fst x <> fst y.
Proof.
  induction l1 as [|a l1 IH]; simpl; intros Hnd Hx Hy; [contradiction|].
  apply NoDup_cons_iff in Hnd. destruct Hnd as [Ha Hnd].
  destruct Hx as [->|Hx]; [|eapply IH; eauto].
  intros Heq. apply Ha. rewrite Heq. apply in_map, in_or_app. now right.
Qed.

(** What one [pull] does on a workspace built by [insert]. *)
Lemma pull_wf (b : dist) (ds ds' : t) (keys : list Z) (sep : dist) :
  wf b ds -> pull ds = ((keys, sep), ds') ->
  wf b ds' /\
  Z.of_nat (length keys) <= M ds /\
  (forall k, In k keys ->
     exists v, map_find k (key_values ds) = Some v /\ dle v sep = true) /\
  (forall k v, map_find k (key_values ds') = Some v ->
     dle sep v = true /\ map_find k (key_values ds) = Some v /\
     ~ In k keys) /\
  (empty ds' = true -> sep = b) /\
  (sep = b \/ exists k v, map_find k (key_values ds') = Some v /\ sep = v).
Proof.
  intros W H. unfold pull in H. rewrite (wf_D0 _ _ W) in H.
  cbn [collect app] in H.
  destruct (collect (M ds) 0 (D1 ds)) as [|c0 cs] eqn:Ec.
  { injection H as <- <- <-.
    pose proof (wf_M _ _ W) as HM.
    pose proof (collect_nil (M ds) (D1 ds) 0 ltac:(lia) Ec) as Hn.
    split; [exact W|]. split; [pose proof (wf_M _ _ W); simpl; lia|].
    split; [intros k []|]. split.
    - intros k v Hf. apply (wf_index _ _ W) in Hf. rewrite Hn in Hf.
      destruct Hf.
    - split; [intros _; apply (wf_B _ _ W) | left; apply (wf_B _ _ W)]. }
  rewrite <- Ec in H. clear c0 cs Ec. cbv zeta in H.
  set (cand := collect (M ds) 0 (D1 ds)) in *.
  set (srt := sort_by_value cand) in *.
  set (take := Z.to_nat (Z.min (M ds) (Z.of_nat (length srt)))) in *.
  set (res := map fst (firstn take srt)) in *.
  injection H as Hk Hs Hd. subst keys ds'.
  destruct (collect_prefix (M ds) (D1 ds) 0) as (P & Q & HPQ & HP).
  fold cand in HP.
  destruct (fold_removeKey_wf b res ds W) as [W' Hchar].
  set (ds1 := fold_left removeKey res ds) in *.
  pose proof (sort_by_value_perm cand) as Hperm. fold srt in Hperm.
  pose proof (sort_by_value_sorted cand) as Hsorted. fold srt in Hsorted.
  pose proof (wf_M _ _ W) as HM.
  (* the candidates are elements of the blocks *)
  assert (Hcand : forall x, In x srt -> In x (all_elements P)).
  { intros x Hx. rewrite <- HP.
    eapply Permutation_in; [apply Permutation_sym, Hperm | exact Hx]. }
  assert (Hall : forall x, In x (all_elements (D1 ds)) <->
                           In x srt \/ In x (all_elements Q)).
  { intros x. rewrite HPQ, all_elements_app, in_app_iff, <- HP.
    split; (intros [Hx|Hx]; [left | now right]).
    - eapply Permutation_in; eauto.
    - eapply Permutation_in; [apply Permutation_sym, Hperm | exact Hx]. }
  (* their keys are pairwise distinct *)
  assert (Hnd : NoDup (map fst (firstn take srt ++ skipn take srt))).
  { rewrite firstn_skipn.
    eapply Permutation_NoDup; [apply Permutation_map, Hperm|].
    pose proof (wf_keys _ _ W) as Hnd.
    rewrite HPQ, all_elements_app, map_app in Hnd.
    apply NoDup_app_remove_r in Hnd. now rewrite HP. }
  assert (Hres : forall x, In x (firstn take srt) -> In (fst x) res)
    by (intros x Hx; now apply in_map).
  assert (Hrest : forall y, In y (skipn take srt) -> ~ In (fst y) res).
  { intros y Hy Hin. apply in_map_iff in Hin.
    destruct Hin as (x & Heq & Hx).
    exact (NoDup_keys_split _ _ x y Hnd Hx Hy Heq). }
  (* what is left in the blocks *)
  assert (Hleft : forall y, In y (all_elements (D1 ds1)) ->
                    In y (skipn take srt) \/ In y (all_elements Q)).
  { intros y Hy. apply Hchar in Hy. destruct Hy as [Hy Hn].
    apply Hall in Hy. destruct Hy as [Hy|Hy]; [left | now right].
    rewrite <- (firstn_skipn take srt) in Hy. apply in_app_or in Hy.
    destruct Hy as [Hy|Hy]; [elim Hn; now apply Hres | exact Hy]. }
  assert (Hord : forall x y, In x srt -> In y (all_elements Q) -> val_le x y).
  { intros x y Hx Hy. apply (ordered_cross P Q); auto.
    rewrite <- HPQ. apply (wf_ord _ _ W). }
  assert (Hstored : forall k, In k res ->
            exists v, In (k, v) (firstn take srt) /\
                      map_find k (key_values ds) = Some v).
  { intros k Hin. apply in_map_iff in Hin.
    destruct Hin as ([k' v] & Heq & Hx). simpl in Heq. subst k'.
    exists v. split; [exact Hx|]. apply (wf_index _ _ W), Hall. left.
    eapply In_firstn; eauto. }
  assert (Hpresent : forall k v, map_find k (key_values ds1) = Some v ->
            map_find k (key_values ds) = Some v /\ ~ In k res).
  { intros k v Hf. apply (wf_index _ _ W'), Hchar in Hf.
    destruct Hf as [Hf Hn]. split; [now apply (wf_index _ _ W) | exact Hn]. }
  split; [exact W'|].
  split.
  { unfold res. rewrite length_map.
    pose proof (firstn_le_length take srt) as Hl.
    assert (Ht : Z.of_nat take <= M ds) by (unfold take; lia).
    apply Z.le_trans with (Z.of_nat take); [|exact Ht].
    apply Nat2Z.inj_le. exact Hl. }
  destruct (nth_error srt take) as [kv|] eqn:En.
  - (* a candidate is left over: its value separates *)
    subst sep.
    destruct (sorted_nth _ _ _ Hsorted En) as [Hlow Hhigh].
    destruct (nth_error_firstn_skipn _ _ _ En) as [_ Hkv].
    assert (Hkv1 : In kv (all_elements (D1 ds1))).
    { apply Hchar. split; [|now apply Hrest].
      apply Hall. left. eapply In_skipn; eauto. }
    split.
    { intros k Hin. destruct (Hstored k Hin) as (v & Hx & Hf).
      exists v. split; [exact Hf | exact (Hlow _ Hx)]. }
    split.
    { intros k v Hf. destruct (Hpresent k v Hf) as [Hf0 Hn].
      split; [|auto].
      apply (wf_index _ _ W') in Hf. destruct (Hleft _ Hf) as [Hy|Hy].
      - exact (Hhigh _ Hy).
      - apply (Hord kv (k, v)); [eapply In_skipn; eauto | exact Hy]. }
    split.
    { intros He. rewrite (in_blocks_not_empty ds1 kv Hkv1) in He.
      discriminate. }
    right. destruct kv as [k v]. exists k, v.
    split; [now apply (wf_index _ _ W') | reflexivity].
  - (* every candidate is returned *)
    apply nth_error_None in En.
    assert (Hfull : firstn take srt = srt) by (apply firstn_all2; exact En).
    rewrite (wf_D0 _ _ W'), (wf_B _ _ W') in Hs.
    change (min_value b (all_elements [])) with b in Hs.
    destruct (min_value_spec (all_elements (D1 ds1)) b) as (Hm1 & Hm2 & Hm3).
    assert (Hsep : sep = b \/
                   exists y, In y (all_elements (D1 ds1)) /\ sep = snd y).
    { destruct (empty ds1); [left; congruence|].
      subst sep. destruct Hm3 as [->|Hm3]; [now left | now right]. }
    split.
    { intros k Hin. destruct (Hstored k Hin) as (v & Hx & Hf).
      exists v. split; [exact Hf|].
      destruct Hsep as [->|(y & Hy & ->)].
      - apply dlt_dle, (wf_below _ _ W (k, v)).
        now apply (wf_index _ _ W).
      - destruct (Hleft _ Hy) as [Hy'|Hy'].
        + rewrite <- Hfull in Hy' at 1.
          rewrite skipn_firstn_comm, Nat.sub_diag in Hy'. destruct Hy'.
        + apply (Hord (k, v) y); [eapply In_firstn; eauto | exact Hy']. }
    split.
    { intros k v Hf. destruct (Hpresent k v Hf) as [Hf0 Hn].
      split; [|auto].
      apply (wf_index _ _ W') in Hf.
      rewrite (in_blocks_not_empty ds1 _ Hf) in Hs. subst sep.
      exact (Hm2 _ Hf). }
    split.
    { intros He. rewrite He in Hs. congruence. }
    destruct Hsep as [->|([k v] & Hy & ->)]; [now left | right].
    exists k, v. split; [now apply (wf_index _ _ W') | reflexivity].
Qed.

(** ** Reachable workspaces *)

(** Workspaces reachable by [insert] and [batchPrepend]. *)
Inductive reachable (m : Z) (b : dist) : t -> Prop :=
| reachable_initialize ds0 max_n :
    reachable m b (initialize ds0 m b max_n)
| reachable_insert ds k v ds' :
    reachable m b ds -> insert ds k v = Ok ds' -> reachable m b ds'
| reachable_batchPrepend ds items ds' :
    reachable m b ds -> batchPrepend ds items = Ok ds' -> reachable m b ds'.

(** Workspaces reachable by [insert] with values below the bound, and by
    [pull]. *)
Inductive inserted (m : Z) (b : dist) : t -> Prop :=
| inserted_initialize ds0 max_n :
    inserted m b (initialize ds0 m b max_n)
| inserted_insert ds k v ds' :
    inserted m b ds -> dlt v b = true -> insert ds k v = Ok ds' ->
    inserted m b ds'
| inserted_pull ds r ds' :
    inserted m b ds -> pull ds = (r, ds') -> inserted m b ds'.

Lemma inserted_wf (m : Z) (b : dist) (ds : t) :
  inserted m b ds -> wf b ds /\ M ds = Z.max 1 m.
Proof.
  induction 1 as [ds0 max_n|ds k v ds' _ [W HM] Hv Hi|ds [keys sep] ds' _ [W HM] Hp].
  - split; [apply initialize_wf | reflexivity].
  - split; [eapply insert_wf; eauto|].
    destruct (insert_Ok _ _ _ _ Hi) as (HM' & _). congruence.
  - split; [exact (proj1 (pull_wf b ds ds' keys sep W Hp))|].
    destruct (pull_incl _ _ _ _ Hp) as (HM' & _). congruence.
Qed.

(** [insert] is defined on these workspaces. *)
Lemma inserted_insert_total (m : Z) (b : dist) (ds : t) (k : Z) (v : dist) :
  inserted m b ds -> exists ds', insert ds k v = Ok ds'.
Proof.
  intros Hi. destruct (inserted_wf _ _ _ Hi) as [W _].
  assert (Hne : forall d, wf b d -> D1 d <> []).
  { intros d Wd Hn. pose proof (wf_top _ _ Wd) as Ht. rewrite Hn in Ht.
    destruct Ht. }
  unfold insert. destruct (map_find k (key_values ds)) as [old|].
  - destruct (dlt v old); [|eauto].
    destruct (removeKey_wf b ds k W) as [W1 _].
    destruct (insert_fresh_total (removeKey ds k) k v (wf_M _ _ W1) (Hne _ W1))
      as (ds' & H & _). eauto.
  - destruct (insert_fresh_total ds k v (wf_M _ _ W) (Hne _ W))
      as (ds' & H & _). eauto.
Qed.

(** The stored values are pairwise distinct. *)
Definition distinct_values (ds : t) : Prop :=
  forall k k' v,
    map_find k (key_values ds) = Some v ->
    map_find k' (key_values ds) = Some v -> k = k'.

Lemma dle_neq_dlt (a b : dist) : dle a b = true -> a <> b -> dlt a b = true.
Proof.
  destruct a as [x|], b as [y|]; simpl; intros H Hne; try reflexivity;
    try discriminate.
  - apply Z.leb_le in H. apply Z.ltb_lt.
    assert (x <> y) by congruence. lia.
  - now elim Hne.
Qed.

(** C3, for the workspaces reachable by [insert] with values below the
    bound and by [pull]: [pull] returns at most [M] keys and a separator;
    the stored value of every returned key is at most the separator, and
    strictly below it when the stored values are pairwise distinct; every
    key still present has a value of at least the separator; and if the
    workspace is left empty, the separator is the configured bound. *)
Theorem pull_separates_inserted (m : Z) (b : dist) (ds ds' : t)
    (keys : list Z) (sep : dist) :
  inserted m b ds -> pull ds = ((keys, sep), ds') ->
  M ds = Z.max 1 m /\
  Z.of_nat (length keys) <= M ds /\
  (forall k, In k keys -> dle (getValue ds k) sep = true) /\
  (forall k v, map_find k (key_values ds') = Some v -> dle sep v = true) /\
  (empty ds' = true -> sep = b) /\
  (distinct_values ds ->
   forall k, In k keys -> dlt (getValue ds k) sep = true).
Proof.
  intros Hi Hp. destruct (inserted_wf _ _ _ Hi) as [W HM].
  destruct (pull_wf b ds ds' keys sep W Hp)
    as (W' & Hlen & Hret & Hleft & Hempty & Hsep).
  split; [exact HM|]. split; [exact Hlen|]. split.
  { intros k Hk. destruct (Hret k Hk) as (v & Hf & Hle).
    unfold getValue. rewrite Hf. exact Hle. }
  split; [intros k v Hf; apply (Hleft k v Hf)|].
  split; [exact Hempty|].
  intros Hd k Hk. destruct (Hret k Hk) as (v & Hf & Hle).
  unfold getValue. rewrite Hf.
  destruct Hsep as [->|(k' & v' & Hf' & ->)].
  - apply (wf_below _ _ W (k, v)). now apply (wf_index _ _ W).
  - destruct (Hleft k' v' Hf') as (_ & Hf0 & Hn).
    apply dle_neq_dlt; [exact Hle|]. intros Heq. subst v'.
    apply Hn. now rewrite <- (Hd k k' v Hf Hf0).
Qed.

End PullFacts.

(** * Properties of the solver *)

Module SolverFacts.

Import NewSSSP.

(** C10: on an empty frontier the base case returns [(B, {})] and leaves
    [d_hat], [pred] and [complete] (the whole state) as they were. *)
Theorem baseCase_empty_frontier (sv : Solver) (fuel : nat) (B : dist)
    (st : State) :
  baseCase sv fuel B [] st = Ok ((B, []), st).
Proof. destruct fuel; reflexivity. Qed.

(** ** The state changes of a solve

    Every change of the shared state is one of: counting a relaxation,
    setting a completeness flag, or relaxing an arc [u -> v] whose tail has
    a finite distance and whose test [d_hat[u] + w <= d_hat[v]] holds. *)

Section Traversal.

Variable sv : Solver.

Definition edge (u v : Z) (w : dist) : Prop :=
  exists edges, adj_of sv u = Ok edges /\ In (v, w) edges.

Definition fin (st : State) (x : Z) : Prop :=
  exists z, vget (d_hat st) x = Ok (Fin z).

Definition set_fin (st : State) (U : list Z) : Prop :=
  forall x, In x U -> fin st x.

Inductive step : State -> State -> Prop :=
| step_count st : step st (count_relaxation st)
| step_complete st v st' : set_complete st v = Ok st' -> step st st'
| step_relax st u v w zu dv st' :
    edge u v w ->
    vget (d_hat st) u = Ok (Fin zu) ->
    vget (d_hat st) v = Ok dv ->
    dle (dadd (Fin zu) w) dv = true ->
    write_relax st u v w = Ok st' ->
    step st st'.

Definition steps : State -> State -> Prop := clos_refl_trans State step.

Lemma steps_refl (st : State) : steps st st.
Proof. apply rt_refl. Qed.

Lemma steps_trans (a b c : State) : steps a b -> steps b c -> steps a c.
Proof. apply rt_trans. Qed.

Lemma steps_one (a b : State) : step a b -> steps a b.
Proof. apply rt_step. Qed.

Lemma write_relax_Ok (st st' : State) (u v : Z) (w : dist) :
  write_relax st u v w = Ok st' ->
  exists du old du' pr,
    vget (d_hat st) u = Ok du /\ vget (d_hat st) v = Ok old /\
    vget (upd (d_hat st) (Z.to_nat v) (dadd du w)) u = Ok du' /\
    vset (pred st) v u = Ok pr /\
    st' = mkState (upd (d_hat st) (Z.to_nat v) (dadd du w)) pr
            (complete st) (relaxation_count st)
            (WritePred v u w du' (dadd du w)
               :: WriteDist v old (dadd du w) :: trace st).
Proof.
  unfold write_relax. intros H.
  bind_inv H as du Edu. bind_inv H as old Eold. bind_inv H as d' Ed.
  bind_inv H as pr Ep. bind_inv H as du' Edu'. bind_inv H as dv' Edv'.
  injection H as <-.
  apply vset_Ok in Ed. destruct Ed as [Hv ->].
  rewrite vget_upd_same in Edv' by exact Hv. injection Edv' as <-.
  exists du, old, du', pr. repeat split; auto.
Qed.

Lemma set_complete_Ok (st st' : State) (v : Z) :
  set_complete st v = Ok st' ->
  d_hat st' = d_hat st /\ pred st' = pred st /\ trace st' = trace st /\
  relaxation_count st' = relaxation_count st /\
  length (complete st') = length (complete st).
Proof.
  unfold set_complete. intros H. bind_inv H as c' E. injection H as <-.
  simpl. apply vset_Ok in E. destruct E as [_ ->]. rewrite length_upd. auto.
Qed.

Lemma step_dist_le (st st' : State) (x : Z) (a : dist) :
  step st st' -> vget (d_hat st) x = Ok a ->
  exists a', vget (d_hat st') x = Ok a' /\ dle a' a = true.
Proof.
  intros Hs Ha.
  destruct Hs as [st|st v st' Hc|st u v w zu dv st' He Hu Hv Hle Hw].
  - exists a. split; [exact Ha | apply dle_refl].
  - apply set_complete_Ok in Hc. destruct Hc as (-> & _).
    exists a. split; [exact Ha | apply dle_refl].
  - apply write_relax_Ok in Hw.
    destruct Hw as (du & old & du' & pr & Hu' & Hv' & _ & _ & ->). simpl.
    rewrite Hu in Hu'. injection Hu' as <-.
    assert (Hr : 0 <= v < Z.of_nat (length (d_hat st))).
    { apply vget_Ok in Hv. tauto. }
    destruct (Z.eq_dec v x) as [->|Hne].
    + rewrite vget_upd_same by exact Hr. eexists. split; [reflexivity|].
      congruence.
    + rewrite vget_upd_other by lia.
      exists a. split; [exact Ha | apply dle_refl].
Qed.

Lemma steps_dist_le (st st' : State) :
  steps st st' ->
  forall x a, vget (d_hat st) x = Ok a ->
  exists a', vget (d_hat st') x = Ok a' /\ dle a' a = true.
Proof.
  induction 1 as [st st' Hs|st|a b c _ IH1 _ IH2]; intros x v Hv.
  - eapply step_dist_le; eauto.
  - exists v. split; [exact Hv | apply dle_refl].
  - destruct (IH1 _ _ Hv) as (v1 & H1 & L1).
    destruct (IH2 _ _ H1) as (v2 & H2 & L2).
    exists v2. split; [exact H2 | eapply dle_trans; eauto].
Qed.

Lemma steps_fin (st st' : State) (x : Z) :
  steps st st' -> fin st x -> fin st' x.
Proof.
  intros Hs [z Hz]. destruct (steps_dist_le _ _ Hs _ _ Hz) as (a & Ha & Hle).
  destruct a as [z'|]; [exists z'; exact Ha | discriminate].
Qed.

Lemma steps_set_fin (st st' : State) (U : list Z) :
  steps st st' -> set_fin st U -> set_fin st' U.
Proof. intros Hs HU x Hx. eapply steps_fin; eauto. Qed.

Lemma tentative_Ok (st : State) (u : Z) (w x : dist) :
  tentative st u w = Ok x ->
  exists du, vget (d_hat st) u = Ok du /\ x = dadd du w.
Proof.
  unfold tentative. intros H. bind_inv H as du E. injection H as <-. eauto.
Qed.

Lemma dlt_fin (x b : dist) : dlt x b = true -> exists z, x = Fin z.
Proof. destruct x; simpl; [eauto | discriminate]. Qed.

(** One guarded relaxation, as every loop of the solver performs it. *)
Lemma relax_steps (st st' : State) (u v : Z) (w x dv : dist) :
  edge u v w -> fin st u ->
  tentative st u w = Ok x -> vget (d_hat st) v = Ok dv ->
  dle x dv = true -> write_relax st u v w = Ok st' ->
  step st st' /\ vget (d_hat st') v = Ok x.
Proof.
  intros He [zu Hu] Ht Hv Hle Hw.
  apply tentative_Ok in Ht. destruct Ht as (du & Hu' & ->).
  rewrite Hu in Hu'. injection Hu' as <-.
  split.
  - eapply step_relax; eauto.
  - apply write_relax_Ok in Hw.
    destruct Hw as (du & old & du' & pr & Hu' & Hv' & _ & _ & ->). simpl.
    rewrite Hu in Hu'. injection Hu' as <-.
    apply vget_upd_same. apply vget_Ok in Hv. tauto.
Qed.

(** *** The base case *)

Definition heap_fin (st : State) (H : list PQEntry) : Prop :=
  forall e, In e H -> fin st (snd e).

Lemma pq_push_In (e e' : PQEntry) (H : list PQEntry) :
  In e' (pq_push e H) <-> e' = e \/ In e' H.
Proof.
  induction H as [|x H IH]; simpl.
  - intuition.
  - destruct (pq_lt e x); simpl; [intuition|]. rewrite IH. intuition.
Qed.

Lemma baseCase_edge_steps (B : dist) (u : Z) (st st' : State)
    (H H' : list PQEntry) (ih ih' : IntSet) (e : Z * dist) :
  edge u (fst e) (snd e) -> fin st u -> heap_fin st H ->
  baseCase_edge B u (st, H, ih) e = Ok (st', H', ih') ->
  steps st st' /\ heap_fin st' H'.
Proof.
  destruct e as [v w]. simpl. intros He Hu HH Hr.
  unfold baseCase_edge in Hr.
  set (st0 := count_relaxation st) in *.
  assert (H0 : steps st st0) by apply steps_one, step_count.
  bind_inv Hr as x Ex. bind_inv Hr as dv Edv.
  destruct (dle x dv && dlt x B) eqn:Hg.
  - apply andb_true_iff in Hg. destruct Hg as [Hle Hlt].
    bind_inv Hr as st1 Ew. bind_inv Hr as dv' Edv'.
    injection Hr as <- <- <-.
    destruct (relax_steps st0 st1 u v w x dv He (steps_fin _ _ _ H0 Hu)
                Ex Edv Hle Ew) as [Hs Hv].
    assert (H1 : steps st st1)
      by (eapply steps_trans; [exact H0 | apply steps_one, Hs]).
    split; [exact H1|].
    intros e Hin. apply pq_push_In in Hin. destruct Hin as [->|Hin].
    + simpl. rewrite Hv in Edv'. injection Edv' as <-.
      destruct (dlt_fin _ _ Hlt) as [z ->]. exists z. exact Hv.
    + eapply steps_fin; [exact H1 | apply HH, Hin].
  - injection Hr as <- <- <-. split; [exact H0|].
    intros e Hin. eapply steps_fin; [exact H0 | apply HH, Hin].
Qed.

Definition base_fin (s : BaseState) : Prop :=
  let '(st, H, U0, _) := s in heap_fin st H /\ set_fin st U0.

Definition base_st (s : BaseState) : State := fst (fst (fst s)).

Lemma baseCase_body_steps (B : dist) (s s' : BaseState) :
  base_fin s -> baseCase_body sv B s = Ok s' ->
  steps (base_st s) (base_st s') /\ base_fin s'.
Proof.
  destruct s as [[[st H] U0] ih], s' as [[[st' H'] U0'] ih'].
  unfold base_st. cbn [fst]. intros [HH HU] Hr. unfold baseCase_body in Hr.
  destruct H as [|[dd u] Ht]; [discriminate|].
  assert (Hu : fin st u) by (apply (HH (dd, u)); left; reflexivity).
  assert (HHt : heap_fin st Ht) by (intros e He; apply HH; right; exact He).
  bind_inv Hr as du Edu.
  destruct (dlt du dd).
  - injection Hr as <- <- <- <-. split; [apply steps_refl | split; assumption].
  - bind_inv Hr as st1 Ec. bind_inv Hr as edges Ee.
    bind_inv Hr as [[st2 H2] ih2] Ef. injection Hr as <- <- <- <-.
    assert (H1 : steps st st1)
      by (apply steps_one; eapply step_complete; eauto).
    fold_inv (fun acc : State * list PQEntry * IntSet =>
                let '(stx, Hx, _) := acc in
                steps st1 stx /\ heap_fin stx Hx) Ef Hf.
    2:{ split; [apply steps_refl|].
        intros e He. eapply steps_fin; [exact H1 | apply HHt, He]. }
    2:{ intros [[sa Ha] ia] e [[sb Hb] ib] Hin [Hsa Hha] Hstep.
        destruct (baseCase_edge_steps B u sa sb Ha Hb ia ib e) as [Hs Hh];
          auto.
        + exists edges. destruct e; simpl. split; [exact Ee | exact Hin].
        + eapply steps_fin; [exact (steps_trans _ _ _ H1 Hsa) | exact Hu].
        + split; [eapply steps_trans; eauto | exact Hh]. }
    destruct Hf as [Hs2 Hh2].
    assert (H02 : steps st st2) by (eapply steps_trans; eauto).
    split; [exact H02|]. split; [exact Hh2|].
    intros x Hx. apply set_insert_In in Hx.
    eapply steps_fin; [exact H02|].
    destruct Hx as [->|Hx]; [exact Hu | apply HU, Hx].
Qed.

Lemma baseCase_loop_steps (fuel : nat) (B : dist) :
  forall (s s' : BaseState),
  base_fin s -> baseCase_loop sv fuel B s = Ok s' ->
  steps (base_st s) (base_st s') /\ base_fin s'.
Proof.
  induction fuel as [|f IH]; intros s s' Hs Hr; simpl in Hr;
    destruct (baseCase_cond sv s);
    try discriminate;
    try (injection Hr as <-; split; [apply steps_refl | exact Hs]).
  bind_inv Hr as s1 Eb.
  destruct (baseCase_body_steps B s s1 Hs Eb) as [H1 Hs1].
  destruct (IH s1 s' Hs1 Hr) as [H2 Hs2].
  split; [eapply steps_trans; eauto | exact Hs2].
Qed.

Lemma below_subset (st : State) (bound : dist) (U R : IntSet) :
  below st bound U = Ok R -> forall x, In x R -> In x U.
Proof.
  unfold below. intros H.
  fold_inv (fun acc : IntSet => incl acc U) H Hf.
  - exact Hf.
  - intros x [].
  - intros s0 v s1 Hin Hs0 Hv. bind_inv Hv as dv Edv. injection Hv as <-.
    intros x Hx. destruct (dlt dv bound); [|auto].
    apply set_insert_In in Hx. destruct Hx as [->|Hx]; auto.
Qed.

Lemma baseCase_steps (fuel : nat) (B : dist) (S : IntSet) (st st' : State)
    (B' : dist) (U : IntSet) :
  set_fin st S ->
  baseCase sv fuel B S st = Ok ((B', U), st') ->
  steps st st' /\ set_fin st' U.
Proof.
  intros HS Hr. unfold baseCase in Hr.
  destruct S as [|x S'].
  - injection Hr as <- <- <-. split; [apply steps_refl | intros y []].
  - bind_inv Hr as dx Edx. bind_inv Hr as [[[st1 H1] U0] ih1] El.
    assert (Hx : fin st x) by (apply HS; left; reflexivity).
    destruct (baseCase_loop_steps fuel B (st, [(dx, x)], [x], [x])
                (st1, H1, U0, ih1)) as [Hs [_ HU]]; auto.
    { split; [intros e [<-|[]] | intros y [<-|[]]]; exact Hx. }
    unfold base_st in Hs. cbn [fst] in Hs.
    destruct (set_size U0 <=? k sv).
    + injection Hr as <- <- <-. auto.
    + bind_inv Hr as md Em. bind_inv Hr as Ur Eb.
      injection Hr as <- <- <-. split; [exact Hs|].
      intros y Hy. apply HU. eapply below_subset; eauto.
Qed.

(** *** The pivot finder *)

(** After a relaxation of [u -> v], a value [d_hat[u] + w] below some bound
    shows that [d_hat[v]] is finite. *)
Lemma relaxed_fin (st st' : State) (u v : Z) (w x' b : dist) :
  write_relax st u v w = Ok st' ->
  tentative st' u w = Ok x' -> dlt x' b = true -> fin st' v.
Proof.
  intros Hw Ht Hlt.
  apply write_relax_Ok in Hw.
  destruct Hw as (du & old & du' & pr & Hu & Hv & Hu' & _ & ->).
  apply tentative_Ok in Ht. simpl in Ht. destruct Ht as (du2 & Hu2 & ->).
  rewrite Hu' in Hu2. injection Hu2 as <-.
  assert (Hr : 0 <= v < Z.of_nat (length (d_hat st))).
  { apply vget_Ok in Hv. tauto. }
  unfold fin. simpl. rewrite vget_upd_same by exact Hr.
  destruct (Z.eq_dec v u) as [->|Hne].
  - rewrite vget_upd_same in Hu' by exact Hr. injection Hu' as <-.
    destruct (dadd du w) as [z|]; [eauto | discriminate].
  - rewrite vget_upd_other in Hu' by lia.
    rewrite Hu in Hu'. injection Hu' as <-.
    destruct (dadd du w) as [z|]; [eauto | discriminate].
Qed.

Lemma findPivots_edge_steps (B : dist) (u : Z) (st st' : State)
    (Wi Wi' : IntSet) (e : Z * dist) :
  edge u (fst e) (snd e) -> fin st u -> set_fin st Wi ->
  findPivots_edge B u (st, Wi) e = Ok (st', Wi') ->
  steps st st' /\ set_fin st' Wi'.
Proof.
  destruct e as [v w]. simpl. intros He Hu HW Hr.
  unfold findPivots_edge in Hr.
  set (st0 := count_relaxation st) in *.
  assert (H0 : steps st st0) by apply steps_one, step_count.
  bind_inv Hr as x Ex. bind_inv Hr as dv Edv.
  destruct (dle x dv) eqn:Hle.
  - bind_inv Hr as st1 Ew. bind_inv Hr as x' Ex'.
    injection Hr as <- <-.
    destruct (relax_steps st0 st1 u v w x dv He (steps_fin _ _ _ H0 Hu)
                Ex Edv Hle Ew) as [Hs Hv].
    assert (H1 : steps st st1)
      by (eapply steps_trans; [exact H0 | apply steps_one, Hs]).
    split; [exact H1|].
    destruct (dlt x' B) eqn:Hlt.
    + intros y Hy. apply set_insert_In in Hy. destruct Hy as [->|Hy].
      * eapply relaxed_fin; eauto.
      * eapply steps_fin; [exact H1 | apply HW, Hy].
    + eapply steps_set_fin; eauto.
  - injection Hr as <- <-. split; [exact H0|].
    eapply steps_set_fin; eauto.
Qed.

Lemma findPivots_from_steps (B : dist) (u : Z) (st st' : State)
    (Wi Wi' : IntSet) :
  fin st u -> set_fin st Wi ->
  findPivots_from sv B (st, Wi) u = Ok (st', Wi') ->
  steps st st' /\ set_fin st' Wi'.
Proof.
  intros Hu HW Hr. unfold findPivots_from in Hr.
  bind_inv Hr as edges Ee.
  fold_inv (fun acc : State * IntSet =>
              steps st (fst acc) /\ set_fin (fst acc) (snd acc)) Hr Hf.
  - exact Hf.
  - split; [apply steps_refl | exact HW].
  - intros [sa Wa] e [sb Wb] Hin [Hsa HWa] Hstep. simpl in *.
    destruct (findPivots_edge_steps B u sa sb Wa Wb e) as [Hs Hh]; auto.
    + exists edges. destruct e; simpl. split; [exact Ee | exact Hin].
    + eapply steps_fin; eauto.
    + split; [eapply steps_trans; eauto | exact Hh].
Qed.

Lemma findPivots_round_steps (B : dist) (st st' : State)
    (Wi_prev Wi : IntSet) :
  set_fin st Wi_prev ->
  foldM (findPivots_from sv B) Wi_prev (st, []) = Ok (st', Wi) ->
  steps st st' /\ set_fin st' Wi.
Proof.
  intros HW Hr.
  fold_inv (fun acc : State * IntSet =>
              steps st (fst acc) /\ set_fin (fst acc) (snd acc)) Hr Hf.
  - exact Hf.
  - split; [apply steps_refl | intros x []].
  - intros [sa Wa] u [sb Wb] Hin [Hsa HWa] Hstep. simpl in *.
    destruct (findPivots_from_steps B u sa sb Wa Wb) as [Hs Hh]; auto.
    + eapply steps_fin; [exact Hsa | apply HW, Hin].
    + split; [eapply steps_trans; eauto | exact Hh].
Qed.

Lemma set_fin_union (st : State) (a b : IntSet) :
  set_fin st a -> set_fin st b -> set_fin st (set_union a b).
Proof.
  intros Ha Hb x Hx. apply set_union_In in Hx. destruct Hx; auto.
Qed.

Lemma findPivots_rounds_steps (rounds : nat) (B : dist) (S : IntSet) :
  forall (st : State) (W Wi_prev : IntSet) (st' : State) (W' : IntSet)
         (early : bool),
  set_fin st W -> set_fin st Wi_prev ->
  findPivots_rounds sv rounds B S st W Wi_prev = Ok (st', W', early) ->
  steps st st' /\ set_fin st' W'.
Proof.
  induction rounds as [|r IH]; intros st W Wp st' W' early HW HWp Hr;
    simpl in Hr.
  - injection Hr as <- <- <-. split; [apply steps_refl | exact HW].
  - bind_inv Hr as [st1 Wi] Ef. bind_inv Hr as ks Ek.
    destruct (findPivots_round_steps B st st1 Wp Wi HWp Ef) as [Hs HWi].
    assert (HU : set_fin st1 (set_union W Wi)).
    { apply set_fin_union; [eapply steps_set_fin; eauto | exact HWi]. }
    destruct (ks <? set_size (set_union W Wi)).
    + injection Hr as <- <- <-. auto.
    + destruct (IH _ _ _ _ _ _ HU HWi Hr) as [Hs' HW'].
      split; [eapply steps_trans; eauto | exact HW'].
Qed.

Lemma foldM_set_complete_steps (W : IntSet) (st st' : State) :
  foldM set_complete W st = Ok st' -> steps st st'.
Proof.
  intros Hr. fold_inv (fun s : State => steps st s) Hr Hf.
  - exact Hf.
  - apply steps_refl.
  - intros sa v sb _ Hsa Hc.
    eapply steps_trans; [exact Hsa | apply steps_one; eapply step_complete; eauto].
Qed.

Lemma findPivots_steps (fuel : nat) (B : dist) (S : IntSet) (st st' : State)
    (P W : IntSet) :
  set_fin st S ->
  findPivots sv fuel B S st = Ok ((P, W), st') ->
  steps st st' /\ set_fin st' W /\ incl P S.
Proof.
  intros HS Hr. unfold findPivots in Hr.
  bind_inv Hr as [[st1 W1] early] Er.
  destruct (findPivots_rounds_steps _ _ _ _ _ _ _ _ _ HS HS Er) as [Hs HW].
  destruct early.
  - injection Hr as <- <- <-. repeat split; auto. apply incl_refl.
  - bind_inv Hr as [children parent] Eb. bind_inv Hr as sub Es.
    bind_inv Hr as st2 Ec. injection Hr as <- <- <-.
    apply foldM_set_complete_steps in Ec.
    split; [eapply steps_trans; eauto|].
    split; [eapply steps_set_fin; eauto|].
    set (P0 := filter (fun u => k sv <=? subtree_size_of sub u) S).
    assert (H0 : incl P0 S) by (intros x Hx; apply filter_In in Hx; tauto).
    destruct P0 as [|p P0]; [|exact H0].
    destruct S as [|x S]; [apply incl_refl|].
    intros y [<-|[]]. now left.
Qed.

(** *** The driver *)

Definition kv_fin (st : State) (l : list KeyValue) : Prop :=
  forall kv, In kv l -> fin st (fst kv).

Definition D_fin (st : State) (D : BlockDataStructure.t) : Prop :=
  kv_fin st (BlockFacts.all_kv D).

Lemma steps_kv_fin (st st' : State) (l : list KeyValue) :
  steps st st' -> kv_fin st l -> kv_fin st' l.
Proof. intros Hs Hl kv Hin. eapply steps_fin; eauto. Qed.

Lemma BMSSP_edge_steps (B Bi Bp : dist) (u : Z) (st st' : State)
    (D D' : BlockDataStructure.t) (K K' : list KeyValue) (e : Z * dist) :
  edge u (fst e) (snd e) -> fin st u -> D_fin st D -> kv_fin st K ->
  BMSSP_edge B Bi Bp u (st, D, K) e = Ok (st', D', K') ->
  steps st st' /\ D_fin st' D' /\ kv_fin st' K'.
Proof.
  destruct e as [v w]. simpl. intros He Hu HD HK Hr.
  unfold BMSSP_edge in Hr.
  set (st0 := count_relaxation st) in *.
  assert (H0 : steps st st0) by apply steps_one, step_count.
  bind_inv Hr as x Ex. bind_inv Hr as dv Edv.
  destruct (dle x dv) eqn:Hle.
  - bind_inv Hr as st1 Ew. bind_inv Hr as x' Ex'.
    destruct (relax_steps st0 st1 u v w x dv He (steps_fin _ _ _ H0 Hu)
                Ex Edv Hle Ew) as [Hs Hv].
    assert (H1 : steps st st1)
      by (eapply steps_trans; [exact H0 | apply steps_one, Hs]).
    destruct (dle Bi x' && dlt x' B) eqn:Hg1.
    + apply andb_true_iff in Hg1. destruct Hg1 as [_ Hlt].
      bind_inv Hr as D1 Ei. injection Hr as <- <- <-.
      split; [exact H1|]. split; [|eapply steps_kv_fin; eauto].
      apply BlockFacts.insert_Ok in Ei. destruct Ei as (_ & _ & Hi).
      intros kv Hin. apply Hi in Hin. destruct Hin as [<-|Hin].
      * simpl. eapply relaxed_fin; eauto.
      * eapply steps_fin; [exact H1 | apply HD, Hin].
    + destruct (dle Bp x' && dlt x' Bi) eqn:Hg2.
      * apply andb_true_iff in Hg2. destruct Hg2 as [_ Hlt].
        injection Hr as <- <- <-.
        split; [exact H1|]. split; [eapply steps_kv_fin; eauto|].
        intros kv Hin. apply in_app_or in Hin. destruct Hin as [Hin|[<-|[]]].
        -- eapply steps_fin; [exact H1 | apply HK, Hin].
        -- simpl. eapply relaxed_fin; eauto.
      * injection Hr as <- <- <-.
        split; [exact H1|]. split; eapply steps_kv_fin; eauto.
  - injection Hr as <- <- <-.
    split; [exact H0|]. split; eapply steps_kv_fin; eauto.
Qed.

Definition acc_fin (st0 : State)
    (acc : State * BlockDataStructure.t * list KeyValue) : Prop :=
  let '(st, D, K) := acc in steps st0 st /\ D_fin st D /\ kv_fin st K.

Lemma BMSSP_from_steps (B Bi Bp : dist) (u : Z) (st st' : State)
    (D D' : BlockDataStructure.t) (K K' : list KeyValue) :
  fin st u -> D_fin st D -> kv_fin st K ->
  BMSSP_from sv B Bi Bp (st, D, K) u = Ok (st', D', K') ->
  steps st st' /\ D_fin st' D' /\ kv_fin st' K'.
Proof.
  intros Hu HD HK Hr. unfold BMSSP_from in Hr.
  bind_inv Hr as edges Ee.
  fold_inv (acc_fin st) Hr Hf.
  - exact Hf.
  - unfold acc_fin. split; [apply steps_refl | auto].
  - intros [[sa Da] Ka] e [[sb Db] Kb] Hin (Hsa & HDa & HKa) Hstep.
    destruct (BMSSP_edge_steps B Bi Bp u sa sb Da Db Ka Kb e)
      as (Hs & HDb & HKb); auto.
    + exists edges. destruct e; simpl. split; [exact Ee | exact Hin].
    + eapply steps_fin; eauto.
    + unfold acc_fin. split; [eapply steps_trans; eauto | auto].
Qed.

Definition call_ok (rec : BMSSP_call) : Prop :=
  forall level B S st B' U st',
    set_fin st S -> rec level B S st = Ok ((B', U), st') ->
    steps st st' /\ set_fin st' U.

Lemma BMSSP_loop_steps (rec : BMSSP_call) (fuel : nat) (level : Z)
    (B : dist) (size_limit : Z) :
  call_ok rec ->
  forall (st : State) (D : BlockDataStructure.t) (U : IntSet) (Bp : dist)
         (st' : State) (U' : IntSet) (Bp' : dist),
  D_fin st D -> set_fin st U ->
  BMSSP_loop sv rec fuel level B size_limit st D U Bp = Ok (st', U', Bp') ->
  steps st st' /\ set_fin st' U'.
Proof.
  intros Hrec. induction fuel as [|f IH];
    intros st D U Bp st' U' Bp' HD HU Hr; simpl in Hr.
  - destruct ((set_size U <? size_limit) && negb (BlockDataStructure.empty D));
      [discriminate|].
    injection Hr as <- <- <-. split; [apply steps_refl | exact HU].
  - destruct ((set_size U <? size_limit) && negb (BlockDataStructure.empty D)).
    2:{ injection Hr as <- <- <-. split; [apply steps_refl | exact HU]. }
    destruct (BlockDataStructure.pull D) as [[Si_vec Bi] D1] eqn:Ep.
    apply BlockFacts.pull_incl in Ep. destruct Ep as (_ & _ & Hi & Hk).
    assert (HSi : set_fin st (set_of_list Si_vec)).
    { intros x Hx. apply (proj1 (set_of_list_In _ _)) in Hx.
      destruct (Hk _ Hx) as [v Hv]. apply (HD (x, v) Hv). }
    assert (HD1 : D_fin st D1) by (intros kv Hin; apply HD, Hi, Hin).
    destruct (set_of_list Si_vec) as [|s0 Si'] eqn:ESi.
    { injection Hr as <- <- <-. split; [apply steps_refl | exact HU]. }
    rewrite <- ESi in *. clear ESi.
    bind_inv Hr as [[Bn Ui] st1] Erec.
    bind_inv Hr as [[st2 D2] K] Ef.
    bind_inv Hr as K' Ek. bind_inv Hr as D3 Eb.
    destruct (Hrec _ _ _ _ _ _ _ HSi Erec) as [Hs1 HUi].
    fold_inv (acc_fin st1) Ef Hf.
    2:{ unfold acc_fin. split; [apply steps_refl|].
        split; [eapply steps_kv_fin; eauto | intros kv []]. }
    2:{ intros [[sa Da] Ka] u [[sb Db] Kb] Hin (Hsa & HDa & HKa) Hstep.
        destruct (BMSSP_from_steps B Bi Bn u sa sb Da Db Ka Kb)
          as (Hs & HDb & HKb); auto.
        - eapply steps_fin; [exact Hsa | apply HUi, Hin].
        - unfold acc_fin. split; [eapply steps_trans; eauto | auto]. }
    destruct Hf as (Hs2 & HD2 & HK).
    assert (H02 : steps st st2) by (eapply steps_trans; eauto).
    assert (HK' : kv_fin st2 K').
    { fold_inv (kv_fin st2) Ek Hf.
      - exact Hf.
      - exact HK.
      - intros Ka x Kb Hin HKa Hb. unfold back_to_K in Hb.
        bind_inv Hb as dx Edx. injection Hb as <-.
        destruct (dle Bn dx && dlt dx Bi) eqn:Hg; [|exact HKa].
        apply andb_true_iff in Hg. destruct Hg as [_ Hlt].
        intros kv Hkv. apply in_app_or in Hkv.
        destruct Hkv as [Hkv|[<-|[]]]; [apply HKa, Hkv|].
        simpl. destruct (dlt_fin _ _ Hlt) as [z ->]. exists z. exact Edx. }
    assert (HD3 : D_fin st2 D3).
    { apply BlockFacts.batchPrepend_Ok in Eb. destruct Eb as (_ & _ & Hi3).
      intros kv Hin. apply Hi3 in Hin. apply in_app_or in Hin.
      destruct Hin; [apply HK' | apply HD2]; assumption. }
    destruct (IH st2 D3 (set_union U Ui) Bn st' U' Bp') as [Hs3 HU3]; auto.
    { apply set_fin_union.
      - exact (steps_set_fin _ _ _ H02 HU).
      - exact (steps_set_fin _ _ _ Hs2 HUi). }
    split; [eapply steps_trans; eauto | exact HU3].
Qed.

Theorem BMSSP_steps (fuel : nat) :
  forall (level : Z) (B : dist) (S : IntSet) (st : State) (B' : dist)
         (U : IntSet) (st' : State),
  set_fin st S ->
  BMSSP sv fuel level B S st = Ok ((B', U), st') ->
  steps st st' /\ set_fin st' U.
Proof.
  induction fuel as [|f IH]; intros level B S st B' U st' HS Hr;
    simpl in Hr; [discriminate|].
  destruct (level =? 0).
  { eapply baseCase_steps; eauto. }
  bind_inv Hr as [[P W] st1] Ep.
  destruct (findPivots_steps _ _ _ _ _ _ _ HS Ep) as (Hs1 & HW & HP).
  destruct P as [|p0 P'] eqn:EP.
  { injection Hr as <- <- <-. auto. }
  rewrite <- EP in *. clear EP.
  bind_inv Hr as e1 E1. bind_inv Hr as M0 EM. bind_inv Hr as e2 E2.
  bind_inv Hr as p2 Ep2. bind_inv Hr as max_n En.
  bind_inv Hr as D Ei. bind_inv Hr as Bp0 Eb0. bind_inv Hr as Bp0' Eb0'.
  bind_inv Hr as [[st2 U2] Bpi] El. bind_inv Hr as U3 Ea.
  injection Hr as <- <- <-.
  assert (HD : D_fin st1 D).
  { fold_inv (D_fin st1) Ei Hf.
    - exact Hf.
    - intros kv [].
    - intros Da x Db Hin HDa Hb. unfold insert_pivot in Hb.
      bind_inv Hb as dx Edx.
      destruct (dlt dx B) eqn:Hlt; [|injection Hb as <-; exact HDa].
      apply BlockFacts.insert_Ok in Hb. destruct Hb as (_ & _ & Hi).
      intros kv Hkv. apply Hi in Hkv. destruct Hkv as [<-|Hkv]; [|auto].
      simpl. destruct (dlt_fin _ _ Hlt) as [z ->]. exists z. exact Edx. }
  assert (HU0 : set_fin st1 []) by (intros x []).
  destruct (BMSSP_loop_steps (BMSSP sv f) f level B
              (Z.max 1 (Z.min max_n (n sv))) IH
              st1 D [] Bp0' st2 U2 Bpi HD HU0 El) as [Hs2 HU2].
  split; [eapply steps_trans; eauto|].
  fold_inv (set_fin st2) Ea Hf.
  - exact Hf.
  - exact HU2.
  - intros Ua x Ub Hin HUa Hb. unfold add_below in Hb.
    bind_inv Hb as dx Edx. injection Hb as <-.
    destruct (dlt dx (dmin Bpi B)) eqn:Hlt; [|exact HUa].
    intros y Hy. apply set_insert_In in Hy. destruct Hy as [->|Hy]; [|auto].
    destruct (dlt_fin _ _ Hlt) as [z ->]. exists z. exact Edx.
Qed.

(** *** The entry point *)

Lemma init_state_Ok (source : Z) (st0 : State) :
  init_state sv source = Ok st0 ->
  let len := Z.to_nat (n sv) in
  0 <= source < n sv /\
  d_hat st0 = upd (repeat INF len) (Z.to_nat source) (Fin 0) /\
  pred st0 = repeat (-1) len /\
  trace st0 = [WriteDist source INF (Fin 0)].
Proof.
  unfold init_state. intros H.
  destruct (n sv <? 0) eqn:En; [discriminate|]. apply Z.ltb_ge in En.
  bind_inv H as d Ed. bind_inv H as c Ec. injection H as <-.
  apply vset_Ok in Ed. destruct Ed as [Hr ->].
  rewrite repeat_length in Hr. simpl. repeat split; auto; lia.
Qed.

Lemma seed_edge_steps (source : Z) (st st' : State) (e : Z * dist) :
  edge source (fst e) (snd e) -> fin st source ->
  seed_edge source st e = Ok st' -> steps st st'.
Proof.
  destruct e as [v w]. simpl. intros He Hs Hr. unfold seed_edge in Hr.
  bind_inv Hr as x Ex. bind_inv Hr as dv Edv.
  destruct (dlt x dv) eqn:Hlt.
  - apply steps_one.
    eapply (relax_steps st st' source v w x dv); eauto using dlt_dle.
  - injection Hr as <-. apply steps_refl.
Qed.

Theorem solve_state_steps (fuel : nat) (source : Z) (st : State) :
  solve_state sv fuel source = Ok st ->
  exists st0, init_state sv source = Ok st0 /\ steps st0 st.
Proof.
  unfold solve_state. intros H.
  bind_inv H as st0 E0. bind_inv H as edges Ee. bind_inv H as st1 Es.
  bind_inv H as [[B' U] st2] Eb. injection H as <-.
  exists st0. split; [exact E0|].
  pose proof (init_state_Ok _ _ E0) as (Hr & Hd & _).
  assert (Hf0 : fin st0 source).
  { exists 0. rewrite Hd. apply vget_upd_same. rewrite repeat_length. lia. }
  assert (H01 : steps st0 st1).
  { fold_inv (fun s : State => steps st0 s) Es Hf.
    - exact Hf.
    - apply steps_refl.
    - intros sa e sb Hin Hsa Hb.
      eapply steps_trans; [exact Hsa|].
      eapply seed_edge_steps; eauto.
      + exists edges. destruct e; simpl. split; [exact Ee | exact Hin].
      + eapply steps_fin; eauto. }
  assert (HS : set_fin st1 [source]).
  { intros x [<-|[]]. eapply steps_fin; eauto. }
  destruct (BMSSP_steps _ _ _ _ _ _ _ _ HS Eb) as [H12 _].
  eapply steps_trans; eauto.
Qed.

(** ** Every write to [d_hat] lowers the entry or keeps it *)

(** [replay d evs] performs the writes [evs] (oldest first) on [d];
    [writes_monotone d evs] says that each of them finds in [d_hat[v]] the
    value it recorded and stores a value that is not larger. *)
Fixpoint replay (d : list dist) (evs : list event) : list dist :=
  match evs with
  | [] => d
  | WriteDist v _ new :: r => replay (upd d (Z.to_nat v) new) r
  | WritePred _ _ _ _ _ :: r => replay d r
  end.

Fixpoint writes_monotone (d : list dist) (evs : list event) : Prop :=
  match evs with
  | [] => True
  | WriteDist v old new :: r =>
      vget d v = Ok old /\ dle new old = true /\
      writes_monotone (upd d (Z.to_nat v) new) r
  | WritePred _ _ _ _ _ :: r => writes_monotone d r
  end.

Lemma replay_app (d : list dist) (a b : list event) :
  replay d (a ++ b) = replay (replay d a) b.
Proof.
  revert d. induction a as [|[v old new|v u w du dv] a IH]; intros d; simpl;
    auto.
Qed.

Lemma writes_monotone_app (d : list dist) (a b : list event) :
  writes_monotone d (a ++ b) <->
  writes_monotone d a /\ writes_monotone (replay d a) b.
Proof.
  revert d. induction a as [|[v old new|v u w du dv] a IH]; intros d; simpl.
  - tauto.
  - rewrite IH. tauto.
  - apply IH.
Qed.

Definition trace_ok (d0 : list dist) (st : State) : Prop :=
  writes_monotone d0 (rev (trace st)) /\
  replay d0 (rev (trace st)) = d_hat st.

Lemma step_trace_ok (d0 : list dist) (st st' : State) :
  step st st' -> trace_ok d0 st -> trace_ok d0 st'.
Proof.
  intros Hs [Hm Hr].
  destruct Hs as [st|st v st' Hc|st u v w zu dv st' He Hu Hv Hle Hw].
  - split; assumption.
  - apply set_complete_Ok in Hc. destruct Hc as (Hd & _ & Ht & _).
    unfold trace_ok. rewrite Ht, Hd. split; assumption.
  - apply write_relax_Ok in Hw.
    destruct Hw as (du & old & du' & pr & Hu' & Hv' & _ & _ & ->).
    rewrite Hu in Hu'. injection Hu' as <-.
    rewrite Hv in Hv'. injection Hv' as <-.
    unfold trace_ok. cbn [trace d_hat rev].
    rewrite <- app_assoc. cbn [app].
    split.
    + apply writes_monotone_app. split; [exact Hm|].
      rewrite Hr. simpl. repeat split; auto.
    + rewrite replay_app, Hr. reflexivity.
Qed.

Lemma steps_trace_ok (d0 : list dist) (st st' : State) :
  steps st st' -> trace_ok d0 st -> trace_ok d0 st'.
Proof.
  induction 1; eauto using step_trace_ok.
Qed.

(** C4: during a solve every write to [d_hat[v]] stores a value that is at
    most the value [d_hat[v]] held just before: the recorded writes,
    replayed in order from the initial array, each find the value they
    recorded as old, store a value not above it, and end in the final
    [d_hat]. *)
Theorem solve_writes_monotone (fuel : nat) (source : Z) (st : State) :
  solve_state sv fuel source = Ok st ->
  let d0 := repeat INF (Z.to_nat (n sv)) in
  writes_monotone d0 (rev (trace st)) /\
  replay d0 (rev (trace st)) = d_hat st.
Proof.
  intros H. destruct (solve_state_steps _ _ _ H) as (st0 & E0 & Hs).
  apply (steps_trace_ok _ _ _ Hs).
  pose proof (init_state_Ok _ _ E0) as (Hr & Hd & _ & Ht).
  unfold trace_ok. rewrite Ht, Hd. simpl. repeat split; auto.
  apply vget_Ok. rewrite repeat_length. split; [lia|].
  apply nth_error_repeat. lia.
Qed.

(** ** Predecessor writes *)

Definition nonneg_weights : Prop :=
  forall u v w, edge u v w -> exists z, w = Fin z /\ 0 <= z.

Definition tight (e : event) : Prop :=
  match e with
  | WritePred _ _ w du dv => dadd du w = dv
  | WriteDist _ _ _ => True
  end.

Lemma step_tight (st st' : State) :
  nonneg_weights -> step st st' ->
  Forall tight (trace st) -> Forall tight (trace st').
Proof.
  intros Hw Hs Ht.
  destruct Hs as [st|st v st' Hc|st u v w zu dv st' He Hu Hv Hle Hr].
  - exact Ht.
  - apply set_complete_Ok in Hc. destruct Hc as (_ & _ & -> & _). exact Ht.
  - apply write_relax_Ok in Hr.
    destruct Hr as (du & old & du' & pr & Hu' & Hv' & Hdu' & _ & ->).
    rewrite Hu in Hu'. injection Hu' as <-.
    rewrite Hv in Hv'. injection Hv' as <-.
    cbn [trace]. constructor; [|constructor; [exact I | exact Ht]].
    cbn [tight].
    assert (Hr : 0 <= v < Z.of_nat (length (d_hat st))).
    { apply vget_Ok in Hv. tauto. }
    destruct (Z.eq_dec v u) as [->|Hne].
    + rewrite vget_upd_same in Hdu' by exact Hr. injection Hdu' as <-.
      rewrite Hu in Hv. injection Hv as <-.
      destruct (Hw _ _ _ He) as (zw & -> & Hzw).
      exact (dadd_stationary zu zw _ Hzw eq_refl Hle).
    + rewrite vget_upd_other in Hdu' by lia.
      rewrite Hu in Hdu'. injection Hdu' as <-. reflexivity.
Qed.

Lemma steps_tight (st st' : State) :
  nonneg_weights -> steps st st' ->
  Forall tight (trace st) -> Forall tight (trace st').
Proof.
  intros Hw. induction 1; eauto using step_tight.
Qed.

(** At the moment [pred[v]] is written to [u] for an arc of weight [w],
    [d_hat[u] + w = d_hat[v]]. *)
Lemma solve_pred_writes_tight (fuel : nat) (source : Z) (st : State) :
  nonneg_weights ->
  solve_state sv fuel source = Ok st -> Forall tight (trace st).
Proof.
  intros Hw H. destruct (solve_state_steps _ _ _ H) as (st0 & E0 & Hs).
  apply (steps_tight _ _ Hw Hs).
  pose proof (init_state_Ok _ _ E0) as (_ & _ & _ & ->).
  constructor; [exact I | constructor].
Qed.

(** ** Reachability *)

Inductive reach (s : Z) : Z -> Prop :=
| reach_refl : reach s s
| reach_edge u v w : reach s u -> edge u v w -> reach s v.

(** Paths of weight zero, and closed walks of weight zero through [s]. *)
Inductive zreach (s : Z) : Z -> Prop :=
| zreach_refl : zreach s s
| zreach_edge u v : zreach s u -> edge u v (Fin 0) -> zreach s v.

Definition zero_cycle (s : Z) : Prop :=
  exists u, zreach s u /\ edge u s (Fin 0).

Record sound (s : Z) (st : State) : Prop := mkSound {
  sound_len : length (d_hat st) = Z.to_nat (n sv);
  sound_len_pred : length (pred st) = Z.to_nat (n sv);
  sound_dist : forall v z, vget (d_hat st) v = Ok (Fin z) ->
                           0 <= z /\ reach s v /\ (z = 0 -> zreach s v);
  sound_pred : forall v p, vget (pred st) v = Ok p -> p <> -1 -> reach s v;
  sound_source : vget (d_hat st) s = Ok (Fin 0);
  sound_source_pred : vget (pred st) s = Ok (-1) \/ zero_cycle s
}.

Lemma step_sound (s : Z) (st st' : State) :
  nonneg_weights -> step st st' -> sound s st -> sound s st'.
Proof.
  intros Hw Hs [Hl Hlp Hd Hp Hsrc Hsp].
  destruct Hs as [st|st v st' Hc|st u v w zu dv st' He Hu Hv Hle Hr].
  - constructor; assumption.
  - apply set_complete_Ok in Hc. destruct Hc as (Ed & Epr & _).
    constructor; unfold fin in *; rewrite ?Ed, ?Epr; assumption.
  - apply write_relax_Ok in Hr.
    destruct Hr as (du & old & du' & pr & Hu' & Hv' & _ & Hpr & ->).
    rewrite Hu in Hu'. injection Hu' as <-.
    rewrite Hv in Hv'. injection Hv' as <-.
    apply vset_Ok in Hpr. destruct Hpr as [Hrp ->].
    destruct (Hw _ _ _ He) as (zw & -> & Hzw).
    destruct (Hd _ _ Hu) as (Hzu & Hru & Hzr).
    assert (Hr : 0 <= v < Z.of_nat (length (d_hat st))).
    { apply vget_Ok in Hv. tauto. }
    constructor; cbn [d_hat pred]; unfold fin; cbn [d_hat].
    + rewrite length_upd. exact Hl.
    + rewrite length_upd. exact Hlp.
    + intros x z Hx. destruct (Z.eq_dec v x) as [->|Hne].
      * rewrite vget_upd_same in Hx by exact Hr. injection Hx as Hx.
        split; [eapply dadd_nonneg; [|exact Hx]; lia|].
        split; [eapply reach_edge; eauto|].
        intros ->. destruct (dadd_zero_inv zu zw Hzu Hzw Hx) as [-> ->].
        eapply zreach_edge; eauto.
      * rewrite vget_upd_other in Hx by lia. auto.
    + intros x p Hx Hne. destruct (Z.eq_dec v x) as [->|Hvx].
      * eapply reach_edge; eauto.
      * rewrite vget_upd_other in Hx by lia. eapply Hp; eauto.
    + destruct (Z.eq_dec v s) as [->|Hne].
      * rewrite vget_upd_same by exact Hr.
        rewrite Hsrc in Hv. injection Hv as <-.
        f_equal. now apply dadd_le_zero.
      * rewrite vget_upd_other by lia. exact Hsrc.
    + destruct (Z.eq_dec v s) as [->|Hne].
      * right. rewrite Hsrc in Hv. injection Hv as <-.
        apply dadd_le_zero in Hle; [|assumption..].
        destruct (dadd_zero_inv zu zw Hzu Hzw Hle) as [-> ->].
        exists u. split; [apply Hzr; reflexivity | exact He].
      * destruct Hsp as [Hsp|Hsp]; [left | right; exact Hsp].
        rewrite vget_upd_other by lia. exact Hsp.
Qed.

Lemma steps_sound (s : Z) (st st' : State) :
  nonneg_weights -> steps st st' -> sound s st -> sound s st'.
Proof.
  intros Hw. induction 1; eauto using step_sound.
Qed.

Lemma vget_repeat {A : Type} (a x : A) (len : nat) (i : Z) :
  vget (repeat a len) i = Ok x -> x = a.
Proof.
  intros H. apply vget_Ok in H. destruct H as [_ H].
  apply nth_error_In, repeat_spec in H. exact H.
Qed.

Lemma init_state_sound (s : Z) (st0 : State) :
  init_state sv s = Ok st0 -> sound s st0.
Proof.
  intros E0. pose proof (init_state_Ok _ _ E0) as (Hr & Hd & Hp & _).
  assert (Hs : 0 <= s < Z.of_nat (length (repeat INF (Z.to_nat (n sv))))).
  { rewrite repeat_length. lia. }
  constructor; unfold fin; rewrite ?Hd, ?Hp.
  - rewrite length_upd, repeat_length. reflexivity.
  - apply repeat_length.
  - intros v z Hv. destruct (Z.eq_dec s v) as [->|Hne].
    + rewrite vget_upd_same in Hv by exact Hs. injection Hv as <-.
      split; [lia|]. split; [apply reach_refl | intros _; apply zreach_refl].
    + rewrite vget_upd_other in Hv by lia.
      apply vget_repeat in Hv. discriminate.
  - intros v p Hv Hne. apply vget_repeat in Hv. contradiction.
  - apply vget_upd_same. exact Hs.
  - left. apply vget_Ok. rewrite repeat_length. split; [lia|].
    apply nth_error_repeat. lia.
Qed.

Theorem solve_state_sound (fuel : nat) (s : Z) (st : State) :
  nonneg_weights -> solve_state sv fuel s = Ok st -> sound s st.
Proof.
  intros Hw H. destruct (solve_state_steps _ _ _ H) as (st0 & E0 & Hs).
  eapply steps_sound; eauto using init_state_sound.
Qed.

(** What soundness says of the vertices that are not reachable. *)
Lemma sound_unreachable (s i : Z) (st : State) :
  sound s st -> 0 <= i < n sv -> ~ reach s i ->
  vget (d_hat st) i = Ok INF /\ vget (pred st) i = Ok (-1).
Proof.
  intros [Hl Hlp Hd Hp _ _] Hi Hn.
  destruct (vget_in_range (d_hat st) i) as [a Ha]; [rewrite Hl; lia|].
  destruct (vget_in_range (pred st) i) as [p Hpi]; [rewrite Hlp; lia|].
  assert (Hinf : a = INF).
  { destruct a as [z|]; [|reflexivity].
    destruct (Hd _ _ Ha) as (_ & Hr & _). contradiction. }
  subst a. split; [exact Ha|].
  destruct (Z.eq_dec p (-1)) as [->|Hne]; [exact Hpi|].
  destruct (Hn (Hp _ _ Hpi Hne)).
Qed.

End Traversal.

(** ** The priority queue is sorted *)

Fixpoint pq_sorted (H : list PQEntry) : Prop :=
  match H with
  | [] => True
  | e :: H' => (forall y, In y H' -> pq_lt y e = false) /\ pq_sorted H'
  end.

Ltac pq_solve :=
  unfold pq_lt; simpl;
  repeat rewrite ?orb_true_iff, ?orb_false_iff, ?andb_true_iff,
    ?andb_false_iff, ?Z.ltb_lt, ?Z.eqb_eq, ?Z.ltb_ge, ?Z.eqb_neq;
  intuition (try discriminate; try lia).

Lemma pq_lt_asym (a b : PQEntry) : pq_lt a b = true -> pq_lt b a = false.
Proof. destruct a as [[x|] i], b as [[y|] j]; pq_solve. Qed.

Lemma pq_lt_irrefl (a : PQEntry) : pq_lt a a = false.
Proof. destruct a as [[x|] i]; pq_solve. Qed.

Lemma pq_lt_trans_false (a b c : PQEntry) :
  pq_lt a b = true -> pq_lt c b = false -> pq_lt c a = false.
Proof.
  destruct a as [[x|] i], b as [[y|] j], c as [[z|] l]; pq_solve.
Qed.

Lemma pq_push_sorted (e : PQEntry) (H : list PQEntry) :
  pq_sorted H -> pq_sorted (pq_push e H).
Proof.
  induction H as [|x H IH]; simpl; intros Hs.
  - split; [intros y [] | exact I].
  - destruct Hs as [Hx Hs]. destruct (pq_lt e x) eqn:E; simpl.
    + split; [|split; assumption].
      intros y [<-|Hy]; [now apply pq_lt_asym|].
      eapply pq_lt_trans_false; eauto.
    + split; [|auto].
      intros y Hy. apply pq_push_In in Hy. destruct Hy as [->|Hy]; auto.
Qed.

(** ** Weights of zero around the source

    A base case called on the source with bound [+inf] that only ever takes
    entries of distance zero from the queue, and leaves its loop with more
    than [k] vertices, returns [(0, {})]: no vertex lies strictly below the
    largest distance.  A driver one level up that gets this answer has made
    no progress and pulls the source again.  So when the source lies on a
    closed walk of weight zero, or when [k + 1] vertices are at distance
    zero, a solve has no way to return: it stays in the base case or in a
    driver, or it ends in an undefined operation. *)

Section ZeroWeights.

Variable sv : Solver.
Variable s : Z.
Hypothesis Hw : nonneg_weights sv.

Lemma zreach_head (a b : Z) :
  zreach sv a b ->
  a = b \/ exists a', edge sv a a' (Fin 0) /\ zreach sv a' b.
Proof.
  induction 1 as [|u v Hr IH He]; [now left|].
  right. destruct IH as [->|(a' & Ha & Hr')].
  - exists v. split; [exact He | apply zreach_refl].
  - exists a'. split; [exact Ha | eapply zreach_edge; eauto].
Qed.

Lemma sound_nonneg (st : State) (v : Z) (a : dist) :
  sound sv s st -> vget (d_hat st) v = Ok a -> dle (Fin 0) a = true.
Proof.
  intros Hs Ha. destruct a as [z|]; [|reflexivity].
  destruct (sound_dist _ _ _ Hs _ _ Ha) as [Hz0 _]. simpl.
  now apply Z.leb_le.
Qed.

Lemma sound_zero_stays (st st' : State) (x : Z) :
  sound sv s st' -> steps sv st st' ->
  vget (d_hat st) x = Ok (Fin 0) -> vget (d_hat st') x = Ok (Fin 0).
Proof.
  intros Hs Hst Hx.
  destruct (steps_dist_le _ _ _ Hst _ _ Hx) as (a & Ha & Hle).
  pose proof (sound_nonneg _ _ _ Hs Ha) as Hge.
  rewrite Ha. f_equal. apply dle_antisym; assumption.
Qed.

Definition heap_le (st : State) (H : list PQEntry) : Prop :=
  forall a x, In (a, x) H ->
  exists dx, vget (d_hat st) x = Ok dx /\ dle dx a = true.

Lemma steps_heap_le (st st' : State) (H : list PQEntry) :
  steps sv st st' -> heap_le st H -> heap_le st' H.
Proof.
  intros Hs HH a x Hin. destruct (HH _ _ Hin) as (dx & Hx & Hle).
  destruct (steps_dist_le _ _ _ Hs _ _ Hx) as (dx' & Hx' & Hle').
  exists dx'. split; [exact Hx' | eapply dle_trans; eauto].
Qed.

(** What one edge of the base case does to the queue. *)
Lemma baseCase_edge_cases (B : dist) (u v : Z) (w : dist) (st st' : State)
    (H H' : list PQEntry) (ih ih' : IntSet) :
  edge sv u v w -> fin st u ->
  baseCase_edge B u (st, H, ih) (v, w) = Ok (st', H', ih') ->
  steps sv st st' /\
  exists du dv,
    vget (d_hat st) u = Ok du /\ vget (d_hat st) v = Ok dv /\
    if dle (dadd du w) dv && dlt (dadd du w) B
    then vget (d_hat st') v = Ok (dadd du w)
         /\ H' = pq_push (dadd du w, v) H
    else H' = H.
Proof.
  intros He Hu Hr. unfold baseCase_edge in Hr.
  set (st0 := count_relaxation st) in *.
  assert (H0 : steps sv st st0) by apply steps_one, step_count.
  bind_inv Hr as x Ex. bind_inv Hr as dv Edv.
  pose proof (tentative_Ok _ _ _ _ Ex) as (du & Edu & ->).
  change (d_hat st0) with (d_hat st) in *.
  destruct (dle (dadd du w) dv && dlt (dadd du w) B) eqn:Hg.
  - apply andb_true_iff in Hg. destruct Hg as [Hle Hlt].
    bind_inv Hr as st1 Ew. bind_inv Hr as dv' Edv'.
    injection Hr as <- <- <-.
    destruct (relax_steps sv st0 st1 u v w _ dv He (steps_fin _ _ _ _ H0 Hu)
                Ex Edv Hle Ew) as [Hs Hv].
    split; [eapply steps_trans; [exact H0 | apply steps_one, Hs]|].
    exists du, dv. rewrite Hle, Hlt. simpl.
    rewrite Hv in Edv'. injection Edv' as <-. auto.
  - injection Hr as <- <- <-. split; [exact H0|].
    exists du, dv. rewrite Hg. auto.
Qed.

Definition all_zero (st : State) (U : list Z) : Prop :=
  forall x, In x U -> vget (d_hat st) x = Ok (Fin 0).

Definition queue_ok (st1 : State) (H0 : list PQEntry)
    (acc : State * list PQEntry * IntSet) : Prop :=
  let '(st, H, _) := acc in
  steps sv st1 st /\ pq_sorted H /\ heap_le st H /\ incl H0 H.

Lemma zero_edge_step (u : Z) (st1 : State) (H0 : list PQEntry)
    (edges : list (Z * dist)) :
  sound sv s st1 -> vget (d_hat st1) u = Ok (Fin 0) ->
  adj_of sv u = Ok edges ->
  forall acc e acc',
    In e edges -> queue_ok st1 H0 acc ->
    baseCase_edge INF u acc e = Ok acc' ->
    queue_ok st1 H0 acc' /\
    (forall y, In y (snd (fst acc)) -> In y (snd (fst acc'))) /\
    (snd e = Fin 0 -> In (Fin 0, fst e) (snd (fst acc'))).
Proof.
  intros Hs1 Hu Ee [[st H] ih] [v w] [[st' H'] ih'] Hin (Hst & Hso & Hle & Hi)
    Hr.
  pose proof (steps_sound _ _ _ _ Hw Hst Hs1) as Hs.
  pose proof (sound_zero_stays _ _ _ Hs Hst Hu) as Hu'.
  assert (He : edge sv u v w) by (exists edges; auto).
  destruct (baseCase_edge_cases INF u v w st st' H H' ih ih' He) as
    (Hst' & du & dv & Edu & Edv & Hc); [eexists; eauto | exact Hr |].
  rewrite Hu' in Edu. injection Edu as <-.
  pose proof (sound_nonneg _ _ _ Hs Edv) as Hdv.
  cbn [fst snd].
  destruct (dle (dadd (Fin 0) w) dv && dlt (dadd (Fin 0) w) INF) eqn:Hg.
  - destruct Hc as [Hv ->]. split; [|split].
    + unfold queue_ok. split; [eapply steps_trans; eauto|].
      split; [apply pq_push_sorted, Hso|]. split.
      * intros a x Hx. apply pq_push_In in Hx. destruct Hx as [Hx|Hx].
        -- injection Hx as -> ->. exists (dadd (Fin 0) w).
           split; [exact Hv | apply dle_refl].
        -- eapply steps_heap_le; eauto.
      * intros y Hy. apply pq_push_In. right. auto.
    + intros y Hy. apply pq_push_In. now right.
    + intros ->. apply pq_push_In. now left.
  - subst H'. split; [|split].
    + unfold queue_ok. split; [eapply steps_trans; eauto|].
      split; [exact Hso|]. split; [eapply steps_heap_le; eauto | exact Hi].
    + auto.
    + intros ->. change (dadd (Fin 0) (Fin 0)) with (Fin 0) in Hg.
      rewrite Hdv in Hg. discriminate.
Qed.

Lemma max_dist_zero (st : State) (U : IntSet) (md : dist) :
  all_zero st U -> max_dist_of st U = Ok md -> md = Fin 0.
Proof.
  intros HU H. unfold max_dist_of in H.
  fold_inv (fun d : dist => d = Fin 0) H Hf.
  - exact Hf.
  - reflexivity.
  - intros d0 v d1 Hin -> Hv. bind_inv Hv as dv Edv. injection Hv as <-.
    rewrite (HU _ Hin) in Edv. injection Edv as <-. reflexivity.
Qed.

Lemma below_zero (st : State) (U R : IntSet) :
  all_zero st U -> below st (Fin 0) U = Ok R -> R = [].
Proof.
  intros HU H. unfold below in H.
  fold_inv (fun acc : IntSet => acc = []) H Hf.
  - exact Hf.
  - reflexivity.
  - intros a0 v a1 Hin -> Hv. bind_inv Hv as dv Edv. injection Hv as <-.
    rewrite (HU _ Hin) in Edv. injection Edv as <-. reflexivity.
Qed.

(** The base case on the source, with bound [+inf], returns [(0, {})]
    whenever it returns. *)
Definition stuck_base : Prop :=
  forall (fuel : nat) (st st' : State) (B' : dist) (U : IntSet),
    sound sv s st ->
    baseCase sv fuel INF [s] st = Ok ((B', U), st') ->
    B' = Fin 0 /\ U = [] /\ steps sv st st'.

Lemma findPivots_singleton (fuel : nat) (B : dist) (x : Z) (st st' : State)
    (P W : IntSet) :
  findPivots sv fuel B [x] st = Ok ((P, W), st') -> P = [x].
Proof.
  intros Hr. unfold findPivots in Hr.
  bind_inv Hr as [[st1 W1] early] Er.
  destruct early.
  - now injection Hr as <- <- <-.
  - bind_inv Hr as [children parent] Eb. bind_inv Hr as sub Es.
    bind_inv Hr as st2 Ec. injection Hr as <- <- <-.
    simpl. destruct (k sv <=? subtree_size_of sub x); reflexivity.
Qed.

(** The loop of the driver on a workspace that holds the source alone. *)
Definition returns_nothing (rec : BMSSP_call) (level : Z) : Prop :=
  forall st B' U st',
    sound sv s st -> rec (level - 1) INF [s] st = Ok ((B', U), st') ->
    B' = Fin 0 /\ U = [] /\ steps sv st st'.

Lemma zero_driver_loop (rec : BMSSP_call) (level size_limit : Z) :
  returns_nothing rec level -> 1 <= size_limit ->
  forall (fuel : nat) (st : State) (D : BlockDataStructure.t) (Bp : dist)
         (r : State * IntSet * dist),
  sound sv s st -> BlockFacts.holds_only D s (Fin 0) ->
  1 <= BlockDataStructure.M D -> BlockDataStructure.B D = INF ->
  BMSSP_loop sv rec fuel level INF size_limit st D [] Bp <> Ok r.
Proof.
  intros Hrec Hsl. induction fuel as [|f IH];
    intros st D Bp r Hs Hh HM HB Hr; simpl in Hr;
    rewrite (BlockFacts.holds_only_not_empty _ _ _ Hh) in Hr;
    change (set_size []) with 0 in Hr;
    destruct (Z.ltb_spec 0 size_limit); try lia; simpl in Hr;
    [discriminate|].
  destruct (BlockFacts.pull_only D s (Fin 0) HM Hh)
    as (D1 & Ep & Hn & HM1 & HB1).
  rewrite Ep, HB in Hr. cbn [set_of_list fold_left set_insert] in Hr.
  bind_inv Hr as [[Bn Ui] st1] Erec.
  destruct (Hrec _ _ _ _ Hs Erec) as (-> & -> & H1).
  pose proof (steps_sound _ _ _ _ Hw H1 Hs) as Hs1.
  cbn [foldM bind] in Hr. unfold back_to_K in Hr at 1.
  rewrite (sound_source _ _ _ Hs1) in Hr. unfold INF in Hr.
  cbn [bind dle dlt andb] in Hr.
  rewrite Z.leb_refl in Hr. cbn [andb app bind] in Hr.
  destruct (BlockFacts.batchPrepend_only D1 s (Fin 0)) as
    (D3 & Eb & Hh3 & HM3 & HB3); [lia | exact Hn |].
  rewrite Eb in Hr. cbn [bind] in Hr.
  change (set_union [] []) with (@nil Z) in Hr.
  apply (IH st1 D3 (Fin 0) r); auto; congruence.
Qed.

Section Driver.

Hypothesis Hbase : stuck_base.

Lemma BMSSP_stuck (fuel : nat) :
  forall (level : Z) (st st' : State) (B' : dist) (U : IntSet),
  sound sv s st ->
  BMSSP sv fuel level INF [s] st = Ok ((B', U), st') ->
  level = 0 /\ B' = Fin 0 /\ U = [] /\ steps sv st st'.
Proof.
  induction fuel as [|f IH]; intros level st st' B' U Hs Hr;
    simpl in Hr; [discriminate|].
  destruct (Z.eqb_spec level 0) as [->|Hne].
  { destruct (Hbase _ _ _ _ _ Hs Hr) as (? & ? & ?). auto. }
  exfalso.
  bind_inv Hr as [[P W] st1] Ep.
  pose proof (findPivots_singleton _ _ _ _ _ _ _ Ep) as ->.
  assert (HS : set_fin st [s]).
  { intros x [<-|[]]. exists 0. apply (sound_source _ _ _ Hs). }
  destruct (findPivots_steps _ _ _ _ _ _ _ _ HS Ep) as (H1 & _ & _).
  pose proof (steps_sound _ _ _ _ Hw H1 Hs) as Hs1.
  bind_inv Hr as e1 E1. bind_inv Hr as M0 EM. bind_inv Hr as e2 E2.
  bind_inv Hr as p2 Ep2. bind_inv Hr as max_n En.
  bind_inv Hr as D Ei. bind_inv Hr as Bp0 Eb0. bind_inv Hr as Bp0' Eb0'.
  bind_inv Hr as [[st2 U2] Bpi] El.
  cbn [foldM] in Ei. unfold insert_pivot in Ei at 1.
  rewrite (sound_source _ _ _ Hs1) in Ei. cbn [bind dlt] in Ei.
  destruct (BlockFacts.insert_initial (Z.max 1 (Z.min M0 (n sv))) INF max_n
              s (Fin 0) eq_refl) as (D' & Ei' & Hh & HM & HB).
  rewrite Ei' in Ei. cbn [bind] in Ei. injection Ei as <-.
  eapply (zero_driver_loop (BMSSP sv f) level
            (Z.max 1 (Z.min max_n (n sv)))); [| | | | | |exact El]; auto.
  - intros sta Ba Ua stb Hsa Ha.
    destruct (IH _ _ _ _ _ Hsa Ha) as (_ & ? & ? & ?). auto.
  - lia.
  - lia.
Qed.

Lemma solve_stuck (fuel : nat) (st : State) :
  1 <= max_level sv -> solve_state sv fuel s <> Ok st.
Proof.
  intros HL H. unfold solve_state in H.
  bind_inv H as st0 E0. bind_inv H as edges Ee. bind_inv H as st1 Es.
  bind_inv H as [[B' U] st2] Eb. injection H as <-.
  pose proof (init_state_sound _ _ _ E0) as Hs0.
  pose proof (init_state_Ok _ _ _ E0) as (Hr & Hd & _).
  assert (Hf0 : fin st0 s).
  { exists 0. apply (sound_source _ _ _ Hs0). }
  assert (H01 : steps sv st0 st1).
  { fold_inv (fun x : State => steps sv st0 x) Es Hf.
    - exact Hf.
    - apply steps_refl.
    - intros sa e sb Hin Hsa Hb.
      eapply steps_trans; [exact Hsa|].
      eapply seed_edge_steps; eauto.
      + exists edges. destruct e; simpl. split; [exact Ee | exact Hin].
      + eapply steps_fin; eauto. }
  pose proof (steps_sound _ _ _ _ Hw H01 Hs0) as Hs1.
  destruct (BMSSP_stuck _ _ _ _ _ _ Hs1 Eb) as (HL0 & _). lia.
Qed.

End Driver.

(** *** A closed walk of weight zero through the source *)

Section Cycle.

Hypothesis Hz : zero_cycle sv s.

Definition on_cycle (c : Z) : Prop := zreach sv s c /\ zreach sv c s.

Lemma on_cycle_source : on_cycle s.
Proof. split; apply zreach_refl. Qed.

Lemma on_cycle_succ (c : Z) :
  on_cycle c -> exists c', edge sv c c' (Fin 0) /\ on_cycle c'.
Proof.
  intros [Hsc Hcs]. destruct (zreach_head _ _ Hcs) as [->|(c' & He & Hr)].
  - destruct Hz as (u & Hsu & Hus).
    destruct (zreach_head _ _ Hsu) as [<-|(a' & Ha & Hr)].
    + exists s. split; [exact Hus | apply on_cycle_source].
    + exists a'. split; [exact Ha|]. split.
      * eapply zreach_edge; [apply zreach_refl | exact Ha].
      * eapply zreach_edge; eauto.
  - exists c'. split; [exact He|]. split; [|exact Hr].
    eapply zreach_edge; eauto.
Qed.

Definition cycle_entry (H : list PQEntry) : Prop :=
  exists c, on_cycle c /\ In (Fin 0, c) H.

Definition zero_inv (bs : BaseState) : Prop :=
  let '(st, H, U0, _) := bs in
  sound sv s st /\ pq_sorted H /\ heap_le st H /\ cycle_entry H /\
  all_zero st U0.

Lemma zero_body (bs bs' : BaseState) :
  zero_inv bs -> baseCase_body sv INF bs = Ok bs' ->
  steps sv (base_st bs) (base_st bs') /\ zero_inv bs'.
Proof.
  destruct bs as [[[st H] U0] ih], bs' as [[[st' Hn] U0'] ih'].
  unfold base_st. cbn [fst]. intros (Hs & Hso & Hle & Hc & HU) Hr.
  unfold baseCase_body in Hr.
  destruct H as [|[a u] H']; [discriminate|].
  destruct Hso as [Hmin Hso'].
  destruct Hc as (c & Hoc & Hcin).
  (* the head of the queue has distance zero *)
  assert (Hhead : pq_lt (Fin 0, c) (a, u) = false).
  { destruct Hcin as [Heq|Hin]; [|apply Hmin, Hin].
    rewrite Heq. apply pq_lt_irrefl. }
  destruct (Hle a u (or_introl eq_refl)) as (du & Edu & Hdu).
  pose proof (sound_nonneg _ _ _ Hs Edu) as Hdu0.
  assert (Ha : dle a (Fin 0) = true).
  { unfold pq_lt in Hhead. cbn [fst snd] in Hhead.
    apply orb_false_iff in Hhead. destruct Hhead as [Hh _].
    rewrite dlt_negb_dle in Hh. now apply negb_false_iff in Hh. }
  assert (du = Fin 0).
  { apply dle_antisym; [eapply dle_trans; eauto | exact Hdu0]. }
  subst du.
  assert (a = Fin 0) by (apply dle_antisym; assumption). subst a.
  bind_inv Hr as du Edu'. rewrite Edu in Edu'. injection Edu' as <-.
  cbn [dlt] in Hr. rewrite Z.ltb_irrefl in Hr.
  bind_inv Hr as st1 Ec. bind_inv Hr as edges Ee.
  bind_inv Hr as [[st2 H2] ih2] Ef. injection Hr as <- <- <- <-.
  assert (H1 : steps sv st st1)
    by (apply steps_one; eapply step_complete; eauto).
  pose proof (steps_sound _ _ _ _ Hw H1 Hs) as Hs1.
  pose proof (sound_zero_stays _ _ _ Hs1 H1 Edu) as Hu1.
  assert (Hq1 : queue_ok st1 H' (st1, H', ih)).
  { unfold queue_ok. split; [apply steps_refl|]. split; [exact Hso'|].
    split; [|apply incl_refl].
    eapply steps_heap_le; [exact H1|].
    intros a x Hx. apply Hle. now right. }
  fold_inv (queue_ok st1 H') Ef Hq.
  2:{ exact Hq1. }
  2:{ intros acc e acc' Hin Hacc He.
      eapply zero_edge_step; eauto. }
  destruct Hq as (H12 & Hso2 & Hle2 & Hi2).
  pose proof (steps_sound _ _ _ _ Hw H12 Hs1) as Hs2.
  assert (Hc2 : cycle_entry H2).
  { destruct (Z.eq_dec u c) as [->|Hne].
    - destruct (on_cycle_succ _ Hoc) as (c' & (edges' & Ee' & Hin') & Hoc').
      rewrite Ee in Ee'. injection Ee' as <-.
      exists c'. split; [exact Hoc'|].
      apply (foldM_establish (queue_ok st1 H')
               (fun acc : State * list PQEntry * IntSet =>
                  In (Fin 0, c') (snd (fst acc)))
               (baseCase_edge INF c) edges (c', Fin 0)
               (st1, H', ih) (st2, H2, ih2)); auto.
      + intros acc e acc' Hin Hacc He.
        eapply zero_edge_step; eauto.
      + intros acc acc' Hacc He.
        destruct (zero_edge_step c st1 H' edges Hs1 Hu1 Ee acc (c', Fin 0)
                    acc' Hin' Hacc He) as (_ & _ & Hq).
        apply Hq. reflexivity.
      + intros acc e acc' Hin Hacc Hq He.
        destruct (zero_edge_step c st1 H' edges Hs1 Hu1 Ee acc e
                    acc' Hin Hacc He) as (_ & Hk & _).
        apply Hk, Hq.
    - exists c. split; [exact Hoc|]. apply Hi2.
      destruct Hcin as [Heq|Hin]; [|exact Hin].
      injection Heq as Heq. congruence. }
  assert (H02 : steps sv st st2) by (eapply steps_trans; eauto).
  split; [exact H02|].
  split; [exact Hs2|]. split; [exact Hso2|]. split; [exact Hle2|].
  split; [exact Hc2|].
  intros x Hx. apply set_insert_In in Hx.
  apply (sound_zero_stays st st2 x Hs2 H02).
  destruct Hx as [->|Hx]; [exact Edu | apply HU, Hx].
Qed.

Lemma zero_loop (fuel : nat) :
  forall (bs bs' : BaseState),
  zero_inv bs -> baseCase_loop sv fuel INF bs = Ok bs' ->
  steps sv (base_st bs) (base_st bs') /\ zero_inv bs' /\
  baseCase_cond sv bs' = false.
Proof.
  induction fuel as [|f IH]; intros bs bs' Hi Hr; simpl in Hr;
    destruct (baseCase_cond sv bs) eqn:Ec;
    try discriminate;
    try (injection Hr as <-; split; [apply steps_refl | auto]).
  bind_inv Hr as bs1 Eb.
  destruct (zero_body bs bs1 Hi Eb) as [H1 Hi1].
  destruct (IH bs1 bs' Hi1 Hr) as (H2 & Hi2 & Hc2).
  split; [eapply steps_trans; eauto | auto].
Qed.

(** The base case on the source with bound [+inf]. *)
Lemma baseCase_zero (fuel : nat) (st st' : State) (B' : dist) (U : IntSet) :
  sound sv s st ->
  baseCase sv fuel INF [s] st = Ok ((B', U), st') ->
  B' = Fin 0 /\ U = [] /\ steps sv st st'.
Proof.
  intros Hs Hr. unfold baseCase in Hr.
  bind_inv Hr as dx Edx. bind_inv Hr as [[[st1 H1] U0] ih1] El.
  rewrite (sound_source _ _ _ Hs) in Edx. injection Edx as <-.
  destruct (zero_loop fuel (st, [(Fin 0, s)], [s], [s]) (st1, H1, U0, ih1))
    as (Hst & (_ & _ & _ & Hc & HU) & Hcond); auto.
  { split; [exact Hs|]. split; [split; [intros y [] | exact I]|].
    split; [|split].
    - intros a x [Heq|[]]. injection Heq as <- <-.
      exists (Fin 0). split; [apply (sound_source _ _ _ Hs) | reflexivity].
    - exists s. split; [apply on_cycle_source | now left].
    - intros x [<-|[]]. apply (sound_source _ _ _ Hs). }
  unfold base_st in Hst. cbn [fst] in Hst.
  unfold baseCase_cond in Hcond.
  destruct H1 as [|e H1]; [destruct Hc as (c & _ & [])|].
  apply Z.ltb_ge in Hcond.
  destruct (Z.leb_spec (set_size U0) (k sv)); [lia|].
  bind_inv Hr as md Em. bind_inv Hr as Ur Eb.
  injection Hr as <- <- <-.
  pose proof (max_dist_zero _ _ _ HU Em) as ->.
  pose proof (below_zero _ _ _ HU Eb) as ->.
  auto.
Qed.

(** When the source lies on a closed walk of weight zero, no amount of
    fuel makes [solve] return. *)
Theorem solve_zero_cycle (fuel : nat) (st : State) :
  1 <= max_level sv -> solve_state sv fuel s <> Ok st.
Proof. apply solve_stuck. exact baseCase_zero. Qed.

End Cycle.

(** *** [k + 1] vertices at distance zero *)

Section Chain.

Variable l : list Z.
Hypothesis Hl_nodup : NoDup l.
Hypothesis Hl_len : k sv + 1 <= Z.of_nat (length l).
Hypothesis Hl_zero : forall v, In v l -> zreach sv s v.

(** Every vertex of [l] is in [U0] or is reached, along arcs of weight
    zero, from a vertex that waits in the queue with distance zero. *)
Definition supported (H : list PQEntry) (U0 : IntSet) : Prop :=
  forall v, In v l ->
    In v U0 \/ exists c, In (Fin 0, c) H /\ zreach sv c v.

Definition chain_inv (bs : BaseState) : Prop :=
  let '(st, H, U0, _) := bs in
  sound sv s st /\ pq_sorted H /\ heap_le st H /\ supported H U0 /\
  all_zero st U0.

Lemma missing_vertex (U0 : IntSet) :
  (length U0 < length l)%nat -> exists v, In v l /\ ~ In v U0.
Proof.
  intros Hlt.
  destruct (Forall_Exists_dec (fun v => In v U0)
              (fun v => in_dec Z.eq_dec v U0) l) as [Hall|Hex].
  - exfalso. rewrite Forall_forall in Hall.
    pose proof (NoDup_incl_length Hl_nodup Hall). lia.
  - apply Exists_exists in Hex. exact Hex.
Qed.

Lemma chain_body (bs bs' : BaseState) :
  chain_inv bs -> baseCase_cond sv bs = true ->
  baseCase_body sv INF bs = Ok bs' ->
  steps sv (base_st bs) (base_st bs') /\ chain_inv bs'.
Proof.
  destruct bs as [[[st H] U0] ih], bs' as [[[st' Hn] U0'] ih'].
  unfold base_st. cbn [fst]. intros (Hs & Hso & Hle & Hc & HU) Hcond Hr.
  unfold baseCase_body in Hr.
  destruct H as [|[a u] H']; [discriminate|].
  unfold baseCase_cond in Hcond. apply Z.ltb_lt in Hcond.
  destruct Hso as [Hmin Hso'].
  (* a vertex of [l] is still missing: the queue holds a zero entry *)
  destruct (missing_vertex U0) as (v0 & Hv0 & Hn0);
    [unfold set_size in Hcond; lia|].
  destruct (Hc v0 Hv0) as [Hin0|(c & Hcin & Hcv)]; [contradiction|].
  assert (Hhead : pq_lt (Fin 0, c) (a, u) = false).
  { destruct Hcin as [Heq|Hin]; [|apply Hmin, Hin].
    rewrite Heq. apply pq_lt_irrefl. }
  destruct (Hle a u (or_introl eq_refl)) as (du & Edu & Hdu).
  pose proof (sound_nonneg _ _ _ Hs Edu) as Hdu0.
  assert (Ha : dle a (Fin 0) = true).
  { unfold pq_lt in Hhead. cbn [fst snd] in Hhead.
    apply orb_false_iff in Hhead. destruct Hhead as [Hh _].
    rewrite dlt_negb_dle in Hh. now apply negb_false_iff in Hh. }
  assert (du = Fin 0).
  { apply dle_antisym; [eapply dle_trans; eauto | exact Hdu0]. }
  subst du.
  assert (a = Fin 0) by (apply dle_antisym; assumption). subst a.
  bind_inv Hr as du Edu'. rewrite Edu in Edu'. injection Edu' as <-.
  cbn [dlt] in Hr. rewrite Z.ltb_irrefl in Hr.
  bind_inv Hr as st1 Ec. bind_inv Hr as edges Ee.
  bind_inv Hr as [[st2 H2] ih2] Ef. injection Hr as <- <- <- <-.
  assert (H1 : steps sv st st1)
    by (apply steps_one; eapply step_complete; eauto).
  pose proof (steps_sound _ _ _ _ Hw H1 Hs) as Hs1.
  pose proof (sound_zero_stays _ _ _ Hs1 H1 Edu) as Hu1.
  assert (Hq1 : queue_ok st1 H' (st1, H', ih)).
  { unfold queue_ok. split; [apply steps_refl|]. split; [exact Hso'|].
    split; [|apply incl_refl].
    eapply steps_heap_le; [exact H1|].
    intros a x Hx. apply Hle. now right. }
  fold_inv (queue_ok st1 H') Ef Hq.
  2:{ exact Hq1. }
  2:{ intros acc e acc' Hin Hacc He.
      eapply zero_edge_step; eauto. }
  destruct Hq as (H12 & Hso2 & Hle2 & Hi2).
  pose proof (steps_sound _ _ _ _ Hw H12 Hs1) as Hs2.
  assert (Hpush : forall c', In (c', Fin 0) edges -> In (Fin 0, c') H2).
  { intros c' Hin'.
    apply (foldM_establish (queue_ok st1 H')
             (fun acc : State * list PQEntry * IntSet =>
                In (Fin 0, c') (snd (fst acc)))
             (baseCase_edge INF u) edges (c', Fin 0)
             (st1, H', ih) (st2, H2, ih2)); auto.
    - intros acc e acc' Hin Hacc He.
      eapply zero_edge_step; eauto.
    - intros acc acc' Hacc He.
      destruct (zero_edge_step u st1 H' edges Hs1 Hu1 Ee acc (c', Fin 0)
                  acc' Hin' Hacc He) as (_ & _ & Hq).
      apply Hq. reflexivity.
    - intros acc e acc' Hin Hacc Hq He.
      destruct (zero_edge_step u st1 H' edges Hs1 Hu1 Ee acc e
                  acc' Hin Hacc He) as (_ & Hk & _).
      apply Hk, Hq. }
  assert (Hc2 : supported H2 (set_insert u U0)).
  { intros v Hv. destruct (Hc v Hv) as [Hin|(c1 & Hc1 & Hr1)].
    - left. apply set_insert_In. now right.
    - destruct Hc1 as [Heq|Hin].
      + injection Heq as <-.
        destruct (zreach_head _ _ Hr1) as [<-|(a' & Ha' & Hr')].
        * left. apply set_insert_In. now left.
        * right. exists a'. split; [|exact Hr'].
          destruct Ha' as (edges' & Ee' & Hin').
          rewrite Ee in Ee'. injection Ee' as <-. now apply Hpush.
      + right. exists c1. split; [apply Hi2, Hin | exact Hr1]. }
  assert (H02 : steps sv st st2) by (eapply steps_trans; eauto).
  split; [exact H02|].
  split; [exact Hs2|]. split; [exact Hso2|]. split; [exact Hle2|].
  split; [exact Hc2|].
  intros x Hx. apply set_insert_In in Hx.
  apply (sound_zero_stays st st2 x Hs2 H02).
  destruct Hx as [->|Hx]; [exact Edu | apply HU, Hx].
Qed.

Lemma chain_loop (fuel : nat) :
  forall (bs bs' : BaseState),
  chain_inv bs -> baseCase_loop sv fuel INF bs = Ok bs' ->
  steps sv (base_st bs) (base_st bs') /\ chain_inv bs' /\
  baseCase_cond sv bs' = false.
Proof.
  induction fuel as [|f IH]; intros bs bs' Hi Hr; simpl in Hr;
    destruct (baseCase_cond sv bs) eqn:Ec;
    try discriminate;
    try (injection Hr as <-; split; [apply steps_refl | auto]).
  bind_inv Hr as bs1 Eb.
  destruct (chain_body bs bs1 Hi Ec Eb) as [H1 Hi1].
  destruct (IH bs1 bs' Hi1 Hr) as (H2 & Hi2 & Hc2).
  split; [eapply steps_trans; eauto | auto].
Qed.

Lemma baseCase_chain : stuck_base.
Proof.
  intros fuel st st' B' U Hs Hr. unfold baseCase in Hr.
  bind_inv Hr as dx Edx. bind_inv Hr as [[[st1 H1] U0] ih1] El.
  rewrite (sound_source _ _ _ Hs) in Edx. injection Edx as <-.
  destruct (chain_loop fuel (st, [(Fin 0, s)], [s], [s]) (st1, H1, U0, ih1))
    as (Hst & (_ & _ & _ & Hc & HU) & Hcond); auto.
  { split; [exact Hs|]. split; [split; [intros y [] | exact I]|].
    split; [|split].
    - intros a x [Heq|[]]. injection Heq as <- <-.
      exists (Fin 0). split; [apply (sound_source _ _ _ Hs) | reflexivity].
    - intros v Hv. right. exists s. split; [now left | apply Hl_zero, Hv].
    - intros x [<-|[]]. apply (sound_source _ _ _ Hs). }
  unfold base_st in Hst. cbn [fst] in Hst.
  assert (Hsize : k sv < set_size U0).
  { unfold baseCase_cond in Hcond. destruct H1 as [|e H1].
    - assert (Hall : incl l U0).
      { intros v Hv. destruct (Hc v Hv) as [Hin|(c & [] & _)]. exact Hin. }
      pose proof (NoDup_incl_length Hl_nodup Hall). unfold set_size. lia.
    - apply Z.ltb_ge in Hcond. lia. }
  destruct (Z.leb_spec (set_size U0) (k sv)); [lia|].
  bind_inv Hr as md Em. bind_inv Hr as Ur Eb.
  injection Hr as <- <- <-.
  pose proof (max_dist_zero _ _ _ HU Em) as ->.
  pose proof (below_zero _ _ _ HU Eb) as ->.
  auto.
Qed.

(** When [k + 1] vertices are at distance zero from the source, no amount
    of fuel makes [solve] return. *)
Theorem solve_zero_chain (fuel : nat) (st : State) :
  1 <= max_level sv -> solve_state sv fuel s <> Ok st.
Proof. apply solve_stuck. exact baseCase_chain. Qed.

End Chain.

End ZeroWeights.

(** ** Graphs given to [computeNewSSSP] *)

Definition nonneg_weightsb (g : SimpleGraph.t) : bool :=
  forallb
    (forallb (fun e : Z * dist =>
                match snd e with
                | Fin z => 0 <=? z
                | Inf => false
                end))
    (SimpleGraph.adj g).

Lemma nonneg_weightsb_ok (g : SimpleGraph.t) :
  nonneg_weightsb g = true -> nonneg_weights (create g).
Proof.
  intros H u v w (edges & Ha & Hin).
  unfold adj_of in Ha. simpl in Ha. apply vget_Ok in Ha. destruct Ha as [_ Ha].
  apply nth_error_In in Ha.
  unfold nonneg_weightsb in H. rewrite forallb_forall in H.
  specialize (H _ Ha). rewrite forallb_forall in H.
  specialize (H _ Hin). simpl in H.
  destruct w as [z|]; [|discriminate]. exists z. split; [reflexivity|].
  now apply Z.leb_le.
Qed.

Lemma level_search_ge (fuel : nat) (n t l : Z) :
  l <= level_search fuel n t l.
Proof.
  revert l. induction fuel as [|f IH]; intros l; simpl; [lia|].
  destruct (n <=? 2 ^ (l * t)); [lia|]. specialize (IH (l + 1)). lia.
Qed.

Lemma max_level_create (g : SimpleGraph.t) : 1 <= max_level (create g).
Proof.
  simpl. unfold param_max_level.
  destruct (SimpleGraph.n g <=? 1); [lia | apply level_search_ge].
Qed.

(** C7: after [solve] on a graph of non-negative weights, a vertex that is
    not reachable from the source has distance [+inf] and predecessor [-1],
    and the predecessor of the source is [-1]. *)
Theorem solve_unreachable_and_source (g : SimpleGraph.t) (fuel : nat)
    (s : Z) (r : Result) :
  nonneg_weights (create g) ->
  computeNewSSSP fuel g s = Ok r ->
  (forall i, 0 <= i < SimpleGraph.n g -> ~ reach (create g) s i ->
     vget (distances r) i = Ok INF /\ vget (predecessors r) i = Ok (-1)) /\
  vget (predecessors r) s = Ok (-1).
Proof.
  intros Hw H. unfold computeNewSSSP, solve in H.
  bind_inv H as st Es. injection H as <-. cbn [distances predecessors].
  pose proof (solve_state_sound _ _ _ _ Hw Es) as Hs.
  split.
  - intros i Hi Hn. apply (sound_unreachable (create g) s i st Hs Hi Hn).
  - destruct (sound_source_pred _ _ _ Hs) as [Hp|Hz]; [exact Hp|].
    exfalso.
    apply (solve_zero_cycle (create g) s Hw Hz fuel st (max_level_create g)).
    exact Es.
Qed.

End SolverFacts.


(** * Fuel

    The fuel of the model only bounds the loops and the recursion of the
    source: a run with less fuel either runs out of it or gives what the
    run with more fuel gives. *)

Module FuelFacts.

Import NewSSSP.

Definition approx {A : Type} (r1 r2 : result A) : Prop :=
  r1 = OutOfFuel \/ r1 = r2.

Lemma approx_refl {A : Type} (r : result A) : approx r r.
Proof. now right. Qed.

Lemma approx_bind {A B : Type} (c1 c2 : result A) (k1 k2 : A -> result B) :
  approx c1 c2 -> (forall a, approx (k1 a) (k2 a)) ->
  approx (bind c1 k1) (bind c2 k2).
Proof.
  intros [->| ->] Hk; [now left|]. destruct c2; simpl; auto using approx_refl.
Qed.

Lemma approx_foldM {A S : Type} (f1 f2 : S -> A -> result S) (l : list A) :
  (forall s a, approx (f1 s a) (f2 s a)) ->
  forall s, approx (foldM f1 l s) (foldM f2 l s).
Proof.
  intros Hf. induction l as [|a l IH]; intros s; simpl; [apply approx_refl|].
  apply approx_bind; auto.
Qed.

Section Fuel.

Variable sv : Solver.

Lemma baseCase_loop_mono (B : dist) :
  forall f f' s, (f <= f')%nat ->
  approx (baseCase_loop sv f B s) (baseCase_loop sv f' B s).
Proof.
  induction f as [|f IH]; intros f' s Hle; simpl.
  - destruct (baseCase_cond sv s) eqn:E; [now left|].
    destruct f'; simpl; rewrite E; apply approx_refl.
  - destruct f' as [|f']; [lia|]. simpl.
    destruct (baseCase_cond sv s); [|apply approx_refl].
    apply approx_bind; [apply approx_refl|]. intros s'. apply IH. lia.
Qed.

Lemma baseCase_mono (B : dist) (S : IntSet) (st : State) (f f' : nat) :
  (f <= f')%nat -> approx (baseCase sv f B S st) (baseCase sv f' B S st).
Proof.
  intros Hle. unfold baseCase. destruct S as [|x S]; [apply approx_refl|].
  apply approx_bind; [apply approx_refl|]. intros dx.
  apply approx_bind; [now apply baseCase_loop_mono|].
  intros [[[st' H] U0] ih]. apply approx_refl.
Qed.

Lemma computeSize_mono (children : IntMap (list Z)) (W : IntSet) :
  forall f f' v sub, (f <= f')%nat ->
  approx (computeSize f children W v sub) (computeSize f' children W v sub).
Proof.
  induction f as [|f IH]; intros f' v sub Hle; simpl; [now left|].
  destruct f' as [|f']; [lia|]. simpl.
  apply approx_bind.
  - apply approx_foldM. intros [size sub0] child.
    destruct (set_count child W); [|apply approx_refl].
    apply approx_bind; [apply IH; lia|]. intros [s sub']. apply approx_refl.
  - intros [size sub']. apply approx_refl.
Qed.

Lemma findPivots_mono (B : dist) (S : IntSet) (st : State) (f f' : nat) :
  (f <= f')%nat -> approx (findPivots sv f B S st) (findPivots sv f' B S st).
Proof.
  intros Hle. unfold findPivots.
  apply approx_bind; [apply approx_refl|]. intros [[st1 W] early].
  destruct early; [apply approx_refl|].
  apply approx_bind; [apply approx_refl|]. intros [children parent].
  apply approx_bind; [|intros sub; apply approx_refl].
  apply approx_foldM. intros sub root.
  apply approx_bind; [now apply computeSize_mono|].
  intros [size sub']. apply approx_refl.
Qed.

Lemma BMSSP_loop_mono (rec rec' : BMSSP_call) (level : Z) (B : dist)
    (size_limit : Z) :
  (forall l b S st, approx (rec l b S st) (rec' l b S st)) ->
  forall f f' st D U Bp, (f <= f')%nat ->
  approx (BMSSP_loop sv rec f level B size_limit st D U Bp)
         (BMSSP_loop sv rec' f' level B size_limit st D U Bp).
Proof.
  intros Hrec. induction f as [|f IH]; intros f' st D U Bp Hle; simpl.
  - destruct ((set_size U <? size_limit)
              && negb (BlockDataStructure.empty D)) eqn:E; [now left|].
    destruct f'; simpl; rewrite E; apply approx_refl.
  - destruct f' as [|f']; [lia|]. simpl.
    destruct ((set_size U <? size_limit)
              && negb (BlockDataStructure.empty D)); [|apply approx_refl].
    destruct (BlockDataStructure.pull D) as [[Si_vec Bi] D1].
    destruct (set_of_list Si_vec) as [|x Si]; [apply approx_refl|].
    apply approx_bind; [apply Hrec|]. intros [[Bn Ui] st1].
    apply approx_bind; [apply approx_refl|]. intros [[st2 D2] K].
    apply approx_bind; [apply approx_refl|]. intros K'.
    apply approx_bind; [apply approx_refl|]. intros D3.
    apply IH. lia.
Qed.

Lemma BMSSP_mono :
  forall f f' level B S st, (f <= f')%nat ->
  approx (BMSSP sv f level B S st) (BMSSP sv f' level B S st).
Proof.
  induction f as [|f IH]; intros f' level B S st Hle; simpl; [now left|].
  destruct f' as [|f']; [lia|]. simpl.
  destruct (level =? 0); [apply baseCase_mono; lia|].
  apply approx_bind; [apply findPivots_mono; lia|]. intros [[P W] st1].
  destruct P as [|p0 P]; [apply approx_refl|].
  apply approx_bind; [apply approx_refl|]. intros e1.
  apply approx_bind; [apply approx_refl|]. intros M0.
  apply approx_bind; [apply approx_refl|]. intros e2.
  apply approx_bind; [apply approx_refl|]. intros p2.
  apply approx_bind; [apply approx_refl|]. intros max_n.
  apply approx_bind; [apply approx_refl|]. intros D.
  apply approx_bind; [apply approx_refl|]. intros B0.
  apply approx_bind; [apply approx_refl|]. intros B0'.
  apply approx_bind; [|intros [[st2 U] Bp]; apply approx_refl].
  apply BMSSP_loop_mono; [|lia].
  intros l b S' st'. apply IH. lia.
Qed.

Lemma solve_mono (source : Z) (f f' : nat) :
  (f <= f')%nat -> approx (solve sv f source) (solve sv f' source).
Proof.
  intros Hle. unfold solve, solve_state.
  apply approx_bind; [|intros st; apply approx_refl].
  apply approx_bind; [apply approx_refl|]. intros st0.
  apply approx_bind; [apply approx_refl|]. intros edges.
  apply approx_bind; [apply approx_refl|]. intros st1.
  apply approx_bind; [now apply BMSSP_mono|]. intros [r st2].
  apply approx_refl.
Qed.

End Fuel.

(** A run that reaches undefined behaviour with some fuel returns with no
    fuel. *)
Lemma undefined_for_all_fuel (g : SimpleGraph.t) (source : Z) (f0 : nat) :
  computeNewSSSP f0 g source = Undefined ->
  forall fuel,
    computeNewSSSP fuel g source = Undefined \/
    computeNewSSSP fuel g source = OutOfFuel.
Proof.
  intros H0 fuel. unfold computeNewSSSP in *.
  destruct (Nat.le_ge_cases fuel f0) as [Hle|Hge].
  - destruct (solve_mono (create g) source fuel f0 Hle) as [H|H];
      [now right | left; congruence].
  - destruct (solve_mono (create g) source f0 fuel Hge) as [H|H];
      [congruence | left; congruence].
Qed.

End FuelFacts.

(** * The base case as a bounded Dijkstra *)

Module BaseCaseFacts.

Import NewSSSP SolverFacts.

Section BaseCase.

Variable sv : Solver.
Variable B : dist.

(** The state changes of a base case with bound [B]: besides counting a
    relaxation and flagging a vertex, an arc [u -> v] of weight [c] is
    relaxed, and that only when [d_hat[u] + c <= d_hat[v]] and
    [d_hat[u] + c < B]. *)
Inductive relaxes : State -> State -> Prop :=
| relaxes_count st : relaxes st (count_relaxation st)
| relaxes_complete st v st' : set_complete st v = Ok st' -> relaxes st st'
| relaxes_arc st u v c du dv st' :
    edge sv u v c ->
    vget (d_hat st) u = Ok du ->
    vget (d_hat st) v = Ok dv ->
    dle (dadd du c) dv = true ->
    dlt (dadd du c) B = true ->
    write_relax st u v c = Ok st' ->
    relaxes st st'.

Definition run : State -> State -> Prop := clos_refl_trans State relaxes.

Definition base_H (s : BaseState) : list PQEntry := snd (fst (fst s)).
Definition base_U (s : BaseState) : IntSet := snd (fst s).

Lemma baseCase_edge_run (u : Z) (acc acc' : State * list PQEntry * IntSet)
    (e : Z * dist) :
  edge sv u (fst e) (snd e) -> baseCase_edge B u acc e = Ok acc' ->
  run (fst (fst acc)) (fst (fst acc')).
Proof.
  destruct acc as [[st H] ih], acc' as [[st' H'] ih'], e as [v w].
  cbn [fst snd]. intros He Hr. unfold baseCase_edge in Hr.
  set (st0 := count_relaxation st) in *.
  assert (H0 : run st st0) by apply rt_step, relaxes_count.
  bind_inv Hr as x Ex. bind_inv Hr as dv Edv.
  destruct (dle x dv && dlt x B) eqn:Hg.
  - apply andb_true_iff in Hg. destruct Hg as [Hle Hlt].
    bind_inv Hr as st1 Ew. bind_inv Hr as dv' Edv'.
    injection Hr as <- <- <-.
    apply tentative_Ok in Ex. destruct Ex as (du & Hu & ->).
    eapply rt_trans; [exact H0|]. apply rt_step.
    eapply relaxes_arc; eauto.
  - injection Hr as <- <- <-. exact H0.
Qed.

Lemma baseCase_body_run (s s' : BaseState) :
  baseCase_body sv B s = Ok s' -> run (base_st s) (base_st s').
Proof.
  destruct s as [[[st H] U0] ih], s' as [[[st' H'] U0'] ih'].
  unfold base_st. cbn [fst]. intros Hr. unfold baseCase_body in Hr.
  destruct H as [|[dd u] Ht]; [discriminate|].
  bind_inv Hr as du Edu.
  destruct (dlt du dd).
  - injection Hr as <- <- <- <-. apply rt_refl.
  - bind_inv Hr as st1 Ec. bind_inv Hr as edges Ee.
    bind_inv Hr as [[st2 H2] ih2] Ef. injection Hr as <- <- <- <-.
    eapply rt_trans; [apply rt_step; eapply relaxes_complete; exact Ec|].
    fold_inv (fun acc : State * list PQEntry * IntSet =>
                run st1 (fst (fst acc))) Ef Hf.
    + exact Hf.
    + apply rt_refl.
    + intros a e a' Hin Ha Hstep.
      eapply rt_trans; [exact Ha|].
      apply (baseCase_edge_run u a a' e); [|exact Hstep].
      exists edges. destruct e; simpl. split; [exact Ee | exact Hin].
Qed.

Lemma set_size_insert (x : Z) (s : IntSet) :
  set_size s <= set_size (set_insert x s) <= set_size s + 1.
Proof.
  unfold set_size. induction s as [|y s IH]; simpl; [lia|].
  destruct (x <? y); [simpl; lia|].
  destruct (x =? y); simpl; lia.
Qed.

Lemma baseCase_body_size (s s' : BaseState) :
  baseCase_body sv B s = Ok s' ->
  set_size (base_U s) <= set_size (base_U s') <= set_size (base_U s) + 1.
Proof.
  destruct s as [[[st H] U0] ih], s' as [[[st' H'] U0'] ih'].
  unfold base_U. cbn [fst snd]. intros Hr. unfold baseCase_body in Hr.
  destruct H as [|[dd u] Ht]; [discriminate|].
  bind_inv Hr as du Edu.
  destruct (dlt du dd).
  - injection Hr as <- <- <- <-. lia.
  - bind_inv Hr as st1 Ec. bind_inv Hr as edges Ee.
    bind_inv Hr as [[st2 H2] ih2] Ef. injection Hr as <- <- <- <-.
    apply set_size_insert.
Qed.

(** The loop runs guarded relaxations only, and it is left when the queue
    is empty or [U0] has [k + 1] elements. *)
Lemma baseCase_loop_run (fuel : nat) :
  forall (s s' : BaseState),
  baseCase_loop sv fuel B s = Ok s' ->
  run (base_st s) (base_st s') /\
  baseCase_cond sv s' = false /\
  set_size (base_U s) <= set_size (base_U s')
                      <= Z.max (set_size (base_U s)) (k sv + 1).
Proof.
  induction fuel as [|f IH]; intros s s' Hr; simpl in Hr;
    destruct (baseCase_cond sv s) eqn:Ec;
    try discriminate;
    try (injection Hr as <-; split; [apply rt_refl | split; [exact Ec|lia]]).
  bind_inv Hr as s1 Eb.
  destruct (IH s1 s' Hr) as (H2 & Hc2 & Hsz).
  split; [|split; [exact Hc2|]].
  - eapply rt_trans; [apply baseCase_body_run; exact Eb | exact H2].
  - pose proof (baseCase_body_size s s1 Eb) as Hs1.
    assert (set_size (base_U s) < k sv + 1).
    { destruct s as [[[st H] U0] ih]. unfold baseCase_cond in Ec.
      destruct H; [discriminate|]. now apply Z.ltb_lt in Ec. }
    lia.
Qed.

(** *** The returned pair *)

(** [M] is the largest [d_hat] of a vertex of [U]. *)
Definition is_max (st : State) (U : IntSet) (M : dist) : Prop :=
  (forall v, In v U ->
     exists dv, vget (d_hat st) v = Ok dv /\ dle dv M = true) /\
  exists v, In v U /\ vget (d_hat st) v = Ok M.

Definition nonneg_dists (st : State) : Prop :=
  forall v dv, vget (d_hat st) v = Ok dv -> dle (Fin 0) dv = true.

Lemma dmax_ge_l (a b : dist) : dle a (dmax a b) = true.
Proof.
  unfold dmax. destruct (dlt a b) eqn:E; [now apply dlt_dle | apply dle_refl].
Qed.

Lemma dmax_ge_r (a b : dist) : dle b (dmax a b) = true.
Proof.
  unfold dmax. destruct (dlt a b) eqn:E; [apply dle_refl|].
  rewrite dlt_negb_dle in E. now apply negb_false_iff in E.
Qed.

Lemma max_fold (st : State) (U : IntSet) :
  forall m0 M,
  foldM (fun md v => dv <- vget (d_hat st) v ;; Ok (dmax md dv)) U m0 = Ok M ->
  dle m0 M = true /\
  (forall v, In v U ->
     exists dv, vget (d_hat st) v = Ok dv /\ dle dv M = true) /\
  (M = m0 \/ exists v, In v U /\ vget (d_hat st) v = Ok M).
Proof.
  induction U as [|x U IH]; simpl; intros m0 M H.
  - injection H as <-. split; [apply dle_refl|]. split; [intros v []|now left].
  - bind_inv H as m1 E. bind_inv E as dx Edx. injection E as <-.
    destruct (IH _ _ H) as (Hle & Hall & Hex).
    split; [eapply dle_trans; [apply dmax_ge_l | exact Hle]|].
    split.
    + intros v [<-|Hv]; [|apply Hall, Hv].
      exists dx. split; [exact Edx|].
      eapply dle_trans; [apply dmax_ge_r | exact Hle].
    + destruct Hex as [->|(v & Hv & Hm)].
      * unfold dmax. destruct (dlt m0 dx); [|now left].
        right. exists x. split; [now left | exact Edx].
      * right. exists v. split; [now right | exact Hm].
Qed.

Lemma max_dist_of_spec (st : State) (U : IntSet) (M : dist) :
  U <> [] ->
  (forall v dv, In v U -> vget (d_hat st) v = Ok dv ->
                dle (Fin 0) dv = true) ->
  max_dist_of st U = Ok M -> is_max st U M.
Proof.
  intros Hne Hpos H. unfold max_dist_of in H.
  destruct (max_fold st U _ _ H) as (_ & Hall & Hex).
  split; [exact Hall|].
  destruct Hex as [->|Hex]; [|exact Hex].
  destruct U as [|x U]; [contradiction|].
  destruct (Hall x (or_introl eq_refl)) as (dx & Hx & Hle).
  exists x. split; [now left|].
  rewrite Hx. f_equal. apply dle_antisym; [exact Hle|].
  eapply Hpos; [now left | exact Hx].
Qed.

Lemma below_fold (st : State) (bound : dist) (U : IntSet) :
  forall acc R,
  foldM (fun acc v =>
           dv <- vget (d_hat st) v ;;
           Ok (if dlt dv bound then set_insert v acc else acc)) U acc = Ok R ->
  forall v, In v R <->
    In v acc \/
    (In v U /\ exists dv, vget (d_hat st) v = Ok dv /\ dlt dv bound = true).
Proof.
  induction U as [|x U IH]; simpl; intros acc R H v.
  - injection H as <-. split; [now left|]. intros [Hv|[[] _]]. exact Hv.
  - bind_inv H as a1 E. bind_inv E as dx Edx. injection E as <-.
    rewrite (IH _ _ H v). split.
    + intros [Hv|(Hv & Hd)]; [|right; split; [now right | exact Hd]].
      destruct (dlt dx bound) eqn:El; [|now left].
      apply set_insert_In in Hv. destruct Hv as [->|Hv]; [|now left].
      right. split; [now left|]. eauto.
    + intros [Hv|([<-|Hv] & dv & Hd & Hl)].
      * left. destruct (dlt dx bound); [|exact Hv].
        apply set_insert_In. now right.
      * left. rewrite Edx in Hd. injection Hd as <-. rewrite Hl.
        apply set_insert_In. now left.
      * right. split; [exact Hv|]. eauto.
Qed.

Lemma below_spec (st : State) (bound : dist) (U R : IntSet) :
  below st bound U = Ok R ->
  forall v, In v R <->
    In v U /\ exists dv, vget (d_hat st) v = Ok dv /\ dlt dv bound = true.
Proof.
  intros H v. unfold below in H. rewrite (below_fold _ _ _ _ _ H v).
  simpl. tauto.
Qed.

Lemma relaxes_nonneg (st st' : State) :
  nonneg_weights sv -> relaxes st st' -> nonneg_dists st -> nonneg_dists st'.
Proof.
  intros Hw Hs Hn.
  destruct Hs as [st|st v st' Hc|st u v c du dv st' He Hu Hv Hle Hlt Hwr].
  - exact Hn.
  - apply set_complete_Ok in Hc. destruct Hc as (Hd & _).
    unfold nonneg_dists. rewrite Hd. exact Hn.
  - apply write_relax_Ok in Hwr.
    destruct Hwr as (du0 & old & du' & pr & Hu' & Hv' & _ & _ & ->).
    rewrite Hu in Hu'. injection Hu' as <-.
    intros x dx. simpl.
    assert (Hr : 0 <= v < Z.of_nat (length (d_hat st))).
    { apply vget_Ok in Hv. tauto. }
    destruct (Z.eq_dec v x) as [->|Hne].
    + rewrite vget_upd_same by exact Hr. intros Hx. injection Hx as <-.
      destruct (Hw _ _ _ He) as (z & -> & Hz).
      pose proof (Hn _ _ Hu) as Hdu.
      destruct du as [zu|]; [|reflexivity].
      simpl in Hdu. apply Z.leb_le in Hdu.
      destruct (dadd (Fin zu) (Fin z)) as [r|] eqn:E; [|reflexivity].
      apply dadd_nonneg in E; [|lia]. simpl. now apply Z.leb_le.
    + rewrite vget_upd_other by lia. apply Hn.
Qed.

Lemma run_nonneg (st st' : State) :
  nonneg_weights sv -> run st st' -> nonneg_dists st -> nonneg_dists st'.
Proof.
  intros Hw. induction 1 as [a b Hs|a|a b c _ IH1 _ IH2]; intros Hn; auto.
  eapply relaxes_nonneg; eauto.
Qed.

(** *** What the loop achieves

    On non-negative weights the loop is Dijkstra's: the entries leave the
    queue in increasing order, so the distance of a vertex that has left
    the queue is final, and every arc out of such a vertex has been
    relaxed. *)

(** The distances are doubles. *)
Definition doubles (st : State) : Prop :=
  forall v z, vget (d_hat st) v = Ok (Fin z) -> round_double z = z.

(** The arc [a -> b] of weight [c] is done with: its sum is not below [B],
    or [b] lies strictly below the sum, or the distance of [b] is the sum
    and [b] is in [P] or in the queue with that distance. *)
Definition arc_done (P : IntSet) (st : State) (H : list PQEntry)
    (a b : Z) (c : dist) : Prop :=
  exists da db,
    vget (d_hat st) a = Ok da /\ vget (d_hat st) b = Ok db /\
    (dle B (dadd da c) = true \/ dlt db (dadd da c) = true \/
     (db = dadd da c /\ (In b P \/ In (db, b) H))).

(** [P] holds the vertices that have left the queue and [A] the arcs out
    of them that have been looked at. *)
Record good (A : Z -> Z -> dist -> Prop) (P : IntSet) (st : State)
    (H : list PQEntry) : Prop := mkGood {
  good_sorted : pq_sorted H;
  good_heap : forall a y, In (a, y) H ->
    exists dy, vget (d_hat st) y = Ok dy /\ dle dy a = true;
  good_order : forall p a y, In p P -> In (a, y) H ->
    exists dp, vget (d_hat st) p = Ok dp /\ dle dp a = true;
  good_src : forall a b c, A a b c -> In a P /\ edge sv a b c;
  good_arcs : forall a b c, A a b c -> arc_done P st H a b c;
  good_complete : forall p, In p P -> vget (complete st) p = Ok true;
  good_nonneg : nonneg_dists st;
  good_doubles : doubles st
}.

(** The vertices of [P] are not above [du]. *)
Definition below_top (P : IntSet) (st : State) (du : dist) : Prop :=
  forall p, In p P ->
  exists dp, vget (d_hat st) p = Ok dp /\ dle dp du = true.

Lemma baseCase_edge_good (A : Z -> Z -> dist -> Prop) (P : IntSet)
    (st st' : State) (H H' : list PQEntry) (ih ih' : IntSet)
    (u v : Z) (du w : dist) :
  nonneg_weights sv -> good A P st H -> In u P ->
  vget (d_hat st) u = Ok du -> below_top P st du ->
  edge sv u v w ->
  baseCase_edge B u (st, H, ih) (v, w) = Ok (st', H', ih') ->
  good (fun a b c => A a b c \/ (a = u /\ b = v /\ c = w)) P st' H' /\
  vget (d_hat st') u = Ok du /\ below_top P st' du.
Proof.
  intros Hw [Hso Hhp Hor Hsr Har Hco Hnn Hdb] HuP Hu Hmax He Hr.
  unfold baseCase_edge in Hr.
  set (st0 := count_relaxation st) in *.
  change (d_hat st0) with (d_hat st) in Hr.
  bind_inv Hr as x Ex. apply tentative_Ok in Ex.
  destruct Ex as (du0 & Hu0 & ->).
  change (d_hat st0) with (d_hat st) in Hu0.
  rewrite Hu in Hu0. injection Hu0 as <-.
  bind_inv Hr as dv Edv.
  destruct (Hw _ _ _ He) as (c & -> & Hc).
  destruct (dle (dadd du (Fin c)) dv && dlt (dadd du (Fin c)) B) eqn:Hgd.
  - (* the arc is relaxed *)
    apply andb_true_iff in Hgd. destruct Hgd as [Hle Hlt].
    bind_inv Hr as st1 Ew. bind_inv Hr as dv' Edv'.
    injection Hr as <- <- <-.
    apply write_relax_Ok in Ew.
    destruct Ew as (du1 & old & du' & pr & Hu1 & Hv1 & _ & _ & ->).
    change (d_hat st0) with (d_hat st) in *.
    change (complete st0) with (complete st) in *.
    rewrite Hu in Hu1. injection Hu1 as <-.
    rewrite Edv in Hv1. injection Hv1 as <-.
    cbn [d_hat complete] in *.
    assert (Hrv : 0 <= v < Z.of_nat (length (d_hat st))).
    { apply vget_Ok in Edv. tauto. }
    rewrite vget_upd_same in Edv' by exact Hrv. injection Edv' as <-.
    destruct (dadd du (Fin c)) as [r|] eqn:Er; [|discriminate].
    destruct du as [zu|]; [|discriminate].
    pose proof (Hnn _ _ Hu) as Hzu. simpl in Hzu. apply Z.leb_le in Hzu.
    pose proof (dadd_ge zu c (Hdb _ _ Hu) Hc) as Hge. rewrite Er in Hge.
    (* the vertices of [P] keep their distances *)
    assert (Hkeep : forall p, In p P ->
              vget (upd (d_hat st) (Z.to_nat v) (Fin r)) p
              = vget (d_hat st) p).
    { intros p Hp. destruct (Z.eq_dec v p) as [<-|Hne].
      - rewrite vget_upd_same by exact Hrv.
        destruct (Hmax _ Hp) as (dp & Edp & Hdp).
        rewrite Edv in Edp. injection Edp as <-. rewrite Edv. f_equal.
        apply dle_antisym; [exact Hle|].
        eapply dle_trans; [exact Hdp | exact Hge].
      - apply vget_upd_other; lia. }
    assert (Hold : forall y dy, vget (d_hat st) y = Ok dy ->
              exists dy', vget (upd (d_hat st) (Z.to_nat v) (Fin r)) y
                          = Ok dy' /\
                          dle dy' dy = true /\ (y <> v -> dy' = dy)).
    { intros y dy Hy. destruct (Z.eq_dec v y) as [<-|Hne].
      - rewrite vget_upd_same by exact Hrv. exists (Fin r).
        rewrite Edv in Hy. injection Hy as <-.
        split; [reflexivity|]. split; [exact Hle | congruence].
      - rewrite vget_upd_other by lia. exists dy.
        split; [exact Hy|]. split; [apply dle_refl | auto]. }
    split; [|split].
    + constructor; cbn [d_hat complete].
      * now apply pq_push_sorted.
      * intros a y Hin. apply pq_push_In in Hin.
        destruct Hin as [Heq|Hin].
        -- injection Heq as -> ->. exists (Fin r).
           split; [apply vget_upd_same; exact Hrv | apply dle_refl].
        -- destruct (Hhp _ _ Hin) as (dy & Hy & Hdy).
           destruct (Hold _ _ Hy) as (dy' & Hy' & Hle' & _).
           exists dy'. split; [exact Hy' | eapply dle_trans; eauto].
      * intros p a y Hp Hin. rewrite (Hkeep _ Hp).
        apply pq_push_In in Hin. destruct Hin as [Heq|Hin].
        -- injection Heq as -> ->.
           destruct (Hmax _ Hp) as (dp & Edp & Hdp).
           exists dp. split; [exact Edp | eapply dle_trans; eauto].
        -- eapply Hor; eauto.
      * intros a b c0 [Ha|(-> & -> & ->)]; [now apply Hsr | auto].
      * unfold arc_done. cbn [d_hat].
        intros a b c0 [Ha|(-> & -> & ->)].
        -- destruct (Har _ _ _ Ha) as (da & db & Eda & Edb & Hcase).
           destruct (Hsr _ _ _ Ha) as [HaP _].
           destruct (Hold _ _ Edb) as (db' & Edb' & Hle' & Hsame).
           exists da, db'. rewrite (Hkeep _ HaP).
           split; [exact Eda|]. split; [exact Edb'|].
           destruct Hcase as [Hb|[Hb|[Hb Hin]]]; [now left | |].
           ++ right. left. eapply dle_dlt_trans; eauto.
           ++ destruct (Z.eq_dec b v) as [->|Hne].
              ** destruct (dlt db' (dadd da c0)) eqn:El; [now right; left|].
                 right. right. split.
                 --- rewrite dlt_negb_dle in El.
                     apply negb_false_iff in El. rewrite <- Hb in *.
                     now apply dle_antisym.
                 --- right. apply pq_push_In. left.
                     rewrite vget_upd_same in Edb' by exact Hrv.
                     now injection Edb' as <-.
              ** rewrite (Hsame Hne). right. right. split; [exact Hb|].
                 destruct Hin as [Hin|Hin]; [now left | right].
                 apply pq_push_In. now right.
        -- exists (Fin zu), (Fin r). rewrite (Hkeep _ HuP).
           split; [exact Hu|].
           split; [apply vget_upd_same; exact Hrv|].
           right. right. split; [now rewrite Er|].
           right. apply pq_push_In. now left.
      * exact Hco.
      * intros y dy Hy. cbn [d_hat] in Hy.
        destruct (Z.eq_dec v y) as [<-|Hne].
        -- rewrite vget_upd_same in Hy by exact Hrv. injection Hy as <-.
           simpl. apply Z.leb_le. eapply dadd_nonneg; [|exact Er]. lia.
        -- rewrite vget_upd_other in Hy by lia. eapply Hnn; eauto.
      * intros y z Hy. cbn [d_hat] in Hy.
        destruct (Z.eq_dec v y) as [<-|Hne].
        -- rewrite vget_upd_same in Hy by exact Hrv. injection Hy as <-.
           eapply dadd_rounded; eauto.
        -- rewrite vget_upd_other in Hy by lia. eapply Hdb; eauto.
    + cbn [d_hat]. rewrite (Hkeep _ HuP). exact Hu.
    + intros p Hp. cbn [d_hat]. rewrite (Hkeep _ Hp). now apply Hmax.
  - (* the arc is left alone *)
    injection Hr as <- <- <-.
    split; [|split; [exact Hu | exact Hmax]].
    constructor; try assumption.
    + intros a b c0 [Ha|(-> & -> & ->)]; [now apply Hsr | auto].
    + intros a b c0 [Ha|(-> & -> & ->)]; [now apply Har|].
      exists du, dv. split; [exact Hu|]. split; [exact Edv|].
      apply andb_false_iff in Hgd. destruct Hgd as [Hg|Hg].
      * right. left. rewrite dlt_negb_dle, Hg. reflexivity.
      * left. rewrite dlt_negb_dle in Hg. now apply negb_false_iff in Hg.
Qed.

Lemma good_weaken (A A' : Z -> Z -> dist -> Prop) (P : IntSet)
    (st : State) (H : list PQEntry) :
  (forall a b c, A' a b c -> A a b c) -> good A P st H -> good A' P st H.
Proof.
  intros Hi [Hso Hhp Hor Hsr Har Hco Hnn Hdb].
  constructor; auto.
Qed.

Lemma baseCase_edges_good (P : IntSet) (u : Z) (du : dist)
    (A : Z -> Z -> dist -> Prop) (edges : list (Z * dist)) :
  nonneg_weights sv -> In u P ->
  (forall e, In e edges -> edge sv u (fst e) (snd e)) ->
  forall (done : list (Z * dist)) (st st' : State) (H H' : list PQEntry)
         (ih ih' : IntSet),
  good (fun a b c => A a b c \/ (a = u /\ In (b, c) done)) P st H ->
  vget (d_hat st) u = Ok du -> below_top P st du ->
  foldM (baseCase_edge B u) edges (st, H, ih) = Ok (st', H', ih') ->
  good (fun a b c => A a b c \/ (a = u /\ In (b, c) (done ++ edges)))
       P st' H'.
Proof.
  intros Hw HuP. induction edges as [|[v w] edges IH];
    intros He done st st' H H' ih ih' Hg Hu Hmax Hr.
  - cbn [foldM] in Hr. injection Hr as <- <- <-. now rewrite app_nil_r.
  - cbn [foldM] in Hr. bind_inv Hr as [[st1 H1] ih1] E1.
    destruct (baseCase_edge_good _ P st st1 H H1 ih ih1 u v du w Hw Hg HuP
                Hu Hmax (He (v, w) (or_introl eq_refl)) E1)
      as (Hg1 & Hu1 & Hmax1).
    replace (done ++ (v, w) :: edges) with ((done ++ [(v, w)]) ++ edges)
      by (now rewrite <- app_assoc).
    apply (IH (fun e Hin => He e (or_intror Hin)) (done ++ [(v, w)])
              st1 st' H1 H' ih1 ih'); auto.
    eapply good_weaken; [|exact Hg1].
    intros a b c [Ha|[-> Hin]]; [now left; left|].
    apply in_app_or in Hin. destruct Hin as [Hin|[Heq|[]]].
    + left. right. auto.
    + injection Heq as <- <-. right. auto.
Qed.

(** The arcs out of the vertices of [P]. *)
Definition out_of (P : IntSet) (a b : Z) (c : dist) : Prop :=
  In a P /\ edge sv a b c.

Lemma pq_sorted_head (dd : dist) (u : Z) (Ht : list PQEntry) :
  pq_sorted ((dd, u) :: Ht) ->
  forall a y, In (a, y) Ht -> dle dd a = true.
Proof.
  intros [Hh _] a y Hin. specialize (Hh _ Hin).
  unfold pq_lt in Hh. cbn [fst snd] in Hh.
  apply orb_false_iff in Hh. destruct Hh as [Hh _].
  rewrite dlt_negb_dle in Hh. now apply negb_false_iff in Hh.
Qed.

(** One iteration: an outdated entry is dropped, or the vertex [u] of
    the entry joins [P] and [U0] and its arcs are looked at. *)
Lemma baseCase_body_good (P : IntSet) (st st' : State) (dd : dist) (u : Z)
    (Ht H' : list PQEntry) (U0 U0' ih ih' : IntSet) :
  nonneg_weights sv ->
  good (out_of P) P st ((dd, u) :: Ht) ->
  baseCase_body sv B (st, (dd, u) :: Ht, U0, ih) = Ok (st', H', U0', ih') ->
  exists du, vget (d_hat st) u = Ok du /\
    ((dlt du dd = true /\ U0' = U0 /\ good (out_of P) P st' H') \/
     (dlt du dd = false /\ U0' = set_insert u U0 /\
      good (out_of (set_insert u P)) (set_insert u P) st' H')).
Proof.
  intros Hw Hg Hr. pose proof Hg as [Hso Hhp Hor Hsr Har Hco Hnn Hdb].
  unfold baseCase_body in Hr. bind_inv Hr as du Edu. exists du.
  split; [exact Edu|].
  destruct (dlt du dd) eqn:Eo.
  - injection Hr as <- <- <- <-. left. split; [reflexivity|].
    split; [reflexivity|]. constructor; auto.
    + apply Hso.
    + intros a y Hin. apply (Hhp a y). now right.
    + intros p a y Hp Hin. apply (Hor p a y Hp). now right.
    + intros a b c Ha. destruct (Har _ _ _ Ha) as (da & db & Eda & Edb & Hc).
      exists da, db. split; [exact Eda|]. split; [exact Edb|].
      destruct Hc as [Hc|[Hc|[Hc Hin]]]; [now left | now right; left|].
      right. right. split; [exact Hc|].
      destruct Hin as [Hin|[Heq|Hin]]; [now left | | now right].
      injection Heq as -> ->. rewrite Edb in Edu. injection Edu as ->.
      rewrite dlt_irrefl in Eo. discriminate.
  - bind_inv Hr as st1 Ec. bind_inv Hr as edges Ee.
    bind_inv Hr as [[st2 H2] ih2] Ef. injection Hr as <- <- <- <-.
    right. split; [reflexivity|]. split; [reflexivity|].
    (* the entry holds the distance of [u] *)
    assert (Hdd : du = dd).
    { destruct (Hhp dd u (or_introl eq_refl)) as (du' & Edu' & Hle).
      rewrite Edu in Edu'. injection Edu' as <-.
      apply dle_antisym; [exact Hle|].
      rewrite dlt_negb_dle in Eo. now apply negb_false_iff in Eo. }
    subst dd.
    pose proof Ec as Ec'. unfold set_complete in Ec'.
    bind_inv Ec' as c1 Ec1. injection Ec' as <-.
    apply vset_Ok in Ec1. destruct Ec1 as [Hru ->].
    set (st1 := mkState (d_hat st) (pred st)
                  (upd (complete st) (Z.to_nat u) true)
                  (relaxation_count st) (trace st)) in *.
    set (P' := set_insert u P).
    assert (HuP : In u P') by (apply set_insert_In; now left).
    assert (Hmax : below_top P' st1 du).
    { intros p Hp. apply set_insert_In in Hp. destruct Hp as [->|Hp].
      - exists du. split; [exact Edu | apply dle_refl].
      - apply (Hor p du u Hp). now left. }
    assert (Hg1 : good (fun a b c => out_of P a b c \/ (a = u /\ In (b, c) []))
                       P' st1 Ht).
    { constructor; cbn [d_hat complete].
      - apply Hso.
      - intros a y Hin. apply (Hhp a y). now right.
      - intros p a y Hp Hin. apply set_insert_In in Hp.
        destruct Hp as [->|Hp].
        + exists du. split; [exact Edu|].
          eapply pq_sorted_head; eauto.
        + apply (Hor p a y Hp). now right.
      - intros a b c [[Ha He]|[_ []]]. split; [|exact He].
        apply set_insert_In. now right.
      - intros a b c [Ha|[_ []]].
        destruct (Har _ _ _ Ha) as (da & db & Eda & Edb & Hc).
        exists da, db. split; [exact Eda|]. split; [exact Edb|].
        destruct Hc as [Hc|[Hc|[Hc Hin]]]; [now left | now right; left|].
        right. right. split; [exact Hc|].
        destruct Hin as [Hin|[Heq|Hin]]; [| | now right].
        + left. apply set_insert_In. now right.
        + injection Heq as _ ->. now left.
      - intros p Hp. apply set_insert_In in Hp. unfold st1. cbn [complete].
        destruct (Z.eq_dec p u) as [->|Hne].
        + apply vget_upd_same. exact Hru.
        + rewrite vget_upd_other.
          * destruct Hp as [->|Hp]; [contradiction | now apply Hco].
          * lia.
          * congruence.
      - exact Hnn.
      - exact Hdb. }
    pose proof (baseCase_edges_good P' u du (out_of P) edges Hw HuP) as Hfold.
    specialize (Hfold (fun e Hin =>
      ex_intro _ edges (conj Ee
        (eq_ind _ (fun x => In x edges) Hin _ (surjective_pairing e))))).
    specialize (Hfold [] st1 st2 Ht H2 ih ih2 Hg1 Edu Hmax Ef).
    eapply good_weaken; [|exact Hfold].
    intros a b c [Ha He]. apply set_insert_In in Ha.
    destruct Ha as [->|Ha]; [|left; split; assumption].
    right. split; [reflexivity|]. cbn [app].
    destruct He as (edges' & Ee' & Hin).
    rewrite Ee in Ee'. injection Ee' as <-. exact Hin.
Qed.

(** The loop keeps the invariant, with [U0] for [P]. *)
Lemma baseCase_loop_good (fuel : nat) :
  nonneg_weights sv ->
  forall (st st' : State) (H H' : list PQEntry) (U0 U0' ih ih' : IntSet),
  good (out_of U0) U0 st H ->
  baseCase_loop sv fuel B (st, H, U0, ih) = Ok (st', H', U0', ih') ->
  good (out_of U0') U0' st' H' /\ incl U0 U0'.
Proof.
  intros Hw. induction fuel as [|f IH];
    intros st st' H H' U0 U0' ih ih' Hg Hr; cbn [baseCase_loop] in Hr;
    destruct (baseCase_cond sv (st, H, U0, ih)) eqn:Ec;
    try discriminate;
    try (injection Hr as <- <- <- <-; split; [exact Hg | apply incl_refl]).
  bind_inv Hr as [[[st1 H1] U1] ih1] Eb.
  destruct H as [|[dd u] Ht]; [discriminate|].
  destruct (baseCase_body_good U0 st st1 dd u Ht H1 U0 U1 ih ih1 Hw Hg Eb)
    as (du & _ & [(_ & -> & Hg1)|(_ & -> & Hg1)]).
  - apply (IH _ _ _ _ _ _ _ _ Hg1 Hr).
  - destruct (IH _ _ _ _ _ _ _ _ Hg1 Hr) as [Hg2 Hi].
    split; [exact Hg2|]. intros y Hy. apply Hi, set_insert_In. now right.
Qed.

(** The loop of a base case on [{x}], from its first iteration on. *)
Lemma baseCase_first_good (fuel : nat) (x : Z) (dx : dist) (st st' : State)
    (H' : list PQEntry) (U0' ih' : IntSet) :
  nonneg_weights sv -> nonneg_dists st -> doubles st -> 1 <= k sv ->
  vget (d_hat st) x = Ok dx ->
  baseCase_loop sv fuel B (st, [(dx, x)], [x], [x]) = Ok (st', H', U0', ih') ->
  good (out_of U0') U0' st' H' /\ In x U0'.
Proof.
  intros Hw Hnn Hdb Hk Hx Hr.
  assert (Hc : baseCase_cond sv (st, [(dx, x)], [x], [x]) = true).
  { unfold baseCase_cond, set_size. cbn [length]. apply Z.ltb_lt. lia. }
  destruct fuel as [|f]; cbn [baseCase_loop] in Hr; rewrite Hc in Hr;
    [discriminate|].
  bind_inv Hr as [[[st1 H1] U1] ih1] Eb.
  assert (Hg0 : good (out_of []) [] st [(dx, x)]).
  { constructor.
    - split; [intros y [] | exact I].
    - intros a y [Heq|[]]. injection Heq as <- <-.
      exists dx. split; [exact Hx | apply dle_refl].
    - intros p a y [].
    - intros a b c [[] _].
    - intros a b c [[] _].
    - intros p [].
    - exact Hnn.
    - exact Hdb. }
  destruct (baseCase_body_good [] st st1 dx x [] H1 [x] U1 [x] ih1 Hw Hg0 Eb)
    as (du & Edu & [(Hlt & _)|(_ & -> & Hg1)]).
  - rewrite Hx in Edu. injection Edu as <-.
    rewrite dlt_irrefl in Hlt. discriminate.
  - assert (E1 : set_insert x [x] = [x]).
    { cbn [set_insert]. rewrite Z.ltb_irrefl, Z.eqb_refl. reflexivity. }
    rewrite E1 in Hr. change (set_insert x []) with [x] in Hg1.
    destruct (baseCase_loop_good f Hw _ _ _ _ _ _ _ _ Hg1 Hr) as [Hg2 Hi].
    split; [exact Hg2 | apply Hi; now left].
Qed.

(** *** Termination

    With weights of at least one and sums that stay below [2^53], hence
    exact, a relaxation pushes an entry that lies strictly above the entry
    just popped.  Weighting an entry of value [a] by [c ^ (top - a)],
    where [c] exceeds every out-degree and [top] bounds the finite
    distances, the weight of the queue then decreases with every iteration
    that leaves the number of infinite distances unchanged. *)

Definition graph_ok : Prop :=
  (forall u, 0 <= u < n sv -> exists edges, adj_of sv u = Ok edges) /\
  (forall u v w, edge sv u v w -> 0 <= v < n sv).

(** Every weight is an integer of [1 .. W]. *)
Definition weights_within (W : Z) : Prop :=
  forall u v w, edge sv u v w -> exists z, w = Fin z /\ 1 <= z <= W.

Definition state_ok (st : State) : Prop :=
  Z.of_nat (length (d_hat st)) = n sv /\
  Z.of_nat (length (pred st)) = n sv /\
  Z.of_nat (length (complete st)) = n sv.

Definition heap_ok (H : list PQEntry) : Prop :=
  forall e, In e H -> 0 <= snd e < n sv.

Definition base_ok (s : BaseState) : Prop :=
  state_ok (base_st s) /\ heap_ok (base_H s) /\
  forall v, In v (base_U s) -> 0 <= v < n sv.

Fixpoint ninf (l : list dist) : nat :=
  match l with
  | [] => 0
  | Inf :: l' => Datatypes.S (ninf l')
  | Fin _ :: l' => ninf l'
  end.

Lemma ninf_upd (l : list dist) (i : nat) (old : dist) (z : Z) :
  nth_error l i = Some old ->
  match old with
  | Inf => Datatypes.S (ninf (upd l i (Fin z))) = ninf l
  | Fin _ => ninf (upd l i (Fin z)) = ninf l
  end.
Proof.
  revert i. induction l as [|y l IH]; intros [|i] H; simpl in H;
    try discriminate.
  - injection H as ->. destruct old; reflexivity.
  - specialize (IH i H). simpl. destruct old, y; simpl; congruence.
Qed.

Lemma ninf_pos (l : list dist) (i : nat) :
  nth_error l i = Some Inf -> (1 <= ninf l)%nat.
Proof.
  revert i. induction l as [|[y|] l IH]; intros [|i] Hi; simpl in *;
    try discriminate; try lia.
  eapply IH; eauto.
Qed.

Lemma ninf_length (l : list dist) : (ninf l <= length l)%nat.
Proof. induction l as [|[z|] l IH]; simpl; lia. Qed.

(** Every finite distance is at most [D]. *)
Definition bounded (D : Z) (st : State) : Prop :=
  forall v z, vget (d_hat st) v = Ok (Fin z) -> z <= D.

(** Every finite distance leaves room below [top] for one weight per
    distance that is still infinite. *)
Definition capped (W top : Z) (st : State) : Prop :=
  forall v z, vget (d_hat st) v = Ok (Fin z) ->
  0 <= z /\ z + Z.of_nat (ninf (d_hat st)) * W <= top.

Lemma capped_init (W D : Z) (st : State) :
  state_ok st -> nonneg_dists st -> bounded D st -> 0 <= W ->
  capped W (D + n sv * W) st.
Proof.
  intros (Hl & _) Hn Hb HW v z Hv.
  pose proof (Hn _ _ Hv) as H0. simpl in H0. apply Z.leb_le in H0.
  pose proof (Hb _ _ Hv). pose proof (ninf_length (d_hat st)).
  split; [exact H0 | nia].
Qed.

(** Under the cap a relaxation adds exactly. *)
Lemma capped_relax_exact (W top : Z) (st : State) (u v za z : Z)
    (dv : dist) :
  top < 2 ^ 53 -> capped W top st -> 0 <= z <= W ->
  vget (d_hat st) u = Ok (Fin za) -> vget (d_hat st) v = Ok dv ->
  dle (dadd (Fin za) (Fin z)) dv = true ->
  dadd (Fin za) (Fin z) = Fin (za + z).
Proof.
  intros Ht Hc Hz Hu Hv Hle. destruct (Hc _ _ Hu) as [Hza Hcu].
  destruct dv as [zv|].
  - destruct (dadd (Fin za) (Fin z)) as [r|] eqn:E; [|discriminate].
    simpl in Hle. apply Z.leb_le in Hle.
    destruct (Hc _ _ Hv) as [_ Hcv].
    f_equal. apply (dadd_small za z r); [lia | exact E | nia].
  - apply dadd_exact.
    assert (1 <= ninf (d_hat st))%nat.
    { apply vget_Ok in Hv. destruct Hv as [_ Hv]. eapply ninf_pos; eauto. }
    rewrite Z.abs_eq by lia. nia.
Qed.

Definition deg : nat :=
  fold_right Nat.max 0%nat
    (map (@length (Z * dist)) (SimpleGraph.adj (graph sv))).

Lemma deg_bound (u : Z) (edges : list (Z * dist)) :
  adj_of sv u = Ok edges -> (length edges <= deg)%nat.
Proof.
  unfold adj_of, deg. intros H. apply vget_Ok in H. destruct H as [_ H].
  apply nth_error_In in H. revert H.
  induction (SimpleGraph.adj (graph sv)) as [|y l IH]; simpl; [intros []|].
  intros [->|H]; [lia|]. specialize (IH H). lia.
Qed.

Definition ew (top : Z) (a : dist) : nat :=
  match a with
  | Fin z => Nat.pow (Datatypes.S deg) (Z.to_nat (top - z))
  | Inf => 1
  end.

Definition hw (top : Z) (H : list PQEntry) : nat :=
  list_sum (map (fun e => ew top (fst e)) H).

Lemma pow_pos (e : nat) : (1 <= Nat.pow (Datatypes.S deg) e)%nat.
Proof.
  induction e as [|e IH]; simpl; [lia|]. nia.
Qed.

Lemma ew_pos (top : Z) (a : dist) : (1 <= ew top a)%nat.
Proof. destruct a; simpl; [apply pow_pos | lia]. Qed.

Lemma ew_mono (top : Z) (a b : dist) :
  dlt a b = false -> (ew top a <= ew top b)%nat.
Proof.
  destruct a as [za|], b as [zb|]; simpl; intros H; try discriminate.
  - apply Z.ltb_ge in H. apply Nat.pow_le_mono_r; lia.
  - apply pow_pos.
  - lia.
Qed.

Lemma ew_step (top za z zv : Z) :
  1 <= z -> za + z <= zv -> zv <= top ->
  (Datatypes.S deg * ew top (Fin (za + z)) <= ew top (Fin za))%nat.
Proof.
  intros Hz Hle Ht. simpl ew.
  replace (Z.to_nat (top - za))
    with (Datatypes.S (Z.to_nat (top - (za + z))) + Z.to_nat (z - 1))%nat
    by lia.
  rewrite Nat.pow_add_r.
  pose proof (pow_pos (Z.to_nat (z - 1))) as Hp.
  change (Nat.pow (Datatypes.S deg) (Datatypes.S (Z.to_nat (top - (za + z)))))
    with (Datatypes.S deg * Nat.pow (Datatypes.S deg)
                              (Z.to_nat (top - (za + z))))%nat.
  nia.
Qed.

Lemma hw_cons (top : Z) (e : PQEntry) (H : list PQEntry) :
  hw top (e :: H) = (ew top (fst e) + hw top H)%nat.
Proof. reflexivity. Qed.

Lemma hw_push (top : Z) (e : PQEntry) (H : list PQEntry) :
  hw top (pq_push e H) = (ew top (fst e) + hw top H)%nat.
Proof.
  unfold hw. induction H as [|y H IH]; simpl; [reflexivity|].
  destruct (pq_lt e y); simpl; [reflexivity|]. rewrite IH. lia.
Qed.

Lemma vset_in_range {A : Type} (l : list A) (i : Z) (a : A) :
  0 <= i < Z.of_nat (length l) -> vset l i a = Ok (upd l (Z.to_nat i) a).
Proof. intros H. apply vset_Ok. auto. Qed.

Section Termination.

Variables W top : Z.
Hypothesis Hg : graph_ok.
Hypothesis Hp : weights_within W.
Hypothesis Htop : top < 2 ^ 53.

(** One arc: the relaxation is defined, and either an infinite distance
    becomes finite or the queue gains at most one entry above [a]. *)
Lemma baseCase_edge_total (u : Z) (a : dist) (st : State)
    (H : list PQEntry) (ih : IntSet) (e : Z * dist) :
  state_ok st -> heap_ok H -> capped W top st ->
  edge sv u (fst e) (snd e) -> vget (d_hat st) u = Ok a ->
  exists st' H' ih',
    baseCase_edge B u (st, H, ih) e = Ok (st', H', ih') /\
    state_ok st' /\ heap_ok H' /\ capped W top st' /\
    vget (d_hat st') u = Ok a /\
    ((ninf (d_hat st') < ninf (d_hat st))%nat \/
     (ninf (d_hat st') = ninf (d_hat st) /\
      (Datatypes.S deg * hw top H'
       <= Datatypes.S deg * hw top H + ew top a)%nat)).
Proof.
  destruct e as [v w]. cbn [fst snd].
  intros (Hld & Hlp & Hlc) HH Hcap He Hu.
  pose proof (proj2 Hg _ _ _ He) as Hv.
  destruct (Hp _ _ _ He) as (z & -> & Hz).
  destruct (vget_in_range (d_hat st) v) as [dv Edv]; [lia|].
  unfold baseCase_edge, tentative. cbn [count_relaxation d_hat].
  rewrite Hu, Edv. cbn [bind].
  destruct (dle (dadd a (Fin z)) dv && dlt (dadd a (Fin z)) B) eqn:Hgd.
  - apply andb_true_iff in Hgd. destruct Hgd as [Hle Hlt].
    destruct a as [za|]; [|discriminate].
    pose proof (capped_relax_exact W top st u v za z dv Htop Hcap
                  ltac:(lia) Hu Edv Hle) as Hex.
    rewrite Hex in Hle.
    destruct (Hcap _ _ Hu) as [Hza Hcu].
    assert (Hne : v <> u).
    { intros Heq. subst v.
      rewrite Hu in Edv. injection Edv as <-. simpl in Hle.
      apply Z.leb_le in Hle. lia. }
    assert (Hu' : vget (upd (d_hat st) (Z.to_nat v) (Fin (za + z))) u
                  = Ok (Fin za)).
    { rewrite vget_upd_other by lia. exact Hu. }
    unfold write_relax, count_relaxation.
    cbn [d_hat pred complete relaxation_count trace].
    rewrite Hu, Edv. cbn [bind]. rewrite Hex.
    rewrite (vset_in_range (d_hat st)) by lia.
    rewrite (vset_in_range (pred st)) by lia. cbn [bind].
    rewrite Hu', vget_upd_same by lia. cbn [bind d_hat].
    rewrite vget_upd_same by lia. cbn [bind].
    eexists _, _, _. split; [reflexivity|]. cbn [d_hat pred complete].
    split; [unfold state_ok; cbn [d_hat pred complete];
            rewrite !length_upd; auto|].
    split.
    { intros e Hin. apply pq_push_In in Hin. destruct Hin as [->|Hin].
      - exact Hv.
      - apply HH, Hin. }
    assert (Hn : nth_error (d_hat st) (Z.to_nat v) = Some dv).
    { apply vget_Ok in Edv. tauto. }
    pose proof (ninf_upd _ _ _ (za + z) Hn) as Hc.
    split.
    { intros y zy Hy. cbn [d_hat] in Hy |- *.
      destruct (Z.eq_dec v y) as [<-|Hny].
      - rewrite vget_upd_same in Hy by lia. injection Hy as <-.
        split; [lia|]. destruct dv as [zv|].
        + rewrite Hc. simpl in Hle. apply Z.leb_le in Hle.
          destruct (Hcap _ _ Edv). lia.
        + nia.
      - rewrite vget_upd_other in Hy by lia.
        destruct (Hcap _ _ Hy) as [Hy0 Hy1]. split; [exact Hy0|].
        destruct dv as [zv|]; [rewrite Hc; exact Hy1 | nia]. }
    split; [exact Hu'|].
    destruct dv as [zv|]; [right | left; lia].
    split; [exact Hc|].
    simpl in Hle. apply Z.leb_le in Hle.
    destruct (Hcap _ _ Edv) as [_ Hzv].
    rewrite hw_push. cbn [fst].
    assert (Hzt : zv <= top) by nia.
    pose proof (ew_step top za z zv ltac:(lia) Hle Hzt). lia.
  - eexists _, _, _. split; [reflexivity|].
    split; [unfold state_ok; cbn [d_hat pred complete]; auto|].
    split; [exact HH|]. split; [exact Hcap|]. split; [exact Hu|]. right.
    split; [reflexivity | lia].
Qed.

Lemma baseCase_edges_total (u : Z) (a : dist) (edges : list (Z * dist)) :
  (forall e, In e edges -> edge sv u (fst e) (snd e)) ->
  forall st H ih,
  state_ok st -> heap_ok H -> capped W top st ->
  vget (d_hat st) u = Ok a ->
  exists st' H' ih',
    foldM (baseCase_edge B u) edges (st, H, ih) = Ok (st', H', ih') /\
    state_ok st' /\ heap_ok H' /\ capped W top st' /\
    ((ninf (d_hat st') < ninf (d_hat st))%nat \/
     (ninf (d_hat st') = ninf (d_hat st) /\
      (Datatypes.S deg * hw top H'
       <= Datatypes.S deg * hw top H + length edges * ew top a)%nat)).
Proof.
  induction edges as [|e edges IH]; intros He st H ih Hs HH Hcap Hu.
  - exists st, H, ih. split; [reflexivity|]. split; [exact Hs|].
    split; [exact HH|]. split; [exact Hcap|]. right.
    split; [reflexivity | simpl; lia].
  - destruct (baseCase_edge_total u a st H ih e Hs HH Hcap
                (He e (or_introl eq_refl)) Hu)
      as (st1 & H1 & ih1 & E1 & Hs1 & HH1 & Hc1 & Hu1 & Hm1).
    destruct (IH (fun x Hx => He x (or_intror Hx)) st1 H1 ih1 Hs1 HH1
                Hc1 Hu1)
      as (st2 & H2 & ih2 & E2 & Hs2 & HH2 & Hc2 & Hm2).
    exists st2, H2, ih2. cbn [foldM]. rewrite E1. cbn [bind].
    split; [exact E2|]. split; [exact Hs2|]. split; [exact HH2|].
    split; [exact Hc2|].
    destruct Hm1 as [Hlt1|[Heq1 Hw1]]; [left; destruct Hm2; lia|].
    destruct Hm2 as [Hlt2|[Heq2 Hw2]]; [left; lia|].
    right. split; [lia|]. cbn [length]. lia.
Qed.

(** One iteration is defined and decreases the measure. *)
Lemma baseCase_body_total (s : BaseState) :
  base_ok s -> capped W top (base_st s) -> baseCase_cond sv s = true ->
  exists s',
    baseCase_body sv B s = Ok s' /\ base_ok s' /\
    capped W top (base_st s') /\
    ((ninf (d_hat (base_st s')) < ninf (d_hat (base_st s)))%nat \/
     (ninf (d_hat (base_st s')) = ninf (d_hat (base_st s)) /\
      (hw top (base_H s') < hw top (base_H s))%nat)).
Proof.
  destruct s as [[[st H] U0] ih].
  unfold base_ok, base_st, base_H, base_U. cbn [fst snd].
  intros (Hs & HH & HU) Hcap Hc.
  destruct H as [|[dd u] Ht]; [discriminate|].
  assert (Hur : 0 <= u < n sv) by (apply (HH (dd, u)); now left).
  assert (HHt : heap_ok Ht) by (intros e He; apply HH; now right).
  pose proof Hs as (Hld & Hlp & Hlc).
  destruct (vget_in_range (d_hat st) u) as [du Edu]; [lia|].
  unfold baseCase_body. rewrite Edu. cbn [bind].
  destruct (dlt du dd) eqn:Eo.
  - eexists. split; [reflexivity|]. cbn [fst snd].
    split; [auto|]. split; [exact Hcap|]. right. split; [reflexivity|].
    rewrite hw_cons. cbn [fst]. pose proof (ew_pos top dd). lia.
  - unfold set_complete. rewrite (vset_in_range (complete st)) by lia.
    cbn [bind].
    destruct (proj1 Hg u Hur) as [edges Ee]. rewrite Ee. cbn [bind].
    set (st1 := mkState (d_hat st) (pred st)
                  (upd (complete st) (Z.to_nat u) true)
                  (relaxation_count st) (trace st)).
    assert (Hs1 : state_ok st1).
    { unfold state_ok, st1. cbn [d_hat pred complete].
      rewrite length_upd. auto. }
    destruct (baseCase_edges_total u du edges) with
      (st := st1) (H := Ht) (ih := ih)
      as (st2 & H2 & ih2 & E2 & Hs2 & HH2 & Hc2 & Hm); auto.
    { intros [v w] Hin. exists edges. split; [exact Ee | exact Hin]. }
    rewrite E2. cbn [bind].
    eexists. split; [reflexivity|]. cbn [fst snd].
    split.
    { split; [exact Hs2|]. split; [exact HH2|].
      intros v Hv. apply set_insert_In in Hv.
      destruct Hv as [->|Hv]; [exact Hur | apply HU, Hv]. }
    split; [exact Hc2|].
    destruct Hm as [Hlt|[Heq Hw]]; [left; exact Hlt | right].
    split; [exact Heq|].
    rewrite hw_cons. cbn [fst].
    pose proof (ew_mono top du dd Eo) as Hmono.
    pose proof (ew_pos top du) as Hpos.
    pose proof (deg_bound u edges Ee) as Hdeg.
    assert (Hlen : (length edges * ew top du <= deg * ew top du)%nat)
      by (apply Nat.mul_le_mono_r; exact Hdeg).
    nia.
Qed.

Lemma baseCase_loop_total :
  forall (n1 m : nat) (s : BaseState),
  base_ok s -> capped W top (base_st s) ->
  ninf (d_hat (base_st s)) = n1 -> hw top (base_H s) = m ->
  exists fuel s', baseCase_loop sv fuel B s = Ok s' /\ base_ok s'.
Proof.
  intros n1. induction n1 as [n1 IHn] using lt_wf_ind.
  intros m. induction m as [m IHm] using lt_wf_ind.
  intros s Hs Hcap Hn Hm.
  destruct (baseCase_cond sv s) eqn:Ec.
  - destruct (baseCase_body_total s Hs Hcap Ec)
      as (s1 & Eb & Hs1 & Hc1 & [Hlt|[Heq Hlt]]).
    + destruct (IHn (ninf (d_hat (base_st s1))) ltac:(lia)
                  (hw top (base_H s1)) s1 Hs1 Hc1 eq_refl eq_refl)
        as (f & s' & Ef & Hs').
      exists (Datatypes.S f), s'. cbn [baseCase_loop].
      rewrite Ec, Eb. cbn [bind]. auto.
    + destruct (IHm (hw top (base_H s1)) ltac:(lia) s1 Hs1 Hc1
                  ltac:(lia) eq_refl)
        as (f & s' & Ef & Hs').
      exists (Datatypes.S f), s'. cbn [baseCase_loop].
      rewrite Ec, Eb. cbn [bind]. auto.
  - exists 0%nat, s. cbn [baseCase_loop]. rewrite Ec. auto.
Qed.

End Termination.

Lemma max_dist_of_total (st : State) (U : IntSet) :
  (forall v, In v U -> 0 <= v < Z.of_nat (length (d_hat st))) ->
  exists M, max_dist_of st U = Ok M.
Proof.
  unfold max_dist_of. generalize (Fin 0).
  induction U as [|x U IH]; intros m0 HU; simpl; [eauto|].
  destruct (vget_in_range (d_hat st) x) as [dx Ex];
    [apply HU; now left|].
  rewrite Ex. cbn [bind]. apply IH. intros v Hv. apply HU. now right.
Qed.

Lemma below_total (st : State) (bound : dist) (U : IntSet) :
  (forall v, In v U -> 0 <= v < Z.of_nat (length (d_hat st))) ->
  exists R, below st bound U = Ok R.
Proof.
  unfold below. generalize (@nil Z).
  induction U as [|x U IH]; intros acc HU; simpl; [eauto|].
  destruct (vget_in_range (d_hat st) x) as [dx Ex];
    [apply HU; now left|].
  rewrite Ex. cbn [bind]. apply IH. intros v Hv. apply HU. now right.
Qed.

Lemma baseCase_total (W D x : Z) (st : State) :
  graph_ok -> weights_within W -> state_ok st -> nonneg_dists st ->
  bounded D st -> 0 <= W -> D + n sv * W < 2 ^ 53 -> 0 <= x < n sv ->
  exists fuel r st', baseCase sv fuel B [x] st = Ok (r, st').
Proof.
  intros Hg Hp Hs Hn Hb HW Htop Hx. pose proof Hs as (Hld & _).
  destruct (vget_in_range (d_hat st) x) as [dx Ex]; [lia|].
  assert (Hok : base_ok (st, [(dx, x)], [x], [x])).
  { split; [exact Hs|]. split.
    - intros e [<-|[]]. exact Hx.
    - intros v [<-|[]]. exact Hx. }
  destruct (baseCase_loop_total W (D + n sv * W) Hg Hp Htop _ _
              (st, [(dx, x)], [x], [x]) Hok
              (capped_init W D st Hs Hn Hb HW) eq_refl eq_refl)
    as (fuel & [[[st' H] U0] ih] & El & (Hs' & _ & HU)).
  unfold base_st, base_U in *. cbn [fst snd] in *.
  destruct Hs' as (Hld' & _).
  exists fuel. unfold baseCase. rewrite Ex. cbn [bind].
  rewrite El. cbn [bind].
  destruct (set_size U0 <=? k sv); [eauto|].
  destruct (max_dist_of_total st' U0) as [M EM];
    [intros v Hv; specialize (HU v Hv); lia|].
  destruct (below_total st' M U0) as [R ER];
    [intros v Hv; specialize (HU v Hv); lia|].
  rewrite EM. cbn [bind]. rewrite ER. cbn [bind]. eauto.
Qed.


End BaseCase.

(** The hypotheses on the state hold throughout a solve: the constructor
    sets [k >= 1], and a relaxation stores a double. *)
Lemma k_create (g : SimpleGraph.t) : 1 <= k (create g).
Proof.
  cbn [create k]. unfold param_k.
  destruct (_ <=? _); [lia|]. destruct (_ <? _); lia.
Qed.

Lemma steps_doubles (sv : Solver) (st st' : State) :
  steps sv st st' -> doubles st -> doubles st'.
Proof.
  induction 1 as [a b Hs|a|a b c _ IH1 _ IH2]; intros Hd; auto.
  destruct Hs as [st|st v st' Hc|st u v w zu dv st' He Hu Hv Hle Hr].
  - exact Hd.
  - apply set_complete_Ok in Hc. destruct Hc as (Ed & _).
    unfold doubles. rewrite Ed. exact Hd.
  - apply write_relax_Ok in Hr.
    destruct Hr as (du & old & du' & pr & Hu' & Hv' & _ & _ & ->).
    intros x z Hx. cbn [d_hat] in Hx.
    assert (Hr : 0 <= v < Z.of_nat (length (d_hat st))).
    { apply vget_Ok in Hv. tauto. }
    destruct (Z.eq_dec v x) as [->|Hne].
    + rewrite vget_upd_same in Hx by exact Hr. injection Hx as Hx.
      eapply dadd_rounded; eauto.
    + rewrite vget_upd_other in Hx by lia. eapply Hd; eauto.
Qed.

(** Decidable forms of the hypotheses, for concrete graphs and states. *)

Definition graph_okb (g : SimpleGraph.t) : bool :=
  (Z.of_nat (length (SimpleGraph.adj g)) =? SimpleGraph.n g) &&
  forallb
    (forallb (fun e : Z * dist =>
                (0 <=? fst e) && (fst e <? SimpleGraph.n g)))
    (SimpleGraph.adj g).

Lemma graph_okb_ok (g : SimpleGraph.t) :
  graph_okb g = true -> graph_ok (create g).
Proof.
  unfold graph_okb. intros H. apply andb_true_iff in H.
  destruct H as [Hl Ht]. apply Z.eqb_eq in Hl. split.
  - intros u Hu. unfold adj_of. cbn [graph create n] in *.
    apply vget_in_range. lia.
  - intros u v w (edges & Ha & Hin).
    unfold adj_of in Ha. cbn [graph create n] in *.
    apply vget_Ok in Ha. destruct Ha as [_ Ha]. apply nth_error_In in Ha.
    rewrite forallb_forall in Ht. specialize (Ht _ Ha).
    rewrite forallb_forall in Ht. specialize (Ht _ Hin). cbn [fst] in Ht.
    apply andb_true_iff in Ht. destruct Ht as [H0 H1].
    apply Z.leb_le in H0. apply Z.ltb_lt in H1. lia.
Qed.

Definition weights_withinb (W : Z) (g : SimpleGraph.t) : bool :=
  forallb
    (forallb (fun e : Z * dist =>
                match snd e with
                | Fin z => (1 <=? z) && (z <=? W)
                | Inf => false
                end))
    (SimpleGraph.adj g).

Lemma weights_withinb_ok (W : Z) (g : SimpleGraph.t) :
  weights_withinb W g = true -> weights_within (create g) W.
Proof.
  intros H u v w (edges & Ha & Hin).
  unfold adj_of in Ha. cbn [graph create] in Ha.
  apply vget_Ok in Ha. destruct Ha as [_ Ha]. apply nth_error_In in Ha.
  unfold weights_withinb in H. rewrite forallb_forall in H.
  specialize (H _ Ha). rewrite forallb_forall in H.
  specialize (H _ Hin). cbn [snd] in H.
  destruct w as [z|]; [|discriminate]. exists z. split; [reflexivity|].
  apply andb_true_iff in H. destruct H as [H1 H2].
  apply Z.leb_le in H1, H2. lia.
Qed.

Definition boundedb (D : Z) (st : State) : bool :=
  forallb (fun d => match d with Fin z => z <=? D | Inf => true end)
          (d_hat st).

Lemma boundedb_ok (D : Z) (st : State) :
  boundedb D st = true -> bounded D st.
Proof.
  intros H v z Hv. apply vget_Ok in Hv. destruct Hv as [_ Hv].
  apply nth_error_In in Hv. unfold boundedb in H.
  rewrite forallb_forall in H. specialize (H _ Hv). now apply Z.leb_le in H.
Qed.

Definition doublesb (st : State) : bool :=
  forallb (fun d => match d with
                    | Fin z => round_double z =? z
                    | Inf => true
                    end)
          (d_hat st).

Lemma doublesb_ok (st : State) : doublesb st = true -> doubles st.
Proof.
  intros H v z Hv. apply vget_Ok in Hv. destruct Hv as [_ Hv].
  apply nth_error_In in Hv. unfold doublesb in H.
  rewrite forallb_forall in H. specialize (H _ Hv). now apply Z.eqb_eq in H.
Qed.

Definition nonneg_distsb (st : State) : bool :=
  forallb (fun d => dle (Fin 0) d) (d_hat st).

Lemma nonneg_distsb_ok (st : State) :
  nonneg_distsb st = true -> nonneg_dists st.
Proof.
  intros H v dv Hv. apply vget_Ok in Hv. destruct Hv as [_ Hv].
  apply nth_error_In in Hv. unfold nonneg_distsb in H.
  rewrite forallb_forall in H. apply H, Hv.
Qed.

End BaseCaseFacts.

(** * The workspace as its users see it *)

Module WorkspaceFacts.

Import BlockDataStructure BlockFacts PullFacts.

(** ** [pull] and [empty] *)

Lemma collect_empty (m c : Z) (bs : list Block) :
  all_elements bs = [] -> collect m c bs = [].
Proof.
  intros H. pose proof (collect_incl m c bs) as Hi. rewrite H in Hi.
  destruct (collect m c bs) as [|x l]; [reflexivity|].
  destruct (Hi x (or_introl eq_refl)).
Qed.

Lemma sort_by_value_length (l : list KeyValue) :
  length (sort_by_value l) = length l.
Proof. apply Permutation_length, Permutation_sym, sort_by_value_perm. Qed.

(** X1: on a workspace whose block size is at least one, [pull] returns
    no key exactly when [empty] holds; it then returns the bound [B] and
    leaves the workspace as it is.  On a workspace that is not empty it
    returns at least one key. *)
Theorem pull_nothing_iff_empty (ds : t) :
  1 <= M ds ->
  (empty ds = true -> pull ds = (([], B ds), ds)) /\
  (empty ds = false ->
   exists k keys sep ds', pull ds = ((k :: keys, sep), ds')).
Proof.
  intros HM. split; intros He.
  - unfold empty in He. apply andb_true_iff in He. destruct He as [E0 E1].
    unfold pull.
    rewrite (collect_empty _ _ _ (empty_all_elements _ E0)),
            (collect_empty _ _ _ (empty_all_elements _ E1)).
    reflexivity.
  - unfold pull.
    destruct (collect (M ds) 0 (D0 ds) ++ collect (M ds) 0 (D1 ds))
      as [|c0 cs] eqn:Ec.
    { apply app_eq_nil in Ec. destruct Ec as [E0 E1].
      apply collect_nil in E0; [|lia]. apply collect_nil in E1; [|lia].
      unfold empty in He.
      rewrite (all_elements_nil_empty _ E0), (all_elements_nil_empty _ E1)
        in He. discriminate. }
    pose proof (sort_by_value_length (c0 :: cs)) as Hl.
    destruct (sort_by_value (c0 :: cs)) as [|s0 ss] eqn:Es;
      [discriminate|].
    assert (Ht : exists t', Z.to_nat (Z.min (M ds)
                   (Z.of_nat (length (s0 :: ss)))) = Datatypes.S t').
    { exists (Nat.pred (Z.to_nat (Z.min (M ds)
                (Z.of_nat (length (s0 :: ss)))))).
      simpl length. lia. }
    destruct Ht as (t' & Ht). rewrite Ht. cbn [firstn map].
    eexists _, _, _, _. reflexivity.
Qed.

(** ** [insert] and [getValue] *)

Lemma removeKey_keeps (ds : t) (k : Z) :
  M (removeKey ds k) = M ds /\ B (removeKey ds k) = B ds /\
  length (D1 (removeKey ds k)) = length (D1 ds) /\
  forall k', k' <> k ->
    map_find k' (key_values (removeKey ds k)) = map_find k' (key_values ds).
Proof.
  destruct (map_find k (key_values ds)) as [v|] eqn:Ef.
  - destruct (removeKey_present ds k v Ef) as (HM & HB & _ & H1 & Hk & _).
    repeat split; auto. intros k' Hne. rewrite Hk.
    now apply map_find_erase_other.
  - unfold removeKey. rewrite Ef. auto.
Qed.

Lemma dmin_INF (v : dist) : dmin INF v = v.
Proof. destruct v; reflexivity. Qed.

(** X2: [insert] is defined on every workspace that has a D1 block and a
    block size of at least one.  Afterwards [getValue] answers, for the
    inserted key, the smaller of the value it answered before and the
    inserted value, and for every other key what it answered before. *)
Theorem insert_lookup (ds : t) (k : Z) (v : dist) :
  1 <= M ds -> D1 ds <> [] ->
  exists ds',
    insert ds k v = Ok ds' /\
    getValue ds' k = dmin (getValue ds k) v /\
    (forall k', k' <> k -> getValue ds' k' = getValue ds k') /\
    M ds' = M ds /\ B ds' = B ds.
Proof.
  intros HM Hne. unfold insert, getValue.
  destruct (map_find k (key_values ds)) as [old|] eqn:Ef.
  - unfold dmin. destruct (dlt v old) eqn:Hlt.
    + destruct (removeKey_keeps ds k) as (HM1 & HB1 & Hl1 & Hk1).
      destruct (insert_fresh_total (removeKey ds k) k v) as
        (ds' & Hi & HM' & HB' & _ & _ & Hkv & _).
      * lia.
      * intros H0. rewrite H0 in Hl1. destruct (D1 ds); [auto|discriminate].
      * exists ds'. split; [exact Hi|]. rewrite Hkv.
        split; [now rewrite map_find_set_same|].
        split; [|split; congruence].
        intros k' Hk'. rewrite map_find_set_other by exact Hk'.
        now rewrite Hk1.
    + exists ds. rewrite Ef. auto.
  - destruct (insert_fresh_total ds k v HM Hne) as
      (ds' & Hi & HM' & HB' & _ & _ & Hkv & _).
    exists ds'. split; [exact Hi|]. rewrite Hkv.
    split; [rewrite map_find_set_same; symmetry; apply dmin_INF|].
    split; [|split; congruence].
    intros k' Hk'. now rewrite map_find_set_other by exact Hk'.
Qed.

(** X3: a workspace without a D1 block, such as a default-constructed one
    on which [initialize] has not been called, cannot take a key:
    [insert] is undefined unless the key is stored with a value that is
    not larger. *)
Theorem insert_without_block (ds : t) (k : Z) (v : dist) :
  D1 ds = [] ->
  (forall old, map_find k (key_values ds) = Some old -> dlt v old = true) ->
  insert ds k v = Undefined.
Proof.
  intros HD Hold.
  assert (Hf : forall d, D1 d = [] -> insert_fresh d k v = Undefined).
  { intros d Hd. unfold insert_fresh, findBlockForValue. cbn [D1].
    rewrite Hd. reflexivity. }
  unfold insert. destruct (map_find k (key_values ds)) as [old|].
  - rewrite (Hold old eq_refl). apply Hf.
    destruct (removeKey_keeps ds k) as (_ & _ & Hl & _).
    rewrite HD in Hl. destruct (D1 (removeKey ds k)); [auto|discriminate].
  - apply Hf, HD.
Qed.

(** ** [batchPrepend] and [getValue] *)

(** The smallest of [start] and the values that [items] gives to [k]. *)
Definition least_value (k : Z) (items : list KeyValue) (start : dist)
  : dist :=
  fold_left (fun acc kv => if fst kv =? k then dmin acc (snd kv) else acc)
            items start.

Lemma dmin_assoc (a b c : dist) : dmin (dmin a b) c = dmin a (dmin b c).
Proof.
  destruct a as [x|], b as [y|], c as [z|]; unfold dmin; simpl;
    repeat match goal with
           | |- context [?p <? ?q] => destruct (Z.ltb_spec p q); simpl
           end; try reflexivity; try lia.
Qed.

Lemma dmin_INF_r (v : dist) : dmin v INF = v.
Proof. destruct v; reflexivity. Qed.

Lemma least_value_start (k : Z) (items : list KeyValue) (s : dist) :
  least_value k items s = dmin s (least_value k items INF).
Proof.
  unfold least_value. revert s.
  induction items as [|[k0 v0] items IH]; intros s; cbn [fold_left fst snd].
  - symmetry. apply dmin_INF_r.
  - destruct (k0 =? k).
    + rewrite (IH (dmin s v0)), (IH (dmin INF v0)), dmin_INF.
      apply dmin_assoc.
    + apply IH.
Qed.

Definition lookup (u : IntMap dist) (k : Z) : dist :=
  match map_find k u with Some v => v | None => INF end.

Lemma unique_items_step (u : IntMap dist) (k0 : Z) (v0 : dist) (k : Z) :
  let u' := match map_find k0 u with
            | None => map_set k0 v0 u
            | Some old => if dlt v0 old then map_set k0 v0 u else u
            end in
  map_sorted u ->
  map_sorted u' /\
  lookup u' k = if k0 =? k then dmin (lookup u k) v0 else lookup u k.
Proof.
  intros u' Hs. subst u'. unfold lookup.
  destruct (Z.eqb_spec k0 k) as [->|Hne].
  - destruct (map_find k u) as [old|] eqn:Ef.
    + unfold dmin. destruct (dlt v0 old).
      * split; [now apply map_set_sorted|]. now rewrite map_find_set_same.
      * split; [exact Hs|]. now rewrite Ef.
    + split; [now apply map_set_sorted|].
      rewrite map_find_set_same. symmetry. apply dmin_INF.
  - assert (Hk : k <> k0) by congruence.
    destruct (map_find k0 u) as [old|].
    + destruct (dlt v0 old).
      * split; [now apply map_set_sorted|].
        now rewrite map_find_set_other by exact Hk.
      * auto.
    + split; [now apply map_set_sorted|].
      now rewrite map_find_set_other by exact Hk.
Qed.

Lemma unique_items_lookup (items : list KeyValue) (k : Z) :
  map_sorted (unique_items items) /\
  lookup (unique_items items) k = least_value k items INF.
Proof.
  unfold unique_items, least_value.
  assert (H : forall u s, map_sorted u -> lookup u k = s ->
    map_sorted (fold_left
      (fun (u : IntMap dist) (kv : KeyValue) =>
         match map_find (fst kv) u with
         | None => map_set (fst kv) (snd kv) u
         | Some old =>
             if dlt (snd kv) old then map_set (fst kv) (snd kv) u else u
         end) items u) /\
    lookup (fold_left
      (fun (u : IntMap dist) (kv : KeyValue) =>
         match map_find (fst kv) u with
         | None => map_set (fst kv) (snd kv) u
         | Some old =>
             if dlt (snd kv) old then map_set (fst kv) (snd kv) u else u
         end) items u) k =
    fold_left (fun acc kv => if fst kv =? k then dmin acc (snd kv) else acc)
              items s).
  { induction items as [|[k0 v0] items IH]; intros u s Hs Hl;
      cbn [fold_left fst snd]; [auto|].
    destruct (unique_items_step u k0 v0 k Hs) as [Hs' Hl'].
    apply IH; [exact Hs'|]. rewrite Hl', Hl. reflexivity. }
  apply H; [exact I | reflexivity].
Qed.

Lemma check_existing_lookup (l : list KeyValue) (k : Z) :
  forall ds ta ds1 ta1,
    fold_left check_existing l (ds, ta) = (ds1, ta1) ->
    getValue ds1 k = least_value k l (getValue ds k).
Proof.
  unfold least_value.
  induction l as [|[k0 v0] l IH]; intros ds ta ds1 ta1 H;
    cbn [fold_left] in *.
  - now injection H as <- _.
  - destruct (check_existing (ds, ta) (k0, v0)) as [ds2 ta2] eqn:Ec.
    rewrite (IH _ _ _ _ H). f_equal. cbn [fst snd].
    unfold check_existing in Ec. cbn [fst snd] in Ec.
    unfold getValue.
    destruct (Z.eqb_spec k0 k) as [->|Hne].
    + destruct (map_find k (key_values ds)) as [old|] eqn:Ef.
      * unfold dmin. destruct (dlt v0 old).
        -- injection Ec as <- _. cbn [set_key key_values].
           now rewrite map_find_set_same.
        -- injection Ec as <- _. now rewrite Ef.
      * injection Ec as <- _. cbn [set_key key_values].
        rewrite map_find_set_same. symmetry. apply dmin_INF.
    + assert (Hk : k <> k0) by congruence.
      destruct (map_find k0 (key_values ds)) as [old|] eqn:Ef.
      * destruct (dlt v0 old).
        -- injection Ec as <- _. cbn [set_key key_values].
           rewrite map_find_set_other by exact Hk.
           destruct (removeKey_keeps ds k0) as (_ & _ & _ & Hr).
           now rewrite Hr.
        -- now injection Ec as <- _.
      * injection Ec as <- _. cbn [set_key key_values].
        now rewrite map_find_set_other by exact Hk.
Qed.

Lemma least_value_sorted (k : Z) (u : IntMap dist) (s : dist) :
  map_sorted u -> least_value k u s = dmin s (lookup u k).
Proof.
  unfold least_value, lookup. revert s.
  induction u as [|[k0 v0] u IH]; intros s Hs; cbn [fold_left fst snd].
  - symmetry. apply dmin_INF_r.
  - destruct Hs as [Hlt Hs]. cbn [map_find].
    destruct (Z.eqb_spec k0 k) as [->|Hne].
    + rewrite Z.eqb_refl. rewrite (IH _ Hs).
      rewrite map_find_absent; [apply dmin_INF_r|].
      intros x Hx. specialize (Hlt x Hx). lia.
    + destruct (Z.eqb_spec k k0); [congruence|]. apply IH, Hs.
Qed.

Lemma make_blocks_total (per_block : Z) :
  1 <= per_block ->
  forall fuel rest, (length rest <= fuel)%nat ->
  exists bs, make_blocks fuel per_block rest = Ok bs.
Proof.
  intros Hp. induction fuel as [|f IH]; intros rest Hl.
  - destruct rest; [exists []; reflexivity | simpl in Hl; lia].
  - destruct rest as [|x rest]; [exists []; reflexivity|].
    cbn [make_blocks].
    destruct (IH (skipn (Z.to_nat per_block) (x :: rest))) as (bs & Hb).
    { rewrite length_skipn. cbn [length] in *. lia. }
    rewrite Hb. eexists. reflexivity.
Qed.

Lemma quot_ge_one (a b : Z) : 1 <= b -> b <= a -> 1 <= Z.quot a b.
Proof.
  intros Hb Ha.
  pose proof (Z.quot_le_lower_bound a b 1 ltac:(lia) ltac:(lia)). lia.
Qed.

(** X4: on a workspace whose block size is at least two [batchPrepend] is
    defined for every batch.  Afterwards [getValue] answers, for every
    key, the smallest of the value it answered before and the values the
    batch gives to that key. *)
Theorem batchPrepend_lookup (ds : t) (items : list KeyValue) :
  2 <= M ds ->
  exists ds',
    batchPrepend ds items = Ok ds' /\
    (forall k, getValue ds' k = least_value k items (getValue ds k)) /\
    M ds' = M ds /\ B ds' = B ds.
Proof.
  intros HM. unfold batchPrepend.
  destruct items as [|it items].
  { exists ds. repeat split; auto. }
  set (its := it :: items).
  destruct (fold_left check_existing (unique_items its) (ds, []))
    as [ds1 to_add0] eqn:Ef.
  assert (Hlook : forall k,
            getValue ds1 k = least_value k its (getValue ds k)).
  { intros k. rewrite (check_existing_lookup _ k _ _ _ _ Ef).
    destruct (unique_items_lookup its k) as [Hs Hl].
    rewrite (least_value_sorted _ _ _ Hs), Hl.
    symmetry. apply least_value_start. }
  destruct (check_existing_fold _ _ _ _ _ Ef) as (HM1 & HB1 & _).
  destruct to_add0 as [|a0 to_add0].
  { exists ds1. repeat split; auto. }
  set (ta := sort_by_value (a0 :: to_add0)).
  destruct (Z.leb_spec (Z.of_nat (length ta)) (M ds1)) as [Hle|Hgt].
  { eexists. split; [reflexivity|]. repeat split; auto. }
  assert (HL : 1 <= Z.of_nat (length ta)).
  { unfold ta. rewrite sort_by_value_length. simpl length. lia. }
  unfold int_div.
  change (2 =? 0) with false. cbn [bind].
  assert (Hh : 1 <= Z.quot (M ds1) 2) by (apply quot_ge_one; lia).
  destruct (Z.eqb_spec (Z.quot (M ds1) 2) 0) as [H0|_]; [lia|].
  cbn [bind].
  set (half := Z.quot (M ds1) 2) in *.
  assert (Hn : 1 <= Z.quot (Z.of_nat (length ta) + half - 1) half)
    by (apply quot_ge_one; lia).
  destruct (Z.eqb_spec (Z.quot (Z.of_nat (length ta) + half - 1) half) 0)
    as [H0|_]; [lia|].
  cbn [bind].
  set (nb := Z.quot (Z.of_nat (length ta) + half - 1) half) in *.
  assert (Hp : 1 <= Z.quot (Z.of_nat (length ta) + nb - 1) nb)
    by (apply quot_ge_one; lia).
  destruct (make_blocks_total _ Hp (length ta) ta (le_n _)) as (bs & Hb).
  rewrite Hb. cbn [bind].
  eexists. split; [reflexivity|]. repeat split; auto.
Qed.

End WorkspaceFacts.

(** * The workspace under all of its operations *)

Module CoherenceFacts.

Import BlockDataStructure BlockFacts PullFacts WorkspaceFacts.

(** ** The representation invariant

    The keys of the blocks are pairwise distinct, the key index lists
    exactly the elements of the blocks, and the set of upper bounds is the
    set of the upper bounds of the D1 blocks. *)

Definition bounds_ok (ds : t) : Prop :=
  forall z, In z (d1_upper_bounds ds) <-> In z (map upper_bound (D1 ds)).

Record coherent (ds : t) : Prop := mkCoherent {
  coh_M : 1 <= M ds;
  coh_D1 : D1 ds <> [];
  coh_keys : NoDup (map fst (all_kv ds));
  coh_map : map_sorted (key_values ds);
  coh_index : forall k v,
    map_find k (key_values ds) = Some v <-> In (k, v) (all_kv ds);
  coh_bounds : bounds_ok ds
}.

Lemma initialize_coherent (ds0 : t) (m : Z) (b : dist) (max_n : Z) :
  coherent (initialize ds0 m b max_n).
Proof.
  constructor; simpl.
  - lia.
  - discriminate.
  - constructor.
  - exact I.
  - intros k v. split; [discriminate | intros []].
  - intros z. reflexivity.
Qed.

(** ** Sorted maps and the candidates of [pull] *)

Lemma map_sorted_find {A : Type} (m : IntMap A) (k : Z) (a : A) :
  map_sorted m -> (map_find k m = Some a <-> In (k, a) m).
Proof.
  induction m as [|[k' a'] m IH]; simpl; [intuition discriminate|].
  intros [Hlt Hs]. destruct (Z.eqb_spec k k') as [->|Hne].
  - split.
    + intros H. injection H as <-. now left.
    + intros [H|H]; [now injection H as <- | ].
      specialize (Hlt _ H). simpl in Hlt. lia.
  - rewrite (IH Hs). split; [now right|].
    intros [H|H]; [injection H as <- _; congruence | exact H].
Qed.

Lemma map_sorted_NoDup {A : Type} (m : IntMap A) :
  map_sorted m -> NoDup m.
Proof.
  induction m as [|[k a] m IH]; simpl; [constructor|].
  intros [Hlt Hs]. constructor; [|auto].
  intros Hin. specialize (Hlt _ Hin). simpl in Hlt. lia.
Qed.

Lemma collect_short (m : Z) (bs : list Block) :
  forall c, c + Z.of_nat (length (collect m c bs)) < m ->
            collect m c bs = all_elements bs.
Proof.
  induction bs as [|blk bs IH]; intros c Hc; cbn [collect all_elements flat_map] in *;
    [reflexivity|].
  rewrite length_app in Hc.
  destruct (Z.leb_spec m (c + Z.of_nat (length (elements blk)))) as [Hle|Hgt].
  - simpl in Hc. lia.
  - f_equal. apply IH. lia.
Qed.

Lemma NoDup_firstn {A : Type} (n : nat) (l : list A) :
  NoDup l -> NoDup (firstn n l).
Proof.
  intros H. rewrite <- (firstn_skipn n l) in H.
  now apply NoDup_app_remove_r in H.
Qed.

(** ** Lists of pairs with distinct keys *)

Lemma keyed_remove (L L' : list KeyValue) (k : Z) (v0 : dist) :
  NoDup (map fst L) -> Permutation L ((k, v0) :: L') ->
  NoDup (map fst L') /\ ~ In k (map fst L') /\
  forall kv, In kv L' <-> In kv L /\ fst kv <> k.
Proof.
  intros Hnd Hp.
  eapply Permutation_NoDup in Hnd; [|apply Permutation_map, Hp].
  cbn [map fst] in Hnd. apply NoDup_cons_iff in Hnd. destruct Hnd as [Hk Hnd].
  split; [exact Hnd|]. split; [exact Hk|].
  intros kv. split.
  - intros Hin. split.
    + eapply Permutation_in; [apply Permutation_sym, Hp|]. now right.
    + intros Heq. apply Hk. rewrite <- Heq. now apply in_map.
  - intros [Hin Hne]. eapply Permutation_in in Hin; [|exact Hp].
    destruct Hin as [<-|Hin]; [now elim Hne | exact Hin].
Qed.

Lemma NoDup_snoc {A : Type} (l : list A) (a : A) :
  NoDup l -> ~ In a l -> NoDup (l ++ [a]).
Proof.
  intros Hnd Ha. eapply Permutation_NoDup.
  - apply Permutation_cons_append.
  - now constructor.
Qed.

(** ** [removeKey] *)

Lemma removeKey_bounds (ds : t) (k : Z) :
  map upper_bound (D1 (removeKey ds k)) = map upper_bound (D1 ds) /\
  d1_upper_bounds (removeKey ds k) = d1_upper_bounds ds.
Proof.
  unfold removeKey. destruct (map_find k (key_values ds)); [|auto].
  destruct (erase_in_blocks k (D0 ds)); [auto|].
  destruct (erase_in_blocks k (D1 ds)) as [d1|] eqn:E; [|auto].
  cbn [D1 d1_upper_bounds]. split; [|reflexivity].
  eapply erase_in_blocks_bounds; eauto.
Qed.

(** [removeKey] on a list that holds the key in its blocks. *)
Lemma removeKey_held (ds : t) (k : Z) (v : dist) :
  map_find k (key_values ds) = Some v -> In (k, v) (all_kv ds) ->
  exists v0, Permutation (all_kv ds) ((k, v0) :: all_kv (removeKey ds k)).
Proof.
  intros Hf Hin.
  destruct (removeKey_present ds k v Hf) as (_ & _ & _ & _ & _ & _ & Hrem).
  destruct Hrem as [Hp|[_ Hocc]]; [exact Hp|].
  exfalso. assert (H : In (k, v) (occ k ds)).
  { apply filter_In. split; [exact Hin|]. unfold has_key. simpl.
    apply Z.eqb_refl. }
  rewrite Hocc in H. destruct H.
Qed.

Lemma removeKey_coherent (ds : t) (k : Z) :
  coherent ds ->
  coherent (removeKey ds k) /\
  forall kv, In kv (all_kv (removeKey ds k)) <->
             In kv (all_kv ds) /\ fst kv <> k.
Proof.
  intros [HM HD Hnd Hs Hi Hb].
  destruct (removeKey_keeps ds k) as (HM' & _ & Hl & Hother).
  destruct (removeKey_bounds ds k) as [Hub Hubs].
  destruct (map_find k (key_values ds)) as [v|] eqn:Ef.
  - pose proof (proj1 (Hi k v) Ef) as Hin.
    destruct (removeKey_held ds k v Ef Hin) as (v0 & Hp).
    destruct (keyed_remove _ _ _ _ Hnd Hp) as (Hnd' & Hk' & Hchar).
    destruct (removeKey_present ds k v Ef) as (_ & _ & _ & _ & Hkv & _).
    split; [|exact Hchar]. constructor.
    + lia.
    + intros H0. rewrite H0 in Hl. destruct (D1 ds); [auto|discriminate].
    + exact Hnd'.
    + rewrite Hkv. now apply map_erase_sorted.
    + intros k' v'. destruct (Z.eq_dec k' k) as [->|Hne].
      * rewrite Hkv, map_find_erase_same by exact Hs.
        split; [discriminate|]. intros H. elim Hk'.
        change k with (fst (k, v')). now apply in_map.
      * rewrite Hother by exact Hne. rewrite Hi, Hchar. simpl. tauto.
    + intros z. unfold bounds_ok in Hb. now rewrite Hubs, Hub.
  - assert (Heq : removeKey ds k = ds) by (unfold removeKey; now rewrite Ef).
    rewrite Heq. split; [now constructor|].
    intros [k' v']. split; [|tauto]. intros Hin. split; [exact Hin|].
    simpl. intros ->. apply Hi in Hin. congruence.
Qed.

Lemma fold_removeKey_coherent (keys : list Z) :
  forall ds, coherent ds ->
  coherent (fold_left removeKey keys ds) /\
  forall kv, In kv (all_kv (fold_left removeKey keys ds)) <->
             In kv (all_kv ds) /\ ~ In (fst kv) keys.
Proof.
  induction keys as [|k keys IH]; intros ds Hc; simpl.
  - split; [exact Hc|]. intros kv. tauto.
  - destruct (removeKey_coherent ds k Hc) as [H1 C1].
    destruct (IH _ H1) as [H2 C2]. split; [exact H2|].
    intros kv. rewrite C2, C1. intuition.
Qed.

(** ** [insert] *)

Lemma dset_insert_In (x z : dist) (s : list dist) :
  In z (dset_insert x s) <-> z = x \/ In z s.
Proof.
  induction s as [|y s IH]; simpl; [intuition|].
  destruct (dlt x y); simpl; [intuition|].
  destruct (dist_eqb x y) eqn:E; simpl.
  - apply dist_eqb_eq in E. subst y. intuition.
  - rewrite IH. intuition.
Qed.

Lemma dset_erase_In (x z : dist) (s : list dist) :
  (In z (dset_erase x s) -> In z s) /\
  (In z s -> z = x \/ In z (dset_erase x s)).
Proof.
  induction s as [|y s [IH1 IH2]]; simpl; [intuition|].
  destruct (dist_eqb x y) eqn:E; simpl.
  - apply dist_eqb_eq in E. subst y. intuition.
  - intuition.
Qed.

Lemma splitBlock_bounds (ds ds' : t) (i : nat) :
  splitBlock ds i = Ok ds' -> bounds_ok ds -> bounds_ok ds'.
Proof.
  unfold splitBlock. intros H Hb.
  destruct (nth_error (D1 ds) i) as [block|] eqn:E; [|discriminate].
  destruct (Z.of_nat (length (elements block)) <=? M ds);
    [now injection H as <-|].
  cbv zeta in H.
  remember (firstn (_ / 2)%nat _) as f1 eqn:Ef1 in H.
  remember (skipn (_ / 2)%nat _) as f2 eqn:Ef2 in H.
  match type of H with
  | match ?d with O => _ | Datatypes.S _ => _ end = _ =>
      destruct d as [|mid1]
  end; [discriminate|].
  match type of H with
  | match ?d with Some _ => _ | None => _ end = _ => destruct d as [kv|]
  end; [|discriminate].
  injection H as <-. intros z. cbn [d1_upper_bounds D1 upper_bound].
  rewrite !dset_insert_In.
  pose proof (nth_error_split_at _ _ _ E) as Hs.
  assert (Hold : In z (map upper_bound (D1 ds)) <->
                 In z (map upper_bound (firstn i (D1 ds)))
                 \/ z = upper_bound block
                 \/ In z (map upper_bound (skipn (Datatypes.S i) (D1 ds)))).
  { rewrite Hs at 1. rewrite map_app, in_app_iff. simpl. intuition. }
  assert (Hub : In (upper_bound block) (d1_upper_bounds ds)).
  { apply Hb, in_map. eapply nth_error_In; eauto. }
  destruct (dset_erase_In (upper_bound block) z (d1_upper_bounds ds))
    as [He1 He2].
  rewrite map_app, in_app_iff. cbn [map upper_bound In].
  unfold bounds_ok in Hb. split.
  - intros [->|[->|Hin]].
    + auto.
    + auto.
    + apply He1, Hb, Hold in Hin. intuition.
  - intros Hin.
    assert (Hcase : z = snd kv \/ In z (map upper_bound (D1 ds))).
    { rewrite Hold. intuition. }
    destruct Hcase as [->|Hz]; [auto|].
    apply Hb, He2 in Hz. intuition.
Qed.

Lemma insert_fresh_bounds (ds ds' : t) (k : Z) (v : dist) :
  insert_fresh ds k v = Ok ds' -> bounds_ok ds -> bounds_ok ds'.
Proof.
  unfold insert_fresh. intros H Hb. bind_inv H as i Ei.
  cbn [D1 key_values M] in H.
  destruct (nth_error (push_back_at i (k, v) (D1 ds)) i) as [blk|];
    [|discriminate].
  assert (Hb2 : bounds_ok
                  (mk (M ds) (B ds) (N ds) (D0 ds)
                      (push_back_at i (k, v) (D1 ds))
                      (map_set k v (key_values ds)) (d1_upper_bounds ds))).
  { intros z. cbn [d1_upper_bounds D1]. rewrite push_back_at_bounds.
    apply Hb. }
  match type of H with (if ?c then _ else _) = _ => destruct c end.
  - eapply splitBlock_bounds; eauto.
  - now injection H as <-.
Qed.

Lemma insert_fresh_coherent (ds : t) (k : Z) (v : dist) :
  coherent ds -> map_find k (key_values ds) = None ->
  exists ds', insert_fresh ds k v = Ok ds' /\ coherent ds'.
Proof.
  intros [HM HD Hnd Hs Hi Hb] Hf.
  destruct (insert_fresh_total ds k v HM HD)
    as (ds' & E & HM' & _ & _ & HD' & Hkv & Hp).
  exists ds'. split; [exact E|].
  assert (Hk : ~ In k (map fst (all_kv ds))).
  { intros Hin. apply in_map_iff in Hin. destruct Hin as ([k' v'] & <- & Hin).
    apply Hi in Hin. simpl in Hf. congruence. }
  constructor.
  - lia.
  - exact HD'.
  - eapply Permutation_NoDup;
      [apply Permutation_map, Permutation_sym, Hp|].
    cbn [map fst]. now constructor.
  - rewrite Hkv. now apply map_set_sorted.
  - intros k' v'. rewrite Hkv. destruct (Z.eq_dec k' k) as [->|Hne].
    + rewrite map_find_set_same. split.
      * intros Heq. injection Heq as <-.
        eapply Permutation_in; [apply Permutation_sym, Hp|]. now left.
      * intros Hin. eapply Permutation_in in Hin; [|exact Hp].
        destruct Hin as [Heq|Hin]; [congruence|].
        elim Hk. change k with (fst (k, v')). now apply in_map.
    + rewrite map_find_set_other by exact Hne. rewrite Hi. split; intros Hin.
      * eapply Permutation_in; [apply Permutation_sym, Hp|]. now right.
      * eapply Permutation_in in Hin; [|exact Hp].
        destruct Hin as [Heq|Hin]; [congruence | exact Hin].
  - eapply insert_fresh_bounds; eauto.
Qed.

Lemma insert_coherent (ds : t) (k : Z) (v : dist) :
  coherent ds -> exists ds', insert ds k v = Ok ds' /\ coherent ds'.
Proof.
  intros Hc. unfold insert.
  destruct (map_find k (key_values ds)) as [old|] eqn:Ef.
  - destruct (dlt v old); [|eauto].
    destruct (removeKey_coherent ds k Hc) as [H1 _].
    apply insert_fresh_coherent; [exact H1|].
    destruct (removeKey_present ds k old Ef) as (_ & _ & _ & _ & Hkv & _).
    rewrite Hkv. apply map_find_erase_same, (coh_map _ Hc).
  - now apply insert_fresh_coherent.
Qed.

(** ** [batchPrepend] *)

(** The state of the loop that checks the batch against the key index:
    the keys of [to_add] are indexed and not yet in a block. *)
Record pending (ds : t) (ta : list KeyValue) : Prop := mkPending {
  pend_M : 1 <= M ds;
  pend_D1 : D1 ds <> [];
  pend_keys : NoDup (map fst (all_kv ds ++ ta));
  pend_map : map_sorted (key_values ds);
  pend_index : forall k v,
    map_find k (key_values ds) = Some v <-> In (k, v) (all_kv ds ++ ta);
  pend_bounds : bounds_ok ds
}.

Lemma check_existing_pending (ds : t) (ta : list KeyValue) (k : Z)
    (v : dist) :
  pending ds ta -> (forall x, In x ta -> fst x <> k) ->
  pending (fst (check_existing (ds, ta) (k, v)))
          (snd (check_existing (ds, ta) (k, v))) /\
  forall x, In x (snd (check_existing (ds, ta) (k, v))) ->
            In x ta \/ fst x = k.
Proof.
  intros [HM HD Hnd Hs Hi Hb] Hta.
  unfold check_existing. cbn [fst snd].
  assert (Hadd : forall d : t,
            1 <= M d -> D1 d <> [] -> bounds_ok d ->
            map_sorted (key_values d) ->
            NoDup (map fst (all_kv d ++ ta)) ->
            ~ In k (map fst (all_kv d ++ ta)) ->
            (forall k' v', k' <> k ->
               (map_find k' (key_values d) = Some v' <->
                In (k', v') (all_kv d ++ ta))) ->
            pending (set_key d k v) (ta ++ [(k, v)])).
  { intros d HMd HDd Hbd Hsd Hndd Hkd Hid.
    assert (Hall : all_kv (set_key d k v) = all_kv d) by reflexivity.
    constructor; rewrite ?Hall; cbn [set_key M D1 key_values].
    - exact HMd.
    - exact HDd.
    - rewrite app_assoc, map_app. cbn [map fst]. now apply NoDup_snoc.
    - now apply map_set_sorted.
    - intros k' v'. rewrite app_assoc, in_app_iff.
      destruct (Z.eq_dec k' k) as [->|Hne].
      + rewrite map_find_set_same. split.
        * intros Heq. injection Heq as <-. right. now left.
        * intros [Hin|[Heq|[]]]; [|congruence].
          elim Hkd. change k with (fst (k, v')). now apply in_map.
      + rewrite map_find_set_other by exact Hne. rewrite (Hid _ _ Hne).
        split; [now left|]. intros [Hin|[Heq|[]]]; [exact Hin | congruence].
    - exact Hbd. }
  destruct (map_find k (key_values ds)) as [old|] eqn:Ef.
  - destruct (dlt v old).
    + cbn [fst snd].
      assert (Hin : In (k, old) (all_kv ds)).
      { apply Hi in Ef. apply in_app_or in Ef.
        destruct Ef as [Hin|Hin]; [exact Hin|]. elim (Hta _ Hin). reflexivity. }
      assert (Hf : map_find k (key_values ds) = Some old) by exact Ef.
      destruct (removeKey_held ds k old Hf Hin) as (v0 & Hp).
      destruct (removeKey_keeps ds k) as (HM' & _ & Hl & Hother).
      destruct (removeKey_bounds ds k) as [Hub Hubs].
      destruct (removeKey_present ds k old Hf) as (_ & _ & _ & _ & Hkv & _).
      assert (Hp' : Permutation (all_kv ds ++ ta)
                      ((k, v0) :: all_kv (removeKey ds k) ++ ta)).
      { change ((k, v0) :: all_kv (removeKey ds k) ++ ta)
          with (((k, v0) :: all_kv (removeKey ds k)) ++ ta).
        now apply Permutation_app_tail. }
      destruct (keyed_remove _ _ _ _ Hnd Hp') as (Hnd' & Hk' & Hchar).
      split; [|intros x Hx; apply in_app_or in Hx;
               destruct Hx as [Hx|[<-|[]]]; auto].
      apply Hadd.
      * lia.
      * intros H0. rewrite H0 in Hl. destruct (D1 ds); [auto|discriminate].
      * intros z. unfold bounds_ok in Hb. now rewrite Hubs, Hub.
      * rewrite Hkv. now apply map_erase_sorted.
      * exact Hnd'.
      * exact Hk'.
      * intros k' v' Hne. rewrite Hother by exact Hne.
        rewrite Hi, Hchar. simpl. tauto.
    + cbn [fst snd]. split; [now constructor | auto].
  - cbn [fst snd].
    assert (Hk : ~ In k (map fst (all_kv ds ++ ta))).
    { intros Hin. apply in_map_iff in Hin.
      destruct Hin as ([k' v'] & <- & Hin). apply Hi in Hin.
      simpl in Ef. congruence. }
    split; [|intros x Hx; apply in_app_or in Hx;
             destruct Hx as [Hx|[<-|[]]]; auto].
    apply Hadd; auto.
Qed.

Lemma check_existing_fold_pending (l : list KeyValue) :
  forall ds ta ds1 ta1,
    NoDup (map fst l) ->
    (forall x, In x ta -> ~ In (fst x) (map fst l)) ->
    pending ds ta ->
    fold_left check_existing l (ds, ta) = (ds1, ta1) ->
    pending ds1 ta1.
Proof.
  induction l as [|[k v] l IH]; intros ds ta ds1 ta1 Hnd Hta Hp H;
    cbn [fold_left] in H.
  - now injection H as <- <-.
  - cbn [map fst] in Hnd. apply NoDup_cons_iff in Hnd.
    destruct Hnd as [Hk Hnd].
    destruct (check_existing_pending ds ta k v Hp) as [Hp1 Hta1].
    { intros x Hx Heq. apply (Hta x Hx). left. now rewrite Heq. }
    change (fold_left check_existing l (check_existing (ds, ta) (k, v))
            = (ds1, ta1)) in H.
    rewrite (surjective_pairing (check_existing (ds, ta) (k, v))) in H.
    eapply IH; [exact Hnd | | exact Hp1 | exact H].
    intros x Hx Hin. destruct (Hta1 x Hx) as [Hx'|Heq].
    + apply (Hta x Hx'). now right.
    + apply Hk. now rewrite <- Heq.
Qed.

Lemma map_sorted_keys {A : Type} (m : IntMap A) :
  map_sorted m -> NoDup (map fst m).
Proof.
  induction m as [|[k a] m IH]; simpl; [constructor|].
  intros [Hlt Hs]. constructor; [|auto].
  intros Hin. apply in_map_iff in Hin. destruct Hin as (x & Hx & Hin).
  specialize (Hlt _ Hin). lia.
Qed.

Lemma make_blocks_elements (fuel : nat) (per_block : Z) :
  forall rest bs,
    make_blocks fuel per_block rest = Ok bs -> all_elements bs = rest.
Proof.
  induction fuel as [|f IH]; intros rest bs H; destruct rest as [|x rest];
    cbn [make_blocks] in H; try discriminate.
  - now injection H as <-.
  - now injection H as <-.
  - bind_inv H as bs' E. injection H as <-. apply IH in E.
    cbn [all_elements flat_map elements]. fold (all_elements bs').
    rewrite E. apply firstn_skipn.
Qed.

Lemma batchPrepend_coherent (ds ds' : t) (items : list KeyValue) :
  coherent ds -> batchPrepend ds items = Ok ds' -> coherent ds'.
Proof.
  intros Hc H. unfold batchPrepend in H.
  destruct items as [|it items]; [now injection H as <-|].
  set (its := it :: items) in *.
  destruct (fold_left check_existing (unique_items its) (ds, []))
    as [ds1 ta0] eqn:Ef.
  assert (Hp : pending ds1 ta0).
  { eapply check_existing_fold_pending; [| | |exact Ef].
    - apply map_sorted_keys. apply (proj1 (unique_items_lookup its 0)).
    - intros x [].
    - destruct Hc as [HM HD Hnd Hs Hi Hb].
      constructor; rewrite ?app_nil_r; auto. }
  destruct Hp as [HM HD Hnd Hs Hi Hb].
  assert (Hfinal : forall d0 : list Block,
            Permutation (all_elements d0) (ta0 ++ all_elements (D0 ds1)) ->
            coherent (mk (M ds1) (B ds1) (N ds1) d0 (D1 ds1)
                         (key_values ds1) (d1_upper_bounds ds1))).
  { intros d0 Hd0.
    assert (Hall : Permutation (all_elements d0 ++ all_elements (D1 ds1))
                               (all_kv ds1 ++ ta0)).
    { unfold all_kv.
      eapply Permutation_trans; [apply Permutation_app_tail, Hd0|].
      rewrite <- app_assoc. apply Permutation_app_comm. }
    constructor; unfold all_kv; cbn [M D0 D1 key_values d1_upper_bounds].
    - exact HM.
    - exact HD.
    - eapply Permutation_NoDup;
        [apply Permutation_map, Permutation_sym, Hall | exact Hnd].
    - exact Hs.
    - intros k v. rewrite Hi. split; intros Hin.
      + eapply Permutation_in; [apply Permutation_sym, Hall | exact Hin].
      + eapply Permutation_in; [exact Hall | exact Hin].
    - exact Hb. }
  destruct ta0 as [|a0 ta0].
  { injection H as <-. constructor; auto.
    - now rewrite app_nil_r in Hnd.
    - intros k v. rewrite Hi, app_nil_r. reflexivity. }
  set (ta := a0 :: ta0) in *.
  pose proof (sort_by_value_perm ta) as Hsort.
  destruct (Z.of_nat (length (sort_by_value ta)) <=? M ds1).
  - injection H as <-. apply Hfinal.
    cbn [all_elements flat_map elements]. fold (all_elements (D0 ds1)).
    apply Permutation_app_tail, Permutation_sym, Hsort.
  - bind_inv H as half Eh. bind_inv H as nb En. bind_inv H as pb Ep.
    bind_inv H as nbs Em. injection H as <-. apply Hfinal.
    rewrite all_elements_app, (make_blocks_elements _ _ _ _ Em).
    apply Permutation_app_tail, Permutation_sym, Hsort.
Qed.

(** ** Workspaces reached by the four operations *)

Inductive operated (m : Z) (b : dist) : t -> Prop :=
| operated_initialize ds0 max_n :
    operated m b (initialize ds0 m b max_n)
| operated_insert ds k v ds' :
    operated m b ds -> insert ds k v = Ok ds' -> operated m b ds'
| operated_batchPrepend ds items ds' :
    operated m b ds -> batchPrepend ds items = Ok ds' -> operated m b ds'
| operated_pull ds r ds' :
    operated m b ds -> pull ds = (r, ds') -> operated m b ds'.

Lemma pull_coherent (ds ds' : t) (r : list Z * dist) :
  coherent ds -> pull ds = (r, ds') -> coherent ds'.
Proof.
  intros Hc H. unfold pull in H.
  destruct (collect (M ds) 0 (D0 ds) ++ collect (M ds) 0 (D1 ds));
    [now injection H as _ <-|].
  injection H as _ <-. now apply fold_removeKey_coherent.
Qed.

Lemma operated_coherent (m : Z) (b : dist) (ds : t) :
  operated m b ds -> coherent ds /\ M ds = Z.max 1 m /\ B ds = b.
Proof.
  induction 1 as [ds0 max_n|ds k v ds' _ (Hc & HM & HB) Hi
                  |ds items ds' _ (Hc & HM & HB) Hi
                  |ds [keys sep] ds' _ (Hc & HM & HB) Hp].
  - split; [apply initialize_coherent | split; reflexivity].
  - destruct (insert_coherent ds k v Hc) as (ds'' & E & Hc').
    rewrite Hi in E. injection E as <-.
    destruct (insert_Ok _ _ _ _ Hi) as (HM' & HB' & _).
    split; [exact Hc' | split; congruence].
  - destruct (batchPrepend_Ok _ _ _ Hi) as (HM' & HB' & _).
    split; [eapply batchPrepend_coherent; eauto | split; congruence].
  - destruct (pull_incl _ _ _ _ Hp) as (HM' & HB' & _).
    split; [eapply pull_coherent; eauto | split; congruence].
Qed.

Lemma coherent_perm (ds : t) :
  coherent ds -> Permutation (key_values ds) (all_kv ds).
Proof.
  intros [_ _ Hnd Hs Hi _]. apply NoDup_Permutation.
  - now apply map_sorted_NoDup.
  - eapply NoDup_map_inv, Hnd.
  - intros [k v]. rewrite <- (map_sorted_find _ _ _ Hs). apply Hi.
Qed.

Lemma coherent_size (ds : t) :
  coherent ds -> size ds = Z.of_nat (length (all_kv ds)).
Proof.
  intros Hc. unfold size. now rewrite (Permutation_length (coherent_perm _ Hc)).
Qed.

(** X5: in a workspace reached by [initialize], [insert], [batchPrepend]
    and [pull], no key occurs twice in the blocks, the key index lists
    exactly the elements of the blocks, so that [size] is their number and
    [empty] holds exactly when [size] is zero, the recorded upper bounds
    are those of the D1 blocks, and [insert] is defined for every key and
    value. *)
Theorem operated_index (m : Z) (b : dist) (ds : t) :
  operated m b ds ->
  M ds = Z.max 1 m /\ B ds = b /\
  NoDup (map fst (all_kv ds)) /\
  (forall k v,
     map_find k (key_values ds) = Some v <-> In (k, v) (all_kv ds)) /\
  size ds = Z.of_nat (length (all_kv ds)) /\
  (empty ds = true <-> size ds = 0) /\
  (forall z, In z (d1_upper_bounds ds) <->
             In z (map upper_bound (D1 ds))) /\
  (forall k v, exists ds', insert ds k v = Ok ds').
Proof.
  intros Ho. destruct (operated_coherent _ _ _ Ho) as (Hc & HM & HB).
  split; [exact HM|]. split; [exact HB|].
  split; [apply (coh_keys _ Hc)|]. split; [apply (coh_index _ Hc)|].
  split; [now apply coherent_size|]. split; [|split].
  - rewrite (coherent_size _ Hc). unfold all_kv, empty. split.
    + intros He. apply andb_true_iff in He. destruct He as [E0 E1].
      now rewrite (empty_all_elements _ E0), (empty_all_elements _ E1).
    + intros Hs. rewrite length_app in Hs.
      destruct (all_elements (D0 ds)) eqn:E0; [|simpl in Hs; lia].
      destruct (all_elements (D1 ds)) eqn:E1; [|simpl in Hs; lia].
      now rewrite (all_elements_nil_empty _ E0),
                  (all_elements_nil_empty _ E1).
  - apply (coh_bounds _ Hc).
  - intros k v. destruct (insert_coherent ds k v Hc) as (ds' & E & _). eauto.
Qed.

(** ** [pull] *)

Lemma NoDup_pick {A : Type} (l1 l2 l3 l4 : list A) :
  NoDup (l1 ++ l2 ++ l3 ++ l4) -> NoDup (l1 ++ l3).
Proof.
  intros H.
  assert (Hp : Permutation (l1 ++ l2 ++ l3 ++ l4) ((l1 ++ l3) ++ l2 ++ l4)).
  { rewrite <- app_assoc. apply Permutation_app_head.
    apply Permutation_app_swap_app. }
  eapply Permutation_NoDup in H; [|exact Hp].
  now apply NoDup_app_remove_r in H.
Qed.

(** X6: on such a workspace [pull] returns [min(M, size)] keys without
    repetition; each of them was stored and is no longer stored
    afterwards; [size] drops by the number of returned keys; and every
    other key is stored afterwards exactly as it was before. *)
Theorem pull_removes_returned (m : Z) (b : dist) (ds ds' : t)
    (keys : list Z) (sep : dist) :
  operated m b ds -> pull ds = ((keys, sep), ds') ->
  NoDup keys /\
  Z.of_nat (length keys) = Z.min (M ds) (size ds) /\
  size ds' = size ds - Z.of_nat (length keys) /\
  (forall k, In k keys ->
     (exists v, map_find k (key_values ds) = Some v) /\
     map_find k (key_values ds') = None /\ getValue ds' k = INF) /\
  (forall k, ~ In k keys ->
     map_find k (key_values ds') = map_find k (key_values ds) /\
     getValue ds' k = getValue ds k).
Proof.
  intros Ho Hp. destruct (operated_coherent _ _ _ Ho) as (Hc & _ & _).
  pose proof (pull_coherent _ _ _ Hc Hp) as Hc'.
  pose proof (coh_M _ Hc) as HM.
  set (c0 := collect (M ds) 0 (D0 ds)) in *.
  set (c1 := collect (M ds) 0 (D1 ds)) in *.
  assert (Hcand : incl (c0 ++ c1) (all_kv ds)).
  { unfold all_kv. apply incl_app.
    - apply incl_appl, collect_incl.
    - apply incl_appr, collect_incl. }
  assert (Hcnd : NoDup (map fst (c0 ++ c1))).
  { destruct (collect_prefix (M ds) (D0 ds) 0) as (P0 & Q0 & E0 & HP0).
    destruct (collect_prefix (M ds) (D1 ds) 0) as (P1 & Q1 & E1 & HP1).
    fold c0 in HP0. fold c1 in HP1. rewrite HP0, HP1.
    pose proof (coh_keys _ Hc) as Hn. unfold all_kv in Hn.
    rewrite E0, E1, !all_elements_app, <- app_assoc, !map_app in Hn.
    rewrite map_app. eapply NoDup_pick; eauto. }
  assert (Hshort : Z.of_nat (length (c0 ++ c1)) < M ds ->
                   c0 ++ c1 = all_kv ds).
  { intros Hlt. rewrite length_app in Hlt. unfold all_kv, c0, c1.
    rewrite (collect_short (M ds) (D0 ds) 0) by (fold c0; lia).
    rewrite (collect_short (M ds) (D1 ds) 0) by (fold c1; lia).
    reflexivity. }
  assert (Hle : (length (c0 ++ c1) <= length (all_kv ds))%nat).
  { apply NoDup_incl_length; [|exact Hcand].
    eapply NoDup_map_inv, Hcnd. }
  unfold pull in Hp. fold c0 c1 in Hp.
  destruct (c0 ++ c1) as [|x cs] eqn:Ec.
  { injection Hp as <- <- <-.
    assert (Ha : all_kv ds = []) by (symmetry; apply Hshort; simpl; lia).
    pose proof (coherent_size _ Hc) as Hs. rewrite Ha in Hs. simpl in Hs.
    split; [constructor|]. split; [simpl; lia|]. split; [simpl; lia|].
    split; [intros k []|auto]. }
  rewrite <- Ec in *. clear x cs Ec. cbv zeta in Hp.
  set (cand := c0 ++ c1) in *.
  set (srt := sort_by_value cand) in *.
  set (take := Z.to_nat (Z.min (M ds) (Z.of_nat (length srt)))) in *.
  injection Hp as Hk _ Hd.
  destruct (fold_removeKey_coherent keys ds Hc) as [_ Hrem].
  rewrite Hk in Hd. rewrite Hd in Hrem.
  assert (Hsrt : Permutation cand srt) by apply sort_by_value_perm.
  assert (Hkin : forall k, In k keys -> exists v, In (k, v) (all_kv ds)).
  { intros k Hin. rewrite <- Hk in Hin. apply in_map_iff in Hin.
    destruct Hin as ([k' v] & <- & Hin). exists v. apply Hcand.
    eapply Permutation_in; [apply Permutation_sym, Hsrt|].
    eapply In_firstn, Hin. }
  assert (Hnd : NoDup keys).
  { rewrite <- Hk, <- firstn_map. apply NoDup_firstn.
    eapply Permutation_NoDup; [apply Permutation_map, Hsrt | exact Hcnd]. }
  assert (Hlen : Z.of_nat (length keys) = Z.min (M ds) (size ds)).
  { rewrite <- Hk, length_map, length_firstn.
    assert (Hls : length srt = length cand)
      by (symmetry; apply Permutation_length, Hsrt).
    assert (Hx : forall n : nat,
              Z.of_nat (Nat.min (Z.to_nat (Z.min (M ds) (Z.of_nat n))) n)
              = Z.min (M ds) (Z.of_nat n)) by (intros; lia).
    unfold take. rewrite Hls, Hx, (coherent_size _ Hc).
    destruct (Z.lt_ge_cases (Z.of_nat (length cand)) (M ds)) as [Hlt|Hge].
    - now rewrite (Hshort Hlt).
    - apply Nat2Z.inj_le in Hle.
      rewrite Z.min_l by exact Hge. rewrite Z.min_l; [reflexivity|].
      eapply Z.le_trans; [exact Hge | exact Hle]. }
  assert (Hperm : Permutation (map fst (all_kv ds))
                    (keys ++ map fst (all_kv ds'))).
  { apply NoDup_Permutation.
    - apply (coh_keys _ Hc).
    - apply NoDup_app; [exact Hnd | apply (coh_keys _ Hc') |].
      intros k Hin Hin'. apply in_map_iff in Hin'.
      destruct Hin' as ([k' v] & <- & Hin'). apply Hrem in Hin'.
      now destruct Hin'.
    - intros k. rewrite in_app_iff. split.
      + intros Hin. destruct (In_dec Z.eq_dec k keys) as [Hy|Hn];
          [now left | right].
        apply in_map_iff in Hin. destruct Hin as ([k' v] & <- & Hin).
        apply in_map. apply Hrem. auto.
      + intros [Hin|Hin].
        * destruct (Hkin k Hin) as (v & Hv).
          change k with (fst (k, v)). now apply in_map.
        * apply in_map_iff in Hin. destruct Hin as ([k' v] & <- & Hin).
          apply in_map. now apply Hrem in Hin. }
  assert (Hgone : forall k, In k keys -> map_find k (key_values ds') = None).
  { intros k Hin.
    destruct (map_find k (key_values ds')) as [v'|] eqn:Ef; [|reflexivity].
    apply (coh_index _ Hc'), Hrem in Ef. simpl in Ef. tauto. }
  assert (Hkept : forall k, ~ In k keys ->
            map_find k (key_values ds') = map_find k (key_values ds)).
  { intros k Hn.
    destruct (map_find k (key_values ds)) as [v|] eqn:Ef.
    - apply (coh_index _ Hc'), Hrem. split; [|exact Hn].
      now apply (coh_index _ Hc).
    - destruct (map_find k (key_values ds')) as [v'|] eqn:Ef'; [|reflexivity].
      apply (coh_index _ Hc'), Hrem in Ef'. destruct Ef' as [Hin _].
      apply (coh_index _ Hc) in Hin. congruence. }
  split; [exact Hnd|]. split; [exact Hlen|]. split.
  { apply Permutation_length in Hperm.
    rewrite length_app, !length_map in Hperm.
    rewrite (coherent_size _ Hc), (coherent_size _ Hc').
    change (@length (Z * dist)) with (@length KeyValue) in Hperm. lia. }
  split.
  - intros k Hin. destruct (Hkin k Hin) as (v & Hv).
    split; [exists v; now apply (coh_index _ Hc)|].
    split; [now apply Hgone|]. unfold getValue. now rewrite Hgone.
  - intros k Hn. split; [now apply Hkept|].
    unfold getValue. now rewrite Hkept.
Qed.

(** ** The capacity of the blocks *)

Definition within (m : Z) (blk : Block) : Prop :=
  Z.of_nat (length (elements blk)) <= m.

Lemma erase_first_length (k : Z) (l l' : list KeyValue) :
  erase_first k l = Some l' -> length l = Datatypes.S (length l').
Proof.
  intros H. destruct (erase_first_Some _ _ _ H) as (v & Hp & _).
  apply Permutation_length in Hp. exact Hp.
Qed.

Lemma erase_in_blocks_within (m k : Z) (bs bs' : list Block) :
  erase_in_blocks k bs = Some bs' ->
  Forall (within m) bs -> Forall (within m) bs'.
Proof.
  revert bs'. induction bs as [|blk bs IH]; simpl; intros bs' H Hf;
    [discriminate|].
  apply Forall_cons_iff in Hf. destruct Hf as [Hb Hf].
  destruct (erase_first k (elements blk)) as [els|] eqn:E.
  - injection H as <-. constructor; [|exact Hf].
    apply erase_first_length in E. unfold within in *. simpl. lia.
  - destruct (erase_in_blocks k bs) as [r|]; [|discriminate].
    injection H as <-. constructor; auto.
Qed.

Lemma firstn_upd {A : Type} (l : list A) (i : nat) (a : A) :
  firstn i (upd l i a) = firstn i l.
Proof.
  revert i. induction l as [|x l IH]; intros [|i]; simpl; auto.
  now rewrite IH.
Qed.

Lemma skipn_upd {A : Type} (l : list A) (i : nat) (a : A) :
  skipn (Datatypes.S i) (upd l i a) = skipn (Datatypes.S i) l.
Proof.
  revert i. induction l as [|x l IH]; intros [|i]; simpl; auto.
  apply IH.
Qed.

Lemma Forall_firstn {A : Type} (P : A -> Prop) (n : nat) (l : list A) :
  Forall P l -> Forall P (firstn n l).
Proof.
  intros H. apply Forall_forall. intros x Hx.
  eapply Forall_forall in H; [exact H | eapply In_firstn; eauto].
Qed.

Lemma Forall_skipn {A : Type} (P : A -> Prop) (n : nat) (l : list A) :
  Forall P l -> Forall P (skipn n l).
Proof.
  intros H. apply Forall_forall. intros x Hx.
  eapply Forall_forall in H; [exact H | eapply In_skipn; eauto].
Qed.

Lemma Forall_split {A : Type} (P : A -> Prop) (pre post : list A) (a b : A) :
  Forall P pre -> P a -> P b -> Forall P post ->
  Forall P (pre ++ a :: b :: post).
Proof.
  intros H1 Ha Hb H2. apply Forall_app. split; [exact H1|].
  constructor; [exact Ha|]. constructor; [exact Hb | exact H2].
Qed.

Lemma within_mk (m : Z) (els : list KeyValue) (u : dist) :
  Z.of_nat (length els) <= m -> within m (mkBlock els u).
Proof. exact (fun H => H). Qed.

Lemma insert_fresh_within (ds ds' : t) (k : Z) (v : dist) :
  1 <= M ds -> Forall (within (M ds)) (D1 ds) ->
  insert_fresh ds k v = Ok ds' -> Forall (within (M ds')) (D1 ds').
Proof.
  intros HM Hf H. unfold insert_fresh in H. bind_inv H as i Ei.
  cbn [D1 M key_values] in H.
  unfold push_back_at in H.
  destruct (nth_error (D1 ds) i) as [blk|] eqn:Eb.
  2:{ rewrite Eb in H. discriminate. }
  assert (Hi : (i < length (D1 ds))%nat).
  { apply nth_error_Some. congruence. }
  rewrite (nth_error_upd_same _ _ _ Hi) in H. cbn [elements] in H.
  set (blk' := mkBlock (elements blk ++ [(k, v)]) (upper_bound blk)) in *.
  assert (Hblk : within (M ds) blk).
  { eapply Forall_forall in Hf; [exact Hf | eapply nth_error_In; eauto]. }
  unfold within in Hblk.
  assert (Hlen : length (elements blk ++ [(k, v)])
                 = Datatypes.S (length (elements blk))).
  { rewrite length_app. simpl. lia. }
  match type of H with (if ?c then _ else _) = _ => destruct c eqn:Et end;
    [apply Z.ltb_lt in Et | apply Z.ltb_ge in Et].
  - unfold splitBlock in H. cbn [D1 M B N D0 key_values d1_upper_bounds] in H.
    rewrite (nth_error_upd_same _ _ _ Hi) in H. cbn [elements] in H.
    match type of H with (if ?c then _ else _) = _ => destruct c eqn:Ec end.
    { apply Z.leb_le in Ec. unfold KeyValue in *. lia. }
    cbv zeta in H.
    remember (firstn (_ / 2)%nat _) as f1 eqn:Ef1 in H.
    remember (skipn (_ / 2)%nat _) as f2 eqn:Ef2 in H.
    match type of H with
    | match ?d with O => _ | Datatypes.S _ => _ end = _ =>
        destruct d as [|mid1] eqn:Emid
    end; [discriminate|].
    match type of H with
    | match ?d with Some _ => _ | None => _ end = _ => destruct d
    end; [|discriminate].
    injection H as <-.
    match type of Emid with
    | (?n / 2)%nat = _ =>
        pose proof (Nat.div_mod_eq n 2) as Hdm;
        pose proof (Nat.mod_upper_bound n 2 ltac:(lia)) as Hmu
    end.
    rewrite Emid in Hdm.
    pose proof (sort_by_value_length (elements blk ++ [(k, v)])) as Hsl.
    unfold KeyValue in *.
    apply Forall_split.
    + rewrite firstn_upd. now apply Forall_firstn.
    + apply within_mk. rewrite Ef1, length_firstn. cbn [M]. lia.
    + apply within_mk. rewrite Ef2, length_skipn. cbn [M]. lia.
    + change (Forall (within (M ds))
                (skipn (Datatypes.S i) (upd (D1 ds) i blk'))).
      rewrite skipn_upd. now apply Forall_skipn.
  - injection H as <-. cbn [M D1].
    rewrite (upd_split_at _ _ _ _ Eb).
    apply Forall_app. split; [now apply Forall_firstn|].
    constructor; [|now apply Forall_skipn].
    unfold within. cbn [elements blk']. exact Et.
Qed.


Lemma removeKey_within_all (ds : t) (k : Z) :
  Forall (within (M ds)) (D0 ds ++ D1 ds) ->
  Forall (within (M (removeKey ds k)))
         (D0 (removeKey ds k) ++ D1 (removeKey ds k)).
Proof.
  intros Hf. apply Forall_app in Hf. destruct Hf as [H0 H1].
  unfold removeKey.
  destruct (map_find k (key_values ds)); [|apply Forall_app; auto].
  destruct (erase_in_blocks k (D0 ds)) as [d0|] eqn:E0.
  { cbn [M D0 D1]. apply Forall_app. split; [|exact H1].
    eapply erase_in_blocks_within; eauto. }
  destruct (erase_in_blocks k (D1 ds)) as [d1|] eqn:E1.
  { cbn [M D0 D1]. apply Forall_app. split; [exact H0|].
    eapply erase_in_blocks_within; eauto. }
  cbn [M D0 D1]. apply Forall_app. auto.
Qed.

Lemma fold_removeKey_within_all (keys : list Z) :
  forall ds, Forall (within (M ds)) (D0 ds ++ D1 ds) ->
  Forall (within (M (fold_left removeKey keys ds)))
         (D0 (fold_left removeKey keys ds)
            ++ D1 (fold_left removeKey keys ds)).
Proof.
  induction keys as [|k keys IH]; intros ds Hf; simpl; [exact Hf|].
  apply IH, removeKey_within_all, Hf.
Qed.

Lemma insert_within_all (ds ds' : t) (k : Z) (v : dist) :
  1 <= M ds -> Forall (within (M ds)) (D0 ds ++ D1 ds) ->
  insert ds k v = Ok ds' -> Forall (within (M ds')) (D0 ds' ++ D1 ds').
Proof.
  intros HM Hf H.
  assert (Hfresh : forall d d', 1 <= M d ->
            Forall (within (M d)) (D0 d ++ D1 d) ->
            insert_fresh d k v = Ok d' ->
            Forall (within (M d')) (D0 d' ++ D1 d')).
  { intros d d' HMd Hd Hi. apply Forall_app in Hd. destruct Hd as [H0 H1].
    pose proof (insert_fresh_within d d' k v HMd H1 Hi) as H1'.
    destruct (insert_fresh_Ok _ _ _ _ Hi) as (HM' & _ & HD0 & _).
    apply Forall_app. split; [|exact H1']. now rewrite HM', HD0. }
  unfold insert in H. destruct (map_find k (key_values ds)) as [old|].
  - destruct (dlt v old).
    + eapply Hfresh; [| |exact H].
      * destruct (removeKey_keeps ds k) as (-> & _). exact HM.
      * now apply removeKey_within_all.
    + now injection H as <-.
  - eapply Hfresh; eauto.
Qed.

Lemma check_existing_within (l : list KeyValue) :
  forall ds ta ds1 ta1,
    Forall (within (M ds)) (D0 ds ++ D1 ds) ->
    fold_left check_existing l (ds, ta) = (ds1, ta1) ->
    Forall (within (M ds1)) (D0 ds1 ++ D1 ds1).
Proof.
  induction l as [|[k v] l IH]; intros ds ta ds1 ta1 Hf H;
    cbn [fold_left] in H.
  - now injection H as <- _.
  - unfold check_existing at 2 in H. cbn [fst snd] in H.
    destruct (map_find k (key_values ds)) as [old|].
    + destruct (dlt v old); [|eauto].
      eapply IH; [|exact H]. cbn [set_key M D0 D1].
      now apply removeKey_within_all.
    + eapply IH; [|exact H]. exact Hf.
Qed.

Lemma make_blocks_within (m : Z) (fuel : nat) (per_block : Z) :
  0 <= m -> per_block <= m ->
  forall rest bs,
    make_blocks fuel per_block rest = Ok bs -> Forall (within m) bs.
Proof.
  intros Hm Hp. induction fuel as [|f IH]; intros rest bs H;
    destruct rest as [|x rest]; cbn [make_blocks] in H; try discriminate.
  - injection H as <-. constructor.
  - injection H as <-. constructor.
  - bind_inv H as bs' E. injection H as <-. constructor; [|eauto].
    unfold within. cbn [elements]. rewrite length_firstn.
    apply Z.le_trans with (Z.of_nat (Z.to_nat per_block));
      [apply Nat2Z.inj_le, Nat.le_min_l | lia].
Qed.

Lemma per_block_bound (L M0 half nb pb : Z) :
  1 <= L -> int_div M0 2 = Ok half -> int_div (L + half - 1) half = Ok nb ->
  int_div (L + nb - 1) nb = Ok pb -> M0 < L -> 1 <= M0 -> pb <= M0.
Proof.
  unfold int_div. intros HL Hh Hn Hp HLM HM.
  change (2 =? 0) with false in Hh. injection Hh as <-.
  assert (E1 : Z.quot M0 2 = M0 / 2) by (apply Z.quot_div_nonneg; lia).
  rewrite E1 in *. clear E1.
  pose proof (Z.div_pos M0 2 ltac:(lia) ltac:(lia)) as Hh0.
  assert (Hh2 : M0 / 2 <= M0) by (apply Z.div_le_upper_bound; lia).
  set (h := M0 / 2) in *.
  destruct (Z.eqb_spec h 0) as [|Hh1]; [discriminate|].
  injection Hn as <-.
  assert (E2 : Z.quot (L + h - 1) h = (L + h - 1) / h)
    by (apply Z.quot_div_nonneg; lia).
  rewrite E2 in *. clear E2.
  pose proof (Z.div_mod (L + h - 1) h ltac:(lia)) as Hdm.
  pose proof (Z.mod_pos_bound (L + h - 1) h ltac:(lia)) as Hmb.
  pose proof (Z.div_pos (L + h - 1) h ltac:(lia) ltac:(lia)) as Hn0.
  set (n0 := (L + h - 1) / h) in *.
  destruct (Z.eqb_spec n0 0) as [|Hn1]; [discriminate|].
  injection Hp as <-.
  assert (E3 : Z.quot (L + n0 - 1) n0 = (L + n0 - 1) / n0)
    by (apply Z.quot_div_nonneg; lia).
  rewrite E3.
  assert (Hpb : (L + n0 - 1) / n0 < h + 1).
  { apply Z.div_lt_upper_bound; [lia|]. nia. }
  lia.
Qed.

Lemma batchPrepend_within (ds ds' : t) (items : list KeyValue) :
  1 <= M ds -> Forall (within (M ds)) (D0 ds ++ D1 ds) ->
  batchPrepend ds items = Ok ds' -> Forall (within (M ds')) (D0 ds' ++ D1 ds').
Proof.
  intros HM Hf H. unfold batchPrepend in H.
  destruct items as [|it items]; [now injection H as <-|].
  set (its := it :: items) in *.
  destruct (fold_left check_existing (unique_items its) (ds, []))
    as [ds1 ta0] eqn:Ef.
  pose proof (check_existing_within _ _ _ _ _ Hf Ef) as Hf1.
  destruct (check_existing_fold _ _ _ _ _ Ef) as (HM1 & _).
  destruct ta0 as [|a0 ta0]; [now injection H as <-|].
  set (ta := sort_by_value (a0 :: ta0)) in *.
  destruct (Z.leb_spec (Z.of_nat (length ta)) (M ds1)) as [Hle|Hgt].
  - injection H as <-. cbn [M D0 D1]. constructor; [|exact Hf1].
    unfold within. cbn [elements]. exact Hle.
  - bind_inv H as half Eh. bind_inv H as nb En. bind_inv H as pb Ep.
    bind_inv H as nbs Em. injection H as <-. cbn [M D0 D1].
    rewrite <- app_assoc. apply Forall_app. split; [|exact Hf1].
    eapply make_blocks_within; [lia | |exact Em].
    eapply (per_block_bound (Z.of_nat (length ta))); eauto; lia.
Qed.

(** X7: in a workspace reached by [initialize], [insert], [batchPrepend]
    and [pull], no block holds more than [M] elements. *)
Theorem blocks_within_capacity (m : Z) (b : dist) (ds : t) :
  operated m b ds ->
  forall blk, In blk (D0 ds ++ D1 ds) ->
              Z.of_nat (length (elements blk)) <= M ds.
Proof.
  intros Ho.
  assert (H : Forall (within (M ds)) (D0 ds ++ D1 ds)).
  { induction Ho as [ds0 max_n|ds k v ds' Ho IH Hins
                     |ds items ds' Ho IH Hb
                     |ds [keys sep] ds' Ho IH Hp].
    - constructor; [|constructor]. unfold within. simpl. lia.
    - destruct (operated_coherent _ _ _ Ho) as (Hc & _).
      eapply insert_within_all; [apply (coh_M _ Hc) | exact IH | exact Hins].
    - destruct (operated_coherent _ _ _ Ho) as (Hc & _).
      eapply batchPrepend_within; [apply (coh_M _ Hc) | exact IH | exact Hb].
    - unfold pull in Hp.
      destruct (collect (M ds) 0 (D0 ds) ++ collect (M ds) 0 (D1 ds));
        [now injection Hp as _ _ <-|].
      injection Hp as _ _ <-. now apply fold_removeKey_within_all. }
  intros blk Hin. eapply Forall_forall in H; [exact H | exact Hin].
Qed.

End CoherenceFacts.

(** * What a returned result says *)

Module ResultFacts.

Import BlockDataStructure NewSSSP SolverFacts.

(** ** An empty frontier *)

Lemma findPivots_rounds_empty (sv : Solver) (rounds : nat) (B : dist)
    (st : State) :
  findPivots_rounds sv rounds B [] st [] [] = Ok (st, [], false).
Proof.
  induction rounds as [|r IH]; [reflexivity|].
  cbn [findPivots_rounds foldM bind set_union fold_left].
  unfold int_mul, set_size. cbn [length Z.of_nat].
  rewrite Z.mul_0_r. cbn. exact IH.
Qed.

Lemma findPivots_empty (sv : Solver) (fuel : nat) (B : dist) (st : State) :
  findPivots sv fuel B [] st = Ok (([], []), st).
Proof.
  unfold findPivots. rewrite findPivots_rounds_empty. reflexivity.
Qed.

(** X8: with no frontier vertex, [findPivots] finds no pivot and [BMSSP]
    returns the bound it was given and no vertex, at every level, and the
    state of the solver is left as it was. *)
Theorem BMSSP_empty_frontier (sv : Solver) (fuel : nat) (level : Z)
    (B : dist) (st : State) :
  findPivots sv fuel B [] st = Ok (([], []), st) /\
  BMSSP sv (Datatypes.S fuel) level B [] st = Ok ((B, []), st).
Proof.
  split; [apply findPivots_empty|].
  cbn [BMSSP]. destruct (level =? 0); [reflexivity|].
  rewrite findPivots_empty. reflexivity.
Qed.

(** ** A source that is not a vertex *)

(** X9: [solve] on a source outside [0, n) is undefined: it writes
    [d_hat[source]] without a check. *)
Theorem solve_source_out_of_range (sv : Solver) (fuel : nat) (s : Z) :
  s < 0 \/ n sv <= s -> solve sv fuel s = Undefined.
Proof.
  intros Hs. unfold solve, solve_state, init_state.
  destruct (n sv <? 0) eqn:En; [reflexivity|]. apply Z.ltb_ge in En.
  unfold vset at 1.
  assert (Hr : in_range (repeat INF (Z.to_nat (n sv))) s = false).
  { unfold in_range. rewrite repeat_length.
    destruct (Z.leb_spec 0 s); [|reflexivity].
    destruct (Z.ltb_spec s (Z.of_nat (Z.to_nat (n sv)))); [lia|reflexivity]. }
  rewrite Hr. reflexivity.
Qed.

Section Result.

Variable sv : Solver.

(** ** Walks and their weights *)

(** A walk from [s] and the exact sum of its weights. *)
Inductive walk (s : Z) : Z -> Z -> Prop :=
| walk_nil : walk s s 0
| walk_cons u v z w :
    walk s u z -> edge sv u v (Fin w) -> walk s v (z + w).

(** A walk from [s] and the sum of its weights as the solver computes
    it: in doubles, one arc after the other from the source on. *)
Inductive dwalk (s : Z) : Z -> Z -> Prop :=
| dwalk_nil : dwalk s s 0
| dwalk_cons u v z w z' :
    dwalk s u z -> edge sv u v w -> dadd (Fin z) w = Fin z' ->
    dwalk s v z'.

Lemma dwalk_double (s v z : Z) :
  nonneg_weights sv -> dwalk s v z -> 0 <= z /\ round_double z = z.
Proof.
  intros Hw. induction 1 as [|u v z w z' _ [IH0 IH1] He Hd].
  - split; [lia | reflexivity].
  - destruct (Hw _ _ _ He) as (c & -> & Hc).
    split; [eapply dadd_nonneg; [|exact Hd]; lia|].
    eapply dadd_rounded; eauto.
Qed.

(** A sum in doubles that stays below [2^53] is the exact sum. *)
Lemma dwalk_exact (s v z : Z) :
  nonneg_weights sv -> dwalk s v z -> z < 2 ^ 53 -> walk s v z.
Proof.
  intros Hw. induction 1 as [|u v z w z' Hwk IH He Hd]; intros Hz.
  - apply walk_nil.
  - destruct (Hw _ _ _ He) as (c & -> & Hc).
    destruct (dwalk_double _ _ _ Hw Hwk) as [Hz0 Hzr].
    pose proof (dadd_small z c z' ltac:(lia) Hd Hz) as ->.
    eapply walk_cons; [apply IH; lia | exact He].
Qed.

(** An exact sum below [2^53] is also the sum in doubles. *)
Lemma walk_dwalk (s v z : Z) :
  nonneg_weights sv -> walk s v z -> z < 2 ^ 53 -> 0 <= z /\ dwalk s v z.
Proof.
  intros Hw. induction 1 as [|u v z w Hwk IH He]; intros Hz.
  - split; [lia | apply dwalk_nil].
  - destruct (Hw _ _ _ He) as (c & Ec & Hc). injection Ec as <-.
    assert (Hnn : forall a b, walk s a b -> 0 <= b).
    { induction 1 as [|a1 a2 b c' _ IH' He'']; [lia|].
      destruct (Hw _ _ _ He'') as (c1 & Ec1 & Hc1). injection Ec1 as <-.
      lia. }
    pose proof (Hnn _ _ Hwk) as Hz0.
    destruct (IH ltac:(lia)) as [_ IHd].
    split; [lia|]. eapply dwalk_cons; [exact IHd | exact He|].
    apply dadd_exact. rewrite Z.abs_eq; lia.
Qed.

(** The invariant of the relaxations: every finite estimate is the sum in
    doubles of a walk from the source, every predecessor entry names an
    arc that the estimates respect, and every vertex with a finite
    estimate other than the source has a predecessor. *)
Record linked (s : Z) (st : State) : Prop := mkLinked {
  linked_len : length (d_hat st) = Z.to_nat (n sv);
  linked_len_pred : length (pred st) = Z.to_nat (n sv);
  linked_walk : forall v z, vget (d_hat st) v = Ok (Fin z) -> dwalk s v z;
  linked_arc : forall v u, vget (pred st) v = Ok u -> u <> -1 ->
    exists w zu dv,
      edge sv u v w /\ vget (d_hat st) u = Ok (Fin zu) /\
      vget (d_hat st) v = Ok dv /\ dle (dadd (Fin zu) w) dv = true;
  linked_has_pred : forall v z, vget (d_hat st) v = Ok (Fin z) -> v <> s ->
    exists u, vget (pred st) v = Ok u /\ 0 <= u
}.

Lemma step_linked (s : Z) (st st' : State) :
  step sv st st' -> linked s st -> linked s st'.
Proof.
  intros Hs [Hl Hlp Hwalk Harc Hhas].
  destruct Hs as [st|st v st' Hc|st u v w zu dv st' He Hu Hv Hle Hr].
  - constructor; assumption.
  - apply set_complete_Ok in Hc. destruct Hc as (Ed & Epr & _).
    constructor; rewrite ?Ed, ?Epr; assumption.
  - apply write_relax_Ok in Hr.
    destruct Hr as (du & old & du' & pr & Hu' & Hv' & _ & Hpr & ->).
    rewrite Hu in Hu'. injection Hu' as <-.
    rewrite Hv in Hv'. injection Hv' as <-.
    apply vset_Ok in Hpr. destruct Hpr as [Hrp ->].
    assert (Hr : 0 <= v < Z.of_nat (length (d_hat st))).
    { apply vget_Ok in Hv. tauto. }
    assert (Hu0 : 0 <= u) by (apply vget_Ok in Hu; lia).
    constructor; cbn [d_hat pred].
    + rewrite length_upd. exact Hl.
    + rewrite length_upd. exact Hlp.
    + intros x z Hx. destruct (Z.eq_dec v x) as [->|Hne].
      * rewrite vget_upd_same in Hx by exact Hr. injection Hx as Hx.
        eapply dwalk_cons; eauto.
      * rewrite vget_upd_other in Hx by lia. auto.
    + intros x p Hx Hp. destruct (Z.eq_dec v x) as [->|Hvx].
      * rewrite vget_upd_same in Hx by exact Hrp. injection Hx as <-.
        exists w. rewrite (vget_upd_same _ x) by exact Hr.
        destruct (Z.eq_dec x u) as [->|Hxu].
        -- rewrite Hu in Hv. injection Hv as <-.
           destruct (dadd (Fin zu) w) as [z'|] eqn:Ez; [|discriminate].
           exists z', (Fin z').
           rewrite vget_upd_same by exact Hr.
           split; [exact He|]. split; [reflexivity|].
           split; [reflexivity|]. rewrite <- Ez at 2.
           apply dadd_mono, Hle.
        -- rewrite vget_upd_other by lia.
           exists zu, (dadd (Fin zu) w).
           split; [exact He|]. split; [exact Hu|].
           split; [reflexivity | apply dle_refl].
      * rewrite vget_upd_other in Hx by lia.
        destruct (Harc _ _ Hx Hp) as (w1 & z1 & d1 & He1 & Hp1 & Hx1 & Hle1).
        exists w1. rewrite (vget_upd_other _ v x) by lia.
        destruct (Z.eq_dec v p) as [->|Hvp].
        -- rewrite vget_upd_same by exact Hr.
           rewrite Hp1 in Hv. injection Hv as <-.
           destruct (dadd (Fin zu) w) as [z'|] eqn:Ez; [|discriminate].
           exists z', d1. split; [exact He1|]. split; [reflexivity|].
           split; [exact Hx1|].
           eapply dle_trans; [apply dadd_mono, Hle | exact Hle1].
        -- rewrite vget_upd_other by lia. exists z1, d1. auto.
    + intros x z Hx Hne. destruct (Z.eq_dec v x) as [->|Hvx].
      * exists u. split; [apply vget_upd_same; exact Hrp | exact Hu0].
      * rewrite vget_upd_other in Hx by lia.
        rewrite vget_upd_other by lia. eauto.
Qed.

Lemma steps_linked (s : Z) (st st' : State) :
  steps sv st st' -> linked s st -> linked s st'.
Proof. induction 1; eauto using step_linked. Qed.

Lemma init_state_linked (s : Z) (st0 : State) :
  init_state sv s = Ok st0 -> linked s st0.
Proof.
  intros E0. pose proof (init_state_Ok _ _ _ E0) as (Hr & Hd & Hp & _).
  assert (Hs : 0 <= s < Z.of_nat (length (repeat INF (Z.to_nat (n sv))))).
  { rewrite repeat_length. lia. }
  assert (Hfin : forall v z, vget (d_hat st0) v = Ok (Fin z) ->
                             v = s /\ z = 0).
  { intros v z Hv. rewrite Hd in Hv. destruct (Z.eq_dec s v) as [->|Hne].
    - rewrite vget_upd_same in Hv by exact Hs. injection Hv as <-. auto.
    - rewrite vget_upd_other in Hv by lia.
      apply vget_repeat in Hv. discriminate. }
  constructor.
  - rewrite Hd, length_upd, repeat_length. reflexivity.
  - rewrite Hp. apply repeat_length.
  - intros v z Hv. destruct (Hfin _ _ Hv) as [-> ->]. apply dwalk_nil.
  - intros v u Hv Hne. rewrite Hp in Hv. apply vget_repeat in Hv.
    contradiction.
  - intros v z Hv Hne. destruct (Hfin _ _ Hv) as [-> _]. contradiction.
Qed.

Lemma solve_state_linked (fuel : nat) (s : Z) (st : State) :
  solve_state sv fuel s = Ok st -> 0 <= s < n sv /\ linked s st.
Proof.
  intros H. destruct (solve_state_steps _ _ _ _ H) as (st0 & E0 & Hs).
  split; [apply (init_state_Ok _ _ _ E0)|].
  eapply steps_linked; eauto using init_state_linked.
Qed.

End Result.



(** ** Pivots *)

Lemma findPivots_rounds_grows (sv : Solver) (rounds : nat) (B : dist)
    (S : IntSet) :
  forall st W Wi_prev st' W' early,
    findPivots_rounds sv rounds B S st W Wi_prev = Ok (st', W', early) ->
    incl W W'.
Proof.
  induction rounds as [|r IH]; intros st W Wp st' W' early Hr;
    simpl in Hr.
  - injection Hr as _ <- _. apply incl_refl.
  - bind_inv Hr as [st1 Wi] Ef. bind_inv Hr as ks Ek.
    assert (Hu : incl W (set_union W Wi)).
    { intros x Hx. apply set_union_In. now left. }
    destruct (ks <? set_size (set_union W Wi)).
    + injection Hr as _ <- _. exact Hu.
    + apply IH in Hr. intros x Hx. apply Hr, Hu, Hx.
Qed.

(** X12: the pivots that [findPivots] returns are frontier vertices, the
    frontier is part of the returned set [W], and a frontier that is not
    empty has at least one pivot. *)
Theorem findPivots_frontier (sv : Solver) (fuel : nat) (B : dist)
    (S : IntSet) (st st' : State) (P W : IntSet) :
  findPivots sv fuel B S st = Ok ((P, W), st') ->
  incl P S /\ incl S W /\ (S <> [] -> P <> []).
Proof.
  intros Hr. unfold findPivots in Hr.
  bind_inv Hr as [[st1 W1] early] Er.
  pose proof (findPivots_rounds_grows _ _ _ _ _ _ _ _ _ _ Er) as HW.
  destruct early.
  - injection Hr as <- <- <-. split; [apply incl_refl|]. split; auto.
  - bind_inv Hr as [children parent] Eb. bind_inv Hr as sub Es.
    bind_inv Hr as st2 Ec. injection Hr as <- <- <-.
    set (P0 := filter (fun u => k sv <=? subtree_size_of sub u) S).
    assert (H0 : incl P0 S) by (intros x Hx; apply filter_In in Hx; tauto).
    split; [|split; [exact HW|]].
    + destruct P0 as [|p P0]; [|exact H0].
      destruct S as [|x S]; [apply incl_refl|].
      intros y [<-|[]]. now left.
    + intros Hne. destruct P0 as [|p P0]; [|discriminate].
      destruct S as [|x S]; [contradiction | discriminate].
Qed.

(** ** Arcs of weight zero *)

(** X13: on a graph of non-negative weights [computeNewSSSP] returns no
    result when a closed walk of weight zero passes through the source,
    or when at least [k + 1] vertices are at distance zero from the
    source: for every amount of fuel the run is undefined or has not
    ended. *)
Theorem solve_zero_weights_no_result (g : SimpleGraph.t) (s : Z) :
  nonneg_weights (create g) ->
  (zero_cycle (create g) s \/
   exists l, NoDup l /\ k (create g) + 1 <= Z.of_nat (length l) /\
             forall v, In v l -> zreach (create g) s v) ->
  forall fuel,
    computeNewSSSP fuel g s = Undefined \/
    computeNewSSSP fuel g s = OutOfFuel.
Proof.
  intros Hw Hz fuel.
  assert (Hno : forall st, solve_state (create g) fuel s <> Ok st).
  { intros st. destruct Hz as [Hz|(l & Hnd & Hlen & Hl)].
    - apply (solve_zero_cycle (create g) s Hw Hz fuel st
               (max_level_create g)).
    - apply (solve_zero_chain (create g) s Hw l Hnd Hlen Hl fuel st
               (max_level_create g)). }
  unfold computeNewSSSP, solve.
  destruct (solve_state (create g) fuel s) as [st| |] eqn:E; auto.
  elim (Hno st). reflexivity.
Qed.

End ResultFacts.

(** * The reference solver *)

Module DijkstraFacts.

Import NewSSSP SolverFacts ResultFacts SimpleDijkstra.

Section Reference.

Variable g : SimpleGraph.t.
Variable s : Z.

Hypothesis Hg : BaseCaseFacts.graph_ok (create g).
Hypothesis Hw : nonneg_weights (create g).

(** A vertex is settled when no arc out of it can lower a distance. *)
Definition settled (d : list dist) (u zu : Z) : Prop :=
  forall v w, edge (create g) u v w ->
    exists dv, vget d v = Ok dv /\ dle dv (dadd (Fin zu) w) = true.

Definition custody (P : Z -> Prop) (r : Result) (pq : list PQEntry) : Prop :=
  forall u zu, vget (distances r) u = Ok (Fin zu) -> P u ->
    In (Fin zu, u) pq \/ settled (distances r) u zu.

Record base (r : Result) (pq : list PQEntry) : Prop := mkBase {
  base_len : Z.of_nat (length (distances r)) = SimpleGraph.n g;
  base_len_pred : Z.of_nat (length (predecessors r)) = SimpleGraph.n g;
  base_source : source r = s;
  base_zero : vget (distances r) s = Ok (Fin 0);
  base_root : vget (predecessors r) s = Ok (-1);
  base_walk : forall v z,
    vget (distances r) v = Ok (Fin z) -> dwalk (create g) s v z;
  base_heap : forall dd u, In (dd, u) pq ->
    exists zu, vget (distances r) u = Ok (Fin zu);
  base_arc : forall v u, vget (predecessors r) v = Ok u -> u <> -1 ->
    exists w zu dv,
      edge (create g) u v w /\ vget (distances r) u = Ok (Fin zu) /\
      vget (distances r) v = Ok dv /\ dle (dadd (Fin zu) w) dv = true;
  base_has_pred : forall v z,
    vget (distances r) v = Ok (Fin z) -> v <> s ->
    exists u, vget (predecessors r) v = Ok u /\ 0 <= u;
  base_no_pred : forall v,
    vget (distances r) v = Ok INF -> vget (predecessors r) v = Ok (-1)
}.

Definition inv (r : Result) (pq : list PQEntry) : Prop :=
  base r pq /\ custody (fun _ => True) r pq.

(** The state in the middle of the visit of [u]: the arcs [done] have been
    relaxed. *)
Definition mid (u zu : Z) (done : list (Z * dist)) (r : Result)
    (pq : list PQEntry) : Prop :=
  base r pq /\ custody (fun x => x <> u) r pq /\
  vget (distances r) u = Ok (Fin zu) /\
  forall v w, In (v, w) done ->
    exists dv, vget (distances r) v = Ok dv /\
               dle dv (dadd (Fin zu) w) = true.

(** ** The measure of the loop *)

Fixpoint sumfin (l : list dist) : nat :=
  match l with
  | [] => 0
  | Fin z :: l' => (Z.to_nat z + sumfin l')%nat
  | Inf :: l' => sumfin l'
  end.

Lemma sumfin_upd (l : list dist) (i : nat) (zo z : Z) :
  nth_error l i = Some (Fin zo) -> 0 <= z < zo ->
  (sumfin (upd l i (Fin z)) < sumfin l)%nat.
Proof.
  revert i. induction l as [|y l IH]; intros [|i] H Hz; simpl in H;
    try discriminate.
  - injection H as ->. simpl. lia.
  - specialize (IH i H Hz). simpl. destruct y; lia.
Qed.

Definition weight (r : Result) : nat * nat :=
  (BaseCaseFacts.ninf (distances r), sumfin (distances r)).

Definition lt2 (a b : nat * nat) : Prop :=
  (fst a < fst b)%nat \/ (fst a = fst b /\ (snd a < snd b)%nat).

Definition progress (r : Result) (pq : list PQEntry) (r' : Result)
    (pq' : list PQEntry) : Prop :=
  (r' = r /\ pq' = pq) \/ lt2 (weight r') (weight r).

Lemma lt2_trans (a b c : nat * nat) : lt2 a b -> lt2 b c -> lt2 a c.
Proof. unfold lt2. lia. Qed.

(** ** One relaxation *)

Lemma relax_mid (u zu : Z) (done : list (Z * dist)) (r : Result)
    (pq : list PQEntry) (v : Z) (w : dist) :
  edge (create g) u v w -> mid u zu done r pq ->
  exists r' pq',
    relax u (r, pq) (v, w) = Ok (r', pq') /\
    mid u zu (done ++ [(v, w)]) r' pq' /\
    ((r' = r /\ pq' = pq) \/ lt2 (weight r') (weight r)).
Proof.
  intros He (Hb & Hc & Hu & Hd).
  destruct Hb as [Hl Hlp Hsrc Hzero Hroot Hwalk Hheap Harc Hhas Hno].
  destruct (Hw _ _ _ He) as (zw & -> & Hzw).
  pose proof (proj2 Hg _ _ _ He) as Hv. cbn [create n] in Hv.
  destruct (vget_in_range (distances r) v) as [dv Hdv]; [lia|].
  destruct (dwalk_double _ _ _ _ Hw (Hwalk _ _ Hu)) as [Hzu Hzur].
  unfold relax. rewrite Hu, Hdv. cbn [bind].
  destruct (dlt (dadd (Fin zu) (Fin zw)) dv) eqn:Hlt.
  - (* the distance of [v] is lowered *)
    pose proof (dadd_ge zu zw Hzur Hzw) as Hge.
    destruct (dadd (Fin zu) (Fin zw)) as [nz|] eqn:Ez; [|discriminate].
    simpl in Hge. apply Z.leb_le in Hge.
    assert (Hvu : v <> u).
    { intros ->. rewrite Hu in Hdv. injection Hdv as <-. simpl in Hlt.
      apply Z.ltb_lt in Hlt. lia. }
    assert (Hvs : v <> s).
    { intros ->. rewrite Hzero in Hdv. injection Hdv as <-. simpl in Hlt.
      apply Z.ltb_lt in Hlt. lia. }
    assert (Hrv : 0 <= v < Z.of_nat (length (distances r))) by lia.
    assert (Hrp : 0 <= v < Z.of_nat (length (predecessors r))) by lia.
    unfold vset. rewrite (proj2 (in_range_iff _ _) Hrv),
                         (proj2 (in_range_iff _ _) Hrp). cbn [bind].
    eexists _, _. split; [reflexivity|].
    assert (Hold : forall x a, vget (distances r) x = Ok a ->
              exists a', vget (upd (distances r) (Z.to_nat v)
                                   (Fin nz)) x = Ok a' /\
                         dle a' a = true /\ (x <> v -> a' = a)).
    { intros x a Hx. destruct (Z.eq_dec v x) as [<-|Hne].
      - rewrite vget_upd_same by exact Hrv. eexists. split; [reflexivity|].
        rewrite Hdv in Hx. injection Hx as <-.
        split; [now apply dlt_dle | congruence].
      - rewrite vget_upd_other by lia. exists a.
        split; [exact Hx|]. split; [apply dle_refl | auto]. }
    split; [|right].
    + split; [|split; [|split]].
      * constructor; cbn [distances predecessors source].
        -- now rewrite length_upd.
        -- now rewrite length_upd.
        -- exact Hsrc.
        -- rewrite vget_upd_other by lia. exact Hzero.
        -- rewrite vget_upd_other by lia. exact Hroot.
        -- intros x z Hx. destruct (Z.eq_dec v x) as [<-|Hne].
           ++ rewrite vget_upd_same in Hx by exact Hrv. injection Hx as <-.
              eapply dwalk_cons; eauto.
           ++ rewrite vget_upd_other in Hx by lia. auto.
        -- intros dd x Hin. apply pq_push_In in Hin.
           destruct Hin as [Heq|Hin].
           ++ injection Heq as _ ->. exists nz.
              apply vget_upd_same. exact Hrv.
           ++ destruct (Hheap _ _ Hin) as (zx & Hx).
              destruct (Hold _ _ Hx) as (a' & Ha' & Hle & _).
              destruct a' as [z'|]; [eauto | discriminate].
        -- intros x p Hx Hp. destruct (Z.eq_dec v x) as [<-|Hne].
           ++ rewrite vget_upd_same in Hx by exact Hrp. injection Hx as <-.
              exists (Fin zw), zu, (Fin nz).
              split; [exact He|].
              split; [rewrite vget_upd_other by lia; exact Hu|].
              split; [apply vget_upd_same; exact Hrv|].
              rewrite Ez. apply dle_refl.
           ++ rewrite vget_upd_other in Hx by lia.
              destruct (Harc _ _ Hx Hp)
                as (w1 & z1 & d1 & He1 & Hp1 & Hx1 & Hle1).
              destruct (Hold _ _ Hp1) as (a' & Ha' & Hle' & _).
              destruct a' as [z'|]; [|discriminate].
              exists w1, z', d1. split; [exact He1|]. split; [exact Ha'|].
              split; [rewrite vget_upd_other by lia; exact Hx1|].
              eapply dle_trans; [apply dadd_mono, Hle' | exact Hle1].
        -- intros x z Hx Hne. destruct (Z.eq_dec v x) as [<-|Hvx].
           ++ exists u. split; [apply vget_upd_same; exact Hrp|].
              apply vget_Ok in Hu. lia.
           ++ rewrite vget_upd_other in Hx by lia.
              rewrite vget_upd_other by lia. eauto.
        -- intros x Hx. destruct (Z.eq_dec v x) as [<-|Hvx].
           ++ rewrite vget_upd_same in Hx by exact Hrv. discriminate.
           ++ rewrite vget_upd_other in Hx by lia.
              rewrite vget_upd_other by lia. auto.
      * intros x zx Hx Hxu. cbn [distances] in *.
        destruct (Z.eq_dec v x) as [<-|Hne].
        -- rewrite vget_upd_same in Hx by exact Hrv. injection Hx as <-.
           left. apply pq_push_In. now left.
        -- rewrite vget_upd_other in Hx by lia.
           destruct (Hc _ _ Hx Hxu) as [Hin|Hset].
           ++ left. apply pq_push_In. now right.
           ++ right. intros y wy Hy.
              destruct (Hset _ _ Hy) as (dy & Hdy & Hle).
              destruct (Hold _ _ Hdy) as (a' & Ha' & Hle' & _).
              exists a'. split; [exact Ha' | eapply dle_trans; eauto].
      * cbn [distances]. rewrite vget_upd_other by lia. exact Hu.
      * intros y wy Hin. cbn [distances]. apply in_app_or in Hin.
        destruct Hin as [Hin|[Heq|[]]].
        -- destruct (Hd _ _ Hin) as (dy & Hdy & Hle).
           destruct (Hold _ _ Hdy) as (a' & Ha' & Hle' & _).
           exists a'. split; [exact Ha' | eapply dle_trans; eauto].
        -- injection Heq as <- <-. exists (Fin nz).
           split; [apply vget_upd_same; exact Hrv|].
           rewrite Ez. apply dle_refl.
    + unfold lt2, weight. cbn [distances fst snd].
      pose proof (proj1 (vget_Ok _ _ _) Hdv) as [_ Hn].
      pose proof (BaseCaseFacts.ninf_upd _ _ _ nz Hn) as Hni.
      destruct dv as [zv|].
      * right. split; [exact Hni|].
        apply (sumfin_upd _ _ zv); [exact Hn|].
        simpl in Hlt. apply Z.ltb_lt in Hlt. lia.
      * left. lia.
  - (* nothing is written *)
    eexists _, _. split; [reflexivity|]. split; [|left; auto].
    split; [constructor; assumption|]. split; [exact Hc|].
    split; [exact Hu|].
    intros y wy Hin. apply in_app_or in Hin.
    destruct Hin as [Hin|[Heq|[]]]; [auto|].
    injection Heq as <- <-. exists dv. split; [exact Hdv|].
    rewrite dlt_negb_dle in Hlt. now apply negb_false_iff in Hlt.
Qed.

Lemma relax_fold (u zu : Z) (edges : list (Z * dist)) :
  forall (done : list (Z * dist)) (r : Result) (pq : list PQEntry),
  (forall e, In e edges -> edge (create g) u (fst e) (snd e)) ->
  mid u zu done r pq ->
  exists r' pq',
    foldM (relax u) edges (r, pq) = Ok (r', pq') /\
    mid u zu (done ++ edges) r' pq' /\
    ((r' = r /\ pq' = pq) \/ lt2 (weight r') (weight r)).
Proof.
  induction edges as [|[v w] edges IH]; intros done r pq He Hm.
  - exists r, pq. rewrite app_nil_r. cbn [foldM]. auto.
  - destruct (relax_mid u zu done r pq v w (He (v, w) (or_introl eq_refl)) Hm)
      as (r1 & pq1 & E1 & Hm1 & Hp1).
    destruct (IH (done ++ [(v, w)]) r1 pq1) as (r2 & pq2 & E2 & Hm2 & Hp2).
    { intros e Hin. apply He. now right. }
    { exact Hm1. }
    exists r2, pq2. cbn [foldM]. rewrite E1. cbn [bind].
    split; [exact E2|]. rewrite <- app_assoc in Hm2. split; [exact Hm2|].
    destruct Hp2 as [[-> ->]|H2]; [exact Hp1|]. right.
    destruct Hp1 as [[-> _]|H1]; [exact H2 | eapply lt2_trans; eauto].
Qed.

(** ** One iteration *)

Lemma visit_inv (r : Result) (dd : dist) (u : Z) (pq : list PQEntry) :
  inv r ((dd, u) :: pq) ->
  exists r' pq',
    visit g r ((dd, u) :: pq) = Ok (r', pq') /\ inv r' pq' /\
    ((r' = r /\ pq' = pq) \/ lt2 (weight r') (weight r)).
Proof.
  intros [Hb Hc].
  pose proof Hb as
    [Hl Hlp Hsrc Hzero Hroot Hwalk Hheap Harc Hhas Hno].
  destruct (Hheap dd u (or_introl eq_refl)) as (zu & Hu).
  assert (Hb' : base r pq).
  { constructor; try assumption.
    intros d0 x Hin. apply (Hheap d0). now right. }
  unfold visit. rewrite Hu. cbn [bind].
  destruct (dlt (Fin zu) dd) eqn:Hout.
  - exists r, pq. split; [reflexivity|]. split; [|left; auto].
    split; [exact Hb'|].
    intros x zx Hx _. destruct (Hc _ _ Hx I) as [[Heq|Hin]|Hset]; auto.
    injection Heq as -> ->. rewrite Hu in Hx. injection Hx as ->.
    rewrite dlt_irrefl in Hout. discriminate.
  - assert (Hru : 0 <= u < n (create g)).
    { apply vget_Ok in Hu. cbn [create n]. lia. }
    destruct (proj1 Hg u Hru) as (edges & Hadj).
    unfold adj_of in Hadj. cbn [create graph] in Hadj. rewrite Hadj.
    cbn [bind].
    destruct (relax_fold u zu edges [] r pq) as (r' & pq' & Ef & Hm & Hp).
    { intros [v w] Hin. exists edges. split; [exact Hadj | exact Hin]. }
    { split; [exact Hb'|]. split; [|split; [exact Hu | intros v w []]].
      intros x zx Hx Hxu. destruct (Hc _ _ Hx I) as [[Heq|Hin]|Hset]; auto.
      injection Heq as _ ->. contradiction. }
    exists r', pq'. split; [exact Ef|]. split; [|exact Hp].
    destruct Hm as (Hb1 & Hc1 & Hu1 & Hd1). split; [exact Hb1|].
    intros x zx Hx _. destruct (Z.eq_dec x u) as [->|Hne]; [|auto].
    right. rewrite Hu1 in Hx. injection Hx as <-.
    intros v w (edges' & Hadj' & Hin).
    unfold adj_of in Hadj'. cbn [create graph] in Hadj'.
    rewrite Hadj in Hadj'. injection Hadj' as <-. apply Hd1. exact Hin.
Qed.

(** ** The loop *)

Lemma loop_inv (fuel : nat) :
  forall r pq r', inv r pq -> loop fuel g r pq = Ok r' -> inv r' [].
Proof.
  induction fuel as [|f IH]; intros r pq r' Hi H.
  - destruct pq as [|e pq]; [|discriminate]. now injection H as <-.
  - destruct pq as [|[dd u] pq]; [now injection H as <-|].
    destruct (visit_inv r dd u pq Hi) as (r1 & pq1 & Ev & Hi1 & _).
    cbn [loop] in H. bind_inv H as [r2 pq2] E2.
    pose proof (eq_trans (eq_sym E2) Ev) as Heq. injection Heq as -> ->.
    eauto.
Qed.

Lemma loop_total :
  forall (n1 n2 n3 : nat) (r : Result) (pq : list PQEntry),
  inv r pq -> fst (weight r) = n1 -> snd (weight r) = n2 ->
  length pq = n3 ->
  exists fuel r', loop fuel g r pq = Ok r'.
Proof.
  induction n1 as [n1 IH1] using lt_wf_ind.
  induction n2 as [n2 IH2] using lt_wf_ind.
  induction n3 as [n3 IH3] using lt_wf_ind.
  intros r pq Hi H1 H2 H3.
  destruct pq as [|[dd u] pq].
  { exists 0%nat, r. reflexivity. }
  destruct (visit_inv r dd u pq Hi) as (r1 & pq1 & Ev & Hi1 & Hp).
  assert (Hrec : exists fuel r', loop fuel g r1 pq1 = Ok r').
  { destruct Hp as [[-> ->]|[Hlt|[Heq Hlt]]].
    - apply (IH3 (length pq)); auto. simpl in H3. lia.
    - apply (IH1 (fst (weight r1)) ltac:(lia) (snd (weight r1))
                 (length pq1)); auto.
    - apply (IH2 (snd (weight r1)) ltac:(lia) (length pq1)); auto.
      congruence. }
  destruct Hrec as (f & r' & Hf).
  exists (Datatypes.S f), r'. cbn [loop].
  exact (eq_trans (f_equal (fun c => bind c _) Ev) Hf).
Qed.

(** ** The result *)

Lemma init_inv (d : list dist) :
  0 <= s < SimpleGraph.n g ->
  vset (repeat INF (Z.to_nat (SimpleGraph.n g))) s (Fin 0) = Ok d ->
  inv (mkResult d (repeat (-1) (Z.to_nat (SimpleGraph.n g))) s)
      [(Fin 0, s)].
Proof.
  intros Hs Hd. apply vset_Ok in Hd. destruct Hd as [Hr ->].
  assert (Hfin : forall v z,
            vget (upd (repeat INF (Z.to_nat (SimpleGraph.n g)))
                      (Z.to_nat s) (Fin 0)) v = Ok (Fin z) ->
            v = s /\ z = 0).
  { intros v z Hv. destruct (Z.eq_dec s v) as [->|Hne].
    - rewrite vget_upd_same in Hv by exact Hr. injection Hv as <-. auto.
    - rewrite vget_upd_other in Hv by lia.
      apply vget_repeat in Hv. discriminate. }
  assert (Hp : forall v p,
            vget (repeat (-1) (Z.to_nat (SimpleGraph.n g))) v = Ok p ->
            p = -1).
  { intros v p Hv. now apply vget_repeat in Hv. }
  split; [constructor|]; cbn [distances predecessors source].
  - rewrite length_upd, repeat_length. lia.
  - rewrite repeat_length. lia.
  - reflexivity.
  - apply vget_upd_same. exact Hr.
  - apply vget_Ok. rewrite repeat_length. split; [lia|].
    apply nth_error_repeat. lia.
  - intros v z Hv. destruct (Hfin _ _ Hv) as [-> ->]. apply dwalk_nil.
  - intros dd u [Heq|[]]. injection Heq as _ <-. exists 0.
    apply vget_upd_same. exact Hr.
  - intros v u Hv Hne. apply Hp in Hv. contradiction.
  - intros v z Hv Hne. destruct (Hfin _ _ Hv) as [-> _]. contradiction.
  - intros v Hv. apply vget_Ok in Hv. destruct Hv as [Hv _].
    rewrite length_upd, repeat_length in Hv.
    apply vget_Ok. rewrite repeat_length. split; [lia|].
    apply nth_error_repeat. lia.
  - intros u zu Hu _. destruct (Hfin _ _ Hu) as [-> ->]. left. now left.
Qed.

Lemma solve_inv (fuel : nat) (r : Result) :
  SimpleDijkstra.solve fuel g s = Ok r -> 0 <= s < SimpleGraph.n g /\ inv r [].
Proof.
  unfold SimpleDijkstra.solve. intros H.
  destruct (SimpleGraph.n g <? 0) eqn:En; [discriminate|].
  apply Z.ltb_ge in En. bind_inv H as d Ed.
  assert (Hs : 0 <= s < SimpleGraph.n g).
  { apply vset_Ok in Ed. rewrite repeat_length in Ed. lia. }
  split; [exact Hs|].
  eapply loop_inv; [apply init_inv; eauto | exact H].
Qed.

Lemma solve_total :
  0 <= s < SimpleGraph.n g ->
  exists fuel r, SimpleDijkstra.solve fuel g s = Ok r.
Proof.
  intros Hs. unfold SimpleDijkstra.solve.
  destruct (Z.ltb_spec (SimpleGraph.n g) 0) as [|_]; [lia|].
  destruct (vset (repeat INF (Z.to_nat (SimpleGraph.n g))) s (Fin 0))
    as [d| |] eqn:Ed.
  2,3: unfold vset in Ed;
       rewrite (proj2 (in_range_iff _ _)) in Ed
         by (rewrite repeat_length; lia); discriminate.
  cbn [bind].
  eapply loop_total; eauto using init_inv.
Qed.

(** When the queue is empty every arc is respected, so no walk sums to
    less than the distance of its end. *)
Lemma inv_least (r : Result) :
  inv r [] ->
  forall v z', dwalk (create g) s v z' ->
    exists z, vget (distances r) v = Ok (Fin z) /\ z <= z'.
Proof.
  intros [Hb Hc]. induction 1 as [|u v z w z' _ (zu & Hu & Hle) He Hd].
  - exists 0. split; [apply (base_zero _ _ Hb) | lia].
  - destruct (Hc _ _ Hu I) as [[]|Hset].
    destruct (Hset _ _ He) as (dv & Hdv & Hle').
    assert (Hm : dle (dadd (Fin zu) w) (Fin z') = true).
    { rewrite <- Hd. apply dadd_mono. simpl. now apply Z.leb_le. }
    pose proof (dle_trans _ _ _ Hle' Hm) as Hv.
    destruct dv as [zv|]; [|discriminate].
    exists zv. split; [exact Hdv|]. simpl in Hv. now apply Z.leb_le in Hv.
Qed.

(** A walk forgets its sum in doubles. *)
Lemma dwalk_walk (v z : Z) :
  dwalk (create g) s v z -> exists z', walk (create g) s v z'.
Proof.
  induction 1 as [|u v z w z' _ [z0 IH] He Hd].
  - exists 0. apply walk_nil.
  - destruct (Hw _ _ _ He) as (c & -> & _). exists (z0 + c).
    eapply walk_cons; eauto.
Qed.

End Reference.



(** X16: where both solvers return on such a graph, no distance of
    [computeNewSSSP] is below the distance of the reference solver. *)
Theorem solve_not_below_reference (g : SimpleGraph.t) (s : Z)
    (fuel fuel' : nat) (r : NewSSSP.Result) (r' : Result) :
  BaseCaseFacts.graph_ok (create g) -> nonneg_weights (create g) ->
  computeNewSSSP fuel g s = Ok r ->
  SimpleDijkstra.solve fuel' g s = Ok r' ->
  forall v a, vget (NewSSSP.distances r) v = Ok a ->
    exists a', vget (distances r') v = Ok a' /\ dle a' a = true.
Proof.
  intros Hg Hw H H' v a Hv.
  unfold computeNewSSSP, NewSSSP.solve in H.
  bind_inv H as st Es. injection H as <-.
  cbn [NewSSSP.distances] in Hv.
  destruct (solve_state_linked _ _ _ _ Es) as [_ [Hl _ Hwalk _ _]].
  destruct (solve_inv g s Hg Hw fuel' r' H') as [Hs Hi].
  destruct a as [z|].
  - destruct (inv_least g s r' Hi _ _ (Hwalk _ _ Hv)) as (z0 & Hz0 & Hle).
    exists (Fin z0). split; [exact Hz0|]. simpl. now apply Z.leb_le.
  - destruct Hi as [Hb _].
    destruct (vget_in_range (distances r') v) as [a' Ha'].
    { apply vget_Ok in Hv. destruct Hv as [Hv _]. rewrite Hl in Hv.
      rewrite (base_len _ _ _ _ Hb). cbn [create n] in Hv. lia. }
    exists a'. split; [exact Ha'|]. destruct a'; reflexivity.
Qed.

End DijkstraFacts.

(** * The graph containers *)

Module GraphFacts.

(** ** Rows of an adjacency list *)

Definition listed {A : Type} (rows : list (list A)) (i : Z) (a : A) : Prop :=
  exists row, vget rows i = Ok row /\ In a row.

Lemma concat_upd_length {A : Type} (rows : list (list A)) (i : nat)
    (row : list A) (a : A) :
  nth_error rows i = Some row ->
  length (concat (upd rows i (row ++ [a])))
  = Datatypes.S (length (concat rows)).
Proof.
  revert i. induction rows as [|r rows IH]; intros [|i] H; simpl in H;
    try discriminate.
  - injection H as ->. simpl. rewrite !length_app. simpl. lia.
  - simpl. rewrite !length_app, (IH i H). lia.
Qed.

Lemma listed_upd {A : Type} (rows : list (list A)) (i : Z) (row : list A)
    (a : A) (j : Z) (b : A) :
  vget rows i = Ok row ->
  (listed (upd rows (Z.to_nat i) (row ++ [a])) j b <->
   (j = i /\ b = a) \/ listed rows j b).
Proof.
  intros Hi. pose proof (proj1 (vget_Ok _ _ _) Hi) as [Hr _].
  unfold listed. destruct (Z.eq_dec i j) as [<-|Hne].
  - rewrite vget_upd_same by exact Hr. split.
    + intros (r & Heq & Hin). injection Heq as <-. apply in_app_or in Hin.
      destruct Hin as [Hin|[<-|[]]]; [right; eauto | left; auto].
    + intros [[_ ->]|(r & Heq & Hin)].
      * eexists. split; [reflexivity|]. apply in_or_app. right. now left.
      * rewrite Hi in Heq. injection Heq as <-.
        eexists. split; [reflexivity|]. apply in_or_app. now left.
  - rewrite vget_upd_other by lia. split; [now right|].
    intros [[Heq _]|H]; [congruence | exact H].
Qed.

Lemma vget_snoc {A : Type} (rows : list A) (a : A) (j : Z) (b : A) :
  vget (rows ++ [a]) j = Ok b <->
  vget rows j = Ok b \/ (j = Z.of_nat (length rows) /\ b = a).
Proof.
  rewrite !vget_Ok, length_app. simpl length.
  destruct (Z.lt_ge_cases j (Z.of_nat (length rows))) as [Hlt|Hge].
  - split.
    + intros [Hr Hn]. rewrite nth_error_app1 in Hn by lia. left. split; [lia|auto].
    + intros [[Hr Hn]|[Hj _]]; [|lia]. rewrite nth_error_app1 by lia.
      split; [lia | exact Hn].
  - split.
    + intros [Hr Hn]. right. assert (Hj : j = Z.of_nat (length rows)) by lia.
      split; [exact Hj|]. subst j. rewrite Nat2Z.id, nth_error_app2 in Hn by lia.
      rewrite Nat.sub_diag in Hn. simpl in Hn. congruence.
    + intros [[Hr _]|[-> ->]]; [lia|]. split; [lia|].
      rewrite Nat2Z.id, nth_error_app2 by lia. now rewrite Nat.sub_diag.
Qed.

Lemma listed_snoc {A : Type} (rows : list (list A)) (j : Z) (b : A) :
  listed (rows ++ [[]]) j b <-> listed rows j b.
Proof.
  unfold listed. split.
  - intros (r & Hr & Hin). apply vget_snoc in Hr.
    destruct Hr as [Hr|[_ ->]]; [eauto | destruct Hin].
  - intros (r & Hr & Hin). exists r. split; [|exact Hin].
    apply vget_snoc. now left.
Qed.

Lemma concat_snoc_length {A : Type} (rows : list (list A)) :
  length (concat (rows ++ [[]])) = length (concat rows).
Proof. rewrite concat_app. simpl. now rewrite app_nil_r. Qed.

(** ** [SimpleGraph] *)

Section Simple.

Import SimpleGraph.

(** Graphs made with the constructors, [add_edge], [clear] and [resize]
    to a size that drops no row. *)
Inductive built : SimpleGraph.t -> Prop :=
| built_ctor : built ctor
| built_create nodes : 0 <= nodes -> built (create nodes)
| built_add_edge g u v w g' :
    built g -> add_edge g u v w = Ok g' -> built g'
| built_clear g : built g -> built (clear g)
| built_resize g nodes g' :
    built g -> n g <= nodes -> resize g nodes = Ok g' -> built g'.

Definition arcs (g : SimpleGraph.t) : Z :=
  Z.of_nat (length (concat (adj g))).

Lemma concat_repeat_nil {A : Type} (k : nat) :
  concat (repeat (@nil A) k) = [].
Proof. induction k; simpl; auto. Qed.

Lemma built_inv (g : SimpleGraph.t) :
  built g ->
  Z.of_nat (length (adj g)) = n g /\ m g = arcs g /\ m g <= 2 ^ 31 - 1.
Proof.
  unfold arcs.
  induction 1 as [|nodes Hn|g u v w g' _ (IHl & IHm & IHb) Ha|g _ _
                  |g nodes g' _ (IHl & IHm & IHb) Hle Hr].
  - repeat split; simpl; lia.
  - simpl. rewrite repeat_length, concat_repeat_nil. simpl. lia.
  - unfold add_edge in Ha. bind_inv Ha as row Er. bind_inv Ha as rows Es.
    bind_inv Ha as m' Em. injection Ha as <-.
    unfold SimpleGraph.incr in Em.
    destruct (Z.ltb_spec (m g) (2 ^ 31 - 1)) as [Hlt|]; [|discriminate].
    injection Em as <-.
    apply vset_Ok in Es. destruct Es as [Hu ->].
    apply vget_Ok in Er. destruct Er as [_ Er]. cbn [adj n m].
    rewrite length_upd, (concat_upd_length _ _ _ _ Er). lia.
  - repeat split; simpl; lia.
  - unfold resize in Hr. destruct (nodes <? 0) eqn:E; [discriminate|].
    apply Z.ltb_ge in E. injection Hr as <-. cbn [adj n m]. unfold vresize.
    rewrite firstn_all2 by lia.
    rewrite length_app, repeat_length, concat_app, concat_repeat_nil,
            app_nil_r.
    split; [lia | split; [exact IHm | exact IHb]].
Qed.

(** X17: in a [SimpleGraph] made with its constructors, [add_edge],
    [clear] and [resize] to a size that drops no row, the adjacency list
    has [n] rows and [m] is the number of arcs it holds, at most
    [INT_MAX].  On such a graph [add_edge(u, v, w)] is defined exactly
    when [u] is in [0, n) and [m] is below [INT_MAX]: the target is not
    checked; it adds the arc at the end of row [u] and leaves the other
    arcs in place.  With [u] out of range it indexes [adj] out of bounds,
    and at [m = INT_MAX] the counter [m++] overflows. *)
Theorem simple_graph_counts (g : SimpleGraph.t) :
  built g ->
  Z.of_nat (length (adj g)) = n g /\
  m g = Z.of_nat (length (concat (adj g))) /\
  m g <= 2 ^ 31 - 1 /\
  forall u v w,
    (0 <= u < n g -> m g < 2 ^ 31 - 1 ->
     exists g', add_edge g u v w = Ok g' /\
       n g' = n g /\ m g' = m g + 1 /\
       forall x y wy, listed (adj g') x (y, wy) <->
                      (x = u /\ (y, wy) = (v, w)) \/ listed (adj g) x (y, wy)) /\
    (u < 0 \/ n g <= u \/ m g = 2 ^ 31 - 1 ->
     add_edge g u v w = Undefined).
Proof.
  intros Hb. destruct (built_inv g Hb) as (Hl & Hm & Hmax).
  split; [exact Hl|]. split; [exact Hm|]. split; [exact Hmax|].
  intros u v w. split.
  - intros Hu Hlt. destruct (vget_in_range (adj g) u) as [row Hrow]; [lia|].
    unfold add_edge, vset, SimpleGraph.incr. rewrite Hrow. cbn [bind].
    rewrite (proj2 (in_range_iff _ _)) by lia. cbn [bind].
    destruct (Z.ltb_spec (m g) (2 ^ 31 - 1)); [|lia]. cbn [bind].
    eexists. split; [reflexivity|]. cbn [n m adj].
    split; [reflexivity|]. split; [reflexivity|].
    intros x y wy. apply listed_upd. exact Hrow.
  - intros Hu. unfold add_edge.
    destruct (vget (adj g) u) as [row| |] eqn:Er; try reflexivity.
    + destruct Hu as [Hu|[Hu|Hu]];
        [apply vget_Ok in Er; lia | apply vget_Ok in Er; lia|].
      cbn [bind]. apply vget_Ok in Er. destruct Er as [Hr _].
      unfold vset. rewrite (proj2 (in_range_iff _ _)) by exact Hr.
      cbn [bind]. unfold SimpleGraph.incr.
      destruct (Z.ltb_spec (m g) (2 ^ 31 - 1)); [lia | reflexivity].
    + unfold vget in Er. destruct (in_range (adj g) u);
        [destruct (nth_error _ _)|]; discriminate.
Qed.

End Simple.

(** ** [ConstantDegreeGraph] *)

Section ConstantDegree.

Import ConstantDegreeGraph.

(** Graphs made with the constructor, [clear], [add_node] and
    [add_arc]. *)
Inductive made : ConstantDegreeGraph.t -> Prop :=
| made_ctor : made ctor
| made_clear g : made g -> made (clear g)
| made_add_node g original_id id g' :
    made g -> add_node g original_id = Ok (id, g') -> made g'
| made_add_arc g from to weight g' :
    made g -> add_arc g from to weight = Ok g' -> made g'.

Record consistent (g : ConstantDegreeGraph.t) : Prop := mkConsistent {
  cons_nodes : 0 <= num_nodes g;
  cons_out : Z.of_nat (length (out_edges g)) = num_nodes g;
  cons_in : Z.of_nat (length (in_edges g)) = num_nodes g;
  cons_arcs_out : num_arcs g = Z.of_nat (length (concat (out_edges g)));
  cons_arcs_in : num_arcs g = Z.of_nat (length (concat (in_edges g)));
  cons_mirror : forall u v w,
    listed (out_edges g) u (v, w) <-> listed (in_edges g) v (u, w);
  cons_original :
    Z.of_nat (length (transformed_to_original g)) <= num_nodes g
}.

Lemma incr_Ok (c c' : Z) : incr c = Ok c' -> c' = c + 1.
Proof.
  unfold incr. destruct (c <? 2 ^ 31 - 1); [|discriminate].
  now intros H; injection H as <-.
Qed.

Lemma vresize_length {A : Type} (l : list A) (len : nat) (fill : A) :
  length (SimpleGraph.vresize l len fill) = len.
Proof.
  unfold SimpleGraph.vresize.
  rewrite length_app, length_firstn, repeat_length. lia.
Qed.

Lemma ctor_consistent : consistent ctor.
Proof.
  constructor; simpl; try lia.
  intros u v w. unfold listed.
  split; intros (r & Hr & _); apply vget_Ok in Hr; simpl in Hr; lia.
Qed.

Lemma made_consistent (g : ConstantDegreeGraph.t) : made g -> consistent g.
Proof.
  induction 1 as [|g _ _|g orig id g' _ IH Ha|g from to w g' _ IH Ha].
  - exact ctor_consistent.
  - exact ctor_consistent.
  - destruct IH as [Hn Ho Hi Hao Hai Hmir Horig].
    unfold add_node in Ha. bind_inv Ha as nodes En. apply incr_Ok in En.
    assert (Hshape : forall t2o,
              Z.of_nat (length t2o) <= nodes ->
              consistent (mk nodes (num_arcs g) (out_edges g ++ [[]])
                            (in_edges g ++ [[]])
                            (original_to_transformed g) t2o)).
    { intros t2o Ht. constructor;
        cbn [num_nodes num_arcs out_edges in_edges transformed_to_original].
      - lia.
      - rewrite length_app. simpl. lia.
      - rewrite length_app. simpl. lia.
      - now rewrite concat_snoc_length.
      - now rewrite concat_snoc_length.
      - intros u v w. rewrite !listed_snoc. apply Hmir.
      - exact Ht. }
    destruct (0 <=? orig).
    + bind_inv Ha as t2o' Et. injection Ha as _ <-.
      apply Hshape. apply vset_Ok in Et. destruct Et as [_ ->].
      rewrite length_upd.
      destruct (Z.of_nat (length (transformed_to_original g))
                <=? num_nodes g).
      * rewrite vresize_length. lia.
      * lia.
    + injection Ha as _ <-. apply Hshape. lia.
  - destruct IH as [Hn Ho Hi Hao Hai Hmir Horig].
    unfold add_arc in Ha. bind_inv Ha as row Er. bind_inv Ha as out Eo.
    bind_inv Ha as col Ec. bind_inv Ha as inn Ei. bind_inv Ha as arcs Ea.
    injection Ha as <-. apply incr_Ok in Ea.
    apply vset_Ok in Eo. destruct Eo as [_ ->].
    apply vset_Ok in Ei. destruct Ei as [_ ->].
    constructor;
      cbn [num_nodes num_arcs out_edges in_edges transformed_to_original].
    + exact Hn.
    + now rewrite length_upd.
    + now rewrite length_upd.
    + apply vget_Ok in Er. destruct Er as [_ Er].
      rewrite (concat_upd_length _ _ _ _ Er). lia.
    + apply vget_Ok in Ec. destruct Ec as [_ Ec].
      rewrite (concat_upd_length _ _ _ _ Ec). lia.
    + intros u v w'.
      rewrite (listed_upd _ _ _ _ _ _ Er), (listed_upd _ _ _ _ _ _ Ec), Hmir.
      split; (intros [[-> Heq]|H]; [left; injection Heq as -> ->; auto
                                   | right; exact H]).
    + exact Horig.
Qed.

(** X18: in a [ConstantDegreeGraph] made with its constructor, [clear],
    [add_node] and [add_arc], both adjacency lists have [num_nodes] rows,
    [num_arcs] is the number of entries of each of them, and an arc is
    listed among the out-edges of its source exactly when it is listed
    among the in-edges of its target. *)
Theorem constant_degree_consistent (g : ConstantDegreeGraph.t) :
  made g ->
  Z.of_nat (length (out_edges g)) = num_nodes g /\
  Z.of_nat (length (in_edges g)) = num_nodes g /\
  num_arcs g = Z.of_nat (length (concat (out_edges g))) /\
  num_arcs g = Z.of_nat (length (concat (in_edges g))) /\
  forall u v w,
    listed (out_edges g) u (v, w) <-> listed (in_edges g) v (u, w).
Proof.
  intros H. destruct (made_consistent g H) as [Hn Ho Hi Hao Hai Hmir _].
  auto.
Qed.

(** X19: on such a graph [add_node] is defined as long as [num_nodes] is
    below the largest [int]; it returns the former [num_nodes] as the
    identifier of the new node, and when it is given an original
    identifier it records it for the new node. *)
Theorem add_node_identifier (g : ConstantDegreeGraph.t) (original_id : Z) :
  made g -> num_nodes g < 2 ^ 31 - 1 ->
  exists g',
    add_node g original_id = Ok (num_nodes g, g') /\
    num_nodes g' = num_nodes g + 1 /\
    (0 <= original_id ->
     vget (transformed_to_original g') (num_nodes g) = Ok original_id) /\
    (original_id < 0 ->
     transformed_to_original g' = transformed_to_original g).
Proof.
  intros Hm Hlt. destruct (made_consistent g Hm) as [Hn _ _ _ _ _ Horig].
  unfold add_node, incr.
  destruct (Z.ltb_spec (num_nodes g) (2 ^ 31 - 1)) as [_|]; [|lia].
  cbn [bind].
  destruct (Z.leb_spec 0 original_id) as [H0|H0].
  - destruct (Z.leb_spec (Z.of_nat (length (transformed_to_original g)))
                         (num_nodes g)) as [_|]; [|lia].
    unfold vset. rewrite (proj2 (in_range_iff _ _))
      by (rewrite vresize_length; lia).
    cbn [bind]. eexists. split; [reflexivity|].
    cbn [num_nodes transformed_to_original].
    split; [reflexivity|]. split; [|lia].
    intros _. apply vget_upd_same. rewrite vresize_length. lia.
  - eexists. split; [reflexivity|].
    cbn [num_nodes transformed_to_original].
    split; [reflexivity|]. split; [lia | reflexivity].
Qed.

End ConstantDegree.

End GraphFacts.

(** * Concrete runs *)

Module Examples.

Import BlockDataStructure NewSSSP.

Definition build (nodes : Z) (edges : list (Z * Z * Z)) : SimpleGraph.t :=
  fold_left
    (fun g e =>
       let '(u, v, w) := e in
       match SimpleGraph.add_edge g u v (Fin w) with
       | Ok g' => g'
       | _ => g
       end)
    edges (SimpleGraph.create nodes).

Definition value_or {A : Type} (d : A) (r : result A) : A :=
  match r with
  | Ok a => a
  | _ => d
  end.

(** The workspace of the test [DuplicateKeys] after its first insert. *)
Definition ds10 : BlockDataStructure.t :=
  Eval vm_compute in
    value_or ctor (insert (initialize ctor 3 (Fin 1000) 10) 0 (Fin 10)).

Lemma getValue_index_witness :
  getValue ds10 1 = INF /\ getValue ds10 0 = Fin 10.
Proof.
  split.
  - apply (proj1 (BlockFacts.getValue_index ds10 1)). reflexivity.
  - apply (proj2 (BlockFacts.getValue_index ds10 0)). reflexivity.
Defined.

Lemma insert_present_key_witness :
  insert ds10 0 (Fin 12) = Ok ds10 /\
  exists ds',
    insert ds10 0 (Fin 5) = Ok ds' /\
    BlockFacts.occ 0 ds' = [(0, Fin 5)] /\ getValue ds' 0 = Fin 5 /\
    forall k', k' <> 0 ->
      getValue ds' k' = getValue ds10 k' /\
      Permutation (BlockFacts.occ k' ds') (BlockFacts.occ k' ds10).
Proof.
  split.
  - apply (proj1 (BlockFacts.insert_present_key ds10 0 (Fin 10) (Fin 12) eq_refl)).
    reflexivity.
  - apply (proj2 (BlockFacts.insert_present_key ds10 0 (Fin 10) (Fin 5) eq_refl)).
    + reflexivity.
    + vm_compute. discriminate.
    + discriminate.
    + reflexivity.
Defined.

(** A workspace of capacity 2 after three inserts, and its [pull]. *)
Definition ds3 : BlockDataStructure.t :=
  Eval vm_compute in
    value_or ctor
      (d1 <- insert (initialize ctor 2 (Fin 1000) 0) 0 (Fin 10) ;;
       d2 <- insert d1 1 (Fin 5) ;;
       insert d2 2 (Fin 7)).

Lemma ds3_inserted : PullFacts.inserted 2 (Fin 1000) ds3.
Proof.
  eapply PullFacts.inserted_insert with (k := 2) (v := Fin 7);
    [|reflexivity|].
  eapply PullFacts.inserted_insert with (k := 1) (v := Fin 5);
    [|reflexivity|].
  eapply PullFacts.inserted_insert with (k := 0) (v := Fin 10);
    [|reflexivity|].
  apply (PullFacts.inserted_initialize 2 (Fin 1000) ctor 0).
  all: reflexivity.
Qed.

Lemma ds3_distinct : PullFacts.distinct_values ds3.
Proof.
  intros k k' v H1 H2. cbn in H1, H2.
  repeat match goal with
         | H : context [?a =? ?b] |- _ => destruct (Z.eqb_spec a b)
         end; congruence.
Qed.

Lemma pull_separates_inserted_witness :
  fst (pull ds3) = ([1; 2], Fin 10) /\
  M ds3 = 2 /\
  (forall k, In k [1; 2] -> dle (getValue ds3 k) (Fin 10) = true) /\
  (forall k v, map_find k (key_values (snd (pull ds3))) = Some v ->
     dle (Fin 10) v = true) /\
  (empty (snd (pull ds3)) = true -> Fin 10 = Fin 1000) /\
  (forall k, In k [1; 2] -> dlt (getValue ds3 k) (Fin 10) = true).
Proof.
  split; [reflexivity|].
  destruct (PullFacts.pull_separates_inserted 2 (Fin 1000) ds3
              (snd (pull ds3)) [1; 2] (Fin 10) ds3_inserted eq_refl)
    as (HM & _ & Hret & Hleft & Hempty & Hstrict).
  repeat split; auto.
  apply Hstrict. exact ds3_distinct.
Defined.

(** C3 does not hold once a batch has been prepended.  After a batch of
    three is prepended to a workspace of capacity 2, the blocks of the
    batch that [pull] does not visit are not looked at for the separator:
    key 2 stays behind with value 3, below the separator 10. *)
Definition ds_batch : BlockDataStructure.t :=
  Eval vm_compute in
    value_or ctor
      (d1 <- insert (initialize ctor 2 (Fin 1000) 0) 3 (Fin 10) ;;
       batchPrepend d1 [(0, Fin 1); (1, Fin 2); (2, Fin 3)]).

Lemma pull_ignores_prepended_block :
  PullFacts.reachable 2 (Fin 1000) ds_batch /\
  fst (pull ds_batch) = ([0; 1], Fin 10) /\
  map_find 2 (key_values (snd (pull ds_batch))) = Some (Fin 3) /\
  dle (Fin 10) (Fin 3) = false.
Proof.
  split; [|repeat split; reflexivity].
  eapply PullFacts.reachable_batchPrepend
    with (items := [(0, Fin 1); (1, Fin 2); (2, Fin 3)]).
  - eapply PullFacts.reachable_insert with (k := 3) (v := Fin 10).
    + apply (PullFacts.reachable_initialize 2 (Fin 1000) ctor 0).
    + reflexivity.
  - reflexivity.
Qed.

(** Equal values: the separator is the value of the returned key. *)
Lemma pull_tie :
  exists d1 d2,
    insert (initialize ctor 1 (Fin 1000) 0) 0 (Fin 5) = Ok d1 /\
    insert d1 1 (Fin 5) = Ok d2 /\
    fst (pull d2) = ([0], Fin 5) /\ getValue d2 0 = Fin 5.
Proof. eexists _, _. repeat split; reflexivity. Qed.

(** C2: the operations are not total for every capacity [M >= 1].  With
    capacity 1 a batch of two fresh keys reaches the division by
    [M / 2 = 0] in [batchPrepend], which is undefined. *)
Lemma batchPrepend_capacity_one :
  batchPrepend (initialize ctor 1 (Fin 100) 0) [(0, Fin 1); (1, Fin 2)]
  = Undefined.
Proof. reflexivity. Qed.

(** The test [StarGraph]: vertex 0 with an arc of weight [i] to every
    [i = 1..9]. *)
Definition star : SimpleGraph.t :=
  build 10 [(0,1,1); (0,2,2); (0,3,3); (0,4,4); (0,5,5);
            (0,6,6); (0,7,7); (0,8,8); (0,9,9)].

(** C1: on the star the solve does not return the distances.  The driver
    of level 1 works with block capacity 1 and prepends the batch of the
    leaves, which divides by [M / 2 = 0]. *)
Lemma solve_star :
  computeNewSSSP 100 star 0 = Undefined /\
  forall fuel,
    computeNewSSSP fuel star 0 = Undefined \/
    computeNewSSSP fuel star 0 = OutOfFuel.
Proof.
  assert (H : computeNewSSSP 100 star 0 = Undefined)
    by (vm_compute; reflexivity).
  split; [exact H | exact (FuelFacts.undefined_for_all_fuel star 0 100 H)].
Qed.

(** Two arcs out of the source suffice. *)
Definition fork : SimpleGraph.t := build 3 [(0,1,3); (0,2,3)].

Lemma solve_fork : computeNewSSSP 100 fork 0 = Undefined.
Proof. vm_compute. reflexivity. Qed.

(** Two vertices on a closed walk of weight zero: the solve does not
    return. *)
Definition zero_walk : SimpleGraph.t := build 2 [(0,1,0); (1,0,0)].

Lemma solve_zero_walk (fuel : nat) (r : Result) :
  computeNewSSSP fuel zero_walk 0 <> Ok r.
Proof.
  unfold computeNewSSSP, solve. intros H. bind_inv H as st Es.
  refine (SolverFacts.solve_zero_cycle (create zero_walk) 0 _ _ fuel st
            (SolverFacts.max_level_create zero_walk) Es).
  - apply SolverFacts.nonneg_weightsb_ok. reflexivity.
  - exists 1. split.
    + apply SolverFacts.zreach_edge with (u := 0);
        [apply SolverFacts.zreach_refl|].
      exists [(1, Fin 0)]. split; [reflexivity | now left].
    + exists [(0, Fin 0)]. split; [reflexivity | now left].
Qed.

(** Three vertices along arcs of weight zero: the solve does not return
    either. *)
Definition zero_path : SimpleGraph.t := build 3 [(0,1,0); (1,2,0)].

Lemma solve_zero_path (fuel : nat) (r : Result) :
  computeNewSSSP fuel zero_path 0 <> Ok r.
Proof.
  unfold computeNewSSSP, solve. intros H. bind_inv H as st Es.
  refine (SolverFacts.solve_zero_chain (create zero_path) 0 _ [0; 1; 2]
            _ _ _ fuel st (SolverFacts.max_level_create zero_path) Es).
  - apply SolverFacts.nonneg_weightsb_ok. reflexivity.
  - repeat constructor; simpl; intuition lia.
  - vm_compute. discriminate.
  - assert (H1 : SolverFacts.zreach (create zero_path) 0 1).
    { apply SolverFacts.zreach_edge with (u := 0);
        [apply SolverFacts.zreach_refl|].
      exists [(1, Fin 0)]. split; [reflexivity | now left]. }
    intros v [<-|[<-|[<-|[]]]].
    + apply SolverFacts.zreach_refl.
    + exact H1.
    + apply SolverFacts.zreach_edge with (u := 1); [exact H1|].
      exists [(2, Fin 0)]. split; [reflexivity | now left].
Qed.

(** The tests [SimplePathGraph] and [DiamondGraph]. *)
Definition path4 : SimpleGraph.t := build 4 [(0,1,1); (1,2,2); (2,3,3)].

Definition diamond : SimpleGraph.t :=
  build 4 [(0,1,1); (0,2,3); (1,3,4); (2,3,1)].

Lemma solve_path4 :
  computeNewSSSP 100 path4 0
  = Ok (mkResult [Fin 0; Fin 1; Fin 3; Fin 6] [-1; 0; 1; 2] 0).
Proof. vm_compute. reflexivity. Qed.

Lemma solve_diamond :
  computeNewSSSP 100 diamond 0
  = Ok (mkResult [Fin 0; Fin 1; Fin 3; Fin 4] [-1; 0; 0; 2] 0).
Proof. vm_compute. reflexivity. Qed.

(** The final state of the solve on the path. *)
Definition path4_state : State :=
  Eval vm_compute in
    value_or (mkState [] [] [] 0 []) (solve_state (create path4) 100 0).

Lemma solve_writes_monotone_witness :
  SolverFacts.writes_monotone (repeat INF 4) (rev (trace path4_state)) /\
  SolverFacts.replay (repeat INF 4) (rev (trace path4_state))
  = d_hat path4_state.
Proof.
  apply (SolverFacts.solve_writes_monotone (create path4) 100 0 path4_state).
  vm_compute. reflexivity.
Defined.

(** The state in which [solve] starts on the path, and the base case on
    its source. *)
Definition path4_init : State :=
  Eval vm_compute in
    value_or (mkState [] [] [] 0 []) (init_state (create path4) 0).

Lemma baseCase_path4 :
  exists st',
    baseCase (create path4) 10 INF [0] path4_init
    = Ok ((Fin 3, [0; 1]), st').
Proof. eexists. vm_compute. reflexivity. Qed.

(** The state in which that base case ends. *)
Definition path4_base : State :=
  Eval vm_compute in
    match baseCase (create path4) 10 INF [0] path4_init with
    | Ok (_, st') => st'
    | _ => path4_init
    end.


(** C5 does not hold for every graph of non-negative weights: with an arc
    of weight zero from a vertex to itself the base case does not return.
    On the arcs [0 -> 1] of weight 1 and [1 -> 1] of weight 0 the entry
    [(1, 1)] is pushed again each time it is popped, the queue never runs
    empty and [U0 = {0, 1}] never reaches [k + 1 = 3] vertices. *)
Definition self_loop : SimpleGraph.t := build 2 [(0,1,1); (1,1,0)].

Definition self_loop_init : State :=
  Eval vm_compute in
    value_or (mkState [] [] [] 0 []) (init_state (create self_loop) 0).

Lemma self_loop_body (st : State) (ih : IntSet) :
  d_hat st = [Fin 0; Fin 1] -> length (pred st) = 2%nat ->
  length (complete st) = 2%nat ->
  exists st' ih',
    baseCase_body (create self_loop) INF (st, [(Fin 1, 1)], [0; 1], ih)
    = Ok (st', [(Fin 1, 1)], [0; 1], ih') /\
    d_hat st' = [Fin 0; Fin 1] /\ length (pred st') = 2%nat /\
    length (complete st') = 2%nat.
Proof.
  destruct st as [d p c rc tr]. cbn [d_hat pred complete].
  intros -> Hp Hc.
  destruct p as [|p0 [|p1 [|]]]; try discriminate.
  destruct c as [|c0 [|c1 [|]]]; try discriminate.
  eexists _, _. split; [reflexivity|]. cbn. auto.
Qed.

Lemma self_loop_spins (fuel : nat) :
  forall st ih,
  d_hat st = [Fin 0; Fin 1] -> length (pred st) = 2%nat ->
  length (complete st) = 2%nat ->
  baseCase_loop (create self_loop) fuel INF (st, [(Fin 1, 1)], [0; 1], ih)
  = OutOfFuel.
Proof.
  induction fuel as [|f IH]; intros st ih Hd Hp Hc; [reflexivity|].
  destruct (self_loop_body st ih Hd Hp Hc) as (st' & ih' & Eb & Hd' & Hp' & Hc').
  change (baseCase_loop (create self_loop) (Datatypes.S f) INF
            (st, [(Fin 1, 1)], [0; 1], ih))
    with (s' <- baseCase_body (create self_loop) INF
                  (st, [(Fin 1, 1)], [0; 1], ih) ;;
          baseCase_loop (create self_loop) f INF s').
  rewrite Eb. cbn [bind]. now apply IH.
Qed.

Lemma baseCase_loop_step (sv : Solver) (fuel : nat) (B : dist)
    (s s1 : BaseState) :
  baseCase_cond sv s = true -> baseCase_body sv B s = Ok s1 ->
  baseCase_loop sv (Datatypes.S fuel) B s = baseCase_loop sv fuel B s1.
Proof. intros Hc Hb. cbn [baseCase_loop]. rewrite Hc, Hb. reflexivity. Qed.

(** The loop after its first and after its second iteration. *)
Definition self_loop_s1 : BaseState :=
  Eval vm_compute in
    value_or (self_loop_init, [], [], [])
      (baseCase_body (create self_loop) INF
         (self_loop_init, [(Fin 0, 0)], [0], [0])).

Definition self_loop_s2 : BaseState :=
  Eval vm_compute in
    value_or self_loop_s1
      (baseCase_body (create self_loop) INF self_loop_s1).


(** The test [DisconnectedGraph]: one arc [0 -> 1], vertices 2 and 3
    isolated. *)
Definition disconnected : SimpleGraph.t := build 4 [(0,1,1)].

Definition disconnected_result : Result :=
  Eval vm_compute in
    value_or (mkResult [] [] 0) (computeNewSSSP 100 disconnected 0).

Lemma disconnected_reach (v : Z) :
  SolverFacts.reach (create disconnected) 0 v -> v = 0 \/ v = 1.
Proof.
  induction 1 as [|u v w _ IH (edges & Ha & Hin)]; [now left|].
  destruct IH as [->| ->]; vm_compute in Ha; injection Ha as <-.
  - destruct Hin as [Heq|[]]. injection Heq as <- _. now right.
  - destruct Hin.
Qed.

Lemma solve_unreachable_and_source_witness :
  (vget (distances disconnected_result) 2 = Ok INF /\
   vget (predecessors disconnected_result) 2 = Ok (-1)) /\
  vget (predecessors disconnected_result) 0 = Ok (-1).
Proof.
  destruct (SolverFacts.solve_unreachable_and_source disconnected 100 0
              disconnected_result) as [Hu Hs].
  - apply SolverFacts.nonneg_weightsb_ok. reflexivity.
  - vm_compute. reflexivity.
  - split; [|exact Hs]. apply Hu; [vm_compute; split; congruence|].
    intros Hr. apply disconnected_reach in Hr. lia.
Defined.

(** ** The workspace *)

Lemma pull_nothing_iff_empty_witness :
  pull (initialize ctor 2 (Fin 1000) 0)
  = (([], Fin 1000), initialize ctor 2 (Fin 1000) 0) /\
  exists k keys sep ds', pull ds3 = ((k :: keys, sep), ds').
Proof.
  split.
  - apply (proj1 (WorkspaceFacts.pull_nothing_iff_empty
                    (initialize ctor 2 (Fin 1000) 0) ltac:(simpl; lia))).
    reflexivity.
  - apply (proj2 (WorkspaceFacts.pull_nothing_iff_empty ds3
                    ltac:(simpl; lia))).
    reflexivity.
Defined.

Lemma insert_lookup_witness :
  exists ds',
    insert ds10 1 (Fin 7) = Ok ds' /\
    getValue ds' 1 = dmin (getValue ds10 1) (Fin 7) /\
    (forall k', k' <> 1 -> getValue ds' k' = getValue ds10 k') /\
    M ds' = M ds10 /\ B ds' = B ds10.
Proof.
  apply WorkspaceFacts.insert_lookup; [simpl; lia | vm_compute; discriminate].
Defined.

Lemma insert_without_block_witness : insert ctor 7 (Fin 1) = Undefined.
Proof.
  apply WorkspaceFacts.insert_without_block; [reflexivity|].
  intros old H. discriminate H.
Defined.

Lemma batchPrepend_lookup_witness :
  exists ds',
    batchPrepend ds3 [(0, Fin 3); (5, Fin 9); (5, Fin 4)] = Ok ds' /\
    (forall k,
       getValue ds' k
       = WorkspaceFacts.least_value k [(0, Fin 3); (5, Fin 9); (5, Fin 4)]
           (getValue ds3 k)) /\
    M ds' = M ds3 /\ B ds' = B ds3.
Proof. apply WorkspaceFacts.batchPrepend_lookup. simpl. lia. Defined.

Lemma batchPrepend_two_fresh_witness :
  batchPrepend (initialize ctor 1 (Fin 100) 0) [(3, Fin 1); (8, Fin 2)]
  = Undefined.
Proof.
  apply BlockFacts.batchPrepend_two_fresh;
    [reflexivity | lia | reflexivity | reflexivity].
Defined.

Lemma ds_batch_operated : CoherenceFacts.operated 2 (Fin 1000) ds_batch.
Proof.
  eapply CoherenceFacts.operated_batchPrepend
    with (items := [(0, Fin 1); (1, Fin 2); (2, Fin 3)]).
  - eapply CoherenceFacts.operated_insert with (k := 3) (v := Fin 10).
    + apply (CoherenceFacts.operated_initialize 2 (Fin 1000) ctor 0).
    + reflexivity.
  - reflexivity.
Qed.

Lemma operated_index_witness :
  M ds_batch = Z.max 1 2 /\ B ds_batch = Fin 1000 /\
  NoDup (map fst (BlockFacts.all_kv ds_batch)) /\
  (forall k v,
     map_find k (key_values ds_batch) = Some v <->
     In (k, v) (BlockFacts.all_kv ds_batch)) /\
  size ds_batch = Z.of_nat (length (BlockFacts.all_kv ds_batch)) /\
  (empty ds_batch = true <-> size ds_batch = 0) /\
  (forall z, In z (d1_upper_bounds ds_batch) <->
             In z (map upper_bound (D1 ds_batch))) /\
  (forall k v, exists ds', insert ds_batch k v = Ok ds').
Proof.
  apply (CoherenceFacts.operated_index 2 (Fin 1000) ds_batch).
  exact ds_batch_operated.
Defined.

Lemma pull_removes_returned_witness :
  NoDup [0; 1] /\
  Z.of_nat (length [0; 1]) = Z.min (M ds_batch) (size ds_batch) /\
  size (snd (pull ds_batch)) = size ds_batch - Z.of_nat (length [0; 1]) /\
  (forall k, In k [0; 1] ->
     (exists v, map_find k (key_values ds_batch) = Some v) /\
     map_find k (key_values (snd (pull ds_batch))) = None /\
     getValue (snd (pull ds_batch)) k = INF) /\
  (forall k, ~ In k [0; 1] ->
     map_find k (key_values (snd (pull ds_batch)))
     = map_find k (key_values ds_batch) /\
     getValue (snd (pull ds_batch)) k = getValue ds_batch k).
Proof.
  apply (CoherenceFacts.pull_removes_returned 2 (Fin 1000) ds_batch
           (snd (pull ds_batch)) [0; 1] (Fin 10) ds_batch_operated).
  reflexivity.
Defined.

Lemma blocks_within_capacity_witness :
  Forall (fun blk => Z.of_nat (length (elements blk)) <= M ds_batch)
         (D0 ds_batch ++ D1 ds_batch).
Proof.
  apply Forall_forall.
  exact (CoherenceFacts.blocks_within_capacity 2 (Fin 1000) ds_batch
           ds_batch_operated).
Defined.

(** ** The solver *)

Lemma solve_source_out_of_range_witness :
  solve (create path4) 10 4 = Undefined.
Proof.
  apply ResultFacts.solve_source_out_of_range. right. simpl. lia.
Defined.

Definition path4_result : Result :=
  mkResult [Fin 0; Fin 1; Fin 3; Fin 6] [-1; 0; 1; 2] 0.

Definition diamond_result : Result :=
  mkResult [Fin 0; Fin 1; Fin 3; Fin 4] [-1; 0; 0; 2] 0.



Lemma findPivots_frontier_witness :
  exists P W st',
    findPivots (create path4) 10 INF [0] path4_init = Ok ((P, W), st') /\
    incl P [0] /\ incl [0] W /\ ([0] <> [] -> P <> []).
Proof.
  eexists _, _, _. split; [vm_compute; reflexivity|].
  eapply (ResultFacts.findPivots_frontier (create path4) 10 INF [0]
            path4_init).
  vm_compute. reflexivity.
Defined.

Lemma zero_path_chain :
  exists l, NoDup l /\ k (create zero_path) + 1 <= Z.of_nat (length l) /\
            forall v, In v l -> SolverFacts.zreach (create zero_path) 0 v.
Proof.
  exists [0; 1; 2]. split; [repeat constructor; simpl; intuition lia|].
  split; [vm_compute; discriminate|].
  assert (H1 : SolverFacts.zreach (create zero_path) 0 1).
  { apply SolverFacts.zreach_edge with (u := 0);
      [apply SolverFacts.zreach_refl|].
    exists [(1, Fin 0)]. split; [reflexivity | now left]. }
  intros v [<-|[<-|[<-|[]]]].
  - apply SolverFacts.zreach_refl.
  - exact H1.
  - apply SolverFacts.zreach_edge with (u := 1); [exact H1|].
    exists [(2, Fin 0)]. split; [reflexivity | now left].
Qed.

Lemma solve_zero_weights_no_result_witness :
  computeNewSSSP 50 zero_path 0 = Undefined \/
  computeNewSSSP 50 zero_path 0 = OutOfFuel.
Proof.
  apply (ResultFacts.solve_zero_weights_no_result zero_path 0).
  - apply SolverFacts.nonneg_weightsb_ok. reflexivity.
  - right. exact zero_path_chain.
Defined.

(** ** Sums that round

    From [2^53] on a sum of doubles rounds: on the arcs [0 -> 1] of weight
    [2^53] and [1 -> 2] of weight [1] both solvers report [2^53] for
    vertex 2, where the walk weighs [2^53 + 1]. *)
Lemma round_double_ties :
  round_double (2 ^ 53 + 1) = 2 ^ 53 /\
  round_double (2 ^ 53 + 2) = 2 ^ 53 + 2 /\
  round_double (2 ^ 53 + 3) = 2 ^ 53 + 4 /\
  round_double (- (2 ^ 53 + 3)) = - (2 ^ 53 + 4) /\
  dadd (Fin (2 ^ 1023)) (Fin (2 ^ 1023)) = Inf.
Proof. repeat split; vm_compute; reflexivity. Qed.

Definition rounding : SimpleGraph.t := build 3 [(0,1,2^53); (1,2,1)].

Lemma solve_rounding :
  computeNewSSSP 100 rounding 0
  = Ok (mkResult [Fin 0; Fin (2 ^ 53); Fin (2 ^ 53)] [-1; 0; 1] 0) /\
  SimpleDijkstra.solve 100 rounding 0
  = Ok (SimpleDijkstra.mkResult [Fin 0; Fin (2 ^ 53); Fin (2 ^ 53)]
          [-1; 0; 1] 0).
Proof. split; vm_compute; reflexivity. Qed.

(** ** The reference solver *)

Definition dijkstra_diamond : SimpleDijkstra.Result :=
  Eval vm_compute in
    value_or (SimpleDijkstra.mkResult [] [] 0)
             (SimpleDijkstra.solve 100 diamond 0).



Lemma solve_not_below_reference_witness :
  exists a',
    vget (SimpleDijkstra.distances dijkstra_diamond) 3 = Ok a' /\
    dle a' (Fin 4) = true.
Proof.
  apply (DijkstraFacts.solve_not_below_reference diamond 0 100 100
           diamond_result dijkstra_diamond).
  - apply BaseCaseFacts.graph_okb_ok. reflexivity.
  - apply SolverFacts.nonneg_weightsb_ok. reflexivity.
  - vm_compute. reflexivity.
  - vm_compute. reflexivity.
  - reflexivity.
Defined.

(** ** The graph containers *)

Lemma disconnected_built : GraphFacts.built disconnected.
Proof.
  eapply GraphFacts.built_add_edge with (u := 0) (v := 1) (w := Fin 1).
  - apply (GraphFacts.built_create 4). lia.
  - reflexivity.
Qed.

Lemma simple_graph_counts_witness :
  Z.of_nat (length (SimpleGraph.adj disconnected)) = SimpleGraph.n disconnected /\
  SimpleGraph.m disconnected
  = Z.of_nat (length (concat (SimpleGraph.adj disconnected))) /\
  SimpleGraph.m disconnected <= 2 ^ 31 - 1 /\
  forall u v w,
    (0 <= u < SimpleGraph.n disconnected ->
     SimpleGraph.m disconnected < 2 ^ 31 - 1 ->
     exists g', SimpleGraph.add_edge disconnected u v w = Ok g' /\
       SimpleGraph.n g' = SimpleGraph.n disconnected /\
       SimpleGraph.m g' = SimpleGraph.m disconnected + 1 /\
       forall x y wy,
         GraphFacts.listed (SimpleGraph.adj g') x (y, wy) <->
         (x = u /\ (y, wy) = (v, w)) \/
         GraphFacts.listed (SimpleGraph.adj disconnected) x (y, wy)) /\
    (u < 0 \/ SimpleGraph.n disconnected <= u \/
     SimpleGraph.m disconnected = 2 ^ 31 - 1 ->
     SimpleGraph.add_edge disconnected u v w = Undefined).
Proof.
  apply GraphFacts.simple_graph_counts. exact disconnected_built.
Defined.

(** Two nodes, the first with an original identifier, and an arc between
    them. *)
Definition cdg2 : ConstantDegreeGraph.t :=
  Eval vm_compute in
    value_or ConstantDegreeGraph.ctor
      ('(a, g1) <- ConstantDegreeGraph.add_node ConstantDegreeGraph.ctor 5 ;;
       '(b, g2) <- ConstantDegreeGraph.add_node g1 (-1) ;;
       ConstantDegreeGraph.add_arc g2 a b (Fin 3)).

Lemma cdg2_made : GraphFacts.made cdg2.
Proof.
  eapply GraphFacts.made_add_arc
    with (from := 0) (to := 1) (weight := Fin 3).
  - eapply GraphFacts.made_add_node with (original_id := -1) (id := 1).
    + eapply GraphFacts.made_add_node with (original_id := 5) (id := 0).
      * apply GraphFacts.made_ctor.
      * reflexivity.
    + reflexivity.
  - reflexivity.
Qed.

Lemma constant_degree_consistent_witness :
  Z.of_nat (length (ConstantDegreeGraph.out_edges cdg2))
  = ConstantDegreeGraph.num_nodes cdg2 /\
  Z.of_nat (length (ConstantDegreeGraph.in_edges cdg2))
  = ConstantDegreeGraph.num_nodes cdg2 /\
  ConstantDegreeGraph.num_arcs cdg2
  = Z.of_nat (length (concat (ConstantDegreeGraph.out_edges cdg2))) /\
  ConstantDegreeGraph.num_arcs cdg2
  = Z.of_nat (length (concat (ConstantDegreeGraph.in_edges cdg2))) /\
  forall u v w,
    GraphFacts.listed (ConstantDegreeGraph.out_edges cdg2) u (v, w) <->
    GraphFacts.listed (ConstantDegreeGraph.in_edges cdg2) v (u, w).
Proof.
  apply GraphFacts.constant_degree_consistent. exact cdg2_made.
Defined.

Lemma add_node_identifier_witness :
  exists g',
    ConstantDegreeGraph.add_node cdg2 8
    = Ok (ConstantDegreeGraph.num_nodes cdg2, g') /\
    ConstantDegreeGraph.num_nodes g' = ConstantDegreeGraph.num_nodes cdg2 + 1 /\
    (0 <= 8 ->
     vget (ConstantDegreeGraph.transformed_to_original g')
          (ConstantDegreeGraph.num_nodes cdg2) = Ok 8) /\
    (8 < 0 ->
     ConstantDegreeGraph.transformed_to_original g'
     = ConstantDegreeGraph.transformed_to_original cdg2).
Proof.
  apply GraphFacts.add_node_identifier; [exact cdg2_made | simpl; lia].
Defined.

End Examples.
